(** * instr.c: substring search over BLOB, UTF-8 and UTF-16 values

    A shallow embedding of the SQLite extension [instr.c]: the
    Boyer-Moore-Horspool skip tables, the four encoding cursors, the six
    search engines and the two SQL entry points, followed by the
    properties established about them.

    Conventions of the embedding.
    - A C buffer is the list of its bytes; a pointer into it is the buffer
      together with a byte offset ([Z]).  A read outside the buffer has no
      defined value in C and is reported as [Fault].
    - [vsize] is [unsigned int]: its arithmetic is reduced modulo [2^32].
      [sqlite3_int64] arithmetic is reduced to the two's complement range.
    - Every [while]/[for(;;)] loop is a [Fixpoint] on a fuel counter; running
      out of fuel is reported as [Timeout], so that a loop that never exits
      is one that answers [Timeout] for every amount of fuel. *)

From Stdlib Require Import ZArith List Lia Bool.
From Stdlib.Strings Require Import Byte.
Import ListNotations.
Open Scope Z_scope.

(** ** Machine integers *)

Definition vsize_wrap (z : Z) : Z := z mod 2 ^ 32.

Definition int64_wrap (z : Z) : Z := (z + 2 ^ 63) mod 2 ^ 64 - 2 ^ 63.

Definition INT_MAX : Z := 2 ^ 31 - 1.

(** [0x7FFFFFFFFFFFFFFFLL], the default start of [rinstr]. *)
Definition INT64_MAX : Z := 2 ^ 63 - 1.

(** [~mask] on an [unsigned int]. *)
Definition vsize_not (mask : Z) : Z := vsize_wrap (Z.lnot mask).

(** ** Buffers and reads *)

Definition buffer := list byte.

Definition byte_val (b : byte) : Z := Z.of_N (Byte.to_N b).

(** Size of a buffer in bytes, as [sqlite3_value_bytes] reports it. *)
Definition blen (buf : buffer) : Z := Z.of_nat (length buf).

Definition peek (buf : buffer) (ix : Z) : option byte :=
  if ix <? 0 then None else nth_error buf (Z.to_nat ix).

(** [ptr[i]] for an [unsigned char const *]. *)
Definition peek8 (buf : buffer) (ix : Z) : option Z :=
  option_map byte_val (peek buf ix).

(** The 16-bit unit stored as the bytes [a], [b] in host order. *)
Definition unit_val (big_endian : bool) (a b : Z) : Z :=
  if big_endian then 256 * a + b else a + 256 * b.

(** [ptr[i]] for an [unsigned short const *] at byte offset [ix]. *)
Definition peek16 (big_endian : bool) (buf : buffer) (ix : Z) : option Z :=
  match peek8 buf ix, peek8 buf (ix + 1) with
  | Some a, Some b => Some (unit_val big_endian a b)
  | _, _ => None
  end.

(** [!memcmp(p + pp, q + qq, n)]: [Some true] when the [n] bytes agree. *)
Fixpoint memcmp (p : buffer) (pp : Z) (q : buffer) (qq : Z) (n : nat)
  : option bool :=
  match n with
  | O => Some true
  | S n' =>
      match peek p pp, peek q qq with
      | Some a, Some b =>
          match memcmp p (pp + 1) q (qq + 1) n' with
          | Some r => Some (Byte.eqb a b && r)
          | None => None
          end
      | _, _ => None
      end
  end.

(** ** Results *)

Inductive outcome : Type :=
| Ret (r : Z)
| Fault
| Timeout.

(** Conditions of the cursor macros: a C [&&] chain whose operands may read
    memory.  [None] is a read outside the buffer. *)
Definition cond := option bool.

Definition and_then (a b : cond) : cond :=
  match a with
  | Some true => b
  | Some false => Some false
  | None => None
  end.

Definition test (v : option Z) (p : Z -> bool) : cond := option_map p v.

Definition holds (b : bool) : cond := Some b.

Declare Scope cond_scope.
Delimit Scope cond_scope with cond.
Notation "a &&& b" := (and_then a b) (at level 40, left associativity) : cond_scope.

(** ** Skip tables *)

(** [bmh_skips]: 256 entries, one per byte value. *)
Definition bmh_skips := byte -> Z.

Definition skips_set (skips : bmh_skips) (c : byte) (v : Z) : bmh_skips :=
  fun c' => if Byte.eqb c' c then v else skips c'.

Definition skips_mask (mask : Z) (skips : bmh_skips) : bmh_skips :=
  if mask =? 0 then skips
  else fun c => Z.land (vsize_wrap (skips c + mask)) (vsize_not mask).

(** [for (ix = 0; ix<limit; ix++) skips[needle[ix]] = limit-ix;]
    [todo] is the number of iterations left, [limit - ix]. *)
Fixpoint fbmh_fill (needle : buffer) (limit : Z) (todo : nat) (ix : Z)
  (skips : bmh_skips) : option bmh_skips :=
  match todo with
  | O => Some skips
  | S todo' =>
      match peek needle ix with
      | Some c =>
          fbmh_fill needle limit todo' (ix + 1)
            (skips_set skips c (vsize_wrap (limit - ix)))
      | None => None
      end
  end.

Definition fbmh_setup (needle : buffer) (needlesize mask : Z)
  : option bmh_skips :=
  let skips : bmh_skips := fun _ => needlesize in
  let limit := vsize_wrap (needlesize - 1) in
  option_map (skips_mask mask)
    (fbmh_fill needle limit (Z.to_nat limit) 0 skips).

(** [for (ix = limit; ix>0; ix--) skips[needle[ix]] = ix;] *)
Fixpoint rbmh_fill (needle : buffer) (ix : nat) (skips : bmh_skips)
  : option bmh_skips :=
  match ix with
  | O => Some skips
  | S ix' =>
      match peek needle (Z.of_nat ix) with
      | Some c => rbmh_fill needle ix' (skips_set skips c (Z.of_nat ix))
      | None => None
      end
  end.

Definition rbmh_setup (needle : buffer) (needlesize mask : Z)
  : option bmh_skips :=
  let skips : bmh_skips := fun _ => needlesize in
  let limit := vsize_wrap (needlesize - 1) in
  option_map (skips_mask mask) (rbmh_fill needle (Z.to_nat limit) skips).

(** ** Encoding cursors

    Each macro updates [ptr], [size] and [cp] in place; the embedding
    returns the three new values.  On a rejected sequence [cp] is [-1] and
    [ptr] and [size] are left as they were. *)

Definition cursor : Type := Z * Z * Z.

Definition if_cond {A : Type} (c : cond) (t e : option A) : option A :=
  match c with
  | Some true => t
  | Some false => e
  | None => None
  end.

Definition lift2 (f : Z -> Z -> Z) (a b : option Z) : option Z :=
  match a, b with
  | Some x, Some y => Some (f x y)
  | _, _ => None
  end.

Definition lift3 (f : Z -> Z -> Z -> Z) (a b c : option Z) : option Z :=
  match a, b, c with
  | Some x, Some y, Some z => Some (f x y z)
  | _, _, _ => None
  end.

Definition lift4 (f : Z -> Z -> Z -> Z -> Z) (a b c d : option Z)
  : option Z :=
  match a, b, c, d with
  | Some x, Some y, Some z, Some w => Some (f x y z w)
  | _, _, _, _ => None
  end.

Definition utf8_cp2 (c0 c1 : Z) : Z :=
  Z.lor (Z.land (Z.shiftl c0 6) 0x7C0) (Z.land c1 0x3F).

Definition utf8_cp3 (c0 c1 c2 : Z) : Z :=
  Z.lor (Z.lor (Z.land (Z.shiftl c0 12) 0xF000) (Z.land (Z.shiftl c1 6) 0xFC0))
        (Z.land c2 0x3F).

Definition utf8_cp4 (c0 c1 c2 c3 : Z) : Z :=
  Z.lor (Z.lor (Z.lor (Z.land (Z.shiftl c0 18) 0x1C0000)
                      (Z.land (Z.shiftl c1 12) 0x3F000))
               (Z.land (Z.shiftl c2 6) 0xFC0))
        (Z.land c3 0x3F).

Definition utf16_cp2 (c0 c1 : Z) : Z :=
  Z.lor (Z.land (Z.shiftl (c0 + 0x40) 10) 0x1FFC00) (Z.land c1 0x3FF).

Definition moved (ptr size : Z) (cp : option Z) : option cursor :=
  option_map (fun c => (ptr, vsize_wrap size, c)) cp.

Section Cursors.
Local Open Scope cond_scope.

Definition UTF8_ADVANCE (buf : buffer) (ptr size : Z) : option cursor :=
  let c0 := peek8 buf ptr in
  let c1 := peek8 buf (ptr + 1) in
  let c2 := peek8 buf (ptr + 2) in
  let c3 := peek8 buf (ptr + 3) in
  let cp3 := lift3 utf8_cp3 c0 c1 c2 in
  let cp4 := lift4 utf8_cp4 c0 c1 c2 c3 in
  if_cond (holds (1 <=? size) &&& test c0 (fun c => c <? 0x80))
    (moved (ptr + 1) (size - 1) c0)
  (if_cond (holds (2 <=? size) &&& test c0 (fun c => 0xC2 <=? c)
              &&& test c0 (fun c => c <? 0xE0)
              &&& test c1 (fun c => 0x80 <=? c) &&& test c1 (fun c => c <? 0xC0))
    (moved (ptr + 2) (size - 2) (lift2 utf8_cp2 c0 c1))
  (if_cond (holds (3 <=? size) &&& test c0 (fun c => 0xE0 <=? c)
              &&& test c0 (fun c => c <? 0xF0)
              &&& test c1 (fun c => 0x80 <=? c) &&& test c1 (fun c => c <? 0xC0)
              &&& test c2 (fun c => 0x80 <=? c) &&& test c2 (fun c => c <? 0xC0)
              &&& test cp3 (fun cp => 0x800 <=? cp)
              &&& test cp3 (fun cp => (cp <? 0xD800) || (0xE000 <=? cp)))
    (moved (ptr + 3) (size - 3) cp3)
  (if_cond (holds (4 <=? size) &&& test c0 (fun c => 0xF0 <=? c)
              &&& test c0 (fun c => c <? 0xF5)
              &&& test c1 (fun c => 0x80 <=? c) &&& test c1 (fun c => c <? 0xC0)
              &&& test c2 (fun c => 0x80 <=? c) &&& test c2 (fun c => c <? 0xC0)
              &&& test c3 (fun c => 0x80 <=? c) &&& test c3 (fun c => c <? 0xC0)
              &&& test cp4 (fun cp => 0x10000 <=? cp)
              &&& test cp4 (fun cp => cp <? 0x110000))
    (moved (ptr + 4) (size - 4) cp4)
    (Some (ptr, size, -1))))).

Definition UTF8_RETREAT (buf : buffer) (ptr size : Z) : option cursor :=
  let c1 := peek8 buf (ptr - 1) in
  let c2 := peek8 buf (ptr - 2) in
  let c3 := peek8 buf (ptr - 3) in
  let c4 := peek8 buf (ptr - 4) in
  let cp3 := lift3 utf8_cp3 c3 c2 c1 in
  let cp4 := lift4 utf8_cp4 c4 c3 c2 c1 in
  if_cond (holds (1 <=? size) &&& test c1 (fun c => c <? 0x80))
    (moved (ptr - 1) (size - 1) c1)
  (if_cond (holds (2 <=? size) &&& test c1 (fun c => 0x80 <=? c)
              &&& test c1 (fun c => c <? 0xC0)
              &&& test c2 (fun c => 0xC2 <=? c) &&& test c2 (fun c => c <? 0xE0))
    (moved (ptr - 2) (size - 2) (lift2 utf8_cp2 c2 c1))
  (if_cond (holds (3 <=? size) &&& test c1 (fun c => 0x80 <=? c)
              &&& test c1 (fun c => c <? 0xC0)
              &&& test c2 (fun c => 0xC2 <=? c) &&& test c2 (fun c => c <? 0xE0)
              &&& test c3 (fun c => 0xE0 <=? c) &&& test c3 (fun c => c <? 0xF0)
              &&& test cp3 (fun cp => 0x800 <=? cp)
              &&& test cp3 (fun cp => (cp <? 0xD800) || (0xE000 <=? cp)))
    (moved (ptr - 3) (size - 3) cp3)
  (if_cond (holds (4 <=? size) &&& test c1 (fun c => 0x80 <=? c)
              &&& test c1 (fun c => c <? 0xC0)
              &&& test c2 (fun c => 0xC2 <=? c) &&& test c2 (fun c => c <? 0xE0)
              &&& test c3 (fun c => 0xC2 <=? c) &&& test c3 (fun c => c <? 0xE0)
              &&& test c4 (fun c => 0xF0 <=? c) &&& test c4 (fun c => c <? 0xF5)
              &&& test cp4 (fun cp => 0x10000 <=? cp)
              &&& test cp4 (fun cp => cp <? 0x110000))
    (moved (ptr - 4) (size - 4) cp4)
    (Some (ptr, size, -1))))).

(** The UTF-16 cursors work on [unsigned short const *]; offsets are kept
    in bytes, so [ptr += 1] is [ptr + 2]. *)
Definition UTF16_ADVANCE (big_endian : bool) (buf : buffer) (ptr size : Z)
  : option cursor :=
  let c0 := peek16 big_endian buf ptr in
  let c1 := peek16 big_endian buf (ptr + 2) in
  if_cond (holds (2 <=? size)
              &&& test c0 (fun c => (c <? 0xD800) || (0xE000 <=? c)))
    (moved (ptr + 2) (size - 2) c0)
  (if_cond (holds (4 <=? size) &&& test c0 (fun c => 0xD800 <=? c)
              &&& test c0 (fun c => c <? 0xDC00)
              &&& test c1 (fun c => 0xDC00 <=? c) &&& test c1 (fun c => c <? 0xE000))
    (moved (ptr + 4) (size - 4) (lift2 utf16_cp2 c0 c1))
    (Some (ptr, size, -1))).

(** The surrogate-pair branch is written [ptr += 2] in the source. *)
Definition UTF16_RETREAT (big_endian : bool) (buf : buffer) (ptr size : Z)
  : option cursor :=
  let c1 := peek16 big_endian buf (ptr - 2) in
  let c2 := peek16 big_endian buf (ptr - 4) in
  if_cond (holds (2 <=? size)
              &&& test c1 (fun c => (c <? 0xD800) || (0xE000 <=? c)))
    (moved (ptr - 2) (size - 2) c1)
  (if_cond (holds (4 <=? size) &&& test c1 (fun c => 0xDC00 <=? c)
              &&& test c1 (fun c => c <? 0xE000)
              &&& test c2 (fun c => 0xD800 <=? c) &&& test c2 (fun c => c <? 0xDC00))
    (moved (ptr + 4) (size - 4) (lift2 utf16_cp2 c2 c1))
    (Some (ptr, size, -1))).

End Cursors.

(** ** Forward search engines *)

(** State a loop hands to the code after it, or the value the function
    returns from inside the loop. *)
Definition exits (A : Type) : Type := (outcome + A)%type.

(** [while (stacksize>=needlesize) { ... }] of [instr_blob]. *)
Fixpoint instr_blob_scan (fuel : nat) (haystack needle : buffer)
  (skips : bmh_skips) (needlesize ptr stacksize found : Z) : outcome :=
  match fuel with
  | O => Timeout
  | S fuel' =>
      if needlesize <=? stacksize then
        match memcmp haystack ptr needle 0 (Z.to_nat needlesize) with
        | None => Fault
        | Some true => Ret found
        | Some false =>
            match peek haystack (ptr + (needlesize - 1)) with
            | None => Fault
            | Some c =>
                let skip := skips c in
                instr_blob_scan fuel' haystack needle skips needlesize
                  (ptr + skip) (vsize_wrap (stacksize - skip))
                  (int64_wrap (found + skip))
            end
        end
      else Ret 0
  end.

(** [while (stacksize>0) { ... }] of [instr_blob]. *)
Fixpoint instr_blob_scan1 (fuel : nat) (haystack : buffer)
  (first ptr stacksize found : Z) : outcome :=
  match fuel with
  | O => Timeout
  | S fuel' =>
      if 0 <? stacksize then
        match peek8 haystack ptr with
        | None => Fault
        | Some c =>
            if c =? first then Ret found
            else instr_blob_scan1 fuel' haystack first
                   (ptr + 1) (vsize_wrap (stacksize - 1))
                   (int64_wrap (found + 1))
        end
      else Ret 0
  end.

(** [instr_blob] from [if (needlesize>stacksize)] on. *)
Definition instr_blob_from (fuel : nat) (haystack : buffer)
  (needle : buffer) (needlesize ptr stacksize found : Z) : outcome :=
  if stacksize <? needlesize then Ret 0
  else if needlesize <=? 0 then Ret found
  else if 1 <? needlesize then
    match fbmh_setup needle needlesize 0 with
    | None => Fault
    | Some skips =>
        instr_blob_scan fuel haystack needle skips needlesize
          ptr stacksize found
    end
  else
    match peek8 needle 0 with
    | None => Fault
    | Some first => instr_blob_scan1 fuel haystack first ptr stacksize found
    end.

Definition instr_blob (fuel : nat) (haystack : buffer) (stacksize : Z)
  (needle : buffer) (needlesize : Z) (start : Z) : outcome :=
  if 1 <? start then
    let found := start in
    let start := int64_wrap (start - 1) in
    if stacksize <? start then Ret 0
    else instr_blob_from fuel haystack needle needlesize
           start (vsize_wrap (stacksize - start)) found
  else
    instr_blob_from fuel haystack needle needlesize 0 stacksize 1.

(** [while (found<start && stacksize>needlesize) { ... }] of the forward
    text engines; [advance] is the cursor macro of the encoding. *)
Fixpoint instr_seek (fuel : nat) (advance : Z -> Z -> option cursor)
  (needlesize start ptr stacksize found : Z) : exits (Z * Z * Z) :=
  match fuel with
  | O => inl Timeout
  | S fuel' =>
      if (found <? start) && (needlesize <? stacksize) then
        match advance ptr stacksize with
        | None => inl Fault
        | Some (ptr', stacksize', codepoint) =>
            if codepoint =? -1 then inl (Ret (-1))
            else instr_seek fuel' advance needlesize start
                   ptr' stacksize' (int64_wrap (found + 1))
        end
      else inr (ptr, stacksize, found)
  end.

(** The [if (haystack>=next) { ... }] block of [instr_utf8] and
    [instr_utf16]: the window comparison and the new [next].  [unit] is
    the size of a storage unit, [1] or [2]. *)
Definition instr_window (unit : Z) (haystack needle : buffer)
  (skips : bmh_skips) (needlesize ptr stacksize found next : Z) : exits Z :=
  if next <=? ptr then
    match memcmp haystack ptr needle 0 (Z.to_nat needlesize) with
    | None => inl Fault
    | Some true => inl (Ret found)
    | Some false =>
        match peek haystack (ptr + (needlesize - 1)) with
        | None => inl Fault
        | Some c =>
            let skip := skips c in
            if vsize_wrap (stacksize - skip) <? needlesize then inl (Ret 0)
            else inr (ptr + unit * (skip / unit))
        end
    end
  else inr next.

(** [while (stacksize>=needlesize) { ... }] of [instr_utf8] and
    [instr_utf16]. *)
Fixpoint instr_text_scan (fuel : nat) (unit : Z)
  (advance : Z -> Z -> option cursor) (haystack needle : buffer)
  (skips : bmh_skips) (needlesize ptr stacksize found next : Z) : outcome :=
  match fuel with
  | O => Timeout
  | S fuel' =>
      if needlesize <=? stacksize then
        match instr_window unit haystack needle skips needlesize
                ptr stacksize found next with
        | inl r => r
        | inr next' =>
            match advance ptr stacksize with
            | None => Fault
            | Some (ptr', stacksize', codepoint) =>
                if codepoint =? -1 then Ret (-1)
                else instr_text_scan fuel' unit advance haystack needle skips
                       needlesize ptr' stacksize' (int64_wrap (found + 1)) next'
            end
        end
      else Ret 0
  end.

(** [while (stacksize>0) { ... }] of [instr_utf8] and [instr_utf16];
    [read] is [haystack[0]] at the given offset. *)
Fixpoint instr_text_scan1 (fuel : nat) (read : Z -> option Z)
  (advance : Z -> Z -> option cursor) (first ptr stacksize found : Z)
  : outcome :=
  match fuel with
  | O => Timeout
  | S fuel' =>
      if 0 <? stacksize then
        match read ptr with
        | None => Fault
        | Some c =>
            if c =? first then Ret found
            else
              match advance ptr stacksize with
              | None => Fault
              | Some (ptr', stacksize', codepoint) =>
                  if codepoint =? -1 then Ret (-1)
                  else instr_text_scan1 fuel' read advance first
                         ptr' stacksize' (int64_wrap (found + 1))
              end
        end
      else Ret 0
  end.

Definition instr_utf8 (fuel : nat) (haystack : buffer) (stacksize : Z)
  (needle : buffer) (needlesize : Z) (start : Z) : outcome :=
  if stacksize <? needlesize then Ret 0
  else
    match instr_seek fuel (UTF8_ADVANCE haystack) needlesize start
            0 stacksize 1 with
    | inl r => r
    | inr (ptr, stacksize, found) =>
        if found <? start then Ret 0
        else if needlesize <=? 0 then Ret found
        else if 1 <? needlesize then
          match fbmh_setup needle needlesize 0 with
          | None => Fault
          | Some skips =>
              instr_text_scan fuel 1 (UTF8_ADVANCE haystack) haystack needle
                skips needlesize ptr stacksize found ptr
          end
        else
          match peek8 needle 0 with
          | None => Fault
          | Some first =>
              instr_text_scan1 fuel (peek8 haystack) (UTF8_ADVANCE haystack)
                first ptr stacksize found
          end
    end.

Definition instr_utf16 (big_endian : bool) (fuel : nat) (haystack : buffer)
  (stacksize : Z) (needle : buffer) (needlesize : Z) (start : Z) : outcome :=
  if stacksize <? needlesize then Ret 0
  else
    match instr_seek fuel (UTF16_ADVANCE big_endian haystack) needlesize start
            0 stacksize 1 with
    | inl r => r
    | inr (ptr, stacksize, found) =>
        if found <? start then Ret 0
        else if needlesize <=? 0 then Ret found
        else if 2 <? needlesize then
          match fbmh_setup needle needlesize 1 with
          | None => Fault
          | Some skips =>
              instr_text_scan fuel 2 (UTF16_ADVANCE big_endian haystack)
                haystack needle skips needlesize ptr stacksize found ptr
          end
        else
          match peek16 big_endian needle 0 with
          | None => Fault
          | Some first =>
              instr_text_scan1 fuel (peek16 big_endian haystack)
                (UTF16_ADVANCE big_endian haystack)
                first ptr stacksize found
          end
    end.

(** ** Backward search engines *)

(** The first [for (;;) { ... }] of [rinstr_blob]. *)
Fixpoint rinstr_blob_scan (fuel : nat) (haystack needle : buffer)
  (skips : bmh_skips) (needlesize ptr stacksize found : Z) : outcome :=
  match fuel with
  | O => Timeout
  | S fuel' =>
      match memcmp haystack ptr needle 0 (Z.to_nat needlesize) with
      | None => Fault
      | Some true => Ret found
      | Some false =>
          match peek haystack ptr with
          | None => Fault
          | Some c =>
              let skip := skips c in
              if stacksize <? skip then Ret 0
              else rinstr_blob_scan fuel' haystack needle skips needlesize
                     (ptr - skip) (vsize_wrap (stacksize - skip))
                     (int64_wrap (found - skip))
          end
      end
  end.

(** The second [for (;;) { ... }] of [rinstr_blob]. *)
Fixpoint rinstr_blob_scan1 (fuel : nat) (haystack : buffer)
  (first ptr stacksize found : Z) : outcome :=
  match fuel with
  | O => Timeout
  | S fuel' =>
      match peek8 haystack ptr with
      | None => Fault
      | Some c =>
          if c =? first then Ret found
          else if stacksize <=? 0 then Ret 0
          else rinstr_blob_scan1 fuel' haystack first
                 (ptr - 1) (vsize_wrap (stacksize - 1))
                 (int64_wrap (found - 1))
      end
  end.

(** [rinstr_blob] from [if (needlesize<=0)] on. *)
Definition rinstr_blob_from (fuel : nat) (haystack : buffer)
  (needle : buffer) (needlesize ptr stacksize found : Z) : outcome :=
  if needlesize <=? 0 then Ret found
  else if 1 <? needlesize then
    match rbmh_setup needle needlesize 0 with
    | None => Fault
    | Some skips =>
        rinstr_blob_scan fuel haystack needle skips needlesize
          ptr stacksize found
    end
  else
    match peek8 needle 0 with
    | None => Fault
    | Some first => rinstr_blob_scan1 fuel haystack first ptr stacksize found
    end.

Definition rinstr_blob (fuel : nat) (haystack : buffer) (stacksize : Z)
  (needle : buffer) (needlesize : Z) (start : Z) : outcome :=
  if start <=? 0 then Ret 0
  else if stacksize <? needlesize then Ret 0
  else if 1 <? start then
    let start :=
      if vsize_wrap (stacksize - needlesize) <? int64_wrap (start - 1)
      then vsize_wrap (stacksize - needlesize + 1)
      else start in
    let found := start in
    let stacksize := vsize_wrap (start - 1) in
    rinstr_blob_from fuel haystack needle needlesize stacksize stacksize found
  else
    rinstr_blob_from fuel haystack needle needlesize 0 0 1.

(** [while (found<start && stacksize>needlesize) { ... }] of the backward
    text engines, with its [break] that restores the cursor. *)
Fixpoint rinstr_seek (fuel : nat) (advance : Z -> Z -> option cursor)
  (needlesize start ptr stacksize found : Z) : exits (Z * Z * Z) :=
  match fuel with
  | O => inl Timeout
  | S fuel' =>
      if (found <? start) && (needlesize <? stacksize) then
        let oldhaystack := ptr in
        let oldstacksize := stacksize in
        match advance ptr stacksize with
        | None => inl Fault
        | Some (ptr', stacksize', codepoint) =>
            if codepoint =? -1 then inl (Ret (-1))
            else if stacksize' <? needlesize
            then inr (oldhaystack, oldstacksize, found)
            else rinstr_seek fuel' advance needlesize start
                   ptr' stacksize' (int64_wrap (found + 1))
        end
      else inr (ptr, stacksize, found)
  end.

(** The [if (haystack<=next) { ... }] block of [rinstr_utf8] and
    [rinstr_utf16]. *)
Definition rinstr_window (unit : Z) (haystack needle : buffer)
  (skips : bmh_skips) (needlesize ptr stacksize found next : Z) : exits Z :=
  if ptr <=? next then
    match memcmp haystack ptr needle 0 (Z.to_nat needlesize) with
    | None => inl Fault
    | Some true => inl (Ret found)
    | Some false =>
        match peek haystack ptr with
        | None => inl Fault
        | Some c =>
            let skip := skips c in
            if stacksize <? skip then inl (Ret 0)
            else inr (ptr - unit * (skip / unit))
        end
    end
  else inr next.

(** The first [for (;;) { ... }] of [rinstr_utf8] and [rinstr_utf16].
    The codepoint the retreat macro stores is not looked at. *)
Fixpoint rinstr_text_scan (fuel : nat) (unit : Z)
  (retreat : Z -> Z -> option cursor) (haystack needle : buffer)
  (skips : bmh_skips) (needlesize ptr stacksize found next : Z) : outcome :=
  match fuel with
  | O => Timeout
  | S fuel' =>
      match rinstr_window unit haystack needle skips needlesize
              ptr stacksize found next with
      | inl r => r
      | inr next' =>
          if stacksize <=? 0 then Ret 0
          else
            match retreat ptr stacksize with
            | None => Fault
            | Some (ptr', stacksize', _) =>
                rinstr_text_scan fuel' unit retreat haystack needle skips
                  needlesize ptr' stacksize' (int64_wrap (found - 1)) next'
            end
      end
  end.

(** The second [for (;;) { ... }] of [rinstr_utf8] and [rinstr_utf16]. *)
Fixpoint rinstr_text_scan1 (fuel : nat) (read : Z -> option Z)
  (retreat : Z -> Z -> option cursor) (first ptr stacksize found : Z)
  : outcome :=
  match fuel with
  | O => Timeout
  | S fuel' =>
      match read ptr with
      | None => Fault
      | Some c =>
          if c =? first then Ret found
          else if stacksize <=? 0 then Ret 0
          else
            match retreat ptr stacksize with
            | None => Fault
            | Some (ptr', stacksize', _) =>
                rinstr_text_scan1 fuel' read retreat first
                  ptr' stacksize' (int64_wrap (found - 1))
            end
      end
  end.

Definition rinstr_utf8 (fuel : nat) (haystack : buffer) (stacksize : Z)
  (needle : buffer) (needlesize : Z) (start : Z) : outcome :=
  if start <=? 0 then Ret 0
  else if stacksize <? needlesize then Ret 0
  else
    match rinstr_seek fuel (UTF8_ADVANCE haystack) needlesize start
            0 stacksize 1 with
    | inl r => r
    | inr (ptr, _, found) =>
        if needlesize <=? 0 then Ret found
        else
          let stacksize := vsize_wrap ptr in
          if 1 <? needlesize then
            match rbmh_setup needle needlesize 0 with
            | None => Fault
            | Some skips =>
                rinstr_text_scan fuel 1 (UTF8_RETREAT haystack) haystack
                  needle skips needlesize ptr stacksize found ptr
            end
          else
            match peek8 needle 0 with
            | None => Fault
            | Some first =>
                rinstr_text_scan1 fuel (peek8 haystack)
                  (UTF8_RETREAT haystack) first ptr stacksize found
            end
    end.

Definition rinstr_utf16 (big_endian : bool) (fuel : nat) (haystack : buffer)
  (stacksize : Z) (needle : buffer) (needlesize : Z) (start : Z) : outcome :=
  if start <=? 0 then Ret 0
  else if stacksize <? needlesize then Ret 0
  else
    match rinstr_seek fuel (UTF16_ADVANCE big_endian haystack) needlesize
            start 0 stacksize 1 with
    | inl r => r
    | inr (ptr, _, found) =>
        if needlesize <=? 0 then Ret found
        else
          let stacksize := vsize_wrap (ptr / 2 * 2) in
          if 2 <? needlesize then
            match rbmh_setup needle needlesize 1 with
            | None => Fault
            | Some skips =>
                rinstr_text_scan fuel 2 (UTF16_RETREAT big_endian haystack)
                  haystack needle skips needlesize ptr stacksize found ptr
            end
          else
            match peek16 big_endian needle 0 with
            | None => Fault
            | Some first =>
                rinstr_text_scan1 fuel (peek16 big_endian haystack)
                  (UTF16_RETREAT big_endian haystack)
                  first ptr stacksize found
            end
    end.

(** ** SQL entry points *)

Inductive datatype : Type :=
| SQLITE_INTEGER
| SQLITE_FLOAT
| SQLITE_TEXT
| SQLITE_BLOB
| SQLITE_NULL.

Definition datatype_eqb (a b : datatype) : bool :=
  match a, b with
  | SQLITE_INTEGER, SQLITE_INTEGER
  | SQLITE_FLOAT, SQLITE_FLOAT
  | SQLITE_TEXT, SQLITE_TEXT
  | SQLITE_BLOB, SQLITE_BLOB
  | SQLITE_NULL, SQLITE_NULL => true
  | _, _ => false
  end.

(** What SQLite's accessors answer for one argument:
    [sqlite3_value_type], [sqlite3_value_int64], [sqlite3_value_blob]
    and the [sqlite3_value_bytes] that follows it, [sqlite3_value_text]
    and the [sqlite3_value_bytes] that follows it, [sqlite3_value_text16]
    and [sqlite3_value_bytes16].  A pointer-valued accessor answers [None]
    for a null pointer. *)
Record sqlite3_value : Type := {
  value_type : datatype;
  value_int64 : Z;
  value_blob : option buffer;
  value_blob_bytes : Z;
  value_text : option buffer;
  value_bytes : Z;
  value_text16 : option buffer;
  value_bytes16 : Z
}.

(** The user data a function was registered with. *)
Inductive user_data : Type :=
| malformed_8
| malformed_16
| other_data.

Inductive message : Type :=
| confused
| malformed (which : user_data).

(** What a call leaves in the context.  [NoResult] is a return without
    any [sqlite3_result_*] call; [Stuck] is an engine that faulted or did
    not come back within the fuel. *)
Inductive call_result : Type :=
| NoResult
| ResultInt64 (r : Z)
| ResultError (msg : message)
| ResultNomem
| Stuck (o : outcome).

(** [if (result<0) sqlite3_result_error(...) else sqlite3_result_int64(...)] *)
Definition report (which : user_data) (o : outcome) : call_result :=
  match o with
  | Ret result =>
      if result <? 0 then ResultError (malformed which)
      else ResultInt64 result
  | _ => Stuck o
  end.

(** A null pointer is a buffer no byte of which can be read. *)
Definition deref (p : option buffer) : buffer :=
  match p with
  | Some buf => buf
  | None => []
  end.

Definition is_null (p : option buffer) : bool :=
  match p with
  | Some _ => false
  | None => true
  end.

(** [bytes16 & ~(vsize)1] *)
Definition even_bytes (n : Z) : Z := Z.land (vsize_wrap n) (vsize_not 1).

(** [instr_func] and [rinstr_func] from [malformed =
    sqlite3_user_data(context)] on; the two differ only in the engines
    they call, which are the parameters [blob], [utf8] and [utf16]. *)
Definition dispatch
  (blob utf8 utf16 : buffer -> Z -> buffer -> Z -> Z -> outcome)
  (which : user_data) (arg0 arg1 : sqlite3_value) (start : Z) : call_result :=
  if datatype_eqb (value_type arg0) SQLITE_BLOB
     && datatype_eqb (value_type arg1) SQLITE_BLOB then
    let haystack := value_blob arg0 in
    let stacksize := vsize_wrap (value_blob_bytes arg0) in
    if is_null haystack && (0 <? stacksize) then ResultNomem
    else
      let needle := value_blob arg1 in
      let needlesize := vsize_wrap (value_blob_bytes arg1) in
      if is_null needle && (0 <? needlesize) then ResultNomem
      else report which
             (blob (deref haystack) stacksize (deref needle) needlesize start)
  else
    match which with
    | malformed_8 =>
        match value_text arg0 with
        | None => ResultNomem
        | Some haystack =>
            let stacksize := vsize_wrap (value_bytes arg0) in
            match value_text arg1 with
            | None => ResultNomem
            | Some needle =>
                let needlesize := vsize_wrap (value_bytes arg1) in
                report which (utf8 haystack stacksize needle needlesize start)
            end
        end
    | malformed_16 =>
        match value_text16 arg0 with
        | None => ResultNomem
        | Some haystack =>
            let stacksize := even_bytes (value_bytes16 arg0) in
            match value_text16 arg1 with
            | None => ResultNomem
            | Some needle =>
                let needlesize := even_bytes (value_bytes16 arg1) in
                report which (utf16 haystack stacksize needle needlesize start)
            end
        end
    | other_data => ResultError confused
    end.

(** [instr_func] and [rinstr_func] up to there: argument count, null
    arguments, and [start] with its default. *)
Definition entry (default_start : Z)
  (blob utf8 utf16 : buffer -> Z -> buffer -> Z -> Z -> outcome)
  (which : user_data) (args : list sqlite3_value) : call_result :=
  match args with
  | arg0 :: arg1 :: rest =>
      if datatype_eqb (value_type arg0) SQLITE_NULL then NoResult
      else if datatype_eqb (value_type arg1) SQLITE_NULL then NoResult
      else
        match rest with
        | arg2 :: _ =>
            if datatype_eqb (value_type arg2) SQLITE_NULL then NoResult
            else dispatch blob utf8 utf16 which arg0 arg1 (value_int64 arg2)
        | [] => dispatch blob utf8 utf16 which arg0 arg1 default_start
        end
  | _ => ResultError confused
  end.

Definition instr_func (big_endian : bool) (fuel : nat)
  (which : user_data) (args : list sqlite3_value) : call_result :=
  entry 1 (instr_blob fuel) (instr_utf8 fuel) (instr_utf16 big_endian fuel)
    which args.

Definition rinstr_func (big_endian : bool) (fuel : nat)
  (which : user_data) (args : list sqlite3_value) : call_result :=
  entry INT64_MAX (rinstr_blob fuel) (rinstr_utf8 fuel)
    (rinstr_utf16 big_endian fuel) which args.

(** ** Sample buffers *)

(** The bytes of ["abcabcabc"] and of ["bca"]. *)
Definition abcabcabc : buffer := [x61; x62; x63; x61; x62; x63; x61; x62; x63].
Definition bca : buffer := [x62; x63; x61].

(** U+20AC EURO SIGN in UTF-8. *)
Definition euro : buffer := [xe2; x82; xac].

(** U+1F600 in UTF-8. *)
Definition grin : buffer := [xf0; x9f; x98; x80].

(** The 16-bit units of a text as bytes in host order. *)
Definition unit16 (big_endian : bool) (hi lo : byte) : buffer :=
  if big_endian then [hi; lo] else [lo; hi].

Definition units16 (big_endian : bool) (units : list (byte * byte)) : buffer :=
  flat_map (fun u => unit16 big_endian (fst u) (snd u)) units.

(** Well-formed UTF-16 text whose backward scan goes wrong:
    U+1F600, ["Y"], ["Z"], ["W"]; and ["A"], U+1F600, ["Y"], U+1F600. *)
Definition grin_Y_Z_W (big_endian : bool) : buffer :=
  units16 big_endian
    [(xd8, x3d); (xde, x00); (x00, x59); (x00, x5a); (x00, x57)].

Definition A_grin_Y_grin (big_endian : bool) : buffer :=
  units16 big_endian
    [(x00, x41); (xd8, x3d); (xde, x00); (x00, x59); (xd8, x3d); (xde, x00)].

Definition letter_W (big_endian : bool) : buffer :=
  units16 big_endian [(x00, x57)].

(** ["€a"] and ["€ab"] in UTF-8, and the needles searched in them. *)
Definition euro_a : buffer := euro ++ [x61].
Definition euro_ab : buffer := euro ++ [x61; x62].
Definition letter_b : buffer := [x62].
Definition xy : buffer := [x78; x79].

(** Malformed UTF-16: ["A"], U+1F600, ["Y"], a lone low surrogate, ["Z"]. *)
Definition A_grin_Y_low_Z (big_endian : bool) : buffer :=
  units16 big_endian
    [(x00, x41); (xd8, x3d); (xde, x00); (x00, x59); (xde, x00); (x00, x5a)].

(** ["ab"] followed by the byte [0xFF], which no UTF-8 sequence contains. *)
Definition ab_ff : buffer := [x61; x62; xff].

(** A BLOB argument and a TEXT argument as SQLite presents them to a
    function registered for UTF-8: the text view of a BLOB is its bytes. *)
Definition blob_arg (bytes : buffer) : sqlite3_value :=
  {| value_type := SQLITE_BLOB;
     value_int64 := 0;
     value_blob := Some bytes;
     value_blob_bytes := blen bytes;
     value_text := Some bytes;
     value_bytes := blen bytes;
     value_text16 := Some bytes;
     value_bytes16 := blen bytes |}.

Definition text_arg (utf8 utf16 : buffer) : sqlite3_value :=
  {| value_type := SQLITE_TEXT;
     value_int64 := 0;
     value_blob := Some utf8;
     value_blob_bytes := blen utf8;
     value_text := Some utf8;
     value_bytes := blen utf8;
     value_text16 := Some utf16;
     value_bytes16 := blen utf16 |}.

(** ["a"], the byte [0xFF], ["abcd"]: malformed UTF-8 at offset 1. *)
Definition a_ff_abcd : buffer := [x61; xff; x61; x62; x63; x64].

(** ** Reference notions *)

Fixpoint is_prefix (needle haystack : buffer) : bool :=
  match needle, haystack with
  | [], _ => true
  | a :: needle', b :: haystack' => Byte.eqb a b && is_prefix needle' haystack'
  | _ :: _, [] => false
  end.

(** The needle occurs in the haystack at 0-based byte offset [i]. *)
Definition occurs_at (haystack needle : buffer) (i : nat) : bool :=
  is_prefix needle (skipn i haystack).

(** The naive search: try every offset from the left; the answer is the
    1-based position of the first offset that matches, or [0]. *)
Fixpoint naive_first_from (haystack needle : buffer) (pos : Z) : Z :=
  if is_prefix needle haystack then pos
  else
    match haystack with
    | [] => 0
    | _ :: haystack' => naive_first_from haystack' needle (pos + 1)
    end.

Definition naive_first (haystack needle : buffer) : Z :=
  naive_first_from haystack needle 1.

(** The same from the right: the 1-based position of the last offset that
    matches, or [0]. *)
Fixpoint naive_last_from (haystack needle : buffer) (pos : Z) : Z :=
  match haystack with
  | [] => if is_prefix needle [] then pos else 0
  | _ :: haystack' =>
      let later := naive_last_from haystack' needle (pos + 1) in
      if later =? 0 then (if is_prefix needle haystack then pos else 0)
      else later
  end.

Definition naive_last (haystack needle : buffer) : Z :=
  naive_last_from haystack needle 1.

(** The byte offset reached from [ptr] by decoding [count] codepoints with
    the forward cursor [advance]; [None] when one of them is rejected. *)
Fixpoint decode_offset (advance : Z -> Z -> option cursor) (count : nat)
  (ptr size : Z) : option Z :=
  match count with
  | O => Some ptr
  | S count' =>
      match advance ptr size with
      | Some (ptr', size', cp) =>
          if cp =? -1 then None else decode_offset advance count' ptr' size'
      | None => None
      end
  end.

(** The needle occurs in the haystack at byte offset [i]. *)
Definition occ (haystack needle : buffer) (i : Z) : Prop :=
  0 <= i /\ i + blen needle <= blen haystack /\
  forall k, 0 <= k < blen needle -> peek haystack (i + k) = peek needle k.

(** What the search loops use of a forward table. *)
Definition forward_table (needle : buffer) (skips : bmh_skips) : Prop :=
  (forall c, 1 <= skips c <= blen needle) /\
  (forall j c, 0 <= j < blen needle - 1 -> peek needle j = Some c ->
               skips c <= blen needle - 1 - j).

(** What the search loops use of a backward table. *)
Definition backward_table (needle : buffer) (skips : bmh_skips) : Prop :=
  (forall c, 1 <= skips c <= blen needle) /\
  (forall j c, 1 <= j <= blen needle - 1 -> peek needle j = Some c ->
               skips c <= j).

(** The answer [r] of a forward search that began at offset [lo]. *)
Definition first_from (haystack needle : buffer) (lo r : Z) : Prop :=
  (r = 0 /\ forall i, lo <= i -> ~ occ haystack needle i) \/
  (lo < r /\ occ haystack needle (r - 1) /\
   forall i, lo <= i -> occ haystack needle i -> r - 1 <= i).

(** The answer [r] of a backward search that began at offset [hi]. *)
Definition last_upto (haystack needle : buffer) (hi r : Z) : Prop :=
  (r = 0 /\ forall i, i <= hi -> ~ occ haystack needle i) \/
  (0 < r <= hi + 1 /\ occ haystack needle (r - 1) /\
   forall i, i <= hi -> occ haystack needle i -> i <= r - 1).

(** The forward cursor rejects what is at [ptr]. *)
Definition rejects (advance : Z -> Z -> option cursor) (ptr size : Z) : Prop :=
  advance ptr size = Some (ptr, size, -1).

(** What the engines use of a forward cursor over [haystack]: a step
    either rejects and leaves the cursor alone, or accepts one to four
    bytes; within the buffer it reads nothing outside it. *)
Definition forward_cursor (haystack : buffer)
  (advance : Z -> Z -> option cursor) : Prop :=
  (forall ptr size ptr' size' cp,
      advance ptr size = Some (ptr', size', cp) ->
      (ptr' = ptr /\ size' = size /\ cp = -1) \/
      (exists k, 1 <= k <= 4 /\ k <= size /\ ptr' = ptr + k /\
                 size' = vsize_wrap (size - k) /\ 0 <= cp)) /\
  (forall ptr size,
      0 <= ptr -> ptr + size <= blen haystack ->
      exists cur, advance ptr size = Some cur).

(** [found] is one more than the number of codepoints the forward cursor
    decodes from the start of the haystack up to byte offset [ptr]. *)
Definition counted (haystack : buffer) (advance : Z -> Z -> option cursor)
  (ptr found : Z) : Prop :=
  0 <= ptr <= blen haystack /\ 0 < found <= ptr + 1 /\
  decode_offset advance (Z.to_nat (found - 1)) 0 (blen haystack) = Some ptr.

(** The answer [r] of a forward text search for codepoint positions from
    [lo] on: [-1] with a sequence inside the haystack that the cursor
    rejects, [0] when the needle begins at none of the positions,
    or the first of the positions where it begins. *)
Definition first_position (haystack needle : buffer)
  (advance : Z -> Z -> option cursor) (lo r : Z) : Prop :=
  (r = -1 /\
   exists j off,
     decode_offset advance j 0 (blen haystack) = Some off /\
     off < blen haystack /\ rejects advance off (blen haystack - off)) \/
  (r = 0 /\
   forall j off,
     lo <= Z.of_nat j + 1 ->
     decode_offset advance j 0 (blen haystack) = Some off ->
     ~ occ haystack needle off) \/
  (0 < r /\ lo <= r /\
   exists off,
     decode_offset advance (Z.to_nat (r - 1)) 0 (blen haystack) = Some off /\
     occ haystack needle off /\
     forall j off',
       lo <= Z.of_nat j + 1 < r ->
       decode_offset advance j 0 (blen haystack) = Some off' ->
       ~ occ haystack needle off').

(** The answer [r] of a backward text search for codepoint positions up to
    [hi]: [-1] with a sequence inside the haystack that the cursor
    rejects, [0] when the needle begins at none of the positions, or the
    last of the positions where it begins. *)
Definition last_position (haystack needle : buffer)
  (advance : Z -> Z -> option cursor) (hi r : Z) : Prop :=
  (r = -1 /\
   exists j off,
     decode_offset advance j 0 (blen haystack) = Some off /\
     off < blen haystack /\ rejects advance off (blen haystack - off)) \/
  (r = 0 /\
   forall j off,
     Z.of_nat j + 1 <= hi ->
     decode_offset advance j 0 (blen haystack) = Some off ->
     ~ occ haystack needle off) \/
  (0 < r <= hi /\
   exists off,
     decode_offset advance (Z.to_nat (r - 1)) 0 (blen haystack) = Some off /\
     occ haystack needle off /\
     forall j off',
       r < Z.of_nat j + 1 <= hi ->
       decode_offset advance j 0 (blen haystack) = Some off' ->
       ~ occ haystack needle off').

(** The backward cursor at a position reached by decoding either stays
    where it is or undoes the last forward step. *)
Definition undoes_or_stays (haystack : buffer)
  (advance retreat : Z -> Z -> option cursor) : Prop :=
  forall ptr found,
    counted haystack advance ptr found -> 0 < ptr ->
    exists ptr' size' cp,
      retreat ptr ptr = Some (ptr', size', cp) /\
      ((ptr' = ptr /\ size' = ptr) \/
       (ptr' < ptr /\ size' = ptr' /\
        counted haystack advance ptr' (found - 1))).

(** The backward cursor undoes every forward step of this haystack. *)
Definition undoes (haystack : buffer)
  (advance retreat : Z -> Z -> option cursor) : Prop :=
  forall ptr found,
    counted haystack advance ptr found -> 0 < ptr ->
    exists ptr' cp,
      retreat ptr ptr = Some (ptr', ptr', cp) /\
      ptr' < ptr /\ counted haystack advance ptr' (found - 1).

(** A NULL argument. *)
Definition null_arg : sqlite3_value :=
  {| value_type := SQLITE_NULL;
     value_int64 := 0;
     value_blob := None;
     value_blob_bytes := 0;
     value_text := None;
     value_bytes := 0;
     value_text16 := None;
     value_bytes16 := 0 |}.

(** ** Registration *)

(** The two implementations, as the function pointers of [funcs]. *)
Inductive implementation : Type :=
| impl_instr
| impl_rinstr.

(** [funcspec]; the name is the bytes of the C string. *)
Record funcspec : Type := {
  name : buffer;
  impl : implementation
}.

Inductive text_encoding : Type :=
| SQLITE_UTF8
| SQLITE_UTF16.

(** [rep]: an encoding or-ed with [SQLITE_DETERMINISTIC] and
    [SQLITE_INNOCUOUS]. *)
Record text_rep : Type := {
  rep_encoding : text_encoding;
  rep_deterministic : bool;
  rep_innocuous : bool
}.

Record encspec : Type := {
  rep : text_rep;
  ptr : user_data
}.

(** ["instr"] and ["rinstr"]. *)
Definition funcs : list funcspec :=
  [ {| name := [x69; x6e; x73; x74; x72]; impl := impl_instr |};
    {| name := [x72; x69; x6e; x73; x74; x72]; impl := impl_rinstr |} ].

Definition encs : list encspec :=
  [ {| rep := {| rep_encoding := SQLITE_UTF8;
                 rep_deterministic := true; rep_innocuous := true |};
       ptr := malformed_8 |};
    {| rep := {| rep_encoding := SQLITE_UTF16;
                 rep_deterministic := true; rep_innocuous := true |};
       ptr := malformed_16 |} ].

(** What [sqlite3_create_function] can answer. *)
Inductive status : Type :=
| SQLITE_OK
| SQLITE_OK_LOAD_PERMANENTLY
| SQLITE_FAILED (code : Z).

Definition status_eqb (a b : status) : bool :=
  match a, b with
  | SQLITE_OK, SQLITE_OK => true
  | SQLITE_OK_LOAD_PERMANENTLY, SQLITE_OK_LOAD_PERMANENTLY => true
  | SQLITE_FAILED x, SQLITE_FAILED y => x =? y
  | _, _ => false
  end.

(** One call of [sqlite3_create_function]: name, argument count, text
    representation, user data and implementation; the step and final
    callbacks are null. *)
Record create_call : Type := {
  call_name : buffer;
  call_argc : Z;
  call_rep : text_rep;
  call_ptr : user_data;
  call_impl : implementation
}.

(** The calls the three nested loops make when none fails, in order:
    [funcix] outermost, then [argc] from 2 to 3, then [encix]. *)
Definition planned_calls : list create_call :=
  flat_map (fun f =>
    flat_map (fun argc =>
      map (fun e =>
             {| call_name := name f; call_argc := argc;
                call_rep := rep e; call_ptr := ptr e;
                call_impl := impl f |})
          encs)
      [2; 3])
    funcs.

(** The loops with their [goto bail]: [create] is
    [sqlite3_create_function], told how many calls came before; the
    result is the last status and the calls made. *)
Fixpoint create_all (create : nat -> create_call -> status)
  (made : nat) (todo : list create_call) (last : status)
  : status * list create_call :=
  match todo with
  | [] => (last, [])
  | c :: todo' =>
      let st := create made c in
      if status_eqb st SQLITE_OK then
        let (final, calls) := create_all create (S made) todo' st in
        (final, c :: calls)
      else (st, [c])
  end.

(** What [sqlite3_extension_init] leaves: the status it returns, the
    status whose text it stores in [*errmsgOut] if it stores one, and the
    calls it made. *)
Record init_result : Type := {
  init_status : status;
  init_errmsg : option status;
  init_calls : list create_call
}.

Definition sqlite3_extension_init (create : nat -> create_call -> status)
  : init_result :=
  let (st, calls) := create_all create 0 planned_calls SQLITE_OK in
  {| init_status := st;
     init_errmsg :=
       if negb (status_eqb st SQLITE_OK)
          && negb (status_eqb st SQLITE_OK_LOAD_PERMANENTLY)
       then Some st else None;
     init_calls := calls |}.

(** SQLite calling a registered function: the implementation of the
    registration runs with its user data. *)
Definition call_registered (big_endian : bool) (fuel : nat)
  (c : create_call) (args : list sqlite3_value) : call_result :=
  match call_impl c with
  | impl_instr => instr_func big_endian fuel (call_ptr c) args
  | impl_rinstr => rinstr_func big_endian fuel (call_ptr c) args
  end.

(** ** The series table: wide-range arithmetic

    [sqlite3_int64] and [sqlite3_uint64] values are integers in their
    ranges; every operation is followed by the wrap-around of its type,
    and a conversion between the two types is the wrap-around of the
    target. *)

Definition MAX64 : Z := 9223372036854775807.
Definition MIN64 : Z := - MAX64 - 1.

Definition uint64_wrap (z : Z) : Z := z mod 2 ^ 64.

Definition udiff (high low : Z) : Z :=
  if (0 <=? low) || (high <? 0) then
    uint64_wrap (int64_wrap (high - low))
  else
    uint64_wrap (uint64_wrap high + uint64_wrap (int64_wrap (- low))).

(** [while (diff>MAX64) { base+=MAX64; diff-=MAX64; } return base+diff;]
    The sum of the [return] is made in [sqlite3_uint64] and converted. *)
Fixpoint uadd (fuel : nat) (base diff : Z) : outcome :=
  match fuel with
  | O => Timeout
  | S fuel' =>
      if MAX64 <? diff then
        uadd fuel' (int64_wrap (base + MAX64)) (uint64_wrap (diff - MAX64))
      else Ret (int64_wrap (uint64_wrap (uint64_wrap base + diff)))
  end.

Fixpoint usub (fuel : nat) (base diff : Z) : outcome :=
  match fuel with
  | O => Timeout
  | S fuel' =>
      if MAX64 <? diff then
        usub fuel' (int64_wrap (base - MAX64)) (uint64_wrap (diff - MAX64))
      else Ret (int64_wrap (uint64_wrap (uint64_wrap base - diff)))
  end.

(** ** The series table: cursors *)

(** [enum { col_value, col_step, col_base, num_cols, col_rowid = -1 }] *)
Definition col_value : Z := 0.
Definition col_step : Z := 1.
Definition col_base : Z := 2.
Definition num_cols : Z := 3.
Definition col_rowid : Z := -1.

(** [zeries_cursor] without its [sqlite3_vtab_cursor] header; [cols] is
    the three columns in order. *)
Record zeries_cursor : Type := {
  cols : Z * Z * Z;
  step : Z;
  stop : Z;
  eof : bool
}.

(** [cursor->cols[col_ix]] for [0 <= col_ix < num_cols]. *)
Definition col (cursor : zeries_cursor) (col_ix : Z) : Z :=
  let '(value, cstep, cbase) := cols cursor in
  if col_ix =? col_value then value
  else if col_ix =? col_step then cstep
  else cbase.

Definition set_value (cursor : zeries_cursor) (value : Z) : zeries_cursor :=
  let '(_, cstep, cbase) := cols cursor in
  {| cols := (value, cstep, cbase);
     step := step cursor; stop := stop cursor; eof := eof cursor |}.

Definition set_eof (cursor : zeries_cursor) (e : bool) : zeries_cursor :=
  {| cols := cols cursor;
     step := step cursor; stop := stop cursor; eof := e |}.

(** Status codes the module's methods return. *)
Inductive vtab_status : Type :=
| VTAB_OK
| VTAB_INTERNAL
| VTAB_MISMATCH
| VTAB_ERROR
| VTAB_NOMEM.

Definition zeries_eof (cursor : zeries_cursor) : bool := eof cursor.

Definition zeries_next (cursor : zeries_cursor) : zeries_cursor :=
  if negb (eof cursor) then
    if col cursor col_value =? stop cursor then set_eof cursor true
    else set_value cursor
           (int64_wrap (col cursor col_value + step cursor))
  else cursor.

(** The status and the value handed to [sqlite3_result_int64], if any. *)
Definition zeries_column (cursor : zeries_cursor) (col_ix : Z)
  : vtab_status * option Z :=
  let col_ix := if col_ix =? col_rowid then col_value else col_ix in
  if (0 <=? col_ix) && (col_ix <? num_cols) then
    (VTAB_OK, if negb (eof cursor) then Some (col cursor col_ix) else None)
  else (VTAB_INTERNAL, None).

Definition zeries_rowid (cursor : zeries_cursor) : Z :=
  col cursor col_value.

(** The rows a scan reads: [xEof], [xColumn] of the value, [xNext], until
    [xEof] answers true. *)
Fixpoint scan_rows (fuel : nat) (cursor : zeries_cursor) : option (list Z) :=
  match fuel with
  | O => None
  | S fuel' =>
      if zeries_eof cursor then Some []
      else
        match snd (zeries_column cursor col_value) with
        | Some v =>
            option_map (cons v) (scan_rows fuel' (zeries_next cursor))
        | None => None
        end
  end.

(** ** The series table: the filter *)

(** [enum { constr_offset, ..., constr_gt }] *)
Definition constr_offset : Z := 0.
Definition constr_limit : Z := 1.
Definition constr_step : Z := 2.
Definition constr_base : Z := 3.
Definition num_exact_constraints : Z := 4.
Definition constr_eq : Z := 4.
Definition constr_lt : Z := 5.
Definition constr_le : Z := 6.
Definition constr_ge : Z := 7.
Definition constr_gt : Z := 8.

Definition flag_desc : Z := 1.

(** What [sqlite3_value_numeric_type] answers: [SQLITE_INTEGER],
    [SQLITE_FLOAT], or another type. *)
Inductive numeric : Type :=
| NUMERIC_INTEGER
| NUMERIC_FLOAT
| NUMERIC_OTHER.

(** One argument of the filter, as far as the filter looks at it: its
    numeric type; what [sqlite3_value_int64] answers; for a
    [double], the integer [ival] its conversion to [sqlite3_int64] gives
    and how [ival] compares to the [double] itself, [None] when every
    comparison is false (a NaN). *)
Record filter_arg : Type := {
  arg_ntype : numeric;
  arg_int64 : Z;
  arg_double_ival : Z;
  arg_double_order : option comparison
}.

(** [ival==dval], [ival>=dval], [ival>dval], [ival<dval], [ival<=dval] *)
Definition ival_eq (o : option comparison) : bool :=
  match o with Some Eq => true | _ => false end.
Definition ival_ge (o : option comparison) : bool :=
  match o with Some Eq | Some Gt => true | _ => false end.
Definition ival_gt (o : option comparison) : bool :=
  match o with Some Gt => true | _ => false end.
Definition ival_lt (o : option comparison) : bool :=
  match o with Some Lt => true | _ => false end.
Definition ival_le (o : option comparison) : bool :=
  match o with Some Lt | Some Eq => true | _ => false end.

Inductive zeries_message : Type :=
| wrong_type (constr_ix : Z)
| step_out_of_range.

(** The locals of [zeries_filter] that its argument loop updates. *)
Record filter_locals : Type := {
  exact : list Z;
  seen : Z;
  lower : Z;
  upper : Z
}.

Definition exact_at (l : filter_locals) (constr_ix : Z) : Z :=
  nth (Z.to_nat constr_ix) (exact l) 0.

Fixpoint list_set (l : list Z) (ix : nat) (v : Z) : list Z :=
  match l, ix with
  | [], _ => []
  | _ :: l', O => v :: l'
  | x :: l', S ix' => x :: list_set l' ix' v
  end.

Definition set_exact (l : filter_locals) (constr_ix v : Z) : filter_locals :=
  {| exact := list_set (exact l) (Z.to_nat constr_ix) v;
     seen := Z.lor (seen l) (Z.shiftl 1 constr_ix);
     lower := lower l; upper := upper l |}.

Definition set_lower (l : filter_locals) (v : Z) : filter_locals :=
  {| exact := exact l; seen := seen l; lower := v; upper := upper l |}.

Definition set_upper (l : filter_locals) (v : Z) : filter_locals :=
  {| exact := exact l; seen := seen l; lower := lower l; upper := v |}.

(** Where one turn of the argument loop leaves: at the next turn, at
    [empty:], or at a [return] with a status and perhaps a message. *)
Inductive turn : Type :=
| Next (l : filter_locals)
| Empty
| Fail (status : vtab_status) (msg : option zeries_message).

(** [if (ival<upper) { if (ival<lower) goto empty; upper=ival; }] *)
Definition tighten_upper (l : filter_locals) (ival : Z) : turn :=
  if ival <? upper l then
    if ival <? lower l then Empty else Next (set_upper l ival)
  else Next l.

(** [if (ival>lower) { if (ival>upper) goto empty; lower=ival; }] *)
Definition tighten_lower (l : filter_locals) (ival : Z) : turn :=
  if lower l <? ival then
    if upper l <? ival then Empty else Next (set_lower l ival)
  else Next l.

(** [if (ival>MIN64) { ival--; } else { goto empty; }] and what follows *)
Definition decrement (ival : Z) (k : Z -> turn) : turn :=
  if MIN64 <? ival then k (int64_wrap (ival - 1)) else Empty.

Definition increment (ival : Z) (k : Z -> turn) : turn :=
  if ival <? MAX64 then k (int64_wrap (ival + 1)) else Empty.

(** The body of the argument loop. *)
Definition filter_turn (l : filter_locals) (constr_ix : Z) (val : filter_arg)
  : turn :=
  let ntype := arg_ntype val in
  let dorder := arg_double_order val in
  let ival :=
    match ntype with
    | NUMERIC_FLOAT => arg_double_ival val
    | _ => arg_int64 val
    end in
  if (0 <=? constr_ix) && (constr_ix <? num_exact_constraints) then
    let lossless :=
      match ntype with
      | NUMERIC_INTEGER => true
      | NUMERIC_FLOAT => ival_eq dorder
      | NUMERIC_OTHER => false
      end in
    if lossless then
      let constr_flag := Z.shiftl 1 constr_ix in
      if negb (Z.land (seen l) constr_flag =? 0) then
        if ival =? exact_at l constr_ix then Next l else Empty
      else Next (set_exact l constr_ix ival)
    else Fail VTAB_MISMATCH (Some (wrong_type constr_ix))
  else if constr_ix =? constr_eq then
    let lossless :=
      match ntype with
      | NUMERIC_INTEGER => true
      | NUMERIC_FLOAT => ival_eq dorder
      | NUMERIC_OTHER => false
      end in
    if lossless then
      if (ival <? lower l) || (upper l <? ival) then Empty
      else Next (set_upper (set_lower l ival) ival)
    else Empty
  else if constr_ix =? constr_lt then
    match ntype with
    | NUMERIC_INTEGER => decrement ival (tighten_upper l)
    | NUMERIC_FLOAT =>
        if ival_ge dorder then decrement ival (tighten_upper l)
        else tighten_upper l ival
    | NUMERIC_OTHER => Empty
    end
  else if constr_ix =? constr_le then
    match ntype with
    | NUMERIC_INTEGER => tighten_upper l ival
    | NUMERIC_FLOAT =>
        if ival_gt dorder then decrement ival (tighten_upper l)
        else tighten_upper l ival
    | NUMERIC_OTHER => Empty
    end
  else if constr_ix =? constr_ge then
    match ntype with
    | NUMERIC_INTEGER => tighten_lower l ival
    | NUMERIC_FLOAT =>
        if ival_lt dorder then increment ival (tighten_lower l)
        else tighten_lower l ival
    | NUMERIC_OTHER => Empty
    end
  else if constr_ix =? constr_gt then
    match ntype with
    | NUMERIC_INTEGER => increment ival (tighten_lower l)
    | NUMERIC_FLOAT =>
        if ival_le dorder then increment ival (tighten_lower l)
        else tighten_lower l ival
    | NUMERIC_OTHER => Empty
    end
  else Fail VTAB_INTERNAL None.

(** [for (arg_ix=0; arg_ix<argc; arg_ix++)] over [index_str] and [argv]
    side by side. *)
Fixpoint filter_args (l : filter_locals) (index_str : buffer)
  (argv : list filter_arg) : turn :=
  match index_str, argv with
  | c :: index_str', val :: argv' =>
      match filter_turn l (byte_val c - 97) val with
      | Next l' => filter_args l' index_str' argv'
      | other => other
      end
  | _, _ => Next l
  end.

(** The [return]s of the filter and the calls they end; a call that does
    not come back from [uadd] or [usub] is [Unfinished]. *)
Inductive filtered : Type :=
| Filtered (status : vtab_status) (cursor : zeries_cursor)
           (msg : option zeries_message)
| Unfinished.

(** [x = uadd(...)] or [x = usub(...)] and what follows. *)
Definition then_with (o : outcome) (k : Z -> filtered) : filtered :=
  match o with
  | Ret v => k v
  | _ => Unfinished
  end.

Definition at_empty (cursor : zeries_cursor) : filtered :=
  Filtered VTAB_OK (set_eof cursor true) None.

(** [zeries_filter] from [length=udiff(upper,lower)/ustep] on. *)
Definition filter_rows (fuel : nat) (cursor : zeries_cursor)
  (index_num : Z) (l : filter_locals) (ustep lower upper : Z) : filtered :=
  let length := uint64_wrap (udiff upper lower / ustep) in
  let offset := exact_at l constr_offset in
  if (0 <? offset) && (length <? uint64_wrap offset) then at_empty cursor
  else
    let limit := exact_at l constr_limit in
    let finish (start stop step : Z) : filtered :=
      Filtered VTAB_OK
        {| cols := (start, exact_at l constr_step, exact_at l constr_base);
           step := step; stop := stop; eof := false |} None in
    if Z.land index_num flag_desc =? 0 then
      let step := int64_wrap ustep in
      let after_offset (start length : Z) : filtered :=
        if (0 <? limit) && (uint64_wrap limit <=? length) then
          then_with
            (uadd fuel start
               (uint64_wrap (uint64_wrap (int64_wrap (limit - 1)) * ustep)))
            (fun stop => finish start stop step)
        else finish start upper step in
      if 0 <? offset then
        then_with
          (uadd fuel lower (uint64_wrap (uint64_wrap offset * ustep)))
          (fun start =>
             after_offset start (uint64_wrap (length - uint64_wrap offset)))
      else after_offset lower length
    else
      let step := int64_wrap (- int64_wrap ustep) in
      let after_offset (start length : Z) : filtered :=
        if (0 <? limit) && (uint64_wrap limit <=? length) then
          then_with
            (usub fuel start
               (uint64_wrap (uint64_wrap (int64_wrap (limit - 1)) * ustep)))
            (fun stop => finish start stop step)
        else finish start lower step in
      if 0 <? offset then
        then_with
          (usub fuel upper (uint64_wrap (uint64_wrap offset * ustep)))
          (fun start =>
             after_offset start (uint64_wrap (length - uint64_wrap offset)))
      else after_offset upper length.

(** [zeries_filter] from [base=exact[constr_base]] on: the bounds are
    moved onto the progression. *)
Definition filter_align (fuel : nat) (cursor : zeries_cursor)
  (index_num : Z) (l : filter_locals) (ustep : Z) : filtered :=
  let base := exact_at l constr_base in
  if 1 <? ustep then
    then_with
      (usub fuel base
         (uint64_wrap (uint64_wrap (udiff base MIN64 / ustep) * ustep)))
      (fun lowest =>
    if upper l <? lowest then at_empty cursor
    else
    then_with
      (uadd fuel lowest
         (uint64_wrap (uint64_wrap (udiff (upper l) lowest / ustep) * ustep)))
      (fun upper' =>
    then_with
      (uadd fuel base
         (uint64_wrap (uint64_wrap (udiff MAX64 base / ustep) * ustep)))
      (fun highest =>
    if highest <? lower l then at_empty cursor
    else
    then_with
      (usub fuel highest
         (uint64_wrap
            (uint64_wrap (udiff highest (lower l) / ustep) * ustep)))
      (fun lower' =>
    if upper' <? lower' then at_empty cursor
    else filter_rows fuel cursor index_num l ustep lower' upper'))))
  else filter_rows fuel cursor index_num l ustep (lower l) (upper l).

(** [zeries_filter].  [index_str] is [None] for a null pointer, and
    otherwise the bytes before the terminator; [argc] is the length of
    [argv]. *)
Definition zeries_filter (fuel : nat) (cursor : zeries_cursor)
  (index_num : Z) (index_str : option buffer) (argv : list filter_arg)
  : filtered :=
  let locals :=
    {| exact := [0; -1; 1; 0]; seen := 0; lower := MIN64; upper := MAX64 |} in
  let ix_str := match index_str with Some s => s | None => [] end in
  if negb (length argv =? length ix_str)%nat then
    Filtered VTAB_INTERNAL cursor None
  else
    match filter_args locals ix_str argv with
    | Fail status msg => Filtered status (set_eof cursor true) msg
    | Empty => at_empty cursor
    | Next l =>
        let step := exact_at l constr_step in
        if 0 <? step then
          filter_align fuel cursor index_num l (uint64_wrap step)
        else if (step <? 0) && (MIN64 <? step) then
          filter_align fuel cursor index_num l
            (uint64_wrap (int64_wrap (- step)))
        else
          Filtered VTAB_ERROR (set_eof cursor true) (Some step_out_of_range)
    end.

(** ** The series table: what a query asks for *)

(** [v] is on the progression through [base] with step [u]. *)
Definition on_progression (base u v : Z) : Prop := (v - base) mod u = 0.



(** What one integer argument asks of a row value [v], given the
    parameter values [params]: an exact constraint asks that its value is
    the parameter's; a value constraint compares [v] with its value. *)
Definition asks (params : Z -> Z) (constr_ix ival v : Z) : Prop :=
  if constr_ix <? num_exact_constraints then ival = params constr_ix
  else if constr_ix =? constr_eq then v = ival
  else if constr_ix =? constr_lt then v < ival
  else if constr_ix =? constr_le then v <= ival
  else if constr_ix =? constr_ge then v >= ival
  else v > ival.

Fixpoint all_ask (params : Z -> Z) (index_str : buffer)
  (argv : list filter_arg) (v : Z) : Prop :=
  match index_str, argv with
  | c :: index_str', val :: argv' =>
      asks params (byte_val c - 97) (arg_int64 val) v /\
      all_ask params index_str' argv' v
  | _, _ => True
  end.

(** Every argument is an integer in range under a known letter. *)
Fixpoint integer_args (index_str : buffer) (argv : list filter_arg) : Prop :=
  match index_str, argv with
  | c :: index_str', val :: argv' =>
      0 <= byte_val c - 97 <= constr_gt /\
      arg_ntype val = NUMERIC_INTEGER /\
      MIN64 <= arg_int64 val <= MAX64 /\
      integer_args index_str' argv'
  | _, _ => True
  end.





(** * Properties *)

(** ** Machine integers and reads *)

Lemma vsize_wrap_small (z : Z) : 0 <= z < 2 ^ 32 -> vsize_wrap z = z.
Proof. intros H. unfold vsize_wrap. apply Z.mod_small. exact H. Qed.

Lemma int64_wrap_small (z : Z) :
  - 2 ^ 63 <= z < 2 ^ 63 -> int64_wrap z = z.
Proof.
  intros H. unfold int64_wrap.
  rewrite Z.mod_small by lia. lia.
Qed.

Lemma blen_nonneg (buf : buffer) : 0 <= blen buf.
Proof. unfold blen. lia. Qed.

Lemma byte_val_range (b : byte) : 0 <= byte_val b < 256.
Proof.
  unfold byte_val. pose proof (Byte.to_N_bounded b). lia.
Qed.

Lemma peek_some (buf : buffer) (ix : Z) :
  0 <= ix < blen buf -> exists b, peek buf ix = Some b.
Proof.
  intros [H0 H1]. unfold peek, blen in *.
  destruct (ix <? 0) eqn:E; [apply Z.ltb_lt in E; lia|].
  destruct (nth_error buf (Z.to_nat ix)) eqn:N; [eauto|].
  apply nth_error_None in N. lia.
Qed.

Lemma peek_range (buf : buffer) (ix : Z) (b : byte) :
  peek buf ix = Some b -> 0 <= ix < blen buf.
Proof.
  unfold peek, blen. destruct (ix <? 0) eqn:E; [discriminate|].
  apply Z.ltb_ge in E. intros N.
  assert (nth_error buf (Z.to_nat ix) <> None) as L by congruence.
  apply nth_error_Some in L. lia.
Qed.

Lemma peek8_range (buf : buffer) (ix c : Z) :
  peek8 buf ix = Some c -> 0 <= c < 256 /\ 0 <= ix < blen buf.
Proof.
  unfold peek8. destruct (peek buf ix) as [b|] eqn:E; [|discriminate].
  simpl. intros H. injection H as <-. split.
  - apply byte_val_range.
  - eapply peek_range; eassumption.
Qed.

Lemma peek8_none (buf : buffer) (ix : Z) :
  peek8 buf ix = None -> ix < 0 \/ blen buf <= ix.
Proof.
  unfold peek8. intros H.
  destruct (Z_lt_dec ix 0) as [|N]; [left; assumption|right].
  destruct (Z_le_dec (blen buf) ix) as [|M]; [assumption|].
  destruct (peek_some buf ix) as [b Hb]; [lia|].
  rewrite Hb in H. discriminate.
Qed.

Lemma peek16_range (be : bool) (buf : buffer) (ix c : Z) :
  peek16 be buf ix = Some c -> 0 <= c < 65536 /\ 0 <= ix /\ ix + 1 < blen buf.
Proof.
  unfold peek16.
  destruct (peek8 buf ix) as [a|] eqn:A; [|discriminate].
  destruct (peek8 buf (ix + 1)) as [b|] eqn:B; [|discriminate].
  apply peek8_range in A. apply peek8_range in B.
  intros H. injection H as <-. unfold unit_val. destruct be; lia.
Qed.

Lemma peek16_none (be : bool) (buf : buffer) (ix : Z) :
  peek16 be buf ix = None -> ix < 0 \/ blen buf <= ix + 1.
Proof.
  unfold peek16.
  destruct (peek8 buf ix) as [a|] eqn:A.
  - destruct (peek8 buf (ix + 1)) as [b|] eqn:B; [discriminate|].
    apply peek8_none in B. lia.
  - apply peek8_none in A. lia.
Qed.

Ltac bool_to_prop :=
  repeat match goal with
  | H : (_ <=? _) = true |- _ => apply Z.leb_le in H
  | H : (_ <=? _) = false |- _ => apply Z.leb_gt in H
  | H : (_ <? _) = true |- _ => apply Z.ltb_lt in H
  | H : (_ <? _) = false |- _ => apply Z.ltb_ge in H
  | H : (_ =? _) = true |- _ => apply Z.eqb_eq in H
  | H : (_ =? _) = false |- _ => apply Z.eqb_neq in H
  | H : (_ || _) = true |- _ => apply orb_true_iff in H
  | H : (_ || _) = false |- _ => apply orb_false_iff in H; destruct H
  | H : (_ && _) = true |- _ => apply andb_true_iff in H; destruct H
  | H : (_ && _) = false |- _ => apply andb_false_iff in H
  end.

Ltac break_if :=
  match goal with
  | |- context [if ?b then _ else _] =>
      lazymatch b with
      | context [if _ then _ else _] => fail
      | _ => destruct b eqn:?
      end
  end.

Ltac unfold_cursor :=
  unfold if_cond, and_then, holds, test, moved, lift2, lift3, lift4.

(** ** Loops that never exit

    A retreat macro that rejects leaves the cursor where it was, and the
    backward loops go round again without looking at the codepoint. *)

Lemma rinstr_text_scan1_stuck (read : Z -> option Z)
  (retreat : Z -> Z -> option cursor) (first ptr stacksize c cp : Z) :
  read ptr = Some c -> (c =? first) = false -> 0 < stacksize ->
  retreat ptr stacksize = Some (ptr, stacksize, cp) ->
  forall (fuel : nat) (found : Z),
    rinstr_text_scan1 fuel read retreat first ptr stacksize found = Timeout.
Proof.
  intros Hread Hne Hsize Hret fuel.
  induction fuel as [|fuel IH]; intros found; simpl; [reflexivity|].
  rewrite Hread, Hne.
  destruct (stacksize <=? 0) eqn:E; [apply Z.leb_le in E; lia|].
  rewrite Hret. apply IH.
Qed.

Lemma rinstr_text_scan_stuck (unit : Z) (retreat : Z -> Z -> option cursor)
  (haystack needle : buffer) (skips : bmh_skips)
  (needlesize ptr stacksize next cp : Z) :
  next < ptr -> 0 < stacksize ->
  retreat ptr stacksize = Some (ptr, stacksize, cp) ->
  forall (fuel : nat) (found : Z),
    rinstr_text_scan fuel unit retreat haystack needle skips needlesize
      ptr stacksize found next = Timeout.
Proof.
  intros Hnext Hsize Hret fuel.
  induction fuel as [|fuel IH]; intros found; simpl; [reflexivity|].
  unfold rinstr_window.
  destruct (ptr <=? next) eqn:E; [apply Z.leb_le in E; lia|].
  destruct (stacksize <=? 0) eqn:E0; [apply Z.leb_le in E0; lia|].
  rewrite Hret. apply IH.
Qed.

(** ** Encoding cursors *)

Lemma utf8_cp2_nonneg (a b : Z) : 0 <= utf8_cp2 a b.
Proof.
  unfold utf8_cp2. apply Z.lor_nonneg. split; apply Z.land_nonneg; right; lia.
Qed.

Lemma utf16_cp2_nonneg (a b : Z) : 0 <= utf16_cp2 a b.
Proof.
  unfold utf16_cp2. apply Z.lor_nonneg. split; apply Z.land_nonneg; right; lia.
Qed.

Lemma UTF8_ADVANCE_steps (buf : buffer) (ptr size ptr' size' cp : Z) :
  UTF8_ADVANCE buf ptr size = Some (ptr', size', cp) ->
  (ptr' = ptr /\ size' = size /\ cp = -1) \/
  (exists k, 1 <= k <= 4 /\ k <= size /\ ptr' = ptr + k /\
             size' = vsize_wrap (size - k) /\ 0 <= cp).
Proof.
  unfold UTF8_ADVANCE. unfold_cursor.
  destruct (peek8 buf ptr) as [c0|] eqn:P0;
  destruct (peek8 buf (ptr + 1)) as [c1|] eqn:P1;
  destruct (peek8 buf (ptr + 2)) as [c2|] eqn:P2;
  destruct (peek8 buf (ptr + 3)) as [c3|] eqn:P3; cbn [option_map];
  repeat break_if; try discriminate;
  intros H; injection H as <- <- <-; bool_to_prop; try lia.
  all: try (left; repeat split; reflexivity).
  all: try (apply peek8_range in P0).
  all: try (right; exists 1; repeat split; (lia || reflexivity)).
  all: try (right; exists 2; pose proof (utf8_cp2_nonneg c0 c1); repeat split; (lia || reflexivity)).
  all: try (right; exists 3; repeat split; (lia || reflexivity)).
  all: try (right; exists 4; repeat split; (lia || reflexivity)).
Qed.

Lemma UTF8_ADVANCE_defined (buf : buffer) (ptr size : Z) :
  0 <= ptr -> ptr + size <= blen buf ->
  exists cur, UTF8_ADVANCE buf ptr size = Some cur.
Proof.
  intros Hp Hs.
  unfold UTF8_ADVANCE. unfold_cursor.
  destruct (peek8 buf ptr) as [c0|] eqn:P0;
  destruct (peek8 buf (ptr + 1)) as [c1|] eqn:P1;
  destruct (peek8 buf (ptr + 2)) as [c2|] eqn:P2;
  destruct (peek8 buf (ptr + 3)) as [c3|] eqn:P3; cbn [option_map];
  repeat break_if; eauto; bool_to_prop;
  repeat match goal with H : peek8 _ _ = None |- _ => apply peek8_none in H end;
  lia.
Qed.

Lemma UTF16_ADVANCE_steps (be : bool) (buf : buffer) (ptr size ptr' size' cp : Z) :
  UTF16_ADVANCE be buf ptr size = Some (ptr', size', cp) ->
  (ptr' = ptr /\ size' = size /\ cp = -1) \/
  (exists k, (k = 2 \/ k = 4) /\ k <= size /\ ptr' = ptr + k /\
             size' = vsize_wrap (size - k) /\ 0 <= cp).
Proof.
  unfold UTF16_ADVANCE. unfold_cursor.
  destruct (peek16 be buf ptr) as [c0|] eqn:P0;
  destruct (peek16 be buf (ptr + 2)) as [c1|] eqn:P1; cbn [option_map];
  repeat break_if; try discriminate;
  intros H; injection H as <- <- <-; bool_to_prop; try lia.
  all: try (left; repeat split; reflexivity).
  all: try (apply peek16_range in P0).
  all: try (right; exists 2; repeat split; (lia || reflexivity || (left; reflexivity))).
  all: try (right; exists 4; pose proof (utf16_cp2_nonneg c0 c1); repeat split; (lia || reflexivity|| (right; reflexivity))).
Qed.

Lemma UTF16_ADVANCE_defined (be : bool) (buf : buffer) (ptr size : Z) :
  0 <= ptr -> ptr + size <= blen buf ->
  exists cur, UTF16_ADVANCE be buf ptr size = Some cur.
Proof.
  intros Hp Hs.
  unfold UTF16_ADVANCE. unfold_cursor.
  destruct (peek16 be buf ptr) as [c0|] eqn:P0;
  destruct (peek16 be buf (ptr + 2)) as [c1|] eqn:P1; cbn [option_map];
  repeat break_if; eauto; bool_to_prop;
  repeat match goal with H : peek16 _ _ _ = None |- _ => apply peek16_none in H end;
  lia.
Qed.

(** The third and fourth branches of [UTF8_RETREAT] ask of [ptr[-2]] what
    the second branch has just found false, so the macro moves by one byte,
    by two, or not at all: no three- or four-byte encoding is accepted. *)
Lemma UTF8_RETREAT_steps (buf : buffer) (ptr size ptr' size' cp : Z) :
  UTF8_RETREAT buf ptr size = Some (ptr', size', cp) ->
  (ptr' = ptr /\ size' = size /\ cp = -1) \/
  (ptr' = ptr - 1 /\ size' = vsize_wrap (size - 1) /\ 1 <= size
   /\ 0 <= cp < 0x80 /\ peek8 buf (ptr - 1) = Some cp) \/
  (ptr' = ptr - 2 /\ size' = vsize_wrap (size - 2) /\ 2 <= size /\
   exists c1 c2, peek8 buf (ptr - 1) = Some c1 /\ peek8 buf (ptr - 2) = Some c2
     /\ 0x80 <= c1 < 0xC0 /\ 0xC2 <= c2 < 0xE0 /\ cp = utf8_cp2 c2 c1).
Proof.
  unfold UTF8_RETREAT. unfold_cursor.
  destruct (peek8 buf (ptr - 1)) as [c1|] eqn:P1;
  destruct (peek8 buf (ptr - 2)) as [c2|] eqn:P2;
  destruct (peek8 buf (ptr - 3)) as [c3|] eqn:P3;
  destruct (peek8 buf (ptr - 4)) as [c4|] eqn:P4; cbn [option_map];
  repeat break_if; try discriminate;
  intros H; injection H as <- <- <-; bool_to_prop; try lia.
  all: try (left; repeat split; reflexivity).
  all: try (right; left; apply peek8_range in P1; repeat split; (lia || reflexivity)).
  all: try (right; right; repeat split; try lia; exists c1, c2; repeat split; (lia || reflexivity)).
Qed.

(** ** Comparison and skip tables *)

Lemma memcmp_defined (p : buffer) (q : buffer) (n : nat) :
  forall pp qq,
  0 <= pp -> pp + Z.of_nat n <= blen p ->
  0 <= qq -> qq + Z.of_nat n <= blen q ->
  exists r, memcmp p pp q qq n = Some r.
Proof.
  induction n as [|n IH]; intros pp qq Hp0 Hp1 Hq0 Hq1; cbn [memcmp].
  - eauto.
  - destruct (peek_some p pp) as [a ->]; [lia|].
    destruct (peek_some q qq) as [b ->]; [lia|].
    destruct (IH (pp + 1) (qq + 1)) as [r ->]; try lia. eauto.
Qed.

Lemma memcmp_true (p : buffer) (q : buffer) (n : nat) :
  forall pp qq,
  memcmp p pp q qq n = Some true <->
  (forall k, 0 <= k < Z.of_nat n ->
     exists b, peek p (pp + k) = Some b /\ peek q (qq + k) = Some b).
Proof.
  induction n as [|n IH]; intros pp qq; cbn [memcmp].
  - split; [intros _ k Hk; lia | reflexivity].
  - split.
    + destruct (peek p pp) as [a|] eqn:A; [|discriminate].
      destruct (peek q qq) as [b|] eqn:B; [|discriminate].
      destruct (memcmp p (pp + 1) q (qq + 1) n) as [r|] eqn:R; [|discriminate].
      intros H. injection H as H. apply andb_true_iff in H. destruct H as [Hab Hr].
      subst r. apply Byte.byte_dec_bl in Hab. subst b.
      intros k Hk. destruct (Z.eq_dec k 0) as [->|Hne].
      * rewrite !Z.add_0_r. eauto.
      * destruct (proj1 (IH _ _) R (k - 1)) as [c [Hc1 Hc2]]; [lia|].
        exists c. replace (pp + k) with (pp + 1 + (k - 1)) by lia.
        replace (qq + k) with (qq + 1 + (k - 1)) by lia. auto.
    + intros H.
      destruct (H 0) as [a [A B]]; [lia|]. rewrite Z.add_0_r in A, B.
      rewrite A, B.
      assert (memcmp p (pp + 1) q (qq + 1) n = Some true) as ->.
      { apply IH. intros k Hk. destruct (H (k + 1)) as [c [C D]]; [lia|].
        exists c. replace (pp + 1 + k) with (pp + (k + 1)) by lia.
        replace (qq + 1 + k) with (qq + (k + 1)) by lia. auto. }
      rewrite (Byte.byte_dec_lb (x:=a) (y:=a) eq_refl). reflexivity.
Qed.

Lemma Z_to_nat_blen (buf : buffer) : Z.to_nat (blen buf) = length buf.
Proof. unfold blen. apply Nat2Z.id. Qed.

Lemma memcmp_occ (h n : buffer) (i : Z) :
  0 <= i -> i + blen n <= blen h ->
  (memcmp h i n 0 (Z.to_nat (blen n)) = Some true /\ occ h n i) \/
  (memcmp h i n 0 (Z.to_nat (blen n)) = Some false /\ ~ occ h n i).
Proof.
  intros H0 H1. rewrite Z_to_nat_blen.
  destruct (memcmp_defined h n (length n) i 0) as [r Hr];
    try (unfold blen in *; lia).
  destruct r.
  - left. split; [exact Hr|]. split; [exact H0|]. split; [exact H1|].
    intros k Hk. destruct (proj1 (memcmp_true _ _ _ _ _) Hr k) as [b [A B]].
    + unfold blen in Hk. lia.
    + simpl in B. congruence.
  - right. split; [exact Hr|]. intros [_ [_ O]].
    assert (memcmp h i n 0 (length n) = Some true) as T; [|congruence].
    apply memcmp_true. intros k Hk.
    destruct (peek_some n k) as [b B]; [unfold blen; lia|].
    exists b. simpl. split; [|exact B]. rewrite O; [exact B|unfold blen; lia].
Qed.

Lemma skips_set_same (skips : bmh_skips) (c : byte) (v : Z) :
  skips_set skips c v c = v.
Proof.
  unfold skips_set. rewrite (Byte.byte_dec_lb (x:=c) (y:=c) eq_refl). reflexivity.
Qed.

Lemma skips_set_cases (skips : bmh_skips) (c c' : byte) (v : Z) :
  (c' = c /\ skips_set skips c v c' = v) \/
  (c' <> c /\ skips_set skips c v c' = skips c').
Proof.
  unfold skips_set. destruct (Byte.eqb c' c) eqn:E.
  - left. apply Byte.byte_dec_bl in E. auto.
  - right. apply Byte.eqb_false in E. auto.
Qed.

Lemma fbmh_fill_spec (needle : buffer) (limit M : Z) (todo : nat) :
  forall (ix : Z) (skips : bmh_skips),
  0 <= ix -> ix + Z.of_nat todo = limit -> limit <= blen needle ->
  limit < 2 ^ 32 ->
  (forall c, limit - ix < skips c <= M) ->
  exists t, fbmh_fill needle limit todo ix skips = Some t /\
    (forall c, 1 <= t c <= skips c) /\
    (forall j c, ix <= j < limit -> peek needle j = Some c -> t c <= limit - j).
Proof.
  induction todo as [|todo IH]; intros ix skips H0 Hsum Hlen Hlim Hpre;
    cbn [fbmh_fill].
  - exists skips. split; [reflexivity|]. split.
    + intros c. specialize (Hpre c). lia.
    + intros j c Hj. lia.
  - destruct (peek_some needle ix) as [c0 Hc0]; [lia|]. rewrite Hc0.
    rewrite vsize_wrap_small by lia.
    destruct (IH (ix + 1) (skips_set skips c0 (limit - ix))) as [t [Ht [Hb Hj]]];
      try lia.
    { intros c. specialize (Hpre c).
      destruct (skips_set_cases skips c0 c (limit - ix)) as [[-> E]|[N E]];
        rewrite E; lia. }
    exists t. split; [exact Ht|]. split.
    + intros c. specialize (Hb c). specialize (Hpre c).
      destruct (skips_set_cases skips c0 c (limit - ix)) as [[-> E]|[N E]];
        rewrite E in Hb; lia.
    + intros j c Hjr Hp. destruct (Z.eq_dec j ix) as [->|Hne].
      * assert (c = c0) as -> by congruence.
        specialize (Hb c0). rewrite skips_set_same in Hb. lia.
      * apply Hj; [lia|exact Hp].
Qed.

Lemma rbmh_fill_spec (needle : buffer) (M : Z) (ix : nat) :
  forall (skips : bmh_skips),
  Z.of_nat ix < blen needle ->
  (forall c, Z.of_nat ix < skips c <= M) ->
  exists t, rbmh_fill needle ix skips = Some t /\
    (forall c, 1 <= t c <= skips c) /\
    (forall j c, 1 <= j <= Z.of_nat ix -> peek needle j = Some c -> t c <= j).
Proof.
  induction ix as [|ix IH]; intros skips Hlen Hpre; cbn [rbmh_fill].
  - exists skips. split; [reflexivity|]. split.
    + intros c. specialize (Hpre c). lia.
    + intros j c Hj. lia.
  - destruct (peek_some needle (Z.of_nat (S ix))) as [c0 Hc0]; [lia|].
    rewrite Hc0.
    destruct (IH (skips_set skips c0 (Z.of_nat (S ix)))) as [t [Ht [Hb Hj]]];
      try lia.
    { intros c. specialize (Hpre c).
      destruct (skips_set_cases skips c0 c (Z.of_nat (S ix))) as [[-> E]|[N E]];
        rewrite E; lia. }
    exists t. split; [exact Ht|]. split.
    + intros c. specialize (Hb c). specialize (Hpre c).
      destruct (skips_set_cases skips c0 c (Z.of_nat (S ix))) as [[-> E]|[N E]];
        rewrite E in Hb; lia.
    + intros j c Hjr Hp. destruct (Z.eq_dec j (Z.of_nat (S ix))) as [->|Hne].
      * assert (c = c0) as -> by congruence.
        specialize (Hb c0). rewrite skips_set_same in Hb. lia.
      * apply Hj; [lia|exact Hp].
Qed.

Lemma fbmh_setup_spec (needle : buffer) :
  1 <= blen needle < 2 ^ 32 ->
  exists skips, fbmh_setup needle (blen needle) 0 = Some skips /\
                forward_table needle skips.
Proof.
  intros Hn. unfold fbmh_setup.
  rewrite vsize_wrap_small by lia.
  destruct (fbmh_fill_spec needle (blen needle - 1) (blen needle)
              (Z.to_nat (blen needle - 1)) 0 (fun _ => blen needle))
    as [t [Ht [Hb Hj]]]; try lia.
  rewrite Ht. exists t. split; [reflexivity|]. split.
  - intros c. specialize (Hb c). lia.
  - intros j c Hjr Hp. apply Hj; [lia|exact Hp].
Qed.

Lemma rbmh_setup_spec (needle : buffer) :
  1 <= blen needle < 2 ^ 32 ->
  exists skips, rbmh_setup needle (blen needle) 0 = Some skips /\
                backward_table needle skips.
Proof.
  intros Hn. unfold rbmh_setup.
  rewrite vsize_wrap_small by lia.
  destruct (rbmh_fill_spec needle (blen needle)
              (Z.to_nat (blen needle - 1)) (fun _ => blen needle))
    as [t [Ht [Hb Hj]]]; try lia.
  rewrite Ht. exists t. split; [reflexivity|]. split.
  - intros c. specialize (Hb c). lia.
  - intros j c Hjr Hp. apply Hj; [lia|exact Hp].
Qed.

(** ** The BLOB engines *)

Lemma instr_blob_scan_spec (h n : buffer) (skips : bmh_skips) (lo : Z)
  (fuel : nat) :
  forward_table n skips -> 2 <= blen n -> blen h < 2 ^ 32 -> 0 <= lo ->
  forall ptr,
  lo <= ptr <= blen h -> blen h - ptr < Z.of_nat fuel ->
  (forall i, lo <= i < ptr -> ~ occ h n i) ->
  exists r,
    instr_blob_scan fuel h n skips (blen n) ptr (blen h - ptr) (ptr + 1)
    = Ret r /\ first_from h n lo r.
Proof.
  intros [Hb Hj] Hn Hh Hlo.
  induction fuel as [|fuel IH]; intros ptr Hptr Hfuel Hinv; [lia|].
  cbn [instr_blob_scan].
  destruct (blen n <=? blen h - ptr) eqn:Efit.
  - apply Z.leb_le in Efit.
    destruct (memcmp_occ h n ptr) as [[-> Hocc]|[-> Hnocc]]; try lia.
    + exists (ptr + 1). split; [reflexivity|]. right.
      split; [lia|]. replace (ptr + 1 - 1) with ptr by lia.
      split; [exact Hocc|].
      intros i Hi Ho. destruct (Z_lt_dec i ptr) as [L|]; [|lia].
      exfalso. apply (Hinv i); [lia|exact Ho].
    + destruct (peek_some h (ptr + (blen n - 1))) as [c Hc]; [lia|].
      rewrite Hc. pose proof (Hb c) as Hskip.
      rewrite vsize_wrap_small by lia.
      rewrite int64_wrap_small by lia.
      replace (blen h - ptr - skips c) with (blen h - (ptr + skips c)) by lia.
      replace (ptr + 1 + skips c) with (ptr + skips c + 1) by lia.
      apply IH; try lia.
      intros i Hi Ho.
      destruct (Z_lt_dec i ptr) as [L|G]; [apply (Hinv i); [lia|exact Ho]|].
      destruct (Z.eq_dec i ptr) as [->|Hne]; [exact (Hnocc Ho)|].
      destruct Ho as [_ [_ Ho]].
      specialize (Ho (blen n - 1 - (i - ptr))).
      replace (i + (blen n - 1 - (i - ptr))) with (ptr + (blen n - 1)) in Ho by lia.
      rewrite Hc in Ho.
      assert (skips c <= blen n - 1 - (blen n - 1 - (i - ptr))) as Hle.
      { apply Hj; [lia|]. symmetry. apply Ho. lia. }
      lia.
  - apply Z.leb_gt in Efit. exists 0. split; [reflexivity|]. left.
    split; [reflexivity|]. intros i Hi Ho.
    destruct (Z_lt_dec i ptr) as [L|G]; [apply (Hinv i); [lia|exact Ho]|].
    destruct Ho as [_ [Ho _]]. lia.
Qed.

Lemma peek8_byte (buf : buffer) (ix : Z) (b : byte) :
  peek buf ix = Some b -> peek8 buf ix = Some (byte_val b).
Proof. unfold peek8. intros ->. reflexivity. Qed.

Lemma byte_val_inj (a b : byte) : byte_val a = byte_val b -> a = b.
Proof.
  unfold byte_val. intros H. apply N2Z.inj in H.
  pose proof (Byte.of_to_N a) as Ha. pose proof (Byte.of_to_N b) as Hb'.
  rewrite H in Ha. congruence.
Qed.

(** A one-byte needle occurs where its byte is. *)
Lemma occ_single (h n : buffer) (first : byte) (i : Z) :
  blen n = 1 -> peek n 0 = Some first ->
  (occ h n i <-> peek h i = Some first).
Proof.
  intros Hn Hf. split.
  - intros [H0 [H1 Hk]]. specialize (Hk 0). rewrite Z.add_0_r in Hk.
    rewrite Hk by lia. exact Hf.
  - intros Hp. pose proof (peek_range _ _ _ Hp) as R.
    split; [lia|]. split; [lia|]. intros k Hk.
    assert (k = 0) as -> by lia. rewrite Z.add_0_r. congruence.
Qed.

Lemma instr_blob_scan1_spec (h n : buffer) (first : byte) (lo : Z)
  (fuel : nat) :
  blen n = 1 -> peek n 0 = Some first -> blen h < 2 ^ 32 -> 0 <= lo ->
  forall ptr,
  lo <= ptr <= blen h -> blen h - ptr < Z.of_nat fuel ->
  (forall i, lo <= i < ptr -> ~ occ h n i) ->
  exists r,
    instr_blob_scan1 fuel h (byte_val first) ptr (blen h - ptr) (ptr + 1)
    = Ret r /\ first_from h n lo r.
Proof.
  intros Hn Hf Hh Hlo.
  induction fuel as [|fuel IH]; intros ptr Hptr Hfuel Hinv; [lia|].
  cbn [instr_blob_scan1].
  destruct (0 <? blen h - ptr) eqn:Efit.
  - apply Z.ltb_lt in Efit.
    destruct (peek_some h ptr) as [c Hc]; [lia|].
    rewrite (peek8_byte _ _ _ Hc).
    destruct (byte_val c =? byte_val first) eqn:E.
    + apply Z.eqb_eq in E. apply byte_val_inj in E. subst c.
      exists (ptr + 1). split; [reflexivity|]. right.
      split; [lia|]. replace (ptr + 1 - 1) with ptr by lia.
      split; [apply (occ_single h n first); assumption|].
      intros i Hi Ho. destruct (Z_lt_dec i ptr) as [L|]; [|lia].
      exfalso. apply (Hinv i); [lia|exact Ho].
    + apply Z.eqb_neq in E.
      rewrite vsize_wrap_small by lia.
      rewrite int64_wrap_small by lia.
      replace (blen h - ptr - 1) with (blen h - (ptr + 1)) by lia.
      apply IH; try lia.
      intros i Hi Ho.
      destruct (Z_lt_dec i ptr) as [L|G]; [apply (Hinv i); [lia|exact Ho]|].
      assert (i = ptr) as -> by lia.
      apply (occ_single h n first) in Ho; try assumption.
      congruence.
  - apply Z.ltb_ge in Efit. exists 0. split; [reflexivity|]. left.
    split; [reflexivity|]. intros i Hi Ho.
    destruct (Z_lt_dec i ptr) as [L|G]; [apply (Hinv i); [lia|exact Ho]|].
    destruct Ho as [_ [Ho _]]. lia.
Qed.

Lemma rinstr_blob_scan_spec (h n : buffer) (skips : bmh_skips) (hi : Z)
  (fuel : nat) :
  backward_table n skips -> 2 <= blen n -> blen h < 2 ^ 32 ->
  forall ptr,
  0 <= ptr <= hi -> ptr + blen n <= blen h -> ptr < Z.of_nat fuel ->
  (forall i, ptr < i <= hi -> ~ occ h n i) ->
  exists r,
    rinstr_blob_scan fuel h n skips (blen n) ptr ptr (ptr + 1) = Ret r /\
    last_upto h n hi r.
Proof.
  intros [Hb Hj] Hn Hh.
  induction fuel as [|fuel IH]; intros ptr Hptr Hfit Hfuel Hinv; [lia|].
  cbn [rinstr_blob_scan].
  destruct (memcmp_occ h n ptr) as [[-> Hocc]|[-> Hnocc]]; try lia.
  - exists (ptr + 1). split; [reflexivity|]. right.
    split; [lia|]. replace (ptr + 1 - 1) with ptr by lia.
    split; [exact Hocc|].
    intros i Hi Ho. destruct (Z_lt_dec ptr i) as [L|]; [|lia].
    exfalso. apply (Hinv i); [lia|exact Ho].
  - destruct (peek_some h ptr) as [c Hc]; [lia|].
    rewrite Hc. pose proof (Hb c) as Hskip.
    assert (forall i, ptr - skips c < i <= hi -> ~ occ h n i) as Hinv'.
    { intros i Hi Ho.
      destruct (Z_lt_dec ptr i) as [L|G]; [apply (Hinv i); [lia|exact Ho]|].
      destruct (Z.eq_dec i ptr) as [->|Hne]; [exact (Hnocc Ho)|].
      destruct Ho as [_ [_ Ho]].
      specialize (Ho (ptr - i)).
      replace (i + (ptr - i)) with ptr in Ho by lia.
      rewrite Hc in Ho.
      assert (skips c <= ptr - i) as Hle.
      { apply Hj; [lia|]. symmetry. apply Ho. lia. }
      lia. }
    destruct (ptr <? skips c) eqn:E.
    + apply Z.ltb_lt in E. exists 0. split; [reflexivity|]. left.
      split; [reflexivity|]. intros i Hi Ho.
      destruct (Z_lt_dec (ptr - skips c) i) as [L|G];
        [apply (Hinv' i); [lia|exact Ho]|].
      destruct Ho as [Ho _]. lia.
    + apply Z.ltb_ge in E.
      rewrite vsize_wrap_small by lia.
      rewrite int64_wrap_small by lia.
      replace (ptr + 1 - skips c) with (ptr - skips c + 1) by lia.
      apply IH; try lia. exact Hinv'.
Qed.

Lemma rinstr_blob_scan1_spec (h n : buffer) (first : byte) (hi : Z)
  (fuel : nat) :
  blen n = 1 -> peek n 0 = Some first -> blen h < 2 ^ 32 ->
  forall ptr,
  0 <= ptr <= hi -> ptr + blen n <= blen h -> ptr < Z.of_nat fuel ->
  (forall i, ptr < i <= hi -> ~ occ h n i) ->
  exists r,
    rinstr_blob_scan1 fuel h (byte_val first) ptr ptr (ptr + 1) = Ret r /\
    last_upto h n hi r.
Proof.
  intros Hn Hf Hh.
  induction fuel as [|fuel IH]; intros ptr Hptr Hfit Hfuel Hinv; [lia|].
  cbn [rinstr_blob_scan1].
  destruct (peek_some h ptr) as [c Hc]; [lia|].
  rewrite (peek8_byte _ _ _ Hc).
  destruct (byte_val c =? byte_val first) eqn:E.
  - apply Z.eqb_eq in E. apply byte_val_inj in E. subst c.
    exists (ptr + 1). split; [reflexivity|]. right.
    split; [lia|]. replace (ptr + 1 - 1) with ptr by lia.
    split; [apply (occ_single h n first); assumption|].
    intros i Hi Ho. destruct (Z_lt_dec ptr i) as [L|]; [|lia].
    exfalso. apply (Hinv i); [lia|exact Ho].
  - apply Z.eqb_neq in E.
    assert (~ occ h n ptr) as Hnocc.
    { intros Ho. apply (occ_single h n first) in Ho; try assumption.
      congruence. }
    destruct (ptr <=? 0) eqn:E0.
    + apply Z.leb_le in E0. exists 0. split; [reflexivity|]. left.
      split; [reflexivity|]. intros i Hi Ho.
      destruct (Z_lt_dec ptr i) as [L|G]; [apply (Hinv i); [lia|exact Ho]|].
      destruct (Z.eq_dec i ptr) as [->|Hne]; [exact (Hnocc Ho)|].
      destruct Ho as [Ho _]. lia.
    + apply Z.leb_gt in E0.
      rewrite vsize_wrap_small by lia.
      rewrite int64_wrap_small by lia.
      replace (ptr + 1 - 1) with (ptr - 1 + 1) by lia.
      apply IH; try lia.
      intros i Hi Ho.
      destruct (Z_lt_dec ptr i) as [L|G]; [apply (Hinv i); [lia|exact Ho]|].
      assert (i = ptr) as -> by lia. exact (Hnocc Ho).
Qed.

Lemma blen_nil_iff (buf : buffer) : blen buf = 0 <-> buf = [].
Proof.
  unfold blen. destruct buf; simpl; split; intros H; try reflexivity;
    try discriminate; lia.
Qed.

Lemma instr_blob_spec (fuel : nat) (h n : buffer) (start : Z) :
  blen h <= INT_MAX -> blen n <= INT_MAX ->
  - 2 ^ 63 <= start < 2 ^ 63 ->
  blen h < Z.of_nat fuel ->
  exists r,
    instr_blob fuel h (blen h) n (blen n) start = Ret r /\
    0 <= r <= blen h + 1 /\
    (n <> [] -> first_from h n (Z.max 0 (start - 1)) r).
Proof.
  intros Hh Hn Hstart Hfuel. unfold INT_MAX in *.
  pose proof (blen_nonneg h) as Hh0. pose proof (blen_nonneg n) as Hn0.
  assert (forall ptr, 0 <= ptr <= blen h ->
            exists r,
              instr_blob_from fuel h n (blen n) ptr (blen h - ptr) (ptr + 1)
              = Ret r /\ 0 <= r <= blen h + 1 /\
              (n <> [] -> first_from h n ptr r)) as Hfrom.
  { intros ptr Hptr. unfold instr_blob_from.
    destruct (blen h - ptr <? blen n) eqn:E1.
    { apply Z.ltb_lt in E1. exists 0. split; [reflexivity|]. split; [lia|].
      intros _. left. split; [reflexivity|]. intros i Hi [_ [Ho _]]. lia. }
    apply Z.ltb_ge in E1.
    destruct (blen n <=? 0) eqn:E2.
    { apply Z.leb_le in E2. exists (ptr + 1). split; [reflexivity|].
      split; [lia|]. intros Hne. exfalso. apply Hne. apply blen_nil_iff. lia. }
    apply Z.leb_gt in E2.
    assert (forall r, first_from h n ptr r -> 0 <= r <= blen h + 1) as Hrange.
    { intros r [[-> _]|[Hr [[_ [Ho _]] _]]]; lia. }
    destruct (1 <? blen n) eqn:E3.
    - apply Z.ltb_lt in E3.
      destruct (fbmh_setup_spec n) as [skips [-> Htab]]; [lia|].
      destruct (instr_blob_scan_spec h n skips ptr fuel Htab) with (ptr := ptr)
        as [r [Hr Hf]]; try lia.
      exists r. split; [exact Hr|]. split; [apply Hrange; exact Hf|].
      intros _. exact Hf.
    - apply Z.ltb_ge in E3.
      destruct (peek_some n 0) as [first Hfirst]; [lia|].
      rewrite (peek8_byte _ _ _ Hfirst).
      destruct (instr_blob_scan1_spec h n first ptr fuel) with (ptr := ptr)
        as [r [Hr Hf]]; try lia; try assumption.
      exists r. split; [exact Hr|]. split; [apply Hrange; exact Hf|].
      intros _. exact Hf. }
  unfold instr_blob.
  destruct (1 <? start) eqn:E.
  - apply Z.ltb_lt in E. rewrite int64_wrap_small by lia.
    destruct (blen h <? start - 1) eqn:E1.
    + apply Z.ltb_lt in E1. exists 0. split; [reflexivity|]. split; [lia|].
      intros _. left. split; [reflexivity|]. intros i Hi [_ [Ho _]]. lia.
    + apply Z.ltb_ge in E1. rewrite vsize_wrap_small by lia.
      destruct (Hfrom (start - 1)) as [r [Hr [Hrange Hf]]]; [lia|].
      replace (start - 1 + 1) with start in Hr by lia.
      exists r. split; [exact Hr|]. split; [exact Hrange|].
      replace (Z.max 0 (start - 1)) with (start - 1) by lia. exact Hf.
  - apply Z.ltb_ge in E.
    destruct (Hfrom 0) as [r [Hr [Hrange Hf]]]; [lia|].
    replace (blen h - 0) with (blen h) in Hr by lia.
    exists r. split; [exact Hr|]. split; [exact Hrange|].
    replace (Z.max 0 (start - 1)) with 0 by lia. exact Hf.
Qed.

Lemma rinstr_blob_spec (fuel : nat) (h n : buffer) (start : Z) :
  blen h <= INT_MAX -> blen n <= INT_MAX ->
  - 2 ^ 63 <= start < 2 ^ 63 ->
  blen h < Z.of_nat fuel ->
  exists r,
    rinstr_blob fuel h (blen h) n (blen n) start = Ret r /\
    0 <= r <= blen h + 1 /\
    (n <> [] -> last_upto h n (Z.min (start - 1) (blen h - blen n)) r).
Proof.
  intros Hh Hn Hstart Hfuel. unfold INT_MAX in *.
  pose proof (blen_nonneg h) as Hh0. pose proof (blen_nonneg n) as Hn0.
  remember (Z.min (start - 1) (blen h - blen n)) as hi eqn:Ehi.
  assert (0 <= hi <= blen h - blen n ->
          exists r,
            rinstr_blob_from fuel h n (blen n) hi hi (hi + 1) = Ret r /\
            0 <= r <= blen h + 1 /\ (n <> [] -> last_upto h n hi r)) as Hfrom.
  { intros Hhi. unfold rinstr_blob_from.
    destruct (blen n <=? 0) eqn:E2.
    { apply Z.leb_le in E2. exists (hi + 1). split; [reflexivity|].
      split; [lia|]. intros Hne. exfalso. apply Hne. apply blen_nil_iff. lia. }
    apply Z.leb_gt in E2.
    assert (forall r, last_upto h n hi r -> 0 <= r <= blen h + 1) as Hrange.
    { intros r [[-> _]|[Hr _]]; lia. }
    destruct (1 <? blen n) eqn:E3.
    - apply Z.ltb_lt in E3.
      destruct (rbmh_setup_spec n) as [skips [-> Htab]]; [lia|].
      destruct (rinstr_blob_scan_spec h n skips hi fuel Htab) with (ptr := hi)
        as [r [Hr Hf]]; try lia.
      exists r. split; [exact Hr|]. split; [apply Hrange; exact Hf|].
      intros _. exact Hf.
    - apply Z.ltb_ge in E3.
      destruct (peek_some n 0) as [first Hfirst]; [lia|].
      rewrite (peek8_byte _ _ _ Hfirst).
      destruct (rinstr_blob_scan1_spec h n first hi fuel) with (ptr := hi)
        as [r [Hr Hf]]; try lia; try assumption.
      exists r. split; [exact Hr|]. split; [apply Hrange; exact Hf|].
      intros _. exact Hf. }
  unfold rinstr_blob.
  destruct (start <=? 0) eqn:E0.
  { apply Z.leb_le in E0. exists 0. split; [reflexivity|]. split; [lia|].
    intros _. left. split; [reflexivity|]. intros i Hi [Ho _]. lia. }
  apply Z.leb_gt in E0.
  destruct (blen h <? blen n) eqn:E1.
  { apply Z.ltb_lt in E1. exists 0. split; [reflexivity|]. split; [lia|].
    intros _. left. split; [reflexivity|]. intros i Hi [Ho _]. lia. }
  apply Z.ltb_ge in E1.
  assert (0 <= hi <= blen h - blen n) as Hhi by lia.
  specialize (Hfrom Hhi).
  destruct (1 <? start) eqn:E2.
  - apply Z.ltb_lt in E2.
    rewrite (vsize_wrap_small (blen h - blen n)) by lia.
    rewrite int64_wrap_small by lia.
    destruct (blen h - blen n <? start - 1) eqn:E3.
    + apply Z.ltb_lt in E3.
      rewrite (vsize_wrap_small (blen h - blen n + 1)) by lia.
      replace (blen h - blen n + 1 - 1) with (blen h - blen n) by lia.
      rewrite vsize_wrap_small by lia.
      assert (hi = blen h - blen n) as EE by lia.
      rewrite EE in Hfrom |- *. exact Hfrom.
    + apply Z.ltb_ge in E3. rewrite vsize_wrap_small by lia.
      assert (hi = start - 1) as EE by lia.
      rewrite EE in Hfrom |- *.
      replace (start - 1 + 1) with start in Hfrom by lia.
      exact Hfrom.
  - apply Z.ltb_ge in E2.
    assert (hi = 0) as EE by lia.
    rewrite EE in Hfrom |- *. exact Hfrom.
Qed.

(** ** The reference search *)

Lemma peek_nth_error (buf : buffer) (k : nat) :
  peek buf (Z.of_nat k) = nth_error buf k.
Proof.
  unfold peek. destruct (Z.of_nat k <? 0) eqn:E; [apply Z.ltb_lt in E; lia|].
  rewrite Nat2Z.id. reflexivity.
Qed.

Lemma is_prefix_spec (n : buffer) :
  forall l : buffer,
  is_prefix n l = true <->
  ((length n <= length l)%nat /\
   forall k, (k < length n)%nat -> nth_error l k = nth_error n k).
Proof.
  induction n as [|a n IH]; intros l; cbn [is_prefix].
  - split; [|reflexivity]. intros _. split; [simpl; lia|].
    intros k Hk. simpl in Hk. lia.
  - destruct l as [|b l].
    + split; [discriminate|]. intros [H _]. simpl in H. lia.
    + rewrite andb_true_iff, IH. split.
      * intros [Hab [Hlen Hk]]. apply Byte.byte_dec_bl in Hab. subst b.
        split; [simpl; lia|]. intros [|k] Hlt; [reflexivity|].
        simpl. apply Hk. simpl in Hlt. lia.
      * intros [Hlen Hk]. split; [|split].
        -- specialize (Hk 0%nat). simpl in Hk.
           assert (Some b = Some a) as E by (apply Hk; lia).
           injection E as ->. apply Byte.byte_dec_lb. reflexivity.
        -- simpl in Hlen. lia.
        -- intros k Hlt. apply (Hk (S k)). simpl. lia.
Qed.

Lemma occurs_at_occ (h n : buffer) (i : nat) :
  n <> [] -> (occurs_at h n i = true <-> occ h n (Z.of_nat i)).
Proof.
  intros Hne. unfold occurs_at, occ. rewrite is_prefix_spec.
  rewrite length_skipn. unfold blen.
  assert (0 < length n)%nat as Hpos by (destruct n; [congruence|simpl; lia]).
  split.
  - intros [Hlen Hk]. split; [lia|]. split; [lia|].
    intros k Hkr. rewrite <- (Z2Nat.id k) by lia.
    rewrite <- Nat2Z.inj_add. rewrite !peek_nth_error.
    rewrite <- nth_error_skipn. apply Hk. lia.
  - intros [_ [Hlen Hk]]. split; [lia|].
    intros k Hkr. rewrite nth_error_skipn. rewrite <- !peek_nth_error.
    rewrite Nat2Z.inj_add. apply Hk. lia.
Qed.

Lemma occurs_at_cons (x : byte) (h n : buffer) (i : nat) :
  occurs_at (x :: h) n (S i) = occurs_at h n i.
Proof. reflexivity. Qed.

Lemma occurs_at_nil (n : buffer) (i : nat) :
  n <> [] -> occurs_at [] n i = false.
Proof.
  intros Hne. unfold occurs_at. rewrite skipn_nil.
  destruct n; [congruence|reflexivity].
Qed.

Lemma naive_first_from_spec (n : buffer) :
  n <> [] ->
  forall (h : buffer) (pos : Z),
  ((forall i, occurs_at h n i = false) /\ naive_first_from h n pos = 0) \/
  (exists i, occurs_at h n i = true /\
             (forall j, (j < i)%nat -> occurs_at h n j = false) /\
             naive_first_from h n pos = pos + Z.of_nat i).
Proof.
  intros Hne. induction h as [|x h IH]; intros pos; cbn [naive_first_from].
  - left. destruct n as [|a n]; [congruence|]. cbn [is_prefix].
    split; [|reflexivity]. intros i. apply occurs_at_nil. discriminate.
  - destruct (is_prefix n (x :: h)) eqn:E.
    + right. exists 0%nat. split; [exact E|]. split; [intros j Hj; lia|].
      simpl. lia.
    + destruct (IH (pos + 1)) as [[Hall Hz]|[i [Hi [Hmin Hv]]]].
      * left. split; [|exact Hz]. intros [|i]; [exact E|].
        rewrite occurs_at_cons. apply Hall.
      * right. exists (S i). split; [rewrite occurs_at_cons; exact Hi|].
        split.
        -- intros [|j] Hj; [exact E|]. rewrite occurs_at_cons.
           apply Hmin. lia.
        -- rewrite Hv. lia.
Qed.

Lemma naive_last_from_spec (n : buffer) :
  n <> [] ->
  forall (h : buffer) (pos : Z), 0 < pos ->
  ((forall i, occurs_at h n i = false) /\ naive_last_from h n pos = 0) \/
  (exists i, occurs_at h n i = true /\
             (forall j, (i < j)%nat -> occurs_at h n j = false) /\
             naive_last_from h n pos = pos + Z.of_nat i).
Proof.
  intros Hne. induction h as [|x h IH]; intros pos Hpos;
    cbn [naive_last_from].
  - left. destruct n as [|a n]; [congruence|]. cbn [is_prefix].
    split; [|reflexivity]. intros i. apply occurs_at_nil. discriminate.
  - destruct (IH (pos + 1)) as [[Hall Hz]|[i [Hi [Hmax Hv]]]]; [lia| |].
    + rewrite Hz. cbn [Z.eqb].
      destruct (is_prefix n (x :: h)) eqn:E.
      * right. exists 0%nat. split; [exact E|]. split.
        -- intros [|j] Hj; [lia|]. rewrite occurs_at_cons. apply Hall.
        -- simpl. lia.
      * left. split; [|reflexivity]. intros [|i]; [exact E|].
        rewrite occurs_at_cons. apply Hall.
    + rewrite Hv.
      destruct (pos + 1 + Z.of_nat i =? 0) eqn:E0;
        [apply Z.eqb_eq in E0; lia|].
      right. exists (S i). split; [rewrite occurs_at_cons; exact Hi|].
      split.
      * intros [|j] Hj; [lia|]. rewrite occurs_at_cons. apply Hmax. lia.
      * lia.
Qed.

Lemma first_from_naive (h n : buffer) (r : Z) :
  n <> [] -> first_from h n 0 r -> r = naive_first h n.
Proof.
  intros Hne Hf. unfold naive_first.
  destruct (naive_first_from_spec n Hne h 1) as [[Hall ->]|[i [Hi [Hmin ->]]]];
    destruct Hf as [[-> Hno]|[Hr [Ho Hfirst]]].
  - reflexivity.
  - exfalso. specialize (Hall (Z.to_nat (r - 1))).
    assert (occurs_at h n (Z.to_nat (r - 1)) = true) as T; [|congruence].
    apply occurs_at_occ; [exact Hne|]. rewrite Z2Nat.id by lia. exact Ho.
  - exfalso. apply (Hno (Z.of_nat i)); [lia|].
    apply occurs_at_occ; assumption.
  - assert (r - 1 <= Z.of_nat i) as Hle.
    { apply Hfirst; [lia|]. apply occurs_at_occ; assumption. }
    destruct (Z_lt_dec (r - 1) (Z.of_nat i)) as [L|G]; [|lia].
    exfalso. specialize (Hmin (Z.to_nat (r - 1))).
    assert (occurs_at h n (Z.to_nat (r - 1)) = true) as T.
    { apply occurs_at_occ; [exact Hne|]. rewrite Z2Nat.id by lia. exact Ho. }
    rewrite Hmin in T by lia. discriminate.
Qed.

Lemma last_upto_naive (h n : buffer) (r : Z) :
  n <> [] -> last_upto h n (blen h - blen n) r -> r = naive_last h n.
Proof.
  intros Hne Hf. unfold naive_last.
  destruct (naive_last_from_spec n Hne h 1) as [[Hall ->]|[i [Hi [Hmax ->]]]];
    [lia| |]; destruct Hf as [[-> Hno]|[Hr [Ho Hlast]]].
  - reflexivity.
  - exfalso. specialize (Hall (Z.to_nat (r - 1))).
    assert (occurs_at h n (Z.to_nat (r - 1)) = true) as T; [|congruence].
    apply occurs_at_occ; [exact Hne|]. rewrite Z2Nat.id by lia. exact Ho.
  - exfalso. apply occurs_at_occ in Hi; [|exact Hne].
    apply (Hno (Z.of_nat i)); [|exact Hi]. destruct Hi as [_ [Hi _]]. lia.
  - apply occurs_at_occ in Hi; [|exact Hne].
    assert (Z.of_nat i <= r - 1) as Hle.
    { apply Hlast; [|exact Hi]. destruct Hi as [_ [Hi _]]. lia. }
    destruct (Z_lt_dec (Z.of_nat i) (r - 1)) as [L|G]; [|lia].
    exfalso. specialize (Hmax (Z.to_nat (r - 1))).
    assert (occurs_at h n (Z.to_nat (r - 1)) = true) as T.
    { apply occurs_at_occ; [exact Hne|]. rewrite Z2Nat.id by lia. exact Ho. }
    rewrite Hmax in T by lia. discriminate.
Qed.

(** ** What the BLOB engines answer *)

(** C1: for a non-empty needle, the forward BLOB search from the default
    start answers what the naive left-to-right search answers and the
    backward BLOB search from the default start answers what the naive
    right-to-left search answers.  When the needle occurs nowhere both
    answers are 0; when it occurs, the forward answer is the 1-based
    position of the first occurrence and the backward answer that of the
    last, and the two agree when the occurrence is unique. *)
Theorem blob_search_first_and_last (fuel : nat) (h n : buffer) :
  n <> [] -> blen h <= INT_MAX -> blen n <= INT_MAX ->
  (length h < fuel)%nat ->
  let p := naive_first h n in
  let q := naive_last h n in
  instr_blob fuel h (blen h) n (blen n) 1 = Ret p /\
  rinstr_blob fuel h (blen h) n (blen n) INT64_MAX = Ret q /\
  ((forall i, occurs_at h n i = false) -> p = 0 /\ q = 0) /\
  (forall i, occurs_at h n i = true ->
     1 <= p <= Z.of_nat i + 1 /\ Z.of_nat i + 1 <= q /\
     occurs_at h n (Z.to_nat (p - 1)) = true /\
     occurs_at h n (Z.to_nat (q - 1)) = true /\
     (forall j, (j < Z.to_nat (p - 1))%nat -> occurs_at h n j = false) /\
     (forall j, (Z.to_nat (q - 1) < j)%nat -> occurs_at h n j = false)) /\
  (forall i, occurs_at h n i = true ->
     (forall j, occurs_at h n j = true -> j = i) -> p = q).
Proof.
  intros Hne Hh Hn Hfuel p q.
  assert (blen h < Z.of_nat fuel) as Hfuel' by (unfold blen; lia).
  destruct (instr_blob_spec fuel h n 1 Hh Hn) as [r [Hr [_ Hf]]];
    [lia|exact Hfuel'|].
  destruct (rinstr_blob_spec fuel h n INT64_MAX Hh Hn) as [s [Hs [_ Hl]]];
    [unfold INT64_MAX; lia|exact Hfuel'|].
  specialize (Hf Hne). specialize (Hl Hne).
  replace (Z.max 0 (1 - 1)) with 0 in Hf by lia.
  pose proof (blen_nonneg h) as Hh0. pose proof (blen_nonneg n) as Hn0.
  replace (Z.min (INT64_MAX - 1) (blen h - blen n)) with (blen h - blen n)
    in Hl by (unfold INT64_MAX, INT_MAX in *; lia).
  assert (r = p) as -> by (apply first_from_naive; assumption).
  assert (s = q) as -> by (apply last_upto_naive; assumption).
  assert (forall i, occurs_at h n i = true ->
     1 <= p <= Z.of_nat i + 1 /\ Z.of_nat i + 1 <= q /\
     occurs_at h n (Z.to_nat (p - 1)) = true /\
     occurs_at h n (Z.to_nat (q - 1)) = true /\
     (forall j, (j < Z.to_nat (p - 1))%nat -> occurs_at h n j = false) /\
     (forall j, (Z.to_nat (q - 1) < j)%nat -> occurs_at h n j = false)) as Hocc.
  { intros i Hi. apply occurs_at_occ in Hi; [|exact Hne].
    destruct Hf as [[_ Hno]|[Hp [Hop Hfirst]]];
      [exfalso; apply (Hno (Z.of_nat i)); [lia|exact Hi]|].
    destruct Hl as [[_ Hno]|[Hq [Hoq Hlast]]].
    { exfalso. apply (Hno (Z.of_nat i)); [|exact Hi].
      destruct Hi as [_ [Hi _]]. lia. }
    assert (Z.of_nat i <= blen h - blen n) as Hfit
      by (destruct Hi as [_ [Hi _]]; lia).
    pose proof (Hfirst (Z.of_nat i) ltac:(lia) Hi). pose proof (Hlast _ Hfit Hi).
    split; [lia|]. split; [lia|]. split; [|split; [|split]].
    - apply occurs_at_occ; [exact Hne|]. rewrite Z2Nat.id by lia. exact Hop.
    - apply occurs_at_occ; [exact Hne|]. rewrite Z2Nat.id by lia. exact Hoq.
    - intros j Hj. destruct (occurs_at h n j) eqn:E; [|reflexivity].
      apply occurs_at_occ in E; [|exact Hne].
      pose proof (Hfirst (Z.of_nat j) ltac:(lia) E). lia.
    - intros j Hj. destruct (occurs_at h n j) eqn:E; [|reflexivity].
      apply occurs_at_occ in E; [|exact Hne].
      assert (Z.of_nat j <= blen h - blen n) as Hfitj
        by (destruct E as [_ [E _]]; lia).
      pose proof (Hlast _ Hfitj E). lia. }
  split; [exact Hr|]. split; [exact Hs|]. split; [|split; [exact Hocc|]].
  - intros Hall.
    destruct Hf as [[-> _]|[Hp [Hop _]]].
    + destruct Hl as [[-> _]|[Hq [Hoq _]]]; [split; reflexivity|].
      exfalso. specialize (Hall (Z.to_nat (q - 1))).
      assert (occurs_at h n (Z.to_nat (q - 1)) = true) as T; [|congruence].
      apply occurs_at_occ; [exact Hne|]. rewrite Z2Nat.id by lia. exact Hoq.
    + exfalso. specialize (Hall (Z.to_nat (p - 1))).
      assert (occurs_at h n (Z.to_nat (p - 1)) = true) as T; [|congruence].
      apply occurs_at_occ; [exact Hne|]. rewrite Z2Nat.id by lia. exact Hop.
  - intros i Hi Huniq.
    destruct (Hocc i Hi) as [Hp [Hq [Op [Oq _]]]].
    apply Huniq in Op. apply Huniq in Oq. lia.
Qed.

Lemma blob_search_first_and_last_witness :
  bca <> [] /\ blen abcabcabc <= INT_MAX /\ blen bca <= INT_MAX /\
  (length abcabcabc < 10)%nat /\
  instr_blob 10 abcabcabc (blen abcabcabc) bca (blen bca) 1
  = Ret (naive_first abcabcabc bca) /\
  rinstr_blob 10 abcabcabc (blen abcabcabc) bca (blen bca) INT64_MAX
  = Ret (naive_last abcabcabc bca).
Proof.
  assert (bca <> []) as H1 by discriminate.
  assert (blen abcabcabc <= INT_MAX) as H2 by (vm_compute; discriminate).
  assert (blen bca <= INT_MAX) as H3 by (vm_compute; discriminate).
  assert (length abcabcabc < 10)%nat as H4 by (simpl; lia).
  destruct (blob_search_first_and_last 10 abcabcabc bca H1 H2 H3 H4)
    as [A [B _]].
  repeat split; assumption.
Defined.



(** ** Forward cursors and the empty needle *)

Lemma UTF8_ADVANCE_forward_cursor (h : buffer) :
  forward_cursor h (UTF8_ADVANCE h).
Proof.
  split.
  - intros ptr size ptr' size' cp. apply UTF8_ADVANCE_steps.
  - intros ptr size. apply UTF8_ADVANCE_defined.
Qed.

Lemma UTF16_ADVANCE_forward_cursor (big_endian : bool) (h : buffer) :
  forward_cursor h (UTF16_ADVANCE big_endian h).
Proof.
  split.
  - intros ptr size ptr' size' cp H.
    destruct (UTF16_ADVANCE_steps _ _ _ _ _ _ _ H) as [R|[k [Hk R]]];
      [left; exact R|].
    right. exists k. split; [lia|exact R].
  - intros ptr size. apply UTF16_ADVANCE_defined.
Qed.

Section ForwardText.

Variable h : buffer.
Variable advance : Z -> Z -> option cursor.
Hypothesis Hcur : forward_cursor h advance.
Hypothesis Hh : blen h < 2 ^ 32.

Lemma step_cases (ptr : Z) :
  0 <= ptr <= blen h ->
  rejects advance ptr (blen h - ptr) \/
  exists k cp, 1 <= k <= 4 /\ ptr + k <= blen h /\ 0 <= cp /\
    advance ptr (blen h - ptr) = Some (ptr + k, blen h - (ptr + k), cp).
Proof.
  intros Hptr. destruct Hcur as [Hsteps Hdef].
  destruct (Hdef ptr (blen h - ptr)) as [[[ptr' size'] cp] Hadv]; try lia.
  destruct (Hsteps _ _ _ _ _ Hadv) as [[-> [-> ->]]|[k [Hk [Hks [-> [-> Hcp]]]]]].
  - left. exact Hadv.
  - right. exists k, cp. rewrite vsize_wrap_small in Hadv by lia.
    replace (blen h - ptr - k) with (blen h - (ptr + k)) in Hadv by lia.
    repeat split; try lia. exact Hadv.
Qed.

Lemma decode_offset_S (j : nat) (ptr m : Z) :
  0 <= ptr <= blen h ->
  decode_offset advance (S j) ptr (blen h - ptr) = Some m ->
  exists k cp, 1 <= k <= 4 /\ ptr + k <= blen h /\ 0 <= cp /\
    advance ptr (blen h - ptr) = Some (ptr + k, blen h - (ptr + k), cp) /\
    decode_offset advance j (ptr + k) (blen h - (ptr + k)) = Some m.
Proof.
  intros Hptr. cbn [decode_offset].
  destruct (step_cases ptr Hptr) as [R|[k [cp [Hk [Hfit [Hcp Hadv]]]]]].
  - unfold rejects in R. rewrite R. cbn. discriminate.
  - rewrite Hadv.
    destruct (cp =? -1) eqn:E; [apply Z.eqb_eq in E; lia|].
    intros H. exists k, cp. repeat split; try lia; assumption.
Qed.

Lemma decode_offset_bound (j : nat) :
  forall ptr m,
  0 <= ptr <= blen h ->
  decode_offset advance j ptr (blen h - ptr) = Some m ->
  ptr + Z.of_nat j <= m <= blen h.
Proof.
  induction j as [|j IH]; intros ptr m Hptr H.
  - cbn in H. injection H as <-. lia.
  - destruct (decode_offset_S j ptr m Hptr H)
      as [k [cp [Hk [Hfit [Hcp [Hadv Hrest]]]]]].
    specialize (IH (ptr + k) m ltac:(lia) Hrest). lia.
Qed.

(** Every buffer either decodes to its end or has a first rejected
    sequence. *)
Lemma decode_cases (fuel : nat) :
  forall ptr,
  0 <= ptr <= blen h -> blen h - ptr < Z.of_nat fuel ->
  (exists j, decode_offset advance j ptr (blen h - ptr) = Some (blen h)) \/
  (exists j m, decode_offset advance j ptr (blen h - ptr) = Some m /\
               m < blen h /\ rejects advance m (blen h - m)).
Proof.
  induction fuel as [|fuel IH]; intros ptr Hptr Hfuel; [lia|].
  destruct (Z.eq_dec ptr (blen h)) as [->|Hne].
  - left. exists 0%nat. reflexivity.
  - destruct (step_cases ptr Hptr) as [R|[k [cp [Hk [Hfit [Hcp Hadv]]]]]].
    + right. exists 0%nat, ptr. split; [reflexivity|]. split; [lia|exact R].
    + assert ((cp =? -1) = false) as E by (apply Z.eqb_neq; lia).
      destruct (IH (ptr + k)) as [[j Hj]|[j [m [Hj Hm]]]]; try lia.
      * left. exists (S j). cbn [decode_offset]. rewrite Hadv, E. exact Hj.
      * right. exists (S j), m. cbn [decode_offset]. rewrite Hadv, E.
        split; [exact Hj|exact Hm].
Qed.

(** *** The start loop of the backward engines with an empty needle *)

Lemma rinstr_seek_counts (j : nat) :
  forall (fuel : nat) (ptr found : Z),
  0 <= ptr <= blen h -> 0 < found <= ptr + 1 ->
  decode_offset advance j ptr (blen h - ptr) = Some (blen h) ->
  (j < fuel)%nat ->
  rinstr_seek fuel advance 0 INT64_MAX ptr (blen h - ptr) found
  = inr (blen h, 0, found + Z.of_nat j).
Proof.
  induction j as [|j IH]; intros fuel ptr found Hptr Hfound Hdec Hfuel;
    (destruct fuel as [|fuel]; [lia|]); cbn [rinstr_seek].
  - cbn in Hdec. injection Hdec as ->.
    replace (blen h - blen h) with 0 by lia.
    rewrite andb_false_r. rewrite Z.add_0_r. reflexivity.
  - destruct (decode_offset_S j ptr _ Hptr Hdec)
      as [k [cp [Hk [Hfit [Hcp [Hadv Hrest]]]]]].
    assert ((found <? INT64_MAX) = true) as ->
      by (apply Z.ltb_lt; unfold INT64_MAX; lia).
    assert ((0 <? blen h - ptr) = true) as -> by (apply Z.ltb_lt; lia).
    cbn [andb]. rewrite Hadv.
    assert ((cp =? -1) = false) as -> by (apply Z.eqb_neq; lia).
    assert ((blen h - (ptr + k) <? 0) = false) as -> by (apply Z.ltb_ge; lia).
    rewrite int64_wrap_small by lia.
    rewrite IH; try lia; try assumption.
    f_equal. f_equal. lia.
Qed.

Lemma rinstr_seek_rejects (j : nat) :
  forall (fuel : nat) (ptr found m : Z),
  0 <= ptr <= blen h -> 0 < found <= ptr + 1 ->
  decode_offset advance j ptr (blen h - ptr) = Some m ->
  m < blen h -> rejects advance m (blen h - m) ->
  (j < fuel)%nat ->
  rinstr_seek fuel advance 0 INT64_MAX ptr (blen h - ptr) found
  = inl (Ret (-1)).
Proof.
  induction j as [|j IH]; intros fuel ptr found m Hptr Hfound Hdec Hm Hrej Hfuel;
    (destruct fuel as [|fuel]; [lia|]); cbn [rinstr_seek].
  - cbn in Hdec. injection Hdec as <-.
    assert ((found <? INT64_MAX) = true) as ->
      by (apply Z.ltb_lt; unfold INT64_MAX; lia).
    assert ((0 <? blen h - ptr) = true) as -> by (apply Z.ltb_lt; lia).
    cbn [andb]. unfold rejects in Hrej. rewrite Hrej. reflexivity.
  - destruct (decode_offset_S j ptr _ Hptr Hdec)
      as [k [cp [Hk [Hfit [Hcp [Hadv Hrest]]]]]].
    assert ((found <? INT64_MAX) = true) as ->
      by (apply Z.ltb_lt; unfold INT64_MAX; lia).
    assert ((0 <? blen h - ptr) = true) as -> by (apply Z.ltb_lt; lia).
    cbn [andb]. rewrite Hadv.
    assert ((cp =? -1) = false) as -> by (apply Z.eqb_neq; lia).
    assert ((blen h - (ptr + k) <? 0) = false) as -> by (apply Z.ltb_ge; lia).
    rewrite int64_wrap_small by lia.
    apply (IH fuel (ptr + k) (found + 1) m); try lia; assumption.
Qed.

End ForwardText.

(** C8, as the code has it: with an empty needle the forward engines
    answer 1 from start 1; the backward BLOB engine from the default start
    answers the byte length plus 1; the backward text engines from the
    default start answer the number of codepoints plus 1 when the haystack
    decodes to its end, and [-1] when the forward cursor rejects a
    sequence in it.  Every haystack is of one of these two kinds. *)
Theorem empty_needle_positions (fuel : nat) (h : buffer) :
  blen h <= INT_MAX -> (length h < fuel)%nat ->
  instr_blob fuel h (blen h) [] 0 1 = Ret 1 /\
  instr_utf8 fuel h (blen h) [] 0 1 = Ret 1 /\
  (forall be, instr_utf16 be fuel h (blen h) [] 0 1 = Ret 1) /\
  rinstr_blob fuel h (blen h) [] 0 INT64_MAX = Ret (blen h + 1) /\
  (forall advance search,
      (advance = UTF8_ADVANCE h /\ search = rinstr_utf8) \/
      (exists be, advance = UTF16_ADVANCE be h /\ search = rinstr_utf16 be) ->
      (forall k,
          decode_offset advance k 0 (blen h) = Some (blen h) ->
          search fuel h (blen h) [] 0 INT64_MAX = Ret (Z.of_nat k + 1)) /\
      (forall k m,
          decode_offset advance k 0 (blen h) = Some m ->
          m < blen h -> rejects advance m (blen h - m) ->
          search fuel h (blen h) [] 0 INT64_MAX = Ret (-1)) /\
      ((exists k, decode_offset advance k 0 (blen h) = Some (blen h)) \/
       (exists k m, decode_offset advance k 0 (blen h) = Some m /\
                    m < blen h /\ rejects advance m (blen h - m)))).
Proof.
  intros Hh Hfuel. unfold INT_MAX in Hh.
  pose proof (blen_nonneg h) as Hh0.
  assert (blen h < 2 ^ 32) as Hh32 by lia.
  assert (blen h < Z.of_nat fuel) as Hfuel' by (unfold blen; lia).
  assert ((blen h <? 0) = false) as Hneg by (apply Z.ltb_ge; lia).
  destruct fuel as [|fuel]; [lia|].
  split; [|split; [|split; [|split]]].
  - unfold instr_blob, instr_blob_from. cbn. rewrite Hneg. reflexivity.
  - unfold instr_utf8. rewrite Hneg. reflexivity.
  - intros be. unfold instr_utf16. rewrite Hneg. reflexivity.
  - unfold rinstr_blob, rinstr_blob_from.
    change (INT64_MAX <=? 0) with false. cbv beta iota.
    rewrite Hneg. change (1 <? INT64_MAX) with true. cbv beta iota zeta.
    rewrite Z.sub_0_r. rewrite (vsize_wrap_small (blen h)) by lia.
    change (int64_wrap (INT64_MAX - 1)) with (2 ^ 63 - 2).
    assert ((blen h <? 2 ^ 63 - 2) = true) as -> by (apply Z.ltb_lt; lia).
    rewrite (vsize_wrap_small (blen h + 1)) by lia.
    change (0 <=? 0) with true. reflexivity.
  - intros advance search Hwhich.
    assert (forward_cursor h advance) as Hcur.
    { destruct Hwhich as [[-> _]|[be [-> _]]];
        [apply UTF8_ADVANCE_forward_cursor|apply UTF16_ADVANCE_forward_cursor]. }
    assert (forall r,
              rinstr_seek (S fuel) advance 0 INT64_MAX 0 (blen h) 1 = r ->
              search (S fuel) h (blen h) [] 0 INT64_MAX
              = match r with
                | inl o => o
                | inr (_, _, found) => Ret found
                end) as Hsearch.
    { intros r <-.
      destruct Hwhich as [[-> ->]|[be [-> ->]]];
        [unfold rinstr_utf8|unfold rinstr_utf16];
        change (INT64_MAX <=? 0) with false; cbv beta iota; rewrite Hneg;
        destruct (rinstr_seek (S fuel) _ 0 INT64_MAX 0 (blen h) 1)
          as [o|[[ptr size] found]]; reflexivity. }
    split; [|split].
    + intros k Hk.
      assert (decode_offset advance k 0 (blen h - 0) = Some (blen h)) as Hk'
        by (rewrite Z.sub_0_r; exact Hk).
      pose proof (decode_offset_bound h advance Hcur Hh32 k 0 _
                    ltac:(lia) Hk') as Hb.
      assert (k < S fuel)%nat as Hkf by (unfold blen in *; lia).
      pose proof (rinstr_seek_counts h advance Hcur Hh32 k (S fuel) 0 1
                    ltac:(lia) ltac:(lia) Hk' Hkf) as Hseek.
      rewrite Z.sub_0_r in Hseek. rewrite (Hsearch _ Hseek).
      f_equal. lia.
    + intros k m Hk Hm Hrej.
      assert (decode_offset advance k 0 (blen h - 0) = Some m) as Hk'
        by (rewrite Z.sub_0_r; exact Hk).
      pose proof (decode_offset_bound h advance Hcur Hh32 k 0 _
                    ltac:(lia) Hk') as Hb.
      assert (k < S fuel)%nat as Hkf by (unfold blen in *; lia).
      pose proof (rinstr_seek_rejects h advance Hcur Hh32 k (S fuel) 0 1 m
                    ltac:(lia) ltac:(lia) Hk' Hm Hrej Hkf) as Hseek.
      rewrite Z.sub_0_r in Hseek. rewrite (Hsearch _ Hseek).
      reflexivity.
    + pose proof (decode_cases h advance Hcur Hh32 (S fuel) 0
                    ltac:(lia) ltac:(lia)) as Hc.
      rewrite Z.sub_0_r in Hc. exact Hc.
Qed.

Lemma empty_needle_positions_witness :
  blen euro_a <= INT_MAX /\ (length euro_a < 5)%nat /\
  instr_utf8 5 euro_a (blen euro_a) [] 0 1 = Ret 1 /\
  rinstr_blob 5 euro_a (blen euro_a) [] 0 INT64_MAX = Ret (blen euro_a + 1) /\
  decode_offset (UTF8_ADVANCE euro_a) 2 0 (blen euro_a) = Some (blen euro_a) /\
  rinstr_utf8 5 euro_a (blen euro_a) [] 0 INT64_MAX = Ret (Z.of_nat 2 + 1).
Proof.
  assert (blen euro_a <= INT_MAX) as H1 by (vm_compute; discriminate).
  assert (length euro_a < 5)%nat as H2 by (simpl; lia).
  assert (decode_offset (UTF8_ADVANCE euro_a) 2 0 (blen euro_a)
          = Some (blen euro_a)) as H3 by reflexivity.
  destruct (empty_needle_positions 5 euro_a H1 H2) as [_ [A [_ [B T]]]].
  destruct (T (UTF8_ADVANCE euro_a) rinstr_utf8 (or_introl (conj eq_refl eq_refl)))
    as [Tk _].
  pose proof (Tk 2%nat H3) as C.
  repeat split; assumption.
Defined.

(** ** Arguments of different kinds *)

Lemma report_not_confused (which : user_data) (o : outcome) :
  report which o <> ResultError confused.
Proof.
  unfold report. destruct o as [r| |]; try discriminate.
  destruct (r <? 0); discriminate.
Qed.

Lemma dispatch_mixed
  (blob utf8 utf16 : buffer -> Z -> buffer -> Z -> Z -> outcome)
  (which : user_data) (arg0 arg1 : sqlite3_value) (start : Z) :
  (value_type arg0 = SQLITE_BLOB /\ value_type arg1 = SQLITE_TEXT) \/
  (value_type arg0 = SQLITE_TEXT /\ value_type arg1 = SQLITE_BLOB) ->
  dispatch blob utf8 utf16 which arg0 arg1 start
  = match which with
    | malformed_8 =>
        match value_text arg0, value_text arg1 with
        | Some h, Some n =>
            report malformed_8
              (utf8 h (vsize_wrap (value_bytes arg0))
                    n (vsize_wrap (value_bytes arg1)) start)
        | _, _ => ResultNomem
        end
    | malformed_16 =>
        match value_text16 arg0, value_text16 arg1 with
        | Some h, Some n =>
            report malformed_16
              (utf16 h (even_bytes (value_bytes16 arg0))
                     n (even_bytes (value_bytes16 arg1)) start)
        | _, _ => ResultNomem
        end
    | other_data => ResultError confused
    end.
Proof.
  intros Hmixed. unfold dispatch.
  assert (datatype_eqb (value_type arg0) SQLITE_BLOB
          && datatype_eqb (value_type arg1) SQLITE_BLOB = false) as ->.
  { destruct Hmixed as [[-> ->]|[-> ->]]; reflexivity. }
  destruct which; reflexivity.
Qed.

(** C9, as the code has it: when one of haystack and needle is a BLOB and
    the other is text, a call of [instr] or [rinstr] under a text-encoding
    registration is not rejected, whatever further arguments it has.
    Both arguments are read through the text accessor of that encoding
    and handed to the text engine, which starts from the integer value
    of the third argument, or from the default start of the function
    when the call has two arguments; the call ends in what the engine
    answers, in the out-of-memory error when an accessor answers a null
    pointer, or without a result when the third argument is NULL, and
    never in the usage error. *)
Theorem mixed_kinds_are_searched_as_text (big_endian : bool) (fuel : nat)
  (which : user_data) (arg0 arg1 : sqlite3_value)
  (rest : list sqlite3_value) :
  which <> other_data ->
  (value_type arg0 = SQLITE_BLOB /\ value_type arg1 = SQLITE_TEXT) \/
  (value_type arg0 = SQLITE_TEXT /\ value_type arg1 = SQLITE_BLOB) ->
  let searched (utf8 utf16 : buffer -> Z -> buffer -> Z -> Z -> outcome)
        (start : Z) : call_result :=
    match which with
    | malformed_8 =>
        match value_text arg0, value_text arg1 with
        | Some h, Some n =>
            report malformed_8
              (utf8 h (vsize_wrap (value_bytes arg0))
                    n (vsize_wrap (value_bytes arg1)) start)
        | _, _ => ResultNomem
        end
    | malformed_16 =>
        match value_text16 arg0, value_text16 arg1 with
        | Some h, Some n =>
            report malformed_16
              (utf16 h (even_bytes (value_bytes16 arg0))
                     n (even_bytes (value_bytes16 arg1)) start)
        | _, _ => ResultNomem
        end
    | other_data => ResultError confused
    end in
  let called (default_start : Z) (search : Z -> call_result) : call_result :=
    match rest with
    | [] => search default_start
    | arg2 :: _ =>
        if datatype_eqb (value_type arg2) SQLITE_NULL then NoResult
        else search (value_int64 arg2)
    end in
  instr_func big_endian fuel which (arg0 :: arg1 :: rest)
  = called 1 (searched (instr_utf8 fuel) (instr_utf16 big_endian fuel)) /\
  rinstr_func big_endian fuel which (arg0 :: arg1 :: rest)
  = called INT64_MAX
      (searched (rinstr_utf8 fuel) (rinstr_utf16 big_endian fuel)) /\
  instr_func big_endian fuel which (arg0 :: arg1 :: rest)
  <> ResultError confused /\
  rinstr_func big_endian fuel which (arg0 :: arg1 :: rest)
  <> ResultError confused.
Proof.
  intros Hwhich Hmixed searched called.
  assert (datatype_eqb (value_type arg0) SQLITE_NULL = false) as N0
    by (destruct Hmixed as [[-> _]|[-> _]]; reflexivity).
  assert (datatype_eqb (value_type arg1) SQLITE_NULL = false) as N1
    by (destruct Hmixed as [[_ ->]|[_ ->]]; reflexivity).
  assert (forall d blob utf8 utf16,
            entry d blob utf8 utf16 which (arg0 :: arg1 :: rest)
            = called d (searched utf8 utf16)) as Hentry.
  { intros d blob utf8 utf16. unfold entry, called. rewrite N0, N1.
    destruct rest as [|arg2 tail];
      [exact (dispatch_mixed blob utf8 utf16 which arg0 arg1 d Hmixed)|].
    destruct (datatype_eqb (value_type arg2) SQLITE_NULL); [reflexivity|].
    exact (dispatch_mixed blob utf8 utf16 which arg0 arg1 _ Hmixed). }
  assert (forall d utf8 utf16,
            called d (searched utf8 utf16) <> ResultError confused) as Hnot.
  { intros d utf8 utf16.
    assert (forall start, searched utf8 utf16 start <> ResultError confused)
      as Hsearched.
    { intros start. unfold searched.
      destruct which; try congruence;
        repeat match goal with
               | |- context [match ?x with Some _ => _ | None => _ end] =>
                   destruct x
               end;
        first [apply report_not_confused | discriminate]. }
    unfold called. destruct rest as [|arg2 tail]; [apply Hsearched|].
    destruct (datatype_eqb (value_type arg2) SQLITE_NULL);
      [discriminate|apply Hsearched]. }
  unfold instr_func, rinstr_func. rewrite !Hentry.
  split; [reflexivity|]. split; [reflexivity|]. split; apply Hnot.
Qed.

Lemma mixed_kinds_are_searched_as_text_witness :
  malformed_8 <> other_data /\
  ((value_type (blob_arg abcabcabc) = SQLITE_BLOB /\
    value_type (text_arg bca []) = SQLITE_TEXT) \/
   (value_type (blob_arg abcabcabc) = SQLITE_TEXT /\
    value_type (text_arg bca []) = SQLITE_BLOB)) /\
  instr_func false 10 malformed_8
    [blob_arg abcabcabc; text_arg bca [];
     {| value_type := SQLITE_INTEGER; value_int64 := 3;
        value_blob := None; value_blob_bytes := 0;
        value_text := None; value_bytes := 0;
        value_text16 := None; value_bytes16 := 0 |}]
  = report malformed_8
      (instr_utf8 10 abcabcabc (vsize_wrap (blen abcabcabc))
         bca (vsize_wrap (blen bca)) 3) /\
  rinstr_func false 10 malformed_8
    [blob_arg abcabcabc; text_arg bca [];
     {| value_type := SQLITE_INTEGER; value_int64 := 3;
        value_blob := None; value_blob_bytes := 0;
        value_text := None; value_bytes := 0;
        value_text16 := None; value_bytes16 := 0 |}]
  <> ResultError confused.
Proof.
  assert (malformed_8 <> other_data) as H1 by discriminate.
  assert ((value_type (blob_arg abcabcabc) = SQLITE_BLOB /\
           value_type (text_arg bca []) = SQLITE_TEXT) \/
          (value_type (blob_arg abcabcabc) = SQLITE_TEXT /\
           value_type (text_arg bca []) = SQLITE_BLOB)) as H2
    by (left; split; reflexivity).
  split; [exact H1|]. split; [exact H2|].
  pose proof (mixed_kinds_are_searched_as_text false 10 malformed_8
                (blob_arg abcabcabc) (text_arg bca [])
                [{| value_type := SQLITE_INTEGER; value_int64 := 3;
                    value_blob := None; value_blob_bytes := 0;
                    value_text := None; value_bytes := 0;
                    value_text16 := None; value_bytes16 := 0 |}]
                H1 H2) as T.
  split; [exact (proj1 T)|exact (proj2 (proj2 (proj2 T)))].
Defined.

(** ** Forward text searches and malformed input *)

Lemma Z_land_le_l (a b : Z) : 0 <= a -> 0 <= b -> Z.land a b <= a.
Proof.
  intros Ha Hb.
  rewrite <- (Z2N.id a Ha) at 1. rewrite <- (Z2N.id b Hb).
  rewrite <- N2Z.inj_land.
  pose proof (N.land_le_l (Z.to_N a) (Z.to_N b)) as H.
  apply N2Z.inj_le in H. rewrite Z2N.id in H by exact Ha. exact H.
Qed.

(** Rounding a table entry up to an even number keeps it within an even
    needle size. *)
Lemma skips_mask_even_bound (skips : bmh_skips) (size : Z) (c : byte) :
  Z.even size = true -> size < 2 ^ 31 ->
  1 <= skips c <= size ->
  skips c <= skips_mask 1 skips c <= size.
Proof.
  intros Heven Hsize Hc. unfold skips_mask. cbn [Z.eqb].
  rewrite vsize_wrap_small by lia.
  change (vsize_not 1) with (2 ^ 32 - 2).
  set (x := skips c + 1).
  assert (0 <= x) as Hx by (unfold x; lia).
  pose proof (Z_land_le_l x (2 ^ 32 - 2) Hx ltac:(lia)) as Hle.
  assert (0 <= Z.land x (2 ^ 32 - 2)) as Hnn
    by (apply Z.land_nonneg; left; exact Hx).
  assert (Z.odd (Z.land x (2 ^ 32 - 2)) = false) as Hodd.
  { rewrite <- Z.bit0_odd. rewrite Z.land_spec.
    apply andb_false_iff. right. reflexivity. }
  assert (x - 1 <= Z.land x (2 ^ 32 - 2)) as Hge.
  { assert (Z.land x (2 ^ 32 - 2) = 2 * (x / 2)) as ->; [|
      pose proof (Z.div_mod x 2 ltac:(lia));
      pose proof (Z.mod_pos_bound x 2 ltac:(lia)); lia].
    apply Z.bits_inj'. intros k Hk.
    rewrite Z.land_spec.
    destruct (Z.eq_dec k 0) as [->|Hne].
    - rewrite Z.testbit_even_0. apply andb_false_iff. right. reflexivity.
    - replace k with (Z.succ (k - 1)) by lia.
      rewrite Z.testbit_even_succ by lia.
      rewrite <- Z.div2_div. rewrite Z.div2_spec. rewrite Z.shiftr_spec by lia.
      replace (k - 1 + 1) with (Z.succ (k - 1)) by lia.
      destruct (Z.testbit x (Z.succ (k - 1))) eqn:Hbit; [|reflexivity].
      cbn [andb].
      assert (Z.succ (k - 1) < 32) as Hlt.
      { destruct (Z_lt_dec (Z.succ (k - 1)) 32) as [|G]; [assumption|].
        exfalso.
        assert (Z.testbit x (Z.succ (k - 1)) = false) as F; [|congruence].
        apply Z.bits_above_log2; [exact Hx|].
        destruct (Z.eq_dec x 0) as [->|Hx0]; [cbn; lia|].
        assert (Z.log2 x < 32); [|lia].
        apply Z.log2_lt_pow2; [lia|]. unfold x. lia. }
      change (2 ^ 32 - 2) with (Z.shiftl (Z.ones 31) 1).
      rewrite Z.shiftl_spec by lia.
      replace (Z.succ (k - 1) - 1) with (k - 1) by lia.
      apply Z.ones_spec_low. lia. }
  rewrite <- Z.negb_odd in Heven. apply negb_true_iff in Heven.
  pose proof (Z.div_mod size 2 ltac:(lia)) as Hs.
  pose proof (Z.div_mod (Z.land x (2 ^ 32 - 2)) 2 ltac:(lia)) as Hl.
  rewrite Zmod_odd in Hs, Hl. rewrite Heven in Hs. rewrite Hodd in Hl.
  unfold x in *. lia.
Qed.

Lemma fbmh_setup_masked_spec (needle : buffer) :
  2 <= blen needle < 2 ^ 31 -> Z.even (blen needle) = true ->
  exists skips, fbmh_setup needle (blen needle) 1 = Some skips /\
                forall c, 1 <= skips c <= blen needle.
Proof.
  intros Hn Heven. unfold fbmh_setup.
  rewrite vsize_wrap_small by lia.
  destruct (fbmh_fill_spec needle (blen needle - 1) (blen needle)
              (Z.to_nat (blen needle - 1)) 0 (fun _ => blen needle))
    as [t [Ht [Hb _]]]; try lia.
  rewrite Ht. cbn [option_map]. eexists. split; [reflexivity|].
  intros c.
  pose proof (skips_mask_even_bound t (blen needle) c Heven ltac:(lia)
                ltac:(specialize (Hb c); lia)) as H.
  specialize (Hb c). lia.
Qed.

Section ForwardScan.

Variable h : buffer.
Variable advance : Z -> Z -> option cursor.
Hypothesis Hcur : forward_cursor h advance.
Hypothesis Hh : blen h < 2 ^ 32.

(** Position [m] is reached from the start by decoding, and rejected. *)
Variable m : Z.
Hypothesis Hrej : rejects advance m (blen h - m).

Lemma instr_seek_stops_before (needlesize start : Z) (j : nat) :
  0 <= needlesize -> m + needlesize <= blen h ->
  forall (fuel : nat) (ptr found : Z),
  0 <= ptr <= blen h -> 0 < found <= ptr + 1 ->
  decode_offset advance j ptr (blen h - ptr) = Some m ->
  start <= found + Z.of_nat j ->
  (j < fuel)%nat ->
  exists (j' : nat) (ptr' found' : Z),
    instr_seek fuel advance needlesize start ptr (blen h - ptr) found
    = inr (ptr', blen h - ptr', found') /\
    0 <= ptr' <= blen h /\
    decode_offset advance j' ptr' (blen h - ptr') = Some m /\
    (found' <? start) = false /\ (j' <= j)%nat.
Proof.
  intros Hn0 Hfit.
  induction j as [|j IH]; intros fuel ptr found Hptr Hfound Hdec Hstart Hfuel;
    (destruct fuel as [|fuel]; [lia|]); cbn [instr_seek].
  - assert ((found <? start) = false) as E by (apply Z.ltb_ge; lia).
    rewrite E. cbn [andb]. exists 0%nat, ptr, found. auto.
  - destruct (found <? start) eqn:E.
    + apply Z.ltb_lt in E.
      destruct (decode_offset_S h advance Hcur Hh j ptr m Hptr Hdec)
        as [k [cp [Hk [Hkfit [Hcp [Hadv Hrest]]]]]].
      pose proof (decode_offset_bound h advance Hcur Hh j (ptr + k) m
                    ltac:(lia) Hrest) as Hb.
      assert ((needlesize <? blen h - ptr) = true) as ->
        by (apply Z.ltb_lt; lia).
      cbn [andb]. rewrite Hadv.
      assert ((cp =? -1) = false) as -> by (apply Z.eqb_neq; lia).
      rewrite int64_wrap_small by lia.
      destruct (IH fuel (ptr + k) (found + 1)) as [j' [ptr' [found' H]]];
        try lia; try assumption.
      exists j', ptr', found'.
      destruct H as [H1 [H2 [H3 [H4 H5]]]]. repeat split; try assumption; lia.
    + cbn [andb]. exists (S j), ptr, found. repeat split; try assumption; lia.
Qed.

Lemma instr_text_scan_rejects (unit : Z) (n : buffer) (skips : bmh_skips)
  (j : nat) :
  1 <= blen n -> m + 2 * blen n <= blen h ->
  (forall i, ~ occ h n i) ->
  (forall c, 1 <= skips c <= blen n) ->
  forall (fuel : nat) (ptr found next : Z),
  0 <= ptr <= blen h ->
  decode_offset advance j ptr (blen h - ptr) = Some m ->
  (j < fuel)%nat ->
  instr_text_scan fuel unit advance h n skips (blen n)
    ptr (blen h - ptr) found next = Ret (-1).
Proof.
  intros Hn Hfit Hnocc Hskips.
  induction j as [|j IH]; intros fuel ptr found next Hptr Hdec Hfuel;
    (destruct fuel as [|fuel]; [lia|]); cbn [instr_text_scan];
    pose proof (decode_offset_bound h advance Hcur Hh _ ptr m Hptr Hdec) as Hb;
    (assert ((blen n <=? blen h - ptr) = true) as -> by (apply Z.leb_le; lia));
    (assert (exists next',
               instr_window unit h n skips (blen n) ptr (blen h - ptr)
                 found next = inr next') as [next' ->];
     [ unfold instr_window; destruct (next <=? ptr); [|eauto];
       destruct (memcmp_occ h n ptr) as [[_ Ho]|[-> _]]; try lia;
       [exfalso; exact (Hnocc _ Ho)|];
       destruct (peek_some h (ptr + (blen n - 1))) as [c ->]; [lia|];
       specialize (Hskips c);
       rewrite vsize_wrap_small by lia;
       (assert ((blen h - ptr - skips c <? blen n) = false) as ->
          by (apply Z.ltb_ge; lia));
       eauto
     | ]).
  - cbn in Hdec. injection Hdec as <-.
    unfold rejects in Hrej. rewrite Hrej. reflexivity.
  - destruct (decode_offset_S h advance Hcur Hh j ptr m Hptr Hdec)
      as [k [cp [Hk [Hkfit [Hcp [Hadv Hrest]]]]]].
    rewrite Hadv.
    assert ((cp =? -1) = false) as -> by (apply Z.eqb_neq; lia).
    apply IH; try lia. exact Hrest.
Qed.

Lemma instr_text_scan1_rejects (read : Z -> option Z) (first : Z) (j : nat) :
  m < blen h ->
  (forall p, 0 <= p <= m ->
             exists c, read p = Some c /\ (c =? first) = false) ->
  forall (fuel : nat) (ptr found : Z),
  0 <= ptr <= blen h ->
  decode_offset advance j ptr (blen h - ptr) = Some m ->
  (j < fuel)%nat ->
  instr_text_scan1 fuel read advance first ptr (blen h - ptr) found
  = Ret (-1).
Proof.
  intros Hm Hread.
  induction j as [|j IH]; intros fuel ptr found Hptr Hdec Hfuel;
    (destruct fuel as [|fuel]; [lia|]); cbn [instr_text_scan1];
    pose proof (decode_offset_bound h advance Hcur Hh _ ptr m Hptr Hdec) as Hb;
    (assert ((0 <? blen h - ptr) = true) as -> by (apply Z.ltb_lt; lia));
    (destruct (Hread ptr ltac:(lia)) as [c [-> ->]]).
  - cbn in Hdec. injection Hdec as <-.
    unfold rejects in Hrej. rewrite Hrej. reflexivity.
  - destruct (decode_offset_S h advance Hcur Hh j ptr m Hptr Hdec)
      as [k [cp [Hk [Hkfit [Hcp [Hadv Hrest]]]]]].
    rewrite Hadv.
    assert ((cp =? -1) = false) as -> by (apply Z.eqb_neq; lia).
    apply IH; try lia. exact Hrest.
Qed.

End ForwardScan.

Lemma unit_val_inj (be : bool) (a b a' b' : Z) :
  0 <= a < 256 -> 0 <= b < 256 -> 0 <= a' < 256 -> 0 <= b' < 256 ->
  unit_val be a b = unit_val be a' b' -> a = a' /\ b = b'.
Proof. unfold unit_val. destruct be; lia. Qed.

Lemma occ_pair (h n : buffer) (p : Z) :
  blen n = 2 -> 0 <= p ->
  peek h p = peek n 0 -> peek h (p + 1) = peek n 1 -> occ h n p.
Proof.
  intros Hn Hp H0 H1.
  destruct (peek_some n 1) as [b Hb]; [lia|].
  rewrite Hb in H1. pose proof (peek_range _ _ _ H1) as R.
  split; [exact Hp|]. split; [lia|].
  intros k Hk. assert (k = 0 \/ k = 1) as [->| ->] by lia.
  - rewrite Z.add_0_r. exact H0.
  - congruence.
Qed.

(** C6, as the code has it.  Let the haystack decode from its start for
    [k] codepoints up to byte offset [m], where the forward cursor rejects
    what follows; let the needle be non-empty and occur nowhere; let the
    start be a position at or before the rejected sequence.  Then the
    forward text engines answer [-1] when the needle is a single storage
    unit, and when the rejected sequence begins at least twice the
    needle's size before the end of the haystack, so that no skip can
    end the search before the cursor reaches it. *)
Theorem forward_text_search_reports_malformed (fuel : nat) (h n : buffer)
  (k : nat) (m start : Z) :
  n <> [] -> blen h <= INT_MAX -> (length h < fuel)%nat ->
  (forall i, occurs_at h n i = false) ->
  start <= Z.of_nat k + 1 ->
  (decode_offset (UTF8_ADVANCE h) k 0 (blen h) = Some m ->
   rejects (UTF8_ADVANCE h) m (blen h - m) -> m < blen h ->
   blen n = 1 \/ m + 2 * blen n <= blen h ->
   instr_utf8 fuel h (blen h) n (blen n) start = Ret (-1)) /\
  (forall big_endian,
   decode_offset (UTF16_ADVANCE big_endian h) k 0 (blen h) = Some m ->
   rejects (UTF16_ADVANCE big_endian h) m (blen h - m) -> m + 2 <= blen h ->
   blen n = 2 \/ (Z.even (blen n) = true /\ m + 2 * blen n <= blen h) ->
   instr_utf16 big_endian fuel h (blen h) n (blen n) start = Ret (-1)).
Proof.
  intros Hne Hh Hfuel Hnone Hstart. unfold INT_MAX in Hh.
  pose proof (blen_nonneg h) as Hh0.
  assert (blen h < 2 ^ 32) as Hh32 by lia.
  assert (blen n <> 0) as Hn0 by (intros E; apply blen_nil_iff in E; auto).
  pose proof (blen_nonneg n) as Hn1.
  assert (forall i, ~ occ h n i) as Hnocc.
  { intros i Ho. pose proof Ho as [Hi _].
    specialize (Hnone (Z.to_nat i)).
    assert (occurs_at h n (Z.to_nat i) = true) as T; [|congruence].
    apply occurs_at_occ; [exact Hne|]. rewrite Z2Nat.id by lia. exact Ho. }
  split.
  - intros Hdec Hrej Hm Hsize.
    pose proof (UTF8_ADVANCE_forward_cursor h) as Hcur.
    assert (decode_offset (UTF8_ADVANCE h) k 0 (blen h - 0) = Some m) as Hdec'
      by (rewrite Z.sub_0_r; exact Hdec).
    pose proof (decode_offset_bound h _ Hcur Hh32 k 0 m ltac:(lia) Hdec') as Hb.
    assert (k < fuel)%nat as Hkf by (unfold blen in *; lia).
    destruct (instr_seek_stops_before h _ Hcur Hh32 m (blen n) start k
                ltac:(lia) ltac:(lia) fuel 0 1 ltac:(lia) ltac:(lia)
                Hdec' ltac:(lia) Hkf)
      as [j' [ptr' [found' [Hseek [Hp' [Hdecp [Hfs Hj']]]]]]].
    rewrite Z.sub_0_r in Hseek.
    unfold instr_utf8.
    assert ((blen h <? blen n) = false) as -> by (apply Z.ltb_ge; lia).
    rewrite Hseek, Hfs.
    assert ((blen n <=? 0) = false) as -> by (apply Z.leb_gt; lia).
    destruct (1 <? blen n) eqn:E.
    + apply Z.ltb_lt in E.
      destruct (fbmh_setup_spec n) as [skips [-> [Hskips _]]]; [lia|].
      apply (instr_text_scan_rejects h _ Hcur Hh32 m Hrej 1 n skips j');
        try assumption; lia.
    + apply Z.ltb_ge in E.
      destruct (peek_some n 0) as [first Hfirst]; [lia|].
      rewrite (peek8_byte _ _ _ Hfirst).
      apply (instr_text_scan1_rejects h _ Hcur Hh32 m Hrej (peek8 h)
               (byte_val first) j'); try assumption; try lia.
      intros p Hp. destruct (peek_some h p) as [c Hc]; [lia|].
      exists (byte_val c). split; [apply peek8_byte; exact Hc|].
      apply Z.eqb_neq. intros Heq. apply byte_val_inj in Heq. subst c.
      apply (Hnocc p). apply (occ_single h n first); try assumption. lia.
  - intros be Hdec Hrej Hm Hsize.
    pose proof (UTF16_ADVANCE_forward_cursor be h) as Hcur.
    assert (decode_offset (UTF16_ADVANCE be h) k 0 (blen h - 0) = Some m)
      as Hdec' by (rewrite Z.sub_0_r; exact Hdec).
    pose proof (decode_offset_bound h _ Hcur Hh32 k 0 m ltac:(lia) Hdec') as Hb.
    assert (k < fuel)%nat as Hkf by (unfold blen in *; lia).
    assert (2 <= blen n) as Hn2.
    { destruct Hsize as [->|[Heven _]]; [lia|].
      destruct (Z.eq_dec (blen n) 1) as [E1|]; [|lia].
      rewrite E1 in Heven. discriminate. }
    destruct (instr_seek_stops_before h _ Hcur Hh32 m (blen n) start k
                ltac:(lia) ltac:(lia) fuel 0 1 ltac:(lia) ltac:(lia)
                Hdec' ltac:(lia) Hkf)
      as [j' [ptr' [found' [Hseek [Hp' [Hdecp [Hfs Hj']]]]]]].
    rewrite Z.sub_0_r in Hseek.
    unfold instr_utf16.
    assert ((blen h <? blen n) = false) as -> by (apply Z.ltb_ge; lia).
    rewrite Hseek, Hfs.
    assert ((blen n <=? 0) = false) as -> by (apply Z.leb_gt; lia).
    destruct (2 <? blen n) eqn:E.
    + apply Z.ltb_lt in E.
      destruct Hsize as [E2|[Heven Hfit]]; [lia|].
      destruct (fbmh_setup_masked_spec n) as [skips [-> Hskips]];
        [lia|exact Heven|].
      apply (instr_text_scan_rejects h _ Hcur Hh32 m Hrej 2 n skips j');
        try assumption; lia.
    + apply Z.ltb_ge in E. assert (blen n = 2) as En by lia.
      destruct (peek_some n 0) as [a Ha]; [lia|].
      destruct (peek_some n 1) as [b Hb']; [lia|].
      unfold peek16 at 1. rewrite (peek8_byte _ _ _ Ha).
      change (0 + 1) with 1. rewrite (peek8_byte _ _ _ Hb').
      apply (instr_text_scan1_rejects h _ Hcur Hh32 m Hrej (peek16 be h)
               (unit_val be (byte_val a) (byte_val b)) j');
        try assumption; try lia.
      intros p Hp.
      destruct (peek_some h p) as [c Hc]; [lia|].
      destruct (peek_some h (p + 1)) as [d Hd]; [lia|].
      exists (unit_val be (byte_val c) (byte_val d)).
      unfold peek16. rewrite (peek8_byte _ _ _ Hc), (peek8_byte _ _ _ Hd).
      split; [reflexivity|].
      apply Z.eqb_neq. intros Heq.
      apply unit_val_inj in Heq; try apply byte_val_range.
      destruct Heq as [Hac Hbd].
      apply byte_val_inj in Hac. apply byte_val_inj in Hbd. subst c d.
      apply (Hnocc p). apply occ_pair; try assumption; try lia; congruence.
Qed.

Lemma forward_text_search_reports_malformed_witness :
  xy <> [] /\ blen a_ff_abcd <= INT_MAX /\ (length a_ff_abcd < 7)%nat /\
  (forall i, occurs_at a_ff_abcd xy i = false) /\
  1 <= Z.of_nat 1 + 1 /\
  decode_offset (UTF8_ADVANCE a_ff_abcd) 1 0 (blen a_ff_abcd) = Some 1 /\
  rejects (UTF8_ADVANCE a_ff_abcd) 1 (blen a_ff_abcd - 1) /\
  1 < blen a_ff_abcd /\
  (blen xy = 1 \/ 1 + 2 * blen xy <= blen a_ff_abcd) /\
  instr_utf8 7 a_ff_abcd (blen a_ff_abcd) xy (blen xy) 1 = Ret (-1).
Proof.
  assert (xy <> []) as H1 by discriminate.
  assert (blen a_ff_abcd <= INT_MAX) as H2 by (vm_compute; discriminate).
  assert (length a_ff_abcd < 7)%nat as H3 by (simpl; lia).
  assert (forall i, occurs_at a_ff_abcd xy i = false) as H4
    by (intros i; destruct i as [|[|[|[|[|[|[|i]]]]]]]; reflexivity).
  assert (1 <= Z.of_nat 1 + 1) as H5 by lia.
  assert (decode_offset (UTF8_ADVANCE a_ff_abcd) 1 0 (blen a_ff_abcd) = Some 1)
    as H6 by reflexivity.
  assert (rejects (UTF8_ADVANCE a_ff_abcd) 1 (blen a_ff_abcd - 1)) as H7
    by reflexivity.
  assert (1 < blen a_ff_abcd) as H8 by reflexivity.
  assert (blen xy = 1 \/ 1 + 2 * blen xy <= blen a_ff_abcd) as H9
    by (right; vm_compute; discriminate).
  repeat (split; [assumption|]).
  exact (proj1 (forward_text_search_reports_malformed 7 a_ff_abcd xy 1 1 1
                  H1 H2 H3 H4 H5) H6 H7 H8 H9).
Defined.

(** ** Positions the forward text engines answer *)

Section ForwardBoundary.

Variable h : buffer.
Variable advance : Z -> Z -> option cursor.
Hypothesis Hcur : forward_cursor h advance.
Hypothesis Hh : blen h < 2 ^ 31.

Lemma decode_offset_snoc (j : nat) :
  forall p0 ptr k cp,
  0 <= p0 <= blen h -> 
  decode_offset advance j p0 (blen h - p0) = Some ptr ->
  advance ptr (blen h - ptr) = Some (ptr + k, blen h - (ptr + k), cp) ->
  0 <= cp ->
  decode_offset advance (S j) p0 (blen h - p0) = Some (ptr + k).
Proof.
  assert (blen h < 2 ^ 32) as Hh32 by lia.
  induction j as [|j IH]; intros p0 ptr k cp Hp0 Hdec Hadv Hcp.
  - cbn in Hdec. injection Hdec as <-. cbn [decode_offset].
    rewrite Hadv. assert ((cp =? -1) = false) as -> by (apply Z.eqb_neq; lia).
    reflexivity.
  - destruct (decode_offset_S h advance Hcur Hh32 j p0 ptr Hp0 Hdec)
      as [k0 [cp0 [Hk0 [Hfit [Hcp0 [Hadv0 Hrest]]]]]].
    change (decode_offset advance (S (S j)) p0 (blen h - p0))
      with (match advance p0 (blen h - p0) with
            | Some (ptr', size', c) =>
                if c =? -1 then None
                else decode_offset advance (S j) ptr' size'
            | None => None
            end).
    rewrite Hadv0.
    assert ((cp0 =? -1) = false) as -> by (apply Z.eqb_neq; lia).
    apply (IH (p0 + k0) ptr k cp); try assumption. lia.
Qed.

Lemma counted_step (ptr found k cp : Z) :
  counted h advance ptr found ->
  advance ptr (blen h - ptr) = Some (ptr + k, blen h - (ptr + k), cp) ->
  1 <= k -> ptr + k <= blen h -> 0 <= cp ->
  counted h advance (ptr + k) (found + 1).
Proof.
  intros [Hptr [Hfound Hdec]] Hadv Hk Hfit Hcp.
  split; [lia|]. split; [lia|].
  replace (Z.to_nat (found + 1 - 1)) with (S (Z.to_nat (found - 1))) by lia.
  pose proof (decode_offset_snoc (Z.to_nat (found - 1)) 0 ptr k cp
                ltac:(lia)) as H.
  rewrite Z.sub_0_r in H. apply H; assumption.
Qed.

Lemma instr_seek_counted (needlesize start : Z) (fuel : nat) :
  forall ptr found,
  counted h advance ptr found ->
  match instr_seek fuel advance needlesize start ptr (blen h - ptr) found with
  | inl (Ret r) => r = -1
  | inl _ => True
  | inr (ptr', size', found') => size' = blen h - ptr' /\ counted h advance ptr' found'
  end.
Proof.
  assert (blen h < 2 ^ 32) as Hh32 by lia.
  induction fuel as [|fuel IH]; intros ptr found Hc; cbn [instr_seek];
    [exact I|].
  destruct ((found <? start) && (needlesize <? blen h - ptr)); [|auto].
  pose proof Hc as [Hptr [Hfound _]].
  destruct (step_cases h advance Hcur Hh32 ptr Hptr)
    as [R|[k [cp [Hk [Hfit [Hcp Hadv]]]]]].
  - unfold rejects in R. rewrite R. reflexivity.
  - rewrite Hadv.
    assert ((cp =? -1) = false) as -> by (apply Z.eqb_neq; lia).
    rewrite int64_wrap_small by lia.
    apply IH. apply (counted_step ptr found k cp); try assumption; lia.
Qed.

Lemma instr_text_scan_counted (unit : Z) (n : buffer) (skips : bmh_skips)
  (fuel : nat) :
  forall ptr found next r,
  counted h advance ptr found ->
  instr_text_scan fuel unit advance h n skips (blen n)
    ptr (blen h - ptr) found next = Ret r ->
  r = 0 \/ r = -1 \/
  exists off, counted h advance off r /\ occ h n off.
Proof.
  assert (blen h < 2 ^ 32) as Hh32 by lia.
  induction fuel as [|fuel IH]; intros ptr found next r Hc;
    cbn [instr_text_scan]; [discriminate|].
  pose proof Hc as [Hptr [Hfound _]].
  destruct (blen n <=? blen h - ptr) eqn:Efit;
    [|intros H; injection H as <-; auto].
  apply Z.leb_le in Efit. pose proof (blen_nonneg n) as Hn0.
  assert (forall next',
            match advance ptr (blen h - ptr) with
            | Some (ptr', stacksize', codepoint) =>
                if codepoint =? -1 then Ret (-1)
                else instr_text_scan fuel unit advance h n skips (blen n)
                       ptr' stacksize' (int64_wrap (found + 1)) next'
            | None => Fault
            end = Ret r ->
            r = 0 \/ r = -1 \/ exists off, counted h advance off r /\ occ h n off)
    as Hstep.
  { intros next'.
    destruct (step_cases h advance Hcur Hh32 ptr Hptr)
      as [R|[k [cp [Hk [Hfit [Hcp Hadv]]]]]].
    - unfold rejects in R. rewrite R. cbn. intros H. injection H as <-. auto.
    - rewrite Hadv.
      assert ((cp =? -1) = false) as -> by (apply Z.eqb_neq; lia).
      rewrite int64_wrap_small by lia.
      apply IH. apply (counted_step ptr found k cp); try assumption; lia. }
  unfold instr_window.
  destruct (next <=? ptr); [|apply Hstep].
  destruct (memcmp_occ h n ptr) as [[-> Ho]|[-> _]]; try lia.
  - intros H. injection H as <-. right. right. exists ptr. auto.
  - destruct (peek h (ptr + (blen n - 1))); [|discriminate].
    destruct (vsize_wrap (blen h - ptr - skips b) <? blen n);
      [intros H; injection H as <-; auto|].
    apply Hstep.
Qed.

Lemma instr_text_scan1_counted (read : Z -> option Z) (first : Z)
  (fuel : nat) :
  forall ptr found r,
  counted h advance ptr found ->
  instr_text_scan1 fuel read advance first ptr (blen h - ptr) found = Ret r ->
  r = 0 \/ r = -1 \/
  exists off, counted h advance off r /\ read off = Some first.
Proof.
  assert (blen h < 2 ^ 32) as Hh32 by lia.
  induction fuel as [|fuel IH]; intros ptr found r Hc;
    cbn [instr_text_scan1]; [discriminate|].
  pose proof Hc as [Hptr [Hfound _]].
  destruct (0 <? blen h - ptr); [|intros H; injection H as <-; auto].
  destruct (read ptr) as [c|] eqn:Hread; [|discriminate].
  destruct (c =? first) eqn:E.
  - apply Z.eqb_eq in E. subst c. intros H. injection H as <-.
    right. right. exists ptr. auto.
  - destruct (step_cases h advance Hcur Hh32 ptr Hptr)
      as [R|[k [cp [Hk [Hfit [Hcp Hadv]]]]]].
    + unfold rejects in R. rewrite R. cbn. intros H. injection H as <-. auto.
    + rewrite Hadv.
      assert ((cp =? -1) = false) as -> by (apply Z.eqb_neq; lia).
      rewrite int64_wrap_small by lia.
      apply IH. apply (counted_step ptr found k cp); try assumption; lia.
Qed.

End ForwardBoundary.

Lemma peek8_inv (buf : buffer) (ix v : Z) :
  peek8 buf ix = Some v -> exists b, peek buf ix = Some b /\ v = byte_val b.
Proof.
  unfold peek8. destruct (peek buf ix) as [b|]; [|discriminate].
  cbn. intros H. injection H as <-. eauto.
Qed.

Lemma peek16_inv (be : bool) (buf : buffer) (ix v : Z) :
  peek16 be buf ix = Some v ->
  exists a b, peek buf ix = Some a /\ peek buf (ix + 1) = Some b /\
              v = unit_val be (byte_val a) (byte_val b).
Proof.
  unfold peek16.
  destruct (peek8 buf ix) as [x|] eqn:X; [|discriminate].
  destruct (peek8 buf (ix + 1)) as [y|] eqn:Y; [|discriminate].
  apply peek8_inv in X. apply peek8_inv in Y.
  destruct X as [a [Ha ->]]. destruct Y as [b [Hb ->]].
  intros H. injection H as <-. eauto.
Qed.

Lemma occ_occurs_at (h n : buffer) (off : Z) :
  occ h n off -> occurs_at h n (Z.to_nat off) = true.
Proof.
  intros Ho. destruct n as [|a n]; [reflexivity|].
  apply occurs_at_occ; [discriminate|].
  pose proof Ho as [H0 _]. rewrite Z2Nat.id by lia. exact Ho.
Qed.

(** The forward text engines answer only positions reached by decoding:
    a positive answer [r] is one more than a number of codepoints that
    decode from the start of the haystack, and the needle occurs at the
    byte offset where they end. *)
Lemma instr_utf8_position_is_boundary (fuel : nat) (h n : buffer)
  (start r : Z) :
  blen h <= INT_MAX ->
  instr_utf8 fuel h (blen h) n (blen n) start = Ret r -> 0 < r ->
  exists off,
    decode_offset (UTF8_ADVANCE h) (Z.to_nat (r - 1)) 0 (blen h) = Some off /\
    occurs_at h n (Z.to_nat off) = true.
Proof.
  intros Hh. unfold INT_MAX in Hh. assert (blen h < 2 ^ 31) as Hh31 by lia.
  pose proof (UTF8_ADVANCE_forward_cursor h) as Hcur.
  pose proof (blen_nonneg h) as Hh0. pose proof (blen_nonneg n) as Hn0.
  unfold instr_utf8.
  destruct (blen h <? blen n); [intros H; injection H as <-; lia|].
  assert (counted h (UTF8_ADVANCE h) 0 1) as Hc0.
  { split; [lia|]. split; [lia|]. reflexivity. }
  pose proof (instr_seek_counted h _ Hcur Hh31 (blen n) start fuel 0 1 Hc0)
    as Hseek.
  rewrite Z.sub_0_r in Hseek.
  destruct (instr_seek fuel (UTF8_ADVANCE h) (blen n) start 0 (blen h) 1)
    as [[z| |]|[[ptr size] found]]; try discriminate.
  { intros H. injection H as <-. lia. }
  destruct Hseek as [-> Hc].
  destruct (found <? start); [intros H; injection H as <-; lia|].
  destruct (blen n <=? 0) eqn:E0.
  { apply Z.leb_le in E0. assert (n = []) as -> by (apply blen_nil_iff; lia).
    intros H. injection H as <-. intros _. exists ptr.
    destruct Hc as [_ [_ Hdec]]. split; [exact Hdec|reflexivity]. }
  apply Z.leb_gt in E0.
  assert (forall off, counted h (UTF8_ADVANCE h) off r -> occ h n off ->
            exists off0,
              decode_offset (UTF8_ADVANCE h) (Z.to_nat (r - 1)) 0 (blen h)
              = Some off0 /\ occurs_at h n (Z.to_nat off0) = true) as Hfin.
  { intros off [_ [_ Hdec]] Ho. exists off. split; [exact Hdec|].
    apply occ_occurs_at. exact Ho. }
  destruct (1 <? blen n) eqn:E1.
  - destruct (fbmh_setup n (blen n) 0) as [skips|]; [|discriminate].
    intros Hr Hpos.
    destruct (instr_text_scan_counted h _ Hcur Hh31 1 n skips fuel
                ptr found ptr r Hc Hr) as [->|[->|[off [Hco Ho]]]]; try lia.
    exact (Hfin off Hco Ho).
  - apply Z.ltb_ge in E1.
    destruct (peek8 n 0) as [first|] eqn:Hfirst; [|discriminate].
    intros Hr Hpos.
    destruct (instr_text_scan1_counted h _ Hcur Hh31 (peek8 h) first fuel
                ptr found r Hc Hr) as [->|[->|[off [Hco Hread]]]]; try lia.
    apply (Hfin off Hco).
    apply peek8_inv in Hfirst. destruct Hfirst as [b [Hb ->]].
    apply peek8_inv in Hread. destruct Hread as [c [Hc' Hv]].
    apply byte_val_inj in Hv. subst c.
    apply (occ_single h n b); try assumption. lia.
Qed.

Lemma instr_utf16_position_is_boundary (big_endian : bool) (fuel : nat)
  (h n : buffer) (start r : Z) :
  blen h <= INT_MAX ->
  instr_utf16 big_endian fuel h (blen h) n (blen n) start = Ret r -> 0 < r ->
  exists off,
    decode_offset (UTF16_ADVANCE big_endian h) (Z.to_nat (r - 1)) 0 (blen h)
    = Some off /\
    occurs_at h n (Z.to_nat off) = true.
Proof.
  intros Hh. unfold INT_MAX in Hh. assert (blen h < 2 ^ 31) as Hh31 by lia.
  pose proof (UTF16_ADVANCE_forward_cursor big_endian h) as Hcur.
  pose proof (blen_nonneg h) as Hh0. pose proof (blen_nonneg n) as Hn0.
  unfold instr_utf16.
  destruct (blen h <? blen n); [intros H; injection H as <-; lia|].
  assert (counted h (UTF16_ADVANCE big_endian h) 0 1) as Hc0.
  { split; [lia|]. split; [lia|]. reflexivity. }
  pose proof (instr_seek_counted h _ Hcur Hh31 (blen n) start fuel 0 1 Hc0)
    as Hseek.
  rewrite Z.sub_0_r in Hseek.
  destruct (instr_seek fuel (UTF16_ADVANCE big_endian h) (blen n) start 0
              (blen h) 1)
    as [[z| |]|[[ptr size] found]]; try discriminate.
  { intros H. injection H as <-. lia. }
  destruct Hseek as [-> Hc].
  destruct (found <? start); [intros H; injection H as <-; lia|].
  destruct (blen n <=? 0) eqn:E0.
  { apply Z.leb_le in E0. assert (n = []) as -> by (apply blen_nil_iff; lia).
    intros H. injection H as <-. intros _. exists ptr.
    destruct Hc as [_ [_ Hdec]]. split; [exact Hdec|reflexivity]. }
  apply Z.leb_gt in E0.
  assert (forall off, counted h (UTF16_ADVANCE big_endian h) off r ->
            occ h n off ->
            exists off0,
              decode_offset (UTF16_ADVANCE big_endian h) (Z.to_nat (r - 1))
                0 (blen h) = Some off0 /\
              occurs_at h n (Z.to_nat off0) = true) as Hfin.
  { intros off [_ [_ Hdec]] Ho. exists off. split; [exact Hdec|].
    apply occ_occurs_at. exact Ho. }
  destruct (2 <? blen n) eqn:E1.
  - destruct (fbmh_setup n (blen n) 1) as [skips|]; [|discriminate].
    intros Hr Hpos.
    destruct (instr_text_scan_counted h _ Hcur Hh31 2 n skips fuel
                ptr found ptr r Hc Hr) as [->|[->|[off [Hco Ho]]]]; try lia.
    exact (Hfin off Hco Ho).
  - apply Z.ltb_ge in E1.
    destruct (peek16 big_endian n 0) as [first|] eqn:Hfirst; [|discriminate].
    intros Hr Hpos.
    destruct (instr_text_scan1_counted h _ Hcur Hh31 (peek16 big_endian h)
                first fuel ptr found r Hc Hr)
      as [->|[->|[off [Hco Hread]]]]; try lia.
    apply (Hfin off Hco).
    apply peek16_inv in Hfirst. destruct Hfirst as [a [b [Ha [Hb ->]]]].
    apply peek16_inv in Hread. destruct Hread as [c [d [Hc' [Hd Hv]]]].
    apply unit_val_inj in Hv; try apply byte_val_range.
    destruct Hv as [Hac Hbd].
    apply byte_val_inj in Hac. apply byte_val_inj in Hbd. subst c d.
    pose proof (peek_range _ _ _ Hb) as Rb. change (0 + 1) with 1 in *.
    destruct Hco as [Hoff _].
    apply occ_pair; try lia; congruence.
Qed.

(** ** Positions the backward UTF-8 engine answers *)

(** The last two bytes of a sequence the forward UTF-8 cursor accepts. *)
Lemma UTF8_ADVANCE_tail (buf : buffer) (ptr size ptr' size' cp : Z) :
  UTF8_ADVANCE buf ptr size = Some (ptr', size', cp) -> 0 <= cp ->
  (ptr' = ptr + 1 /\
   exists c, peek8 buf ptr = Some c /\ c < 0x80) \/
  (ptr' = ptr + 2 /\
   exists c0 c1, peek8 buf ptr = Some c0 /\ peek8 buf (ptr + 1) = Some c1 /\
                 0xC2 <= c0 < 0xE0 /\ 0x80 <= c1 < 0xC0) \/
  (ptr' = ptr + 3 /\
   exists c1 c2, peek8 buf (ptr + 1) = Some c1 /\ peek8 buf (ptr + 2) = Some c2
                 /\ 0x80 <= c1 < 0xC0 /\ 0x80 <= c2 < 0xC0) \/
  (ptr' = ptr + 4 /\
   exists c2 c3, peek8 buf (ptr + 2) = Some c2 /\ peek8 buf (ptr + 3) = Some c3
                 /\ 0x80 <= c2 < 0xC0 /\ 0x80 <= c3 < 0xC0).
Proof.
  unfold UTF8_ADVANCE. unfold_cursor.
  destruct (peek8 buf ptr) as [c0|] eqn:P0;
  destruct (peek8 buf (ptr + 1)) as [c1|] eqn:P1;
  destruct (peek8 buf (ptr + 2)) as [c2|] eqn:P2;
  destruct (peek8 buf (ptr + 3)) as [c3|] eqn:P3; cbn [option_map];
  repeat break_if; try discriminate;
  intros H; injection H as <- <- <-; intros Hcp; bool_to_prop; try lia.
  all: try (left; split; [reflexivity|]; eexists; split;
            [reflexivity|lia]).
  all: try (right; left; split; [reflexivity|]; do 2 eexists;
            repeat split; (reflexivity || lia)).
  all: try (right; right; left; split; [reflexivity|]; do 2 eexists;
            repeat split; (reflexivity || lia)).
  all: try (right; right; right; split; [reflexivity|]; do 2 eexists;
            repeat split; (reflexivity || lia)).
Qed.

Section ForwardLast.

Variable h : buffer.
Variable advance : Z -> Z -> option cursor.
Hypothesis Hcur : forward_cursor h advance.
Hypothesis Hh : blen h < 2 ^ 32.

(** The last step of a decoding of [S j] codepoints. *)
Lemma decode_offset_last (j : nat) :
  forall p0 ptr,
  0 <= p0 <= blen h ->
  decode_offset advance (S j) p0 (blen h - p0) = Some ptr ->
  exists q k cp,
    decode_offset advance j p0 (blen h - p0) = Some q /\
    p0 <= q /\ 1 <= k <= 4 /\ ptr = q + k /\ ptr <= blen h /\ 0 <= cp /\
    advance q (blen h - q) = Some (q + k, blen h - (q + k), cp).
Proof.
  induction j as [|j IH]; intros p0 ptr Hp0 Hdec;
    destruct (decode_offset_S h advance Hcur Hh _ p0 ptr Hp0 Hdec)
      as [k0 [cp0 [Hk0 [Hfit [Hcp0 [Hadv0 Hrest]]]]]].
  - cbn in Hrest. injection Hrest as <-.
    exists p0, k0, cp0. repeat split; try lia; try assumption.
  - destruct (IH (p0 + k0) ptr ltac:(lia) Hrest)
      as [q [k [cp [Hq [Hle [Hk [-> [Hfit' [Hcp Hadv]]]]]]]]].
    exists q, k, cp. repeat split; try lia; try assumption.
    change (decode_offset advance (S j) p0 (blen h - p0))
      with (match advance p0 (blen h - p0) with
            | Some (ptr', size', c) =>
                if c =? -1 then None else decode_offset advance j ptr' size'
            | None => None
            end).
    rewrite Hadv0.
    assert ((cp0 =? -1) = false) as -> by (apply Z.eqb_neq; lia).
    exact Hq.
Qed.

End ForwardLast.

Section BackwardUtf8.

Variable h : buffer.
Hypothesis Hh : blen h < 2 ^ 31.

Let Hcur := UTF8_ADVANCE_forward_cursor h.

(** Where the backward cursor moves, it undoes the last forward step. *)
Lemma counted_retreat (ptr found ptr' size' cp : Z) :
  counted h (UTF8_ADVANCE h) ptr found -> 0 < ptr ->
  UTF8_RETREAT h ptr ptr = Some (ptr', size', cp) ->
  (ptr' = ptr /\ size' = ptr) \/
  (ptr' < ptr /\ size' = ptr' /\ counted h (UTF8_ADVANCE h) ptr' (found - 1)).
Proof.
  intros [Hptr [Hfound Hdec]] Hpos Hret.
  assert (blen h < 2 ^ 32) as Hh32 by lia.
  destruct (UTF8_RETREAT_steps _ _ _ _ _ _ Hret)
    as [[-> [-> _]]|[[-> [-> [_ [Hcp Hb1]]]]|
        [-> [-> [_ [c1 [c2 [Hb1 [Hb2 [Hc1 [Hc2 _]]]]]]]]]]];
    [left; auto| |]; right.
  all: assert (2 <= found) as Hf2
    by (destruct (Z.eq_dec found 1) as [->|]; [|lia];
        cbn in Hdec; injection Hdec as <-; lia).
  all: assert (decode_offset (UTF8_ADVANCE h) (S (Z.to_nat (found - 2))) 0
                 (blen h - 0) = Some ptr) as Hdec'
    by (rewrite Z.sub_0_r;
        replace (S (Z.to_nat (found - 2))) with (Z.to_nat (found - 1)) by lia;
        exact Hdec).
  all: destruct (decode_offset_last h _ Hcur Hh32 _ 0 ptr ltac:(lia) Hdec')
    as [q [k [cp0 [Hq [Hq0 [Hk [Hptrq [Hfit [Hcp0 Hadv]]]]]]]]].
  all: rewrite Z.sub_0_r in Hq.
  all: pose proof (decode_offset_bound h _ Hcur Hh32 _ 0 q ltac:(lia)
                     ltac:(rewrite Z.sub_0_r; exact Hq)) as Hqb.
  all: destruct (UTF8_ADVANCE_tail _ _ _ _ _ _ Hadv Hcp0)
    as [[Hk1 [c [Hc Hcr]]]|[[Hk2 [d0 [d1 [Hd0 [Hd1 [Hr0 Hr1]]]]]]|
        [[Hk3 [d1 [d2 [Hd1 [Hd2 [Hr1 Hr2]]]]]]|
         [Hk4 [d2 [d3 [Hd2 [Hd3 [Hr2 Hr3]]]]]]]]].
  (* one byte back *)
  - assert (q = ptr - 1) as -> by lia.
    rewrite vsize_wrap_small by lia.
    split; [lia|]. split; [reflexivity|]. split; [lia|]. split; [lia|].
    replace (Z.to_nat (found - 1 - 1)) with (Z.to_nat (found - 2)) by lia.
    exact Hq.
  - exfalso. replace (q + 1) with (ptr - 1) in Hd1 by lia.
    rewrite Hb1 in Hd1. injection Hd1 as <-. lia.
  - exfalso. replace (q + 2) with (ptr - 1) in Hd2 by lia.
    rewrite Hb1 in Hd2. injection Hd2 as <-. lia.
  - exfalso. replace (q + 3) with (ptr - 1) in Hd3 by lia.
    rewrite Hb1 in Hd3. injection Hd3 as <-. lia.
  (* two bytes back *)
  - exfalso. replace q with (ptr - 1) in Hc by lia.
    rewrite Hb1 in Hc. injection Hc as <-. lia.
  - assert (q = ptr - 2) as -> by lia.
    rewrite vsize_wrap_small by lia.
    split; [lia|]. split; [reflexivity|]. split; [lia|]. split; [lia|].
    replace (Z.to_nat (found - 1 - 1)) with (Z.to_nat (found - 2)) by lia.
    exact Hq.
  - exfalso. replace (q + 1) with (ptr - 2) in Hd1 by lia.
    rewrite Hb2 in Hd1. injection Hd1 as <-. lia.
  - exfalso. replace (q + 2) with (ptr - 2) in Hd2 by lia.
    rewrite Hb2 in Hd2. injection Hd2 as <-. lia.
Qed.

End BackwardUtf8.

Lemma rinstr_seek_counted (h : buffer) (advance : Z -> Z -> option cursor)
  (needlesize start : Z) (fuel : nat) :
  forward_cursor h advance -> blen h < 2 ^ 31 ->
  forall ptr found,
  counted h advance ptr found -> needlesize <= blen h - ptr ->
  match rinstr_seek fuel advance needlesize start ptr (blen h - ptr) found with
  | inl (Ret r) => r = -1
  | inl _ => True
  | inr (ptr', _, found') =>
      counted h advance ptr' found' /\ needlesize <= blen h - ptr'
  end.
Proof.
  intros Hcur Hh. assert (blen h < 2 ^ 32) as Hh32 by lia.
  induction fuel as [|fuel IH]; intros ptr found Hc Hfit; cbn [rinstr_seek];
    [exact I|].
  destruct ((found <? start) && (needlesize <? blen h - ptr)); [|auto].
  pose proof Hc as [Hptr [Hfound _]].
  destruct (step_cases h advance Hcur Hh32 ptr Hptr)
    as [R|[k [cp [Hk [Hkfit [Hcp Hadv]]]]]].
  - unfold rejects in R. rewrite R. reflexivity.
  - rewrite Hadv.
    assert ((cp =? -1) = false) as -> by (apply Z.eqb_neq; lia).
    destruct (blen h - (ptr + k) <? needlesize) eqn:E; [auto|].
    apply Z.ltb_ge in E.
    rewrite int64_wrap_small by lia.
    apply IH; [|exact E].
    apply (counted_step h advance Hcur Hh ptr found k cp); try assumption; lia.
Qed.

Section BackwardUtf8Scan.

Variable h : buffer.
Hypothesis Hh : blen h < 2 ^ 31.

Lemma rinstr_utf8_scan_counted (n : buffer) (skips : bmh_skips)
  (fuel : nat) :
  (forall c, 1 <= skips c) ->
  forall ptr found next r,
  counted h (UTF8_ADVANCE h) ptr found -> ptr + blen n <= blen h ->
  rinstr_text_scan fuel 1 (UTF8_RETREAT h) h n skips (blen n)
    ptr ptr found next = Ret r ->
  r = 0 \/ exists off, counted h (UTF8_ADVANCE h) off r /\ occ h n off.
Proof.
  intros Hskips.
  induction fuel as [|fuel IH]; intros ptr found next r Hc Hfit;
    cbn [rinstr_text_scan]; [discriminate|].
  pose proof Hc as [Hptr [Hfound _]].
  assert (forall next', next' < ptr ->
            (if ptr <=? 0 then Ret 0
             else
               match UTF8_RETREAT h ptr ptr with
               | Some (ptr', stacksize', _) =>
                   rinstr_text_scan fuel 1 (UTF8_RETREAT h) h n skips (blen n)
                     ptr' stacksize' (int64_wrap (found - 1)) next'
               | None => Fault
               end) = Ret r ->
            r = 0 \/ exists off, counted h (UTF8_ADVANCE h) off r /\ occ h n off)
    as Hstep.
  { intros next' Hnext.
    destruct (ptr <=? 0) eqn:E0; [intros H; injection H as <-; auto|].
    apply Z.leb_gt in E0.
    destruct (UTF8_RETREAT h ptr ptr) as [[[ptr' size'] cp]|] eqn:R;
      [|discriminate].
    destruct (counted_retreat h Hh ptr found ptr' size' cp Hc E0 R)
      as [[-> ->]|[Hlt [-> Hc']]].
    - rewrite (rinstr_text_scan_stuck 1 (UTF8_RETREAT h) h n skips (blen n)
                 ptr ptr next' cp Hnext E0 R).
      discriminate.
    - rewrite int64_wrap_small by lia.
      apply IH; [exact Hc'|lia]. }
  unfold rinstr_window.
  destruct (ptr <=? next) eqn:E.
  - destruct (memcmp_occ h n ptr) as [[-> Ho]|[-> _]]; try lia.
    + intros H. injection H as <-. right. exists ptr. auto.
    + destruct (peek h ptr) as [c|]; [|discriminate].
      destruct (ptr <? skips c); [intros H; injection H as <-; auto|].
      apply Hstep. rewrite Z.div_1_r. specialize (Hskips c). lia.
  - apply Z.leb_gt in E. apply Hstep. exact E.
Qed.

Lemma rinstr_utf8_scan1_counted (n : buffer) (first : byte) (fuel : nat) :
  blen n = 1 -> peek n 0 = Some first ->
  forall ptr found r,
  counted h (UTF8_ADVANCE h) ptr found ->
  rinstr_text_scan1 fuel (peek8 h) (UTF8_RETREAT h) (byte_val first)
    ptr ptr found = Ret r ->
  r = 0 \/ exists off, counted h (UTF8_ADVANCE h) off r /\ occ h n off.
Proof.
  intros Hn Hfirst.
  induction fuel as [|fuel IH]; intros ptr found r Hc;
    cbn [rinstr_text_scan1]; [discriminate|].
  pose proof Hc as [Hptr [Hfound _]].
  destruct (peek8 h ptr) as [v|] eqn:Hread; [|discriminate].
  destruct (v =? byte_val first) eqn:E.
  - apply Z.eqb_eq in E. subst v.
    apply peek8_inv in Hread. destruct Hread as [c [Hc' Hv]].
    apply byte_val_inj in Hv. subst c.
    intros H. injection H as <-. right. exists ptr. split; [exact Hc|].
    apply (occ_single h n first); assumption.
  - destruct (ptr <=? 0) eqn:E0; [intros H; injection H as <-; auto|].
    apply Z.leb_gt in E0.
    destruct (UTF8_RETREAT h ptr ptr) as [[[ptr' size'] cp]|] eqn:R;
      [|discriminate].
    destruct (counted_retreat h Hh ptr found ptr' size' cp Hc E0 R)
      as [[-> ->]|[Hlt [-> Hc']]].
    + rewrite (rinstr_text_scan1_stuck (peek8 h) (UTF8_RETREAT h)
                 (byte_val first) ptr ptr v cp Hread E E0 R).
      discriminate.
    + rewrite int64_wrap_small by lia.
      apply IH. exact Hc'.
Qed.

End BackwardUtf8Scan.

(** The backward UTF-8 engine, when it answers a position, answers one
    reached by decoding from the start, with the needle at the byte offset
    where the decoding ends. *)
Lemma rinstr_utf8_position_is_boundary (fuel : nat) (h n : buffer)
  (start r : Z) :
  blen h <= INT_MAX ->
  rinstr_utf8 fuel h (blen h) n (blen n) start = Ret r -> 0 < r ->
  exists off,
    decode_offset (UTF8_ADVANCE h) (Z.to_nat (r - 1)) 0 (blen h) = Some off /\
    occurs_at h n (Z.to_nat off) = true.
Proof.
  intros Hh. unfold INT_MAX in Hh. assert (blen h < 2 ^ 31) as Hh31 by lia.
  pose proof (UTF8_ADVANCE_forward_cursor h) as Hcur.
  pose proof (blen_nonneg h) as Hh0. pose proof (blen_nonneg n) as Hn0.
  unfold rinstr_utf8.
  destruct (start <=? 0); [intros H; injection H as <-; lia|].
  destruct (blen h <? blen n) eqn:Efit; [intros H; injection H as <-; lia|].
  apply Z.ltb_ge in Efit.
  assert (counted h (UTF8_ADVANCE h) 0 1) as Hc0.
  { split; [lia|]. split; [lia|]. reflexivity. }
  pose proof (rinstr_seek_counted h _ (blen n) start fuel Hcur Hh31 0 1 Hc0
                ltac:(lia)) as Hseek.
  rewrite Z.sub_0_r in Hseek.
  destruct (rinstr_seek fuel (UTF8_ADVANCE h) (blen n) start 0 (blen h) 1)
    as [[z| |]|[[ptr size] found]]; try discriminate.
  { intros H. injection H as <-. lia. }
  destruct Hseek as [Hc Hfit].
  assert (forall off, counted h (UTF8_ADVANCE h) off r -> occ h n off ->
            exists off0,
              decode_offset (UTF8_ADVANCE h) (Z.to_nat (r - 1)) 0 (blen h)
              = Some off0 /\ occurs_at h n (Z.to_nat off0) = true) as Hfin.
  { intros off [_ [_ Hdec]] Ho. exists off. split; [exact Hdec|].
    apply occ_occurs_at. exact Ho. }
  destruct (blen n <=? 0) eqn:E0.
  { apply Z.leb_le in E0. assert (n = []) as -> by (apply blen_nil_iff; lia).
    intros H. injection H as <-. intros _. exists ptr.
    destruct Hc as [_ [_ Hdec]]. split; [exact Hdec|reflexivity]. }
  apply Z.leb_gt in E0. cbv zeta.
  pose proof Hc as [Hptr _].
  rewrite vsize_wrap_small by lia.
  destruct (1 <? blen n) eqn:E1.
  - destruct (rbmh_setup_spec n) as [skips [-> [Hskips _]]]; [lia|].
    intros Hr Hpos.
    destruct (rinstr_utf8_scan_counted h Hh31 n skips fuel
                ltac:(intros c; specialize (Hskips c); lia)
                ptr found ptr r Hc ltac:(lia) Hr) as [->|[off [Hco Ho]]];
      [lia|].
    exact (Hfin off Hco Ho).
  - apply Z.ltb_ge in E1.
    destruct (peek_some n 0) as [first Hfirst]; [lia|].
    rewrite (peek8_byte _ _ _ Hfirst).
    intros Hr Hpos.
    destruct (rinstr_utf8_scan1_counted h Hh31 n first fuel ltac:(lia) Hfirst
                ptr found r Hc Hr) as [->|[off [Hco Ho]]]; [lia|].
    exact (Hfin off Hco Ho).
Qed.

(** ** The forward text engines come back *)

Section ForwardReturns.

Variable h : buffer.
Variable advance : Z -> Z -> option cursor.
Hypothesis Hcur : forward_cursor h advance.
Hypothesis Hh : blen h < 2 ^ 31.

(** An alignment the cursor keeps: none for bytes, evenness for 16-bit
    units. *)
Variable aligned : Z -> Prop.
Hypothesis Haligned :
  forall ptr size ptr' size' cp,
    aligned ptr -> advance ptr size = Some (ptr', size', cp) -> aligned ptr'.

Lemma instr_seek_returns (needlesize start : Z) (fuel : nat) :
  forall ptr found,
  0 <= ptr <= blen h -> 0 < found <= ptr + 1 -> aligned ptr ->
  blen h - ptr < Z.of_nat fuel ->
  (exists r, instr_seek fuel advance needlesize start ptr (blen h - ptr) found
             = inl (Ret r)) \/
  (exists ptr' found',
      instr_seek fuel advance needlesize start ptr (blen h - ptr) found
      = inr (ptr', blen h - ptr', found') /\
      0 <= ptr' <= blen h /\ 0 < found' <= ptr' + 1 /\ aligned ptr').
Proof.
  assert (blen h < 2 ^ 32) as Hh32 by lia.
  induction fuel as [|fuel IH]; intros ptr found Hptr Hfound Hal Hfuel; [lia|].
  cbn [instr_seek].
  destruct ((found <? start) && (needlesize <? blen h - ptr));
    [|right; exists ptr, found; auto].
  destruct (step_cases h advance Hcur Hh32 ptr Hptr)
    as [R|[k [cp [Hk [Hfit [Hcp Hadv]]]]]].
  - unfold rejects in R. rewrite R. cbn. left. eauto.
  - rewrite Hadv.
    assert ((cp =? -1) = false) as -> by (apply Z.eqb_neq; lia).
    rewrite int64_wrap_small by lia.
    apply IH; try lia. exact (Haligned _ _ _ _ _ Hal Hadv).
Qed.

Lemma instr_text_scan_returns (unit : Z) (n : buffer) (skips : bmh_skips)
  (fuel : nat) :
  forall ptr found next,
  0 <= ptr <= blen h -> 0 < found <= ptr + 1 ->
  blen h - ptr < Z.of_nat fuel ->
  exists r,
    instr_text_scan fuel unit advance h n skips (blen n)
      ptr (blen h - ptr) found next = Ret r.
Proof.
  assert (blen h < 2 ^ 32) as Hh32 by lia.
  pose proof (blen_nonneg n) as Hn0.
  induction fuel as [|fuel IH]; intros ptr found next Hptr Hfound Hfuel; [lia|].
  cbn [instr_text_scan].
  destruct (blen n <=? blen h - ptr) eqn:Efit; [|eauto].
  apply Z.leb_le in Efit.
  assert (forall next',
            exists r,
              match advance ptr (blen h - ptr) with
              | Some (ptr', stacksize', codepoint) =>
                  if codepoint =? -1 then Ret (-1)
                  else instr_text_scan fuel unit advance h n skips (blen n)
                         ptr' stacksize' (int64_wrap (found + 1)) next'
              | None => Fault
              end = Ret r) as Hstep.
  { intros next'.
    destruct (step_cases h advance Hcur Hh32 ptr Hptr)
      as [R|[k [cp [Hk [Hfit [Hcp Hadv]]]]]].
    - unfold rejects in R. rewrite R. cbn. eauto.
    - rewrite Hadv.
      assert ((cp =? -1) = false) as -> by (apply Z.eqb_neq; lia).
      rewrite int64_wrap_small by lia.
      apply IH; lia. }
  unfold instr_window.
  destruct (next <=? ptr); [|apply Hstep].
  destruct (memcmp_occ h n ptr) as [[-> _]|[-> Hnocc]]; try lia; [eauto|].
  destruct (peek_some h (ptr + (blen n - 1))) as [c ->].
  { destruct (Z.eq_dec (blen n) 0) as [E|]; [|lia].
    exfalso. apply Hnocc. split; [lia|]. split; [lia|]. intros k Hk. lia. }
  destruct (vsize_wrap (blen h - ptr - skips c) <? blen n); [eauto|].
  apply Hstep.
Qed.

Lemma instr_text_scan1_returns (read : Z -> option Z) (first : Z)
  (fuel : nat) :
  (forall p, aligned p -> 0 <= p < blen h -> exists c, read p = Some c) ->
  forall ptr found,
  0 <= ptr <= blen h -> 0 < found <= ptr + 1 -> aligned ptr ->
  blen h - ptr < Z.of_nat fuel ->
  exists r,
    instr_text_scan1 fuel read advance first ptr (blen h - ptr) found = Ret r.
Proof.
  assert (blen h < 2 ^ 32) as Hh32 by lia.
  intros Hread.
  induction fuel as [|fuel IH]; intros ptr found Hptr Hfound Hal Hfuel; [lia|].
  cbn [instr_text_scan1].
  destruct (0 <? blen h - ptr) eqn:E; [|eauto].
  apply Z.ltb_lt in E.
  destruct (Hread ptr Hal ltac:(lia)) as [c ->].
  destruct (c =? first); [eauto|].
  destruct (step_cases h advance Hcur Hh32 ptr Hptr)
    as [R|[k [cp [Hk [Hfit [Hcp Hadv]]]]]].
  - unfold rejects in R. rewrite R. cbn. eauto.
  - rewrite Hadv.
    assert ((cp =? -1) = false) as -> by (apply Z.eqb_neq; lia).
    rewrite int64_wrap_small by lia.
    apply IH; try lia. exact (Haligned _ _ _ _ _ Hal Hadv).
Qed.

End ForwardReturns.

(** The forward text engines come back for every haystack, needle and
    start, malformed input included. *)
Lemma instr_utf8_returns (fuel : nat) (h n : buffer) (start : Z) :
  blen h <= INT_MAX -> (length h < fuel)%nat ->
  exists r, instr_utf8 fuel h (blen h) n (blen n) start = Ret r.
Proof.
  intros Hh Hfuel. unfold INT_MAX in Hh. assert (blen h < 2 ^ 31) as Hh31 by lia.
  pose proof (UTF8_ADVANCE_forward_cursor h) as Hcur.
  pose proof (blen_nonneg h) as Hh0. pose proof (blen_nonneg n) as Hn0.
  assert (blen h < Z.of_nat fuel) as Hfuel' by (unfold blen; lia).
  unfold instr_utf8.
  destruct (blen h <? blen n) eqn:Efit; [eauto|]. apply Z.ltb_ge in Efit.
  destruct (instr_seek_returns h _ Hcur Hh31 (fun _ => True)
              ltac:(auto) (blen n) start fuel 0 1
              ltac:(lia) ltac:(lia) I ltac:(lia))
    as [[r Hr]|[ptr [found [Hr [Hptr [Hfound _]]]]]];
    rewrite Z.sub_0_r in Hr; rewrite Hr; [eauto|].
  destruct (found <? start); [eauto|].
  destruct (blen n <=? 0) eqn:E0; [eauto|]. apply Z.leb_gt in E0.
  assert (blen h - ptr < Z.of_nat fuel) as Hfuel'' by lia.
  destruct (1 <? blen n) eqn:E1.
  - destruct (fbmh_setup_spec n) as [skips [-> _]]; [lia|].
    apply (instr_text_scan_returns h _ Hcur Hh31); assumption.
  - apply Z.ltb_ge in E1.
    destruct (peek_some n 0) as [first Hfirst]; [lia|].
    rewrite (peek8_byte _ _ _ Hfirst).
    apply (instr_text_scan1_returns h _ Hcur Hh31 (fun _ => True));
      try assumption; auto.
    intros p _ Hp. destruct (peek_some h p Hp) as [c Hc].
    exists (byte_val c). apply peek8_byte. exact Hc.
Qed.

Lemma instr_utf16_returns (big_endian : bool) (fuel : nat) (h n : buffer)
  (start : Z) :
  blen h <= INT_MAX -> (length h < fuel)%nat ->
  Z.even (blen h) = true -> Z.even (blen n) = true ->
  exists r, instr_utf16 big_endian fuel h (blen h) n (blen n) start = Ret r.
Proof.
  intros Hh Hfuel Heven Hneven.
  unfold INT_MAX in Hh. assert (blen h < 2 ^ 31) as Hh31 by lia.
  pose proof (UTF16_ADVANCE_forward_cursor big_endian h) as Hcur.
  pose proof (blen_nonneg h) as Hh0. pose proof (blen_nonneg n) as Hn0.
  assert (blen h < Z.of_nat fuel) as Hfuel' by (unfold blen; lia).
  assert (forall ptr size ptr' size' cp,
            Z.even ptr = true ->
            UTF16_ADVANCE big_endian h ptr size = Some (ptr', size', cp) ->
            Z.even ptr' = true) as Hal.
  { intros ptr size ptr' size' cp He Hadv.
    destruct (UTF16_ADVANCE_steps _ _ _ _ _ _ _ Hadv)
      as [[-> _]|[k [[->| ->] [_ [-> _]]]]]; [exact He| |];
      rewrite Z.even_add, He; reflexivity. }
  unfold instr_utf16.
  destruct (blen h <? blen n) eqn:Efit; [eauto|]. apply Z.ltb_ge in Efit.
  destruct (instr_seek_returns h _ Hcur Hh31 (fun p => Z.even p = true)
              Hal (blen n) start fuel 0 1
              ltac:(lia) ltac:(lia) eq_refl ltac:(lia))
    as [[r Hr]|[ptr [found [Hr [Hptr [Hfound Hpe]]]]]];
    rewrite Z.sub_0_r in Hr; rewrite Hr; [eauto|].
  destruct (found <? start); [eauto|].
  destruct (blen n <=? 0) eqn:E0; [eauto|]. apply Z.leb_gt in E0.
  assert (blen h - ptr < Z.of_nat fuel) as Hfuel'' by lia.
  assert (forall a b, Z.even a = true -> Z.even b = true -> a < b ->
                      a + 2 <= b) as Hgap.
  { intros a b Ha Hb Hlt.
    pose proof (Z.div_mod a 2 ltac:(lia)) as Da.
    pose proof (Z.div_mod b 2 ltac:(lia)) as Db.
    rewrite Zmod_even in Da, Db. rewrite Ha in Da. rewrite Hb in Db. lia. }
  destruct (2 <? blen n) eqn:E1.
  - apply Z.ltb_lt in E1.
    destruct (fbmh_setup_masked_spec n) as [skips [-> _]]; [lia|exact Hneven|].
    apply (instr_text_scan_returns h _ Hcur Hh31); assumption.
  - apply Z.ltb_ge in E1.
    assert (blen n = 2) as En by (apply (Hgap 0 (blen n)) in Hneven; [lia|reflexivity|lia]).
    destruct (peek_some n 0) as [a Ha]; [lia|].
    destruct (peek_some n 1) as [b Hb]; [lia|].
    unfold peek16 at 1. rewrite (peek8_byte _ _ _ Ha).
    change (0 + 1) with 1. rewrite (peek8_byte _ _ _ Hb).
    apply (instr_text_scan1_returns h _ Hcur Hh31 (fun p => Z.even p = true));
      try assumption.
    intros p Hpe' Hp.
    pose proof (Hgap p (blen h) Hpe' Heven ltac:(lia)) as Hroom.
    destruct (peek_some h p ltac:(lia)) as [c Hc].
    destruct (peek_some h (p + 1) ltac:(lia)) as [d Hd].
    unfold peek16. rewrite (peek8_byte _ _ _ Hc), (peek8_byte _ _ _ Hd).
    eauto.
Qed.

(** ** Where the backward UTF-8 cursor agrees with the forward one *)

(** The one- and two-byte sequences the forward UTF-8 cursor accepts, with
    the codepoint it decodes. *)
Lemma UTF8_ADVANCE_short (buf : buffer) (ptr size ptr' size' cp : Z) :
  UTF8_ADVANCE buf ptr size = Some (ptr', size', cp) -> 0 <= cp ->
  ptr' <= ptr + 2 ->
  (ptr' = ptr + 1 /\ peek8 buf ptr = Some cp /\ cp < 0x80) \/
  (ptr' = ptr + 2 /\
   exists c0 c1, peek8 buf ptr = Some c0 /\ peek8 buf (ptr + 1) = Some c1 /\
                 0xC2 <= c0 < 0xE0 /\ 0x80 <= c1 < 0xC0 /\
                 cp = utf8_cp2 c0 c1).
Proof.
  unfold UTF8_ADVANCE. unfold_cursor.
  destruct (peek8 buf ptr) as [c0|] eqn:P0;
  destruct (peek8 buf (ptr + 1)) as [c1|] eqn:P1;
  destruct (peek8 buf (ptr + 2)) as [c2|] eqn:P2;
  destruct (peek8 buf (ptr + 3)) as [c3|] eqn:P3; cbn [option_map];
  repeat break_if; try discriminate;
  intros H; injection H as <- <- <-; intros Hcp Hle; bool_to_prop; try lia.
  all: try (left; repeat split; (reflexivity || lia)).
  all: try (right; split; [reflexivity|]; do 2 eexists;
            repeat split; (reflexivity || lia)).
Qed.

Lemma UTF8_RETREAT_one (buf : buffer) (ptr size c : Z) :
  peek8 buf (ptr - 1) = Some c -> c < 0x80 -> 1 <= size ->
  UTF8_RETREAT buf ptr size = Some (ptr - 1, vsize_wrap (size - 1), c).
Proof.
  intros Hc Hlt Hsize. unfold UTF8_RETREAT. unfold_cursor.
  rewrite Hc. cbn [option_map].
  rewrite (proj2 (Z.leb_le 1 size) Hsize).
  rewrite (proj2 (Z.ltb_lt c 128) Hlt). reflexivity.
Qed.

Lemma UTF8_RETREAT_two (buf : buffer) (ptr size c1 c2 : Z) :
  peek8 buf (ptr - 1) = Some c1 -> peek8 buf (ptr - 2) = Some c2 ->
  0x80 <= c1 < 0xC0 -> 0xC2 <= c2 < 0xE0 -> 2 <= size ->
  UTF8_RETREAT buf ptr size
  = Some (ptr - 2, vsize_wrap (size - 2), utf8_cp2 c2 c1).
Proof.
  intros H1 H2 R1 R2 Hsize. unfold UTF8_RETREAT. unfold_cursor.
  rewrite H1, H2. cbn [option_map].
  rewrite (proj2 (Z.leb_le 1 size) ltac:(lia)).
  rewrite (proj2 (Z.ltb_ge c1 128) ltac:(lia)).
  rewrite (proj2 (Z.leb_le 2 size) Hsize).
  rewrite (proj2 (Z.leb_le 128 c1) ltac:(lia)).
  rewrite (proj2 (Z.ltb_lt c1 192) ltac:(lia)).
  rewrite (proj2 (Z.leb_le 194 c2) ltac:(lia)).
  rewrite (proj2 (Z.ltb_lt c2 224) ltac:(lia)).
  reflexivity.
Qed.

(** On one- and two-byte encodings the backward cursor does mirror the
    forward one: same codepoint, same number of bytes. *)
Lemma UTF8_RETREAT_mirrors_short (buf : buffer)
  (ptr size ptr' rest cp size' : Z) :
  UTF8_ADVANCE buf ptr size = Some (ptr', rest, cp) -> 0 <= cp ->
  ptr' <= ptr + 2 -> ptr' - ptr <= size' ->
  UTF8_RETREAT buf ptr' size'
  = Some (ptr, vsize_wrap (size' - (ptr' - ptr)), cp).
Proof.
  intros Hadv Hcp Hle Hsize.
  destruct (UTF8_ADVANCE_short _ _ _ _ _ _ Hadv Hcp Hle)
    as [[-> [Hc Hlt]]|[-> [c0 [c1 [H0 [H1 [R0 [R1 ->]]]]]]]].
  - rewrite (UTF8_RETREAT_one buf (ptr + 1) size' cp); try lia.
    + repeat f_equal; lia.
    + replace (ptr + 1 - 1) with ptr by lia. exact Hc.
  - rewrite (UTF8_RETREAT_two buf (ptr + 2) size' c1 c0); try lia.
    + repeat f_equal; lia.
    + replace (ptr + 2 - 1) with (ptr + 1) by lia. exact H1.
    + replace (ptr + 2 - 2) with ptr by lia. exact H0.
Qed.

(** ** Concrete searches *)

(** *** The sample search of the specification *)

(** C7, as the code has it: in the bytes of ["abcabcabc"] the forward search
    for the bytes of ["bca"] from the default start answers 2 and the
    backward search from the default start answers 5, the last offset at
    which ["bca"] still fits and occurs. *)
Theorem abcabcabc_bca_positions (fuel : nat) :
  instr_blob (2 + fuel) abcabcabc (blen abcabcabc) bca (blen bca) 1 = Ret 2 /\
  rinstr_blob (2 + fuel) abcabcabc (blen abcabcabc) bca (blen bca) INT64_MAX
    = Ret 5.
Proof. split; reflexivity. Qed.

(** C7 as stated fails: the backward search does not answer 8; no
    occurrence starts at position 8 of a 9-byte haystack. *)
Lemma abcabcabc_bca_backward_not_8 :
  rinstr_blob 9 abcabcabc (blen abcabcabc) bca (blen bca) INT64_MAX <> Ret 8
  /\ occurs_at abcabcabc bca 7 = false
  /\ naive_last abcabcabc bca = 5.
Proof.
  split; [|split]; [vm_compute; discriminate | reflexivity | reflexivity].
Qed.

(** ** The backward UTF-8 cursor *)

(** C5 fails on the code at the three-byte encoding of U+20AC and at the
    four-byte encoding of U+1F600: the forward cursor accepts each, decodes
    [0x20AC] and [0x1F600] and moves three and four bytes; the backward
    cursor applied at the end of each rejects it and stays where it was. *)
Theorem utf8_retreat_rejects_euro :
  UTF8_ADVANCE euro 0 3 = Some (3, 0, 0x20AC) /\
  UTF8_RETREAT euro 3 3 = Some (3, 3, -1) /\
  UTF8_ADVANCE grin 0 4 = Some (4, 0, 0x1F600) /\
  UTF8_RETREAT grin 4 4 = Some (4, 4, -1).
Proof. repeat split; reflexivity. Qed.

(** ** Backward text searches that do not come back *)

Lemma rinstr_utf8_euro_a_stuck (fuel : nat) :
  rinstr_utf8 fuel euro_a (blen euro_a) letter_b (blen letter_b) INT64_MAX
  = Timeout.
Proof.
  destruct fuel as [|[|fuel]]; try reflexivity.
  change (rinstr_utf8 (S (S fuel)) euro_a (blen euro_a) letter_b
            (blen letter_b) INT64_MAX)
    with (rinstr_text_scan1 (S (S fuel)) (peek8 euro_a) (UTF8_RETREAT euro_a)
            0x62 3 3 2).
  eapply rinstr_text_scan1_stuck; try reflexivity.
Qed.

Lemma rinstr_utf16_grin_stuck (big_endian : bool) (fuel : nat) :
  rinstr_utf16 big_endian fuel
    (A_grin_Y_grin big_endian) (blen (A_grin_Y_grin big_endian))
    (letter_W big_endian) (blen (letter_W big_endian)) INT64_MAX
  = Timeout.
Proof.
  destruct big_endian;
    (destruct fuel as [|[|[|[|fuel]]]]; try reflexivity);
    match goal with
    | |- rinstr_utf16 ?be _ ?h _ _ _ _ = _ =>
        change (rinstr_text_scan1 (S (S fuel)) (peek16 be h)
                  (UTF16_RETREAT be h) 0x57 10 2 2 = Timeout)
    end;
    eapply rinstr_text_scan1_stuck; reflexivity.
Qed.

Lemma rinstr_text_scan_stuck_after_window (unit : Z)
  (retreat : Z -> Z -> option cursor) (haystack needle : buffer)
  (skips : bmh_skips) (needlesize ptr stacksize next next' cp : Z) :
  (forall found,
      rinstr_window unit haystack needle skips needlesize ptr stacksize
        found next = inr next') ->
  next' < ptr -> 0 < stacksize ->
  retreat ptr stacksize = Some (ptr, stacksize, cp) ->
  forall (fuel : nat) (found : Z),
    rinstr_text_scan fuel unit retreat haystack needle skips needlesize
      ptr stacksize found next = Timeout.
Proof.
  intros Hwin Hnext Hsize Hret fuel found.
  destruct fuel as [|fuel]; simpl; [reflexivity|].
  rewrite Hwin.
  destruct (stacksize <=? 0) eqn:E0; [apply Z.leb_le in E0; lia|].
  rewrite Hret. eapply rinstr_text_scan_stuck; eassumption.
Qed.

Lemma rinstr_utf8_euro_ab_stuck (fuel : nat) :
  rinstr_utf8 fuel euro_ab (blen euro_ab) xy (blen xy) INT64_MAX = Timeout.
Proof.
  destruct fuel as [|[|fuel]]; try reflexivity.
  pose (skips := match rbmh_setup xy 2 0 with
                 | Some t => t
                 | None => fun _ => 0
                 end).
  change (rinstr_text_scan (S (S fuel)) 1 (UTF8_RETREAT euro_ab) euro_ab xy
            skips 2 3 3 2 3 = Timeout).
  eapply rinstr_text_scan_stuck_after_window with (next' := 1);
    try reflexivity.
Qed.

Lemma rinstr_utf16_low_stuck (big_endian : bool) (fuel : nat) :
  rinstr_utf16 big_endian fuel
    (A_grin_Y_low_Z big_endian) (blen (A_grin_Y_low_Z big_endian))
    (letter_W big_endian) (blen (letter_W big_endian)) 3
  = Timeout.
Proof.
  destruct big_endian;
    (destruct fuel as [|[|[|fuel]]]; try reflexivity);
    match goal with
    | |- rinstr_utf16 ?be _ ?h _ _ _ _ = _ =>
        change (rinstr_text_scan1 (S (S fuel)) (peek16 be h)
                  (UTF16_RETREAT be h) 0x57 10 2 2 = Timeout)
    end;
    eapply rinstr_text_scan1_stuck; reflexivity.
Qed.

(** C3 fails on the code: the backward UTF-8 search of ["€a"] for ["b"] and
    the backward UTF-16 search of ["A"], U+1F600, ["Y"], U+1F600 for ["W"],
    both from the default start and both on well-formed text, are still
    running after any number of loop iterations. *)
Theorem backward_text_search_runs_forever :
  (forall fuel : nat,
      rinstr_utf8 fuel euro_a (blen euro_a) letter_b (blen letter_b)
        INT64_MAX = Timeout) /\
  (forall (big_endian : bool) (fuel : nat),
      rinstr_utf16 big_endian fuel
        (A_grin_Y_grin big_endian) (blen (A_grin_Y_grin big_endian))
        (letter_W big_endian) (blen (letter_W big_endian)) INT64_MAX
      = Timeout).
Proof.
  split.
  - exact rinstr_utf8_euro_a_stuck.
  - exact rinstr_utf16_grin_stuck.
Qed.

(** C4 fails on the code: walking left from the end of ["€ab"] the UTF-8
    retreat rejects the three bytes before the cursor, and walking left in
    ["A"], U+1F600, ["Y"], lone low surrogate, ["Z"] from start 3 the UTF-16
    retreat meets the lone surrogate; neither call answers [-1], both loop
    without end. *)
Theorem backward_decode_failure_is_not_reported :
  UTF8_RETREAT euro_ab 3 3 = Some (3, 3, -1) /\
  (forall fuel : nat,
      rinstr_utf8 fuel euro_ab (blen euro_ab) xy (blen xy) INT64_MAX
      = Timeout) /\
  (forall big_endian : bool,
      UTF16_RETREAT big_endian (A_grin_Y_low_Z big_endian) 10 2
      = Some (10, 2, -1)) /\
  (forall (big_endian : bool) (fuel : nat),
      rinstr_utf16 big_endian fuel
        (A_grin_Y_low_Z big_endian) (blen (A_grin_Y_low_Z big_endian))
        (letter_W big_endian) (blen (letter_W big_endian)) 3
      = Timeout).
Proof.
  split; [reflexivity|]. split; [exact rinstr_utf8_euro_ab_stuck|].
  split; [intros []; reflexivity|]. exact rinstr_utf16_low_stuck.
Qed.

(** ** A position that is not where the match is *)

(** C2 fails on the code for [rinstr_utf16]: in U+1F600, ["Y"], ["Z"], ["W"]
    the backward search for ["W"] from start 2 answers position 1.
    Position 1 is byte offset 0, where the needle does not occur; the
    needle occurs at byte offset 8, which is position 4 and is what the
    forward search answers. *)
Theorem rinstr_utf16_reports_wrong_position (big_endian : bool) (fuel : nat) :
  let haystack := grin_Y_Z_W big_endian in
  let needle := letter_W big_endian in
  rinstr_utf16 big_endian (2 + fuel) haystack (blen haystack)
    needle (blen needle) 2 = Ret 1 /\
  decode_offset (UTF16_ADVANCE big_endian haystack) 0 0 (blen haystack)
    = Some 0 /\
  occurs_at haystack needle 0 = false /\
  occurs_at haystack needle 8 = true /\
  decode_offset (UTF16_ADVANCE big_endian haystack) 3 0 (blen haystack)
    = Some 8 /\
  instr_utf16 big_endian (4 + fuel) haystack (blen haystack)
    needle (blen needle) 1 = Ret 4.
Proof.
  destruct big_endian; repeat split; reflexivity.
Qed.

(** ** Inputs on which claims fail as stated *)

(** C6 as stated fails: ["ab"] followed by [0xFF] is malformed at offset 2,
    ["xy"] occurs nowhere in it, and the forward search answers 0. *)
Lemma instr_utf8_zero_on_malformed_tail :
  instr_utf8 3 ab_ff (blen ab_ff) xy (blen xy) 1 <> Ret (-1) /\
  instr_utf8 3 ab_ff (blen ab_ff) xy (blen xy) 1 = Ret 0 /\
  decode_offset (UTF8_ADVANCE ab_ff) 2 0 (blen ab_ff) = Some 2 /\
  UTF8_ADVANCE ab_ff 2 1 = Some (2, 1, -1) /\
  (forall i : nat, occurs_at ab_ff xy i = false).
Proof.
  split; [vm_compute; discriminate|].
  repeat split; try reflexivity.
  intros i. destruct i as [|[|[|[|i]]]]; reflexivity.
Qed.

(** C8 as stated fails: the backward search of the one-byte text [0xFF]
    for the empty needle answers [-1], not one more than a length. *)
Lemma rinstr_utf8_empty_needle_malformed :
  rinstr_utf8 2 [xff] 1 [] 0 INT64_MAX <> Ret (blen [xff] + 1) /\
  rinstr_utf8 2 [xff] 1 [] 0 INT64_MAX = Ret (-1).
Proof. split; [vm_compute; discriminate | reflexivity]. Qed.

(** C9 as stated fails: with a BLOB haystack and a TEXT needle the UTF-8
    registration of [instr] searches the text views and answers 2. *)
Lemma instr_func_mixed_is_searched :
  instr_func false 9 malformed_8 [blob_arg abcabcabc; text_arg bca []]
  <> ResultError confused /\
  instr_func false 9 malformed_8 [blob_arg abcabcabc; text_arg bca []]
  = ResultInt64 2.
Proof. split; [vm_compute; discriminate | reflexivity]. Qed.

(** * More about the code *)

(** ** BLOB searches from a given start *)

(** The forward BLOB search answers the first position at or after [start]
    where the needle occurs, or 0 when there is none; a start of 1 or less
    is the beginning. *)
Theorem instr_blob_first_at_or_after_start (fuel : nat) (h n : buffer)
  (start : Z) :
  n <> [] -> blen h <= INT_MAX -> blen n <= INT_MAX ->
  - 2 ^ 63 <= start < 2 ^ 63 -> (length h < fuel)%nat ->
  exists r,
    instr_blob fuel h (blen h) n (blen n) start = Ret r /\
    ((r = 0 /\
      forall i, Z.max 1 start <= Z.of_nat i + 1 -> occurs_at h n i = false) \/
     (Z.max 1 start <= r /\ occurs_at h n (Z.to_nat (r - 1)) = true /\
      forall i, Z.max 1 start <= Z.of_nat i + 1 < r ->
                occurs_at h n i = false)).
Proof.
  intros Hne Hh Hn Hstart Hfuel.
  assert (blen h < Z.of_nat fuel) as Hfuel' by (unfold blen; lia).
  destruct (instr_blob_spec fuel h n start Hh Hn Hstart Hfuel')
    as [r [Hr [_ Hf]]].
  exists r. split; [exact Hr|].
  destruct (Hf Hne) as [[-> Hno]|[Hlo [Ho Hfirst]]].
  - left. split; [reflexivity|]. intros i Hi.
    destruct (occurs_at h n i) eqn:E; [|reflexivity].
    apply occurs_at_occ in E; [|exact Hne].
    exfalso. apply (Hno (Z.of_nat i)); [lia|exact E].
  - right. split; [lia|]. split.
    + apply occ_occurs_at. exact Ho.
    + intros i Hi. destruct (occurs_at h n i) eqn:E; [|reflexivity].
      apply occurs_at_occ in E; [|exact Hne].
      pose proof (Hfirst (Z.of_nat i) ltac:(lia) E). lia.
Qed.

Lemma instr_blob_first_at_or_after_start_witness :
  bca <> [] /\ blen abcabcabc <= INT_MAX /\ blen bca <= INT_MAX /\
  - 2 ^ 63 <= 3 < 2 ^ 63 /\ (length abcabcabc < 10)%nat /\
  exists r,
    instr_blob 10 abcabcabc (blen abcabcabc) bca (blen bca) 3 = Ret r /\
    ((r = 0 /\
      forall i, Z.max 1 3 <= Z.of_nat i + 1 ->
                occurs_at abcabcabc bca i = false) \/
     (Z.max 1 3 <= r /\ occurs_at abcabcabc bca (Z.to_nat (r - 1)) = true /\
      forall i, Z.max 1 3 <= Z.of_nat i + 1 < r ->
                occurs_at abcabcabc bca i = false)).
Proof.
  assert (bca <> []) as H1 by discriminate.
  assert (blen abcabcabc <= INT_MAX) as H2 by (vm_compute; discriminate).
  assert (blen bca <= INT_MAX) as H3 by (vm_compute; discriminate).
  assert (- 2 ^ 63 <= 3 < 2 ^ 63) as H4 by lia.
  assert (length abcabcabc < 10)%nat as H5 by (simpl; lia).
  repeat (split; [assumption|]).
  exact (instr_blob_first_at_or_after_start 10 abcabcabc bca 3 H1 H2 H3 H4 H5).
Defined.

(** The backward BLOB search answers the last position at or before
    [start] where the needle occurs, or 0 when there is none; for a start
    of 0 or less the answer is 0. *)
Theorem rinstr_blob_last_at_or_before_start (fuel : nat) (h n : buffer)
  (start : Z) :
  n <> [] -> blen h <= INT_MAX -> blen n <= INT_MAX ->
  - 2 ^ 63 <= start < 2 ^ 63 -> (length h < fuel)%nat ->
  exists r,
    rinstr_blob fuel h (blen h) n (blen n) start = Ret r /\
    ((r = 0 /\
      forall i, Z.of_nat i + 1 <= start -> occurs_at h n i = false) \/
     (1 <= r <= start /\ occurs_at h n (Z.to_nat (r - 1)) = true /\
      forall i, r < Z.of_nat i + 1 <= start -> occurs_at h n i = false)).
Proof.
  intros Hne Hh Hn Hstart Hfuel.
  assert (blen h < Z.of_nat fuel) as Hfuel' by (unfold blen; lia).
  destruct (rinstr_blob_spec fuel h n start Hh Hn Hstart Hfuel')
    as [r [Hr [_ Hf]]].
  exists r. split; [exact Hr|].
  assert (forall i, Z.of_nat i + 1 <= start -> occ h n (Z.of_nat i) ->
                    Z.of_nat i <= Z.min (start - 1) (blen h - blen n)) as Hfit.
  { intros i Hi [_ [Ho _]]. lia. }
  destruct (Hf Hne) as [[-> Hno]|[Hlo [Ho Hlast]]].
  - left. split; [reflexivity|]. intros i Hi.
    destruct (occurs_at h n i) eqn:E; [|reflexivity].
    apply occurs_at_occ in E; [|exact Hne].
    exfalso. apply (Hno (Z.of_nat i)); [apply Hfit; assumption|exact E].
  - right. split; [lia|]. split.
    + apply occ_occurs_at. exact Ho.
    + intros i Hi. destruct (occurs_at h n i) eqn:E; [|reflexivity].
      apply occurs_at_occ in E; [|exact Hne].
      pose proof (Hlast (Z.of_nat i) ltac:(apply Hfit; [lia|exact E]) E). lia.
Qed.

Lemma rinstr_blob_last_at_or_before_start_witness :
  bca <> [] /\ blen abcabcabc <= INT_MAX /\ blen bca <= INT_MAX /\
  - 2 ^ 63 <= 4 < 2 ^ 63 /\ (length abcabcabc < 10)%nat /\
  exists r,
    rinstr_blob 10 abcabcabc (blen abcabcabc) bca (blen bca) 4 = Ret r /\
    ((r = 0 /\
      forall i, Z.of_nat i + 1 <= 4 -> occurs_at abcabcabc bca i = false) \/
     (1 <= r <= 4 /\ occurs_at abcabcabc bca (Z.to_nat (r - 1)) = true /\
      forall i, r < Z.of_nat i + 1 <= 4 ->
                occurs_at abcabcabc bca i = false)).
Proof.
  assert (bca <> []) as H1 by discriminate.
  assert (blen abcabcabc <= INT_MAX) as H2 by (vm_compute; discriminate).
  assert (blen bca <= INT_MAX) as H3 by (vm_compute; discriminate).
  assert (- 2 ^ 63 <= 4 < 2 ^ 63) as H4 by lia.
  assert (length abcabcabc < 10)%nat as H5 by (simpl; lia).
  repeat (split; [assumption|]).
  exact (rinstr_blob_last_at_or_before_start 10 abcabcabc bca 4
           H1 H2 H3 H4 H5).
Defined.

(** A backward start beyond the last position where the needle still fits
    is clamped to that position: the search behaves as if started there. *)
Theorem rinstr_blob_start_is_clamped (fuel : nat) (h n : buffer) (start : Z) :
  blen h <= INT_MAX -> blen n <= blen h ->
  blen h - blen n + 1 <= start < 2 ^ 63 ->
  rinstr_blob fuel h (blen h) n (blen n) start
  = rinstr_blob fuel h (blen h) n (blen n) (blen h - blen n + 1).
Proof.
  intros Hh Hfit Hstart. unfold INT_MAX in Hh.
  pose proof (blen_nonneg n) as Hn0.
  unfold rinstr_blob.
  assert ((start <=? 0) = false) as -> by (apply Z.leb_gt; lia).
  assert ((blen h - blen n + 1 <=? 0) = false) as -> by (apply Z.leb_gt; lia).
  assert ((blen h <? blen n) = false) as -> by (apply Z.ltb_ge; lia).
  rewrite !(vsize_wrap_small (blen h - blen n)) by lia.
  destruct (Z.eq_dec start (blen h - blen n + 1)) as [->|Hne]; [reflexivity|].
  assert ((1 <? start) = true) as -> by (apply Z.ltb_lt; lia).
  rewrite (int64_wrap_small (start - 1)) by lia.
  assert ((blen h - blen n <? start - 1) = true) as -> by (apply Z.ltb_lt; lia).
  rewrite !(vsize_wrap_small (blen h - blen n + 1)) by lia.
  replace (blen h - blen n + 1 - 1) with (blen h - blen n) by lia.
  rewrite ?(vsize_wrap_small (blen h - blen n)) by lia.
  destruct (1 <? blen h - blen n + 1) eqn:E.
  - rewrite ?(int64_wrap_small (blen h - blen n)) by lia.
    rewrite Z.ltb_irrefl.
    replace (blen h - blen n + 1 - 1) with (blen h - blen n) by lia.
    rewrite ?(vsize_wrap_small (blen h - blen n)) by lia.
    reflexivity.
  - apply Z.ltb_ge in E. assert (blen h - blen n = 0) as -> by lia.
    reflexivity.
Qed.

Lemma rinstr_blob_start_is_clamped_witness :
  blen abcabcabc <= INT_MAX /\ blen bca <= blen abcabcabc /\
  blen abcabcabc - blen bca + 1 <= 100 < 2 ^ 63 /\
  rinstr_blob 10 abcabcabc (blen abcabcabc) bca (blen bca) 100
  = rinstr_blob 10 abcabcabc (blen abcabcabc) bca (blen bca)
      (blen abcabcabc - blen bca + 1).
Proof.
  assert (blen abcabcabc <= INT_MAX) as H1 by (vm_compute; discriminate).
  assert (blen bca <= blen abcabcabc) as H2 by (vm_compute; discriminate).
  assert (blen abcabcabc - blen bca + 1 <= 100 < 2 ^ 63) as H3
    by (vm_compute; split; [discriminate|reflexivity]).
  repeat (split; [assumption|]).
  exact (rinstr_blob_start_is_clamped 10 abcabcabc bca 100 H1 H2 H3).
Defined.

(** An empty needle occurs everywhere: the forward BLOB search answers
    the start itself (1 for a start of 1 or less) as long as the start is
    at most one past the end of the haystack, and 0 beyond; the backward
    one answers the start, clamped to one past the end, and 0 for a start
    of 0 or less. *)
Theorem blob_search_empty_needle (fuel : nat) (h : buffer) (start : Z) :
  blen h <= INT_MAX -> - 2 ^ 63 <= start < 2 ^ 63 ->
  instr_blob fuel h (blen h) [] 0 start
  = Ret (if start <=? 1 then 1
         else if start <=? blen h + 1 then start else 0) /\
  rinstr_blob fuel h (blen h) [] 0 start
  = Ret (if start <=? 0 then 0 else Z.min start (blen h + 1)).
Proof.
  intros Hh Hstart. unfold INT_MAX in Hh.
  pose proof (blen_nonneg h) as Hh0.
  split.
  - unfold instr_blob, instr_blob_from.
    destruct (start <=? 1) eqn:E1.
    + apply Z.leb_le in E1.
      assert ((1 <? start) = false) as -> by (apply Z.ltb_ge; lia).
      assert ((blen h <? 0) = false) as -> by (apply Z.ltb_ge; lia).
      reflexivity.
    + apply Z.leb_gt in E1.
      assert ((1 <? start) = true) as -> by (apply Z.ltb_lt; lia).
      rewrite int64_wrap_small by lia.
      destruct (start <=? blen h + 1) eqn:E2.
      * apply Z.leb_le in E2.
        assert ((blen h <? start - 1) = false) as -> by (apply Z.ltb_ge; lia).
        rewrite vsize_wrap_small by lia.
        assert ((blen h - (start - 1) <? 0) = false) as ->
          by (apply Z.ltb_ge; lia).
        reflexivity.
      * apply Z.leb_gt in E2.
        assert ((blen h <? start - 1) = true) as -> by (apply Z.ltb_lt; lia).
        reflexivity.
  - unfold rinstr_blob, rinstr_blob_from.
    destruct (start <=? 0) eqn:E0; [reflexivity|]. apply Z.leb_gt in E0.
    assert ((blen h <? 0) = false) as -> by (apply Z.ltb_ge; lia).
    rewrite Z.sub_0_r. rewrite !(vsize_wrap_small (blen h)) by lia.
    destruct (1 <? start) eqn:E1.
    + apply Z.ltb_lt in E1. rewrite int64_wrap_small by lia.
      destruct (blen h <? start - 1) eqn:E2.
      * apply Z.ltb_lt in E2. rewrite !(vsize_wrap_small (blen h + 1)) by lia.
        cbn [Z.leb Z.compare]. f_equal. lia.
      * apply Z.ltb_ge in E2. cbn [Z.leb Z.compare]. f_equal. lia.
    + apply Z.ltb_ge in E1. cbn [Z.leb Z.compare]. f_equal. lia.
Qed.

Lemma blob_search_empty_needle_witness :
  blen abcabcabc <= INT_MAX /\ - 2 ^ 63 <= 4 < 2 ^ 63 /\
  instr_blob 0 abcabcabc (blen abcabcabc) [] 0 4 = Ret 4 /\
  rinstr_blob 0 abcabcabc (blen abcabcabc) [] 0 4 = Ret 4.
Proof.
  assert (blen abcabcabc <= INT_MAX) as H1 by (vm_compute; discriminate).
  assert (- 2 ^ 63 <= 4 < 2 ^ 63) as H2 by lia.
  repeat (split; [assumption|]).
  exact (blob_search_empty_needle 0 abcabcabc 4 H1 H2).
Defined.

(** ** What the skip tables hold *)

Lemma fbmh_fill_exact (needle : buffer) (limit : Z) (todo : nat) :
  forall (ix : Z) (skips : bmh_skips),
  0 <= ix -> ix + Z.of_nat todo = limit -> limit <= blen needle ->
  limit < 2 ^ 32 ->
  exists t, fbmh_fill needle limit todo ix skips = Some t /\
    forall c,
      ((forall j, ix <= j < limit -> peek needle j <> Some c) /\
       t c = skips c) \/
      (exists j, ix <= j < limit /\ peek needle j = Some c /\
                 (forall j', j < j' < limit -> peek needle j' <> Some c) /\
                 t c = limit - j).
Proof.
  induction todo as [|todo IH]; intros ix skips H0 Hsum Hlen Hlim;
    cbn [fbmh_fill].
  - exists skips. split; [reflexivity|]. intros c. left.
    split; [intros j Hj; lia|reflexivity].
  - destruct (peek_some needle ix) as [c0 Hc0]; [lia|]. rewrite Hc0.
    rewrite vsize_wrap_small by lia.
    destruct (IH (ix + 1) (skips_set skips c0 (limit - ix)))
      as [t [Ht Hchar]]; try lia.
    exists t. split; [exact Ht|]. intros c.
    destruct (Hchar c) as [[Hnone Hv]|[j [Hj [Hp [Hlast Hv]]]]].
    + destruct (skips_set_cases skips c0 c (limit - ix)) as [[-> E]|[N E]];
        rewrite E in Hv.
      * right. exists ix. split; [lia|]. split; [exact Hc0|].
        split; [|exact Hv]. intros j' Hj'. apply Hnone. lia.
      * left. split; [|exact Hv]. intros j Hj.
        destruct (Z.eq_dec j ix) as [->|Hne]; [congruence|].
        apply Hnone. lia.
    + right. exists j. split; [lia|]. auto.
Qed.

Lemma rbmh_fill_exact (needle : buffer) (ix : nat) :
  forall (skips : bmh_skips),
  Z.of_nat ix < blen needle ->
  exists t, rbmh_fill needle ix skips = Some t /\
    forall c,
      ((forall j, 1 <= j <= Z.of_nat ix -> peek needle j <> Some c) /\
       t c = skips c) \/
      (exists j, 1 <= j <= Z.of_nat ix /\ peek needle j = Some c /\
                 (forall j', 1 <= j' < j -> peek needle j' <> Some c) /\
                 t c = j).
Proof.
  induction ix as [|ix IH]; intros skips Hlen; cbn [rbmh_fill].
  - exists skips. split; [reflexivity|]. intros c. left.
    split; [intros j Hj; lia|reflexivity].
  - destruct (peek_some needle (Z.of_nat (S ix))) as [c0 Hc0]; [lia|].
    rewrite Hc0.
    destruct (IH (skips_set skips c0 (Z.of_nat (S ix)))) as [t [Ht Hchar]];
      try lia.
    exists t. split; [exact Ht|]. intros c.
    destruct (Hchar c) as [[Hnone Hv]|[j [Hj [Hp [Hfirst Hv]]]]].
    + destruct (skips_set_cases skips c0 c (Z.of_nat (S ix)))
        as [[-> E]|[N E]]; rewrite E in Hv.
      * right. exists (Z.of_nat (S ix)). split; [lia|]. split; [exact Hc0|].
        split; [|exact Hv]. intros j' Hj'. apply Hnone. lia.
      * left. split; [|exact Hv]. intros j Hj.
        destruct (Z.eq_dec j (Z.of_nat (S ix))) as [->|Hne]; [congruence|].
        apply Hnone. lia.
    + right. exists j. split; [lia|]. auto.
Qed.

(** The forward table of a needle of two or more bytes holds, for a byte
    that occurs in the needle before its last position, the distance from
    its last such occurrence to the needle's last position, and the
    needle's size for every other byte. *)
Theorem fbmh_setup_entries (needle : buffer) :
  2 <= blen needle < 2 ^ 32 ->
  exists skips,
    fbmh_setup needle (blen needle) 0 = Some skips /\
    forall c,
      ((forall j, 0 <= j < blen needle - 1 -> peek needle j <> Some c) /\
       skips c = blen needle) \/
      (exists j, 0 <= j < blen needle - 1 /\ peek needle j = Some c /\
                 (forall j', j < j' < blen needle - 1 ->
                             peek needle j' <> Some c) /\
                 skips c = blen needle - 1 - j).
Proof.
  intros Hn. unfold fbmh_setup.
  rewrite vsize_wrap_small by lia.
  destruct (fbmh_fill_exact needle (blen needle - 1)
              (Z.to_nat (blen needle - 1)) 0 (fun _ => blen needle))
    as [t [Ht Hchar]]; try lia.
  rewrite Ht. exists t. split; [reflexivity|]. exact Hchar.
Qed.

Lemma fbmh_setup_entries_witness :
  2 <= blen bca < 2 ^ 32 /\
  exists skips,
    fbmh_setup bca (blen bca) 0 = Some skips /\
    forall c,
      ((forall j, 0 <= j < blen bca - 1 -> peek bca j <> Some c) /\
       skips c = blen bca) \/
      (exists j, 0 <= j < blen bca - 1 /\ peek bca j = Some c /\
                 (forall j', j < j' < blen bca - 1 -> peek bca j' <> Some c) /\
                 skips c = blen bca - 1 - j).
Proof.
  assert (2 <= blen bca < 2 ^ 32) as H1
    by (vm_compute; split; [discriminate|reflexivity]).
  split; [exact H1|]. exact (fbmh_setup_entries bca H1).
Defined.

(** The backward table of a needle of two or more bytes holds, for a byte
    that occurs in the needle after its first position, the index of its
    first such occurrence, and the needle's size for every other byte. *)
Theorem rbmh_setup_entries (needle : buffer) :
  2 <= blen needle < 2 ^ 32 ->
  exists skips,
    rbmh_setup needle (blen needle) 0 = Some skips /\
    forall c,
      ((forall j, 1 <= j <= blen needle - 1 -> peek needle j <> Some c) /\
       skips c = blen needle) \/
      (exists j, 1 <= j <= blen needle - 1 /\ peek needle j = Some c /\
                 (forall j', 1 <= j' < j -> peek needle j' <> Some c) /\
                 skips c = j).
Proof.
  intros Hn. unfold rbmh_setup.
  rewrite vsize_wrap_small by lia.
  destruct (rbmh_fill_exact needle (Z.to_nat (blen needle - 1))
              (fun _ => blen needle)) as [t [Ht Hchar]]; try lia.
  rewrite Ht. exists t. split; [reflexivity|].
  intros c. destruct (Hchar c) as [[Hnone Hv]|[j [Hj [Hp [Hfirst Hv]]]]].
  - left. split; [|exact Hv]. intros j Hj. apply Hnone. lia.
  - right. exists j. split; [lia|]. auto.
Qed.

Lemma rbmh_setup_entries_witness :
  2 <= blen bca < 2 ^ 32 /\
  exists skips,
    rbmh_setup bca (blen bca) 0 = Some skips /\
    forall c,
      ((forall j, 1 <= j <= blen bca - 1 -> peek bca j <> Some c) /\
       skips c = blen bca) \/
      (exists j, 1 <= j <= blen bca - 1 /\ peek bca j = Some c /\
                 (forall j', 1 <= j' < j -> peek bca j' <> Some c) /\
                 skips c = j).
Proof.
  assert (2 <= blen bca < 2 ^ 32) as H1
    by (vm_compute; split; [discriminate|reflexivity]).
  split; [exact H1|]. exact (rbmh_setup_entries bca H1).
Defined.

Lemma land_clear_bit0 (x : Z) :
  0 <= x < 2 ^ 32 -> Z.land x (2 ^ 32 - 2) = 2 * (x / 2).
Proof.
  intros Hx. apply Z.bits_inj'. intros k Hk.
  rewrite Z.land_spec.
  destruct (Z.eq_dec k 0) as [->|Hne].
  - rewrite Z.testbit_even_0. apply andb_false_iff. right. reflexivity.
  - replace k with (Z.succ (k - 1)) by lia.
    rewrite Z.testbit_even_succ by lia.
    rewrite <- Z.div2_div. rewrite Z.div2_spec. rewrite Z.shiftr_spec by lia.
    replace (k - 1 + 1) with (Z.succ (k - 1)) by lia.
    destruct (Z.testbit x (Z.succ (k - 1))) eqn:Hbit; [|reflexivity].
    cbn [andb].
    assert (Z.succ (k - 1) < 32) as Hlt.
    { destruct (Z_lt_dec (Z.succ (k - 1)) 32) as [|G]; [assumption|].
      exfalso.
      assert (Z.testbit x (Z.succ (k - 1)) = false) as F; [|congruence].
      apply Z.bits_above_log2; [lia|].
      destruct (Z.eq_dec x 0) as [->|Hx0]; [cbn; lia|].
      assert (Z.log2 x < 32); [|lia].
      apply Z.log2_lt_pow2; lia. }
    change (2 ^ 32 - 2) with (Z.shiftl (Z.ones 31) 1).
    rewrite Z.shiftl_spec by lia.
    replace (Z.succ (k - 1) - 1) with (k - 1) by lia.
    apply Z.ones_spec_low. lia.
Qed.

Lemma skips_mask_rounds (skips : bmh_skips) (c : byte) :
  0 <= skips c < 2 ^ 31 ->
  skips_mask 1 skips c = skips c + skips c mod 2.
Proof.
  intros Hc. unfold skips_mask. cbn [Z.eqb].
  rewrite vsize_wrap_small by lia.
  change (vsize_not 1) with (2 ^ 32 - 2).
  rewrite land_clear_bit0 by lia.
  pose proof (Z.div_mod (skips c) 2 ltac:(lia)) as D.
  pose proof (Z.mod_pos_bound (skips c) 2 ltac:(lia)) as M.
  pose proof (Z.div_mod (skips c + 1) 2 ltac:(lia)) as D1.
  pose proof (Z.mod_pos_bound (skips c + 1) 2 ltac:(lia)) as M1.
  assert ((skips c + 1) mod 2 = 1 - skips c mod 2) as E.
  { replace (skips c + 1) with (1 + skips c mod 2 + skips c / 2 * 2) by lia.
    rewrite Z.mod_add by lia.
    destruct (Z.eq_dec (skips c mod 2) 0) as [->|Hn0];
      [reflexivity|].
    replace (skips c mod 2) with 1 by lia. reflexivity. }
  lia.
Qed.

(** The mask the UTF-16 engines pass ([1]) rounds every entry of either
    table up to the next even number; with mask [0] the entries are left
    as they are. *)
Theorem skips_mask_rounds_up_to_even (needle : buffer) :
  2 <= blen needle < 2 ^ 31 ->
  exists f0 f1 r0 r1,
    fbmh_setup needle (blen needle) 0 = Some f0 /\
    fbmh_setup needle (blen needle) 1 = Some f1 /\
    rbmh_setup needle (blen needle) 0 = Some r0 /\
    rbmh_setup needle (blen needle) 1 = Some r1 /\
    forall c, f1 c = f0 c + f0 c mod 2 /\ r1 c = r0 c + r0 c mod 2.
Proof.
  intros Hn. unfold fbmh_setup, rbmh_setup.
  rewrite vsize_wrap_small by lia.
  destruct (fbmh_fill_spec needle (blen needle - 1) (blen needle)
              (Z.to_nat (blen needle - 1)) 0 (fun _ => blen needle))
    as [f [Hf [Hfb _]]]; try lia.
  destruct (rbmh_fill_spec needle (blen needle)
              (Z.to_nat (blen needle - 1)) (fun _ => blen needle))
    as [r [Hr [Hrb _]]]; try lia.
  rewrite Hf, Hr. cbn [option_map].
  exists f, (skips_mask 1 f), r, (skips_mask 1 r).
  repeat split; try reflexivity.
  - apply skips_mask_rounds. specialize (Hfb c). lia.
  - apply skips_mask_rounds. specialize (Hrb c). lia.
Qed.

Lemma skips_mask_rounds_up_to_even_witness :
  2 <= blen bca < 2 ^ 31 /\
  exists f0 f1 r0 r1,
    fbmh_setup bca (blen bca) 0 = Some f0 /\
    fbmh_setup bca (blen bca) 1 = Some f1 /\
    rbmh_setup bca (blen bca) 0 = Some r0 /\
    rbmh_setup bca (blen bca) 1 = Some r1 /\
    forall c, f1 c = f0 c + f0 c mod 2 /\ r1 c = r0 c + r0 c mod 2.
Proof.
  assert (2 <= blen bca < 2 ^ 31) as H1
    by (vm_compute; split; [discriminate|reflexivity]).
  split; [exact H1|]. exact (skips_mask_rounds_up_to_even bca H1).
Defined.

(** ** Codepoint values *)

Lemma land_shiftl_field (c n w : Z) :
  0 <= n -> 0 <= w ->
  Z.land (Z.shiftl c n) (Z.shiftl (Z.ones w) n) = (c mod 2 ^ w) * 2 ^ n.
Proof.
  intros Hn Hw.
  rewrite <- Z.shiftl_land, Z.land_ones by lia.
  apply Z.shiftl_mul_pow2. lia.
Qed.

Lemma lor_field (a b n : Z) :
  0 <= n -> 0 <= b < 2 ^ n -> Z.lor (a * 2 ^ n) b = a * 2 ^ n + b.
Proof.
  intros Hn Hb.
  assert (Z.land (a * 2 ^ n) b = 0) as Hdis.
  { apply Z.bits_inj'. intros i Hi.
    rewrite Z.land_spec, Z.bits_0.
    destruct (Z.lt_ge_cases i n) as [Hlt|Hge].
    - rewrite Z.mul_pow2_bits_low by lia. reflexivity.
    - replace b with (b mod 2 ^ n) by (apply Z.mod_small; lia).
      rewrite Z.mod_pow2_bits_high by lia. apply andb_false_r. }
  rewrite <- Z.lxor_lor by exact Hdis.
  symmetry. apply Z.add_nocarry_lxor. exact Hdis.
Qed.

Lemma lor_fields (a b n m : Z) :
  0 <= n -> 0 <= m -> 0 <= b < 2 ^ n ->
  Z.lor (a * 2 ^ (n + m)) (b * 2 ^ m) = (a * 2 ^ n + b) * 2 ^ m.
Proof.
  intros Hn Hm Hb.
  replace (a * 2 ^ (n + m)) with (Z.shiftl (a * 2 ^ n) m)
    by (rewrite Z.shiftl_mul_pow2, Z.pow_add_r by lia; ring).
  rewrite <- (Z.shiftl_mul_pow2 b m) by lia.
  rewrite <- Z.shiftl_lor, lor_field by lia.
  apply Z.shiftl_mul_pow2. lia.
Qed.

Lemma utf8_cp2_value (c0 c1 : Z) :
  utf8_cp2 c0 c1 = (c0 mod 32) * 64 + c1 mod 64.
Proof.
  unfold utf8_cp2.
  change 0x7C0 with (Z.shiftl (Z.ones 5) 6).
  change 0x3F with (Z.ones 6).
  rewrite land_shiftl_field, Z.land_ones by lia.
  pose proof (Z.mod_pos_bound c1 (2 ^ 6) ltac:(lia)).
  rewrite lor_field by lia.
  change (2 ^ 5) with 32. change (2 ^ 6) with 64. reflexivity.
Qed.

Lemma utf8_cp3_value (c0 c1 c2 : Z) :
  utf8_cp3 c0 c1 c2 = (c0 mod 16) * 4096 + (c1 mod 64) * 64 + c2 mod 64.
Proof.
  unfold utf8_cp3.
  change 0xF000 with (Z.shiftl (Z.ones 4) (6 + 6)).
  change 0xFC0 with (Z.shiftl (Z.ones 6) 6).
  change 0x3F with (Z.ones 6).
  rewrite !land_shiftl_field, Z.land_ones by lia.
  pose proof (Z.mod_pos_bound c1 (2 ^ 6) ltac:(lia)).
  pose proof (Z.mod_pos_bound c2 (2 ^ 6) ltac:(lia)).
  rewrite lor_fields by lia.
  rewrite lor_field by lia.
  change (2 ^ 4) with 16. change (2 ^ 6) with 64. lia.
Qed.

Lemma utf8_cp4_value (c0 c1 c2 c3 : Z) :
  utf8_cp4 c0 c1 c2 c3 =
  (c0 mod 8) * 262144 + (c1 mod 64) * 4096 + (c2 mod 64) * 64 + c3 mod 64.
Proof.
  unfold utf8_cp4.
  change 0x1C0000 with (Z.shiftl (Z.ones 3) (6 + 12)).
  change 0x3F000 with (Z.shiftl (Z.ones 6) 12).
  change 0xFC0 with (Z.shiftl (Z.ones 6) 6).
  change 0x3F with (Z.ones 6).
  rewrite !land_shiftl_field, Z.land_ones by lia.
  pose proof (Z.mod_pos_bound c1 (2 ^ 6) ltac:(lia)).
  pose proof (Z.mod_pos_bound c2 (2 ^ 6) ltac:(lia)).
  pose proof (Z.mod_pos_bound c3 (2 ^ 6) ltac:(lia)).
  rewrite lor_fields by lia.
  change (2 ^ 12) with (2 ^ (6 + 6)).
  assert (0 <= c0 mod 2 ^ 3 * 2 ^ 6 + c1 mod 2 ^ 6) as Hnn
    by (pose proof (Z.mod_pos_bound c0 (2 ^ 3) ltac:(lia)); lia).
  rewrite lor_fields by lia.
  rewrite lor_field by lia.
  change (2 ^ 3) with 8. change (2 ^ 6) with 64. lia.
Qed.

Lemma utf16_cp2_value (c0 c1 : Z) :
  utf16_cp2 c0 c1 = ((c0 + 64) mod 2048) * 1024 + c1 mod 1024.
Proof.
  unfold utf16_cp2.
  change 0x1FFC00 with (Z.shiftl (Z.ones 11) 10).
  change 0x3FF with (Z.ones 10).
  change 0x40 with 64.
  rewrite land_shiftl_field, Z.land_ones by lia.
  pose proof (Z.mod_pos_bound c1 (2 ^ 10) ltac:(lia)).
  rewrite lor_field by lia.
  change (2 ^ 11) with 2048. change (2 ^ 10) with 1024. reflexivity.
Qed.

(** Every sequence the forward UTF-8 cursor accepts, with its bytes. *)
Lemma UTF8_ADVANCE_cases (buf : buffer) (ptr size ptr' size' cp : Z) :
  UTF8_ADVANCE buf ptr size = Some (ptr', size', cp) -> cp <> -1 ->
  (ptr' = ptr + 1 /\ peek8 buf ptr = Some cp /\ 0 <= cp < 0x80) \/
  (ptr' = ptr + 2 /\
   exists c0 c1, peek8 buf ptr = Some c0 /\ peek8 buf (ptr + 1) = Some c1 /\
                 0xC2 <= c0 < 0xE0 /\ 0x80 <= c1 < 0xC0 /\
                 cp = utf8_cp2 c0 c1) \/
  (ptr' = ptr + 3 /\
   exists c0 c1 c2,
     peek8 buf ptr = Some c0 /\ peek8 buf (ptr + 1) = Some c1 /\
     peek8 buf (ptr + 2) = Some c2 /\
     0xE0 <= c0 < 0xF0 /\ 0x80 <= c1 < 0xC0 /\ 0x80 <= c2 < 0xC0 /\
     cp = utf8_cp3 c0 c1 c2 /\ 0x800 <= cp /\ (cp < 0xD800 \/ 0xE000 <= cp)) \/
  (ptr' = ptr + 4 /\
   exists c0 c1 c2 c3,
     peek8 buf ptr = Some c0 /\ peek8 buf (ptr + 1) = Some c1 /\
     peek8 buf (ptr + 2) = Some c2 /\ peek8 buf (ptr + 3) = Some c3 /\
     0xF0 <= c0 < 0xF5 /\ 0x80 <= c1 < 0xC0 /\ 0x80 <= c2 < 0xC0 /\
     0x80 <= c3 < 0xC0 /\
     cp = utf8_cp4 c0 c1 c2 c3 /\ 0x10000 <= cp < 0x110000).
Proof.
  unfold UTF8_ADVANCE. unfold_cursor.
  destruct (peek8 buf ptr) as [c0|] eqn:P0;
  destruct (peek8 buf (ptr + 1)) as [c1|] eqn:P1;
  destruct (peek8 buf (ptr + 2)) as [c2|] eqn:P2;
  destruct (peek8 buf (ptr + 3)) as [c3|] eqn:P3; cbn [option_map];
  repeat break_if; try discriminate;
  intros H; injection H as <- <- <-; intros Hcp; bool_to_prop;
  try (exfalso; lia).
  all: try (apply peek8_range in P0).
  all: try (left; repeat split; (reflexivity || lia)).
  all: try (right; left; split; [reflexivity|]; do 2 eexists;
            repeat split; (reflexivity || lia)).
  all: try (right; right; left; split; [reflexivity|]; do 3 eexists;
            repeat split; first [reflexivity | lia | tauto]).
  all: try (right; right; right; split; [reflexivity|]; do 4 eexists;
            repeat split; (reflexivity || lia)).
Qed.

Ltac break_ex :=
  repeat match goal with
  | H : exists _, _ |- _ => destruct H as [? H]
  | H : _ /\ _ |- _ => destruct H
  end.

Lemma bytes_mod_32 (c : Z) : 0xC0 <= c < 0xE0 -> c mod 32 = c - 0xC0.
Proof.
  intros R. replace c with (c - 192 + 6 * 32) at 1 by lia.
  rewrite Z.mod_add, Z.mod_small by lia. reflexivity.
Qed.

Lemma bytes_mod_16 (c : Z) : 0xE0 <= c < 0xF0 -> c mod 16 = c - 0xE0.
Proof.
  intros R. replace c with (c - 224 + 14 * 16) at 1 by lia.
  rewrite Z.mod_add, Z.mod_small by lia. reflexivity.
Qed.

Lemma bytes_mod_8 (c : Z) : 0xF0 <= c < 0xF8 -> c mod 8 = c - 0xF0.
Proof.
  intros R. replace c with (c - 240 + 30 * 8) at 1 by lia.
  rewrite Z.mod_add, Z.mod_small by lia. reflexivity.
Qed.

Lemma bytes_mod_64 (c : Z) : 0x80 <= c < 0xC0 -> c mod 64 = c - 0x80.
Proof.
  intros R. replace c with (c - 128 + 2 * 64) at 1 by lia.
  rewrite Z.mod_add, Z.mod_small by lia. reflexivity.
Qed.

(** The codepoint of an accepted sequence, in terms of its length. *)
Lemma UTF8_ADVANCE_length (buf : buffer) (ptr size ptr' size' cp : Z) :
  UTF8_ADVANCE buf ptr size = Some (ptr', size', cp) -> cp <> -1 ->
  (ptr' = ptr + 1 /\ 0 <= cp < 0x80) \/
  (ptr' = ptr + 2 /\ 0x80 <= cp < 0x800) \/
  (ptr' = ptr + 3 /\ 0x800 <= cp < 0x10000 /\ ~ (0xD800 <= cp < 0xE000)) \/
  (ptr' = ptr + 4 /\ 0x10000 <= cp < 0x110000).
Proof.
  intros Hadv Hcp.
  destruct (UTF8_ADVANCE_cases _ _ _ _ _ _ Hadv Hcp) as [C|[C|[C|C]]];
    break_ex; subst ptr'.
  - left. lia.
  - right; left. subst cp. rewrite utf8_cp2_value.
    rewrite bytes_mod_32, bytes_mod_64 by lia. lia.
  - right; right; left.
    assert (cp < 0x10000); [|lia].
    subst cp. rewrite utf8_cp3_value.
    rewrite bytes_mod_16, !bytes_mod_64 by lia. lia.
  - right; right; right. lia.
Qed.

(** The forward UTF-8 cursor accepts nothing but Unicode scalar values in
    their shortest form: a codepoint it returns is below 0x110000 and
    outside the surrogate range, and the number of bytes it steps over is
    the least that can hold the codepoint. *)
Theorem UTF8_ADVANCE_shortest_form (buf : buffer) (ptr size ptr' size' cp : Z) :
  UTF8_ADVANCE buf ptr size = Some (ptr', size', cp) -> cp <> -1 ->
  0 <= cp < 0x110000 /\ ~ (0xD800 <= cp < 0xE000) /\
  ptr' - ptr = (if cp <? 0x80 then 1 else if cp <? 0x800 then 2
                else if cp <? 0x10000 then 3 else 4).
Proof.
  intros Hadv Hcp.
  destruct (Z.ltb_spec cp 0x80); [|destruct (Z.ltb_spec cp 0x800);
    [|destruct (Z.ltb_spec cp 0x10000)]];
  destruct (UTF8_ADVANCE_length _ _ _ _ _ _ Hadv Hcp) as [C|[C|[C|C]]]; lia.
Qed.

Lemma UTF8_ADVANCE_shortest_form_witness :
  UTF8_ADVANCE euro 0 3 = Some (3, 0, 0x20AC) /\ 0x20AC <> -1 /\
  (0 <= 0x20AC < 0x110000 /\ ~ (0xD800 <= 0x20AC < 0xE000) /\
   3 - 0 = (if 0x20AC <? 0x80 then 1 else if 0x20AC <? 0x800 then 2
            else if 0x20AC <? 0x10000 then 3 else 4)).
Proof.
  assert (UTF8_ADVANCE euro 0 3 = Some (3, 0, 0x20AC)) as H1
    by (vm_compute; reflexivity).
  assert (0x20AC <> -1) as H2 by discriminate.
  split; [exact H1|]. split; [exact H2|].
  exact (UTF8_ADVANCE_shortest_form euro 0 3 3 0 0x20AC H1 H2).
Defined.

(** The forward UTF-8 cursor decodes one-to-one: two accepted sequences
    with the same codepoint have the same length and the same bytes. *)
Theorem UTF8_ADVANCE_injective (buf1 buf2 : buffer)
  (ptr1 size1 ptr1' size1' ptr2 size2 ptr2' size2' cp : Z) :
  UTF8_ADVANCE buf1 ptr1 size1 = Some (ptr1', size1', cp) ->
  UTF8_ADVANCE buf2 ptr2 size2 = Some (ptr2', size2', cp) ->
  cp <> -1 ->
  ptr1' - ptr1 = ptr2' - ptr2 /\
  forall i, 0 <= i < ptr1' - ptr1 ->
            peek8 buf1 (ptr1 + i) = peek8 buf2 (ptr2 + i).
Proof.
  intros H1 H2 Hcp.
  pose proof (UTF8_ADVANCE_length _ _ _ _ _ _ H1 Hcp) as L1.
  pose proof (UTF8_ADVANCE_length _ _ _ _ _ _ H2 Hcp) as L2.
  split; [lia|].
  destruct (UTF8_ADVANCE_cases _ _ _ _ _ _ H1 Hcp) as [C|[C|[C|C]]];
  destruct (UTF8_ADVANCE_cases _ _ _ _ _ _ H2 Hcp) as [D|[D|[D|D]]];
  break_ex; try (exfalso; lia); intros i Hi; subst ptr1' ptr2'.
  - assert (i = 0) as -> by lia. rewrite !Z.add_0_r. congruence.
  - subst cp.
    match goal with H : utf8_cp2 _ _ = utf8_cp2 _ _ |- _ =>
      rewrite !utf8_cp2_value in H;
      rewrite !bytes_mod_32, !bytes_mod_64 in H by lia end.
    assert (i = 0 \/ i = 1) as [-> | ->] by lia;
      rewrite ?Z.add_0_r;
      repeat match goal with H : peek8 _ _ = Some _ |- _ => rewrite H end;
      f_equal; lia.
  - subst cp.
    match goal with H : utf8_cp3 _ _ _ = utf8_cp3 _ _ _ |- _ =>
      rewrite !utf8_cp3_value in H;
      rewrite !bytes_mod_16, !bytes_mod_64 in H by lia end.
    assert (i = 0 \/ i = 1 \/ i = 2) as [-> | [-> | ->]] by lia;
      rewrite ?Z.add_0_r;
      repeat match goal with H : peek8 _ _ = Some _ |- _ => rewrite H end;
      f_equal; lia.
  - subst cp.
    match goal with H : utf8_cp4 _ _ _ _ = utf8_cp4 _ _ _ _ |- _ =>
      rewrite !utf8_cp4_value in H;
      rewrite !bytes_mod_8, !bytes_mod_64 in H by lia end.
    assert (i = 0 \/ i = 1 \/ i = 2 \/ i = 3) as [-> | [-> | [-> | ->]]]
      by lia; rewrite ?Z.add_0_r;
      repeat match goal with H : peek8 _ _ = Some _ |- _ => rewrite H end;
      f_equal; lia.
Qed.

Lemma UTF8_ADVANCE_injective_witness :
  UTF8_ADVANCE euro 0 3 = Some (3, 0, 0x20AC) /\
  UTF8_ADVANCE euro_a 0 4 = Some (3, 1, 0x20AC) /\
  0x20AC <> -1 /\
  (3 - 0 = 3 - 0 /\
   forall i, 0 <= i < 3 - 0 -> peek8 euro (0 + i) = peek8 euro_a (0 + i)).
Proof.
  assert (UTF8_ADVANCE euro 0 3 = Some (3, 0, 0x20AC)) as H1
    by (vm_compute; reflexivity).
  assert (UTF8_ADVANCE euro_a 0 4 = Some (3, 1, 0x20AC)) as H2
    by (vm_compute; reflexivity).
  assert (0x20AC <> -1) as H3 by discriminate.
  split; [exact H1|]. split; [exact H2|]. split; [exact H3|].
  exact (UTF8_ADVANCE_injective euro euro_a 0 3 3 0 0 4 3 1 0x20AC H1 H2 H3).
Defined.

Ltac decide_tests :=
  repeat match goal with
  | |- context [?a <=? ?b] =>
      first [rewrite (proj2 (Z.leb_le a b)) by lia
            |rewrite (proj2 (Z.leb_gt a b)) by lia]
  | |- context [?a <? ?b] =>
      first [rewrite (proj2 (Z.ltb_lt a b)) by lia
            |rewrite (proj2 (Z.ltb_ge a b)) by lia]
  end.

Lemma UTF8_ADVANCE_one (buf : buffer) (ptr size c : Z) :
  peek8 buf ptr = Some c -> c < 0x80 -> 1 <= size ->
  UTF8_ADVANCE buf ptr size = Some (ptr + 1, vsize_wrap (size - 1), c).
Proof.
  intros Hc Hlt Hsize. unfold UTF8_ADVANCE. unfold_cursor.
  rewrite Hc. cbn [option_map]. decide_tests. reflexivity.
Qed.

Lemma UTF8_ADVANCE_two (buf : buffer) (ptr size c0 c1 : Z) :
  peek8 buf ptr = Some c0 -> peek8 buf (ptr + 1) = Some c1 ->
  0xC2 <= c0 < 0xE0 -> 0x80 <= c1 < 0xC0 -> 2 <= size ->
  UTF8_ADVANCE buf ptr size
  = Some (ptr + 2, vsize_wrap (size - 2), utf8_cp2 c0 c1).
Proof.
  intros H0 H1 R0 R1 Hsize. unfold UTF8_ADVANCE. unfold_cursor.
  rewrite H0, H1. cbn [option_map]. decide_tests. reflexivity.
Qed.

Lemma UTF8_ADVANCE_three (buf : buffer) (ptr size c0 c1 c2 : Z) :
  peek8 buf ptr = Some c0 -> peek8 buf (ptr + 1) = Some c1 ->
  peek8 buf (ptr + 2) = Some c2 ->
  0xE0 <= c0 < 0xF0 -> 0x80 <= c1 < 0xC0 -> 0x80 <= c2 < 0xC0 ->
  0x800 <= utf8_cp3 c0 c1 c2 ->
  utf8_cp3 c0 c1 c2 < 0xD800 \/ 0xE000 <= utf8_cp3 c0 c1 c2 ->
  3 <= size ->
  UTF8_ADVANCE buf ptr size
  = Some (ptr + 3, vsize_wrap (size - 3), utf8_cp3 c0 c1 c2).
Proof.
  intros H0 H1 H2 R0 R1 R2 Hlo Hsur Hsize.
  unfold UTF8_ADVANCE. unfold_cursor.
  rewrite H0, H1, H2. cbn [option_map].
  set (cp := utf8_cp3 c0 c1 c2) in *.
  assert ((cp <? 55296) || (57344 <=? cp) = true) as ->.
  { apply orb_true_iff. destruct Hsur; [left; apply Z.ltb_lt|right; apply Z.leb_le]; lia. }
  decide_tests. reflexivity.
Qed.

Lemma UTF8_ADVANCE_four (buf : buffer) (ptr size c0 c1 c2 c3 : Z) :
  peek8 buf ptr = Some c0 -> peek8 buf (ptr + 1) = Some c1 ->
  peek8 buf (ptr + 2) = Some c2 -> peek8 buf (ptr + 3) = Some c3 ->
  0xF0 <= c0 < 0xF5 -> 0x80 <= c1 < 0xC0 -> 0x80 <= c2 < 0xC0 ->
  0x80 <= c3 < 0xC0 ->
  0x10000 <= utf8_cp4 c0 c1 c2 c3 < 0x110000 ->
  4 <= size ->
  UTF8_ADVANCE buf ptr size
  = Some (ptr + 4, vsize_wrap (size - 4), utf8_cp4 c0 c1 c2 c3).
Proof.
  intros H0 H1 H2 H3 R0 R1 R2 R3 Hcp Hsize.
  unfold UTF8_ADVANCE. unfold_cursor.
  rewrite H0, H1, H2, H3. cbn [option_map].
  set (cp := utf8_cp4 c0 c1 c2 c3) in *.
  set (cp3 := utf8_cp3 c0 c1 c2).
  decide_tests. reflexivity.
Qed.

Lemma byte_of_val (z : Z) : 0 <= z < 256 -> exists b, byte_val b = z.
Proof.
  intros R. destruct (Byte.of_N (Z.to_N z)) as [b|] eqn:E.
  - exists b. unfold byte_val. apply Byte.to_of_N in E; rewrite E. lia.
  - apply Byte.of_N_None_iff in E. lia.
Qed.

(** Every Unicode scalar value has a sequence the forward UTF-8 cursor
    accepts and decodes to it, using up the whole sequence. *)
Theorem UTF8_ADVANCE_surjective (cp : Z) :
  0 <= cp < 0x110000 -> ~ (0xD800 <= cp < 0xE000) ->
  exists buf, UTF8_ADVANCE buf 0 (blen buf) = Some (blen buf, 0, cp).
Proof.
  intros R Hsur.
  pose proof (Z.div_mod cp 64 ltac:(lia)) as E.
  pose proof (Z.mod_pos_bound cp 64 ltac:(lia)) as M.
  pose proof (Z.div_mod (cp / 64) 64 ltac:(lia)) as E'.
  pose proof (Z.mod_pos_bound (cp / 64) 64 ltac:(lia)) as M'.
  pose proof (Z.div_mod (cp / 64 / 64) 64 ltac:(lia)) as E''.
  pose proof (Z.mod_pos_bound (cp / 64 / 64) 64 ltac:(lia)) as M''.
  destruct (Z.lt_ge_cases cp 0x80) as [H1|H1];
    [|destruct (Z.lt_ge_cases cp 0x800) as [H2|H2];
      [|destruct (Z.lt_ge_cases cp 0x10000) as [H3|H3]]].
  - destruct (byte_of_val cp ltac:(lia)) as [b0 B0].
    exists [b0]. change (blen [b0]) with 1.
    rewrite (UTF8_ADVANCE_one [b0] 0 1 (byte_val b0) eq_refl
               ltac:(lia) ltac:(lia)).
    rewrite B0. reflexivity.
  - destruct (byte_of_val (0xC0 + cp / 64) ltac:(lia)) as [b0 B0].
    destruct (byte_of_val (0x80 + cp mod 64) ltac:(lia)) as [b1 B1].
    exists [b0; b1]. change (blen [b0; b1]) with 2.
    assert (utf8_cp2 (byte_val b0) (byte_val b1) = cp) as V.
    { rewrite utf8_cp2_value.
      rewrite bytes_mod_32, bytes_mod_64 by lia. lia. }
    rewrite (UTF8_ADVANCE_two [b0; b1] 0 2 (byte_val b0) (byte_val b1)
               eq_refl eq_refl ltac:(lia) ltac:(lia) ltac:(lia)).
    rewrite V. reflexivity.
  - destruct (byte_of_val (0xE0 + cp / 64 / 64) ltac:(lia)) as [b0 B0].
    destruct (byte_of_val (0x80 + (cp / 64) mod 64) ltac:(lia)) as [b1 B1].
    destruct (byte_of_val (0x80 + cp mod 64) ltac:(lia)) as [b2 B2].
    exists [b0; b1; b2]. change (blen [b0; b1; b2]) with 3.
    assert (utf8_cp3 (byte_val b0) (byte_val b1) (byte_val b2) = cp) as V.
    { rewrite utf8_cp3_value.
      rewrite bytes_mod_16, !bytes_mod_64 by lia. lia. }
    rewrite (UTF8_ADVANCE_three [b0; b1; b2] 0 3
               (byte_val b0) (byte_val b1) (byte_val b2)
               eq_refl eq_refl eq_refl ltac:(lia) ltac:(lia) ltac:(lia)
               ltac:(lia) ltac:(lia) ltac:(lia)).
    rewrite V. reflexivity.
  - destruct (byte_of_val (0xF0 + cp / 64 / 64 / 64) ltac:(lia)) as [b0 B0].
    destruct (byte_of_val (0x80 + (cp / 64 / 64) mod 64) ltac:(lia))
      as [b1 B1].
    destruct (byte_of_val (0x80 + (cp / 64) mod 64) ltac:(lia)) as [b2 B2].
    destruct (byte_of_val (0x80 + cp mod 64) ltac:(lia)) as [b3 B3].
    exists [b0; b1; b2; b3]. change (blen [b0; b1; b2; b3]) with 4.
    assert (utf8_cp4 (byte_val b0) (byte_val b1) (byte_val b2) (byte_val b3)
            = cp) as V.
    { rewrite utf8_cp4_value.
      rewrite bytes_mod_8, !bytes_mod_64 by lia. lia. }
    rewrite (UTF8_ADVANCE_four [b0; b1; b2; b3] 0 4
               (byte_val b0) (byte_val b1) (byte_val b2) (byte_val b3)
               eq_refl eq_refl eq_refl eq_refl
               ltac:(lia) ltac:(lia) ltac:(lia) ltac:(lia)
               ltac:(lia) ltac:(lia)).
    rewrite V. reflexivity.
Qed.

Lemma UTF8_ADVANCE_surjective_witness :
  0 <= 0x20AC < 0x110000 /\ ~ (0xD800 <= 0x20AC < 0xE000) /\
  exists buf, UTF8_ADVANCE buf 0 (blen buf) = Some (blen buf, 0, 0x20AC).
Proof.
  assert (0 <= 0x20AC < 0x110000) as H1 by lia.
  assert (~ (0xD800 <= 0x20AC < 0xE000)) as H2 by lia.
  split; [exact H1|]. split; [exact H2|].
  exact (UTF8_ADVANCE_surjective 0x20AC H1 H2).
Defined.

(** Every sequence the forward UTF-16 cursor accepts, with its units. *)
Lemma UTF16_ADVANCE_cases (be : bool) (buf : buffer)
  (ptr size ptr' size' cp : Z) :
  UTF16_ADVANCE be buf ptr size = Some (ptr', size', cp) -> cp <> -1 ->
  (ptr' = ptr + 2 /\ 2 <= size /\ peek16 be buf ptr = Some cp /\
   (cp < 0xD800 \/ 0xE000 <= cp)) \/
  (ptr' = ptr + 4 /\ 4 <= size /\
   exists c0 c1, peek16 be buf ptr = Some c0 /\
                 peek16 be buf (ptr + 2) = Some c1 /\
                 0xD800 <= c0 < 0xDC00 /\ 0xDC00 <= c1 < 0xE000 /\
                 cp = utf16_cp2 c0 c1).
Proof.
  unfold UTF16_ADVANCE. unfold_cursor.
  destruct (peek16 be buf ptr) as [c0|] eqn:P0;
  destruct (peek16 be buf (ptr + 2)) as [c1|] eqn:P1; cbn [option_map];
  repeat break_if; try discriminate;
  intros H; injection H as <- <- <-; intros Hcp; bool_to_prop;
  try (exfalso; lia).
  all: try (left; repeat split; first [reflexivity | lia | tauto]).
  all: try (right; split; [reflexivity|]; split; [lia|]; do 2 eexists;
            repeat split; (reflexivity || lia)).
Qed.

Lemma utf16_cp2_pair (c0 c1 : Z) :
  0xD800 <= c0 < 0xDC00 -> 0xDC00 <= c1 < 0xE000 ->
  utf16_cp2 c0 c1 = 0x10000 + (c0 - 0xD800) * 1024 + (c1 - 0xDC00).
Proof.
  intros R0 R1. rewrite utf16_cp2_value.
  replace (c0 + 64) with (c0 - 55296 + 64 + 27 * 2048) by lia.
  replace c1 with (c1 - 56320 + 55 * 1024) at 1 by lia.
  rewrite !Z.mod_add, !Z.mod_small by lia. lia.
Qed.

(** The forward UTF-16 cursor accepts nothing but Unicode scalar values: a
    lone unit outside the surrogate range is its own codepoint, and a high
    surrogate followed by a low one is the supplementary codepoint the two
    encode, which is 0x10000 or more and below 0x110000. *)
Theorem UTF16_ADVANCE_scalar_value (be : bool) (buf : buffer)
  (ptr size ptr' size' cp : Z) :
  UTF16_ADVANCE be buf ptr size = Some (ptr', size', cp) -> cp <> -1 ->
  0 <= cp < 0x110000 /\ ~ (0xD800 <= cp < 0xE000) /\
  ((cp < 0x10000 /\ ptr' = ptr + 2 /\ peek16 be buf ptr = Some cp) \/
   (0x10000 <= cp /\ ptr' = ptr + 4 /\
    exists c0 c1, peek16 be buf ptr = Some c0 /\
                  peek16 be buf (ptr + 2) = Some c1 /\
                  0xD800 <= c0 < 0xDC00 /\ 0xDC00 <= c1 < 0xE000 /\
                  cp = 0x10000 + (c0 - 0xD800) * 1024 + (c1 - 0xDC00))).
Proof.
  intros Hadv Hcp.
  destruct (UTF16_ADVANCE_cases _ _ _ _ _ _ _ Hadv Hcp)
    as [[-> [_ [P Hr]]]|[-> [_ [c0 [c1 [P0 [P1 [R0 [R1 E]]]]]]]]].
  - pose proof (peek16_range _ _ _ _ P) as [Hc _].
    split; [lia|]. split; [lia|]. left. repeat split; (lia || assumption).
  - rewrite utf16_cp2_pair in E by lia.
    split; [lia|]. split; [lia|]. right.
    split; [lia|]. split; [reflexivity|].
    exists c0, c1. repeat split; (lia || assumption).
Qed.

Lemma UTF16_ADVANCE_scalar_value_witness :
  UTF16_ADVANCE true (units16 true [(xd8, x3d); (xde, x00)]) 0 4
  = Some (4, 0, 0x1F600) /\ 0x1F600 <> -1 /\
  (0 <= 0x1F600 < 0x110000 /\ ~ (0xD800 <= 0x1F600 < 0xE000) /\
   ((0x1F600 < 0x10000 /\ 4 = 0 + 2 /\
     peek16 true (units16 true [(xd8, x3d); (xde, x00)]) 0 = Some 0x1F600) \/
    (0x10000 <= 0x1F600 /\ 4 = 0 + 4 /\
     exists c0 c1,
       peek16 true (units16 true [(xd8, x3d); (xde, x00)]) 0 = Some c0 /\
       peek16 true (units16 true [(xd8, x3d); (xde, x00)]) (0 + 2) = Some c1 /\
       0xD800 <= c0 < 0xDC00 /\ 0xDC00 <= c1 < 0xE000 /\
       0x1F600 = 0x10000 + (c0 - 0xD800) * 1024 + (c1 - 0xDC00)))).
Proof.
  assert (UTF16_ADVANCE true (units16 true [(xd8, x3d); (xde, x00)]) 0 4
          = Some (4, 0, 0x1F600)) as H1 by (vm_compute; reflexivity).
  assert (0x1F600 <> -1) as H2 by discriminate.
  split; [exact H1|]. split; [exact H2|].
  exact (UTF16_ADVANCE_scalar_value true _ 0 4 4 0 0x1F600 H1 H2).
Defined.

(** The forward UTF-16 cursor decodes one-to-one: two accepted sequences
    with the same codepoint have the same length and the same units. *)
Theorem UTF16_ADVANCE_injective (be1 be2 : bool) (buf1 buf2 : buffer)
  (ptr1 size1 ptr1' size1' ptr2 size2 ptr2' size2' cp : Z) :
  UTF16_ADVANCE be1 buf1 ptr1 size1 = Some (ptr1', size1', cp) ->
  UTF16_ADVANCE be2 buf2 ptr2 size2 = Some (ptr2', size2', cp) ->
  cp <> -1 ->
  ptr1' - ptr1 = ptr2' - ptr2 /\
  peek16 be1 buf1 ptr1 = peek16 be2 buf2 ptr2 /\
  (ptr1' - ptr1 = 4 ->
   peek16 be1 buf1 (ptr1 + 2) = peek16 be2 buf2 (ptr2 + 2)).
Proof.
  intros H1 H2 Hcp.
  destruct (UTF16_ADVANCE_scalar_value _ _ _ _ _ _ _ H1 Hcp)
    as [_ [_ [[L1 [-> P1]]|[L1 [-> [a0 [a1 [A0 [A1 [RA0 [RA1 EA]]]]]]]]]]];
  destruct (UTF16_ADVANCE_scalar_value _ _ _ _ _ _ _ H2 Hcp)
    as [_ [_ [[L2 [-> P2]]|[L2 [-> [b0 [b1 [B0 [B1 [RB0 [RB1 EB]]]]]]]]]]];
  try (exfalso; lia).
  - split; [lia|]. split; [congruence|]. intros; lia.
  - assert (a0 = b0 /\ a1 = b1) as [-> ->] by lia.
    split; [lia|]. split; [congruence|]. intros _. congruence.
Qed.

Lemma UTF16_ADVANCE_injective_witness :
  UTF16_ADVANCE true (units16 true [(xd8, x3d); (xde, x00)]) 0 4
  = Some (4, 0, 0x1F600) /\
  UTF16_ADVANCE false (units16 false [(xd8, x3d); (xde, x00)]) 0 4
  = Some (4, 0, 0x1F600) /\
  0x1F600 <> -1 /\
  (4 - 0 = 4 - 0 /\
   peek16 true (units16 true [(xd8, x3d); (xde, x00)]) 0
   = peek16 false (units16 false [(xd8, x3d); (xde, x00)]) 0 /\
   (4 - 0 = 4 ->
    peek16 true (units16 true [(xd8, x3d); (xde, x00)]) (0 + 2)
    = peek16 false (units16 false [(xd8, x3d); (xde, x00)]) (0 + 2))).
Proof.
  assert (UTF16_ADVANCE true (units16 true [(xd8, x3d); (xde, x00)]) 0 4
          = Some (4, 0, 0x1F600)) as H1 by (vm_compute; reflexivity).
  assert (UTF16_ADVANCE false (units16 false [(xd8, x3d); (xde, x00)]) 0 4
          = Some (4, 0, 0x1F600)) as H2 by (vm_compute; reflexivity).
  assert (0x1F600 <> -1) as H3 by discriminate.
  split; [exact H1|]. split; [exact H2|]. split; [exact H3|].
  exact (UTF16_ADVANCE_injective true false _ _ 0 4 4 0 0 4 4 0 0x1F600
           H1 H2 H3).
Defined.

Lemma UTF16_RETREAT_one (be : bool) (buf : buffer) (ptr size c : Z) :
  peek16 be buf (ptr - 2) = Some c -> c < 0xD800 \/ 0xE000 <= c ->
  2 <= size ->
  UTF16_RETREAT be buf ptr size = Some (ptr - 2, vsize_wrap (size - 2), c).
Proof.
  intros Hc Hr Hsize. unfold UTF16_RETREAT. unfold_cursor.
  rewrite Hc. cbn [option_map].
  rewrite (proj2 (Z.leb_le 2 size) Hsize).
  assert ((c <? 55296) || (57344 <=? c) = true) as ->.
  { apply orb_true_iff.
    destruct Hr; [left; apply Z.ltb_lt|right; apply Z.leb_le]; lia. }
  reflexivity.
Qed.

(** ** The backward cursors after a forward step *)

Lemma UTF8_RETREAT_rejects_continuations (buf : buffer) (ptr size c1 c2 : Z) :
  peek8 buf (ptr - 1) = Some c1 -> peek8 buf (ptr - 2) = Some c2 ->
  0x80 <= c1 < 0xC0 -> 0x80 <= c2 < 0xC0 ->
  UTF8_RETREAT buf ptr size = Some (ptr, size, -1).
Proof.
  intros H1 H2 R1 R2. unfold UTF8_RETREAT. unfold_cursor.
  rewrite H1, H2. cbn [option_map].
  rewrite (proj2 (Z.ltb_ge c1 128) ltac:(lia)).
  rewrite (proj2 (Z.leb_le 128 c1) ltac:(lia)).
  rewrite (proj2 (Z.ltb_lt c1 192) ltac:(lia)).
  rewrite (proj2 (Z.leb_gt 194 c2) ltac:(lia)).
  repeat rewrite andb_false_r.
  destruct (1 <=? size), (2 <=? size), (3 <=? size), (4 <=? size);
    reflexivity.
Qed.

(** Stepping back over what the forward UTF-8 cursor has just accepted:
    the backward cursor returns to where the forward one began, with the
    same codepoint, when the codepoint is below U+0800; from there on it
    rejects and stays. *)
Theorem UTF8_RETREAT_after_advance (buf : buffer)
  (ptr size ptr' rest cp size' : Z) :
  UTF8_ADVANCE buf ptr size = Some (ptr', rest, cp) -> cp <> -1 ->
  ptr' - ptr <= size' ->
  UTF8_RETREAT buf ptr' size'
  = if cp <? 0x800 then Some (ptr, vsize_wrap (size' - (ptr' - ptr)), cp)
    else Some (ptr', size', -1).
Proof.
  intros Hadv Hcp Hsize.
  pose proof (UTF8_ADVANCE_length _ _ _ _ _ _ Hadv Hcp) as L.
  destruct (Z.ltb_spec cp 0x800) as [Hlt|Hge].
  - apply (UTF8_RETREAT_mirrors_short buf ptr size ptr' rest cp size');
      try assumption; lia.
  - destruct (UTF8_ADVANCE_cases _ _ _ _ _ _ Hadv Hcp) as [C|[C|[C|C]]];
      break_ex; subst ptr'; try lia.
    + match goal with
      | H1 : peek8 buf (ptr + 2) = Some ?a,
        H2 : peek8 buf (ptr + 1) = Some ?b |- _ =>
          apply (UTF8_RETREAT_rejects_continuations buf (ptr + 3) size' a b)
      end; try lia.
      * replace (ptr + 3 - 1) with (ptr + 2) by lia. assumption.
      * replace (ptr + 3 - 2) with (ptr + 1) by lia. assumption.
    + match goal with
      | H1 : peek8 buf (ptr + 3) = Some ?a,
        H2 : peek8 buf (ptr + 2) = Some ?b |- _ =>
          apply (UTF8_RETREAT_rejects_continuations buf (ptr + 4) size' a b)
      end; try lia.
      * replace (ptr + 4 - 1) with (ptr + 3) by lia. assumption.
      * replace (ptr + 4 - 2) with (ptr + 2) by lia. assumption.
Qed.

Lemma UTF8_RETREAT_after_advance_witness :
  UTF8_ADVANCE grin 0 4 = Some (4, 0, 0x1F600) /\ 0x1F600 <> -1 /\
  4 - 0 <= 4 /\
  UTF8_RETREAT grin 4 4
  = if 0x1F600 <? 0x800 then Some (0, vsize_wrap (4 - (4 - 0)), 0x1F600)
    else Some (4, 4, -1).
Proof.
  assert (UTF8_ADVANCE grin 0 4 = Some (4, 0, 0x1F600)) as H1
    by (vm_compute; reflexivity).
  assert (0x1F600 <> -1) as H2 by discriminate.
  assert (4 - 0 <= 4) as H3 by lia.
  split; [exact H1|]. split; [exact H2|]. split; [exact H3|].
  exact (UTF8_RETREAT_after_advance grin 0 4 4 0 0x1F600 4 H1 H2 H3).
Defined.

Lemma UTF16_RETREAT_pair (be : bool) (buf : buffer) (ptr size c1 c2 : Z) :
  peek16 be buf (ptr - 2) = Some c1 -> peek16 be buf (ptr - 4) = Some c2 ->
  0xDC00 <= c1 < 0xE000 -> 0xD800 <= c2 < 0xDC00 -> 4 <= size ->
  UTF16_RETREAT be buf ptr size
  = Some (ptr + 4, vsize_wrap (size - 4), utf16_cp2 c2 c1).
Proof.
  intros H1 H2 R1 R2 Hsize. unfold UTF16_RETREAT. unfold_cursor.
  rewrite H1, H2. cbn [option_map].
  rewrite (proj2 (Z.ltb_ge c1 55296) ltac:(lia)).
  rewrite (proj2 (Z.leb_gt 57344 c1) ltac:(lia)).
  rewrite (proj2 (Z.leb_le 2 size) ltac:(lia)).
  rewrite (proj2 (Z.leb_le 4 size) ltac:(lia)).
  rewrite (proj2 (Z.leb_le 56320 c1) ltac:(lia)).
  rewrite (proj2 (Z.ltb_lt c1 57344) ltac:(lia)).
  rewrite (proj2 (Z.leb_le 55296 c2) ltac:(lia)).
  rewrite (proj2 (Z.ltb_lt c2 56320) ltac:(lia)).
  reflexivity.
Qed.

(** Stepping back over what the forward UTF-16 cursor has just accepted:
    the backward cursor decodes the same codepoint and takes as many bytes
    off the size, but after a surrogate pair it moves the pointer four
    bytes forward instead of back. *)
Theorem UTF16_RETREAT_after_advance (be : bool) (buf : buffer)
  (ptr size ptr' rest cp size' : Z) :
  UTF16_ADVANCE be buf ptr size = Some (ptr', rest, cp) -> cp <> -1 ->
  ptr' - ptr <= size' ->
  UTF16_RETREAT be buf ptr' size'
  = Some (if cp <? 0x10000 then ptr else ptr' + 4,
          vsize_wrap (size' - (ptr' - ptr)), cp).
Proof.
  intros Hadv Hcp Hsize.
  destruct (UTF16_ADVANCE_cases _ _ _ _ _ _ _ Hadv Hcp)
    as [[-> [_ [P Hr]]]|[-> [_ [c0 [c1 [P0 [P1 [R0 [R1 E]]]]]]]]].
  - pose proof (peek16_range _ _ _ _ P) as [Hc _].
    rewrite (proj2 (Z.ltb_lt cp 0x10000) ltac:(lia)).
    rewrite (UTF16_RETREAT_one be buf (ptr + 2) size' cp); try lia.
    + repeat f_equal; lia.
    + replace (ptr + 2 - 2) with ptr by lia. exact P.
  - pose proof E as E'. rewrite utf16_cp2_pair in E' by lia.
    rewrite (proj2 (Z.ltb_ge cp 0x10000) ltac:(lia)).
    rewrite (UTF16_RETREAT_pair be buf (ptr + 4) size' c1 c0); try lia.
    + subst cp. repeat f_equal; lia.
    + replace (ptr + 4 - 2) with (ptr + 2) by lia. exact P1.
    + replace (ptr + 4 - 4) with ptr by lia. exact P0.
Qed.

Lemma UTF16_RETREAT_after_advance_witness :
  UTF16_ADVANCE true (units16 true [(xd8, x3d); (xde, x00)]) 0 4
  = Some (4, 0, 0x1F600) /\ 0x1F600 <> -1 /\ 4 - 0 <= 4 /\
  UTF16_RETREAT true (units16 true [(xd8, x3d); (xde, x00)]) 4 4
  = Some (if 0x1F600 <? 0x10000 then 0 else 4 + 4,
          vsize_wrap (4 - (4 - 0)), 0x1F600).
Proof.
  assert (UTF16_ADVANCE true (units16 true [(xd8, x3d); (xde, x00)]) 0 4
          = Some (4, 0, 0x1F600)) as H1 by (vm_compute; reflexivity).
  assert (0x1F600 <> -1) as H2 by discriminate.
  assert (4 - 0 <= 4) as H3 by lia.
  split; [exact H1|]. split; [exact H2|]. split; [exact H3|].
  exact (UTF16_RETREAT_after_advance true _ 0 4 4 0 0x1F600 4 H1 H2 H3).
Defined.

(** ** The first match of the forward text engines *)

Section ForwardFirst.

Variable h : buffer.
Variable advance : Z -> Z -> option cursor.
Hypothesis Hcur : forward_cursor h advance.
Hypothesis Hh : blen h < 2 ^ 31.

(** An alignment the cursor keeps: none for bytes, evenness for 16-bit
    units. *)
Variable aligned : Z -> Prop.
Hypothesis Haligned0 : aligned 0.
Hypothesis Haligned :
  forall ptr size ptr' size' cp,
    aligned ptr -> advance ptr size = Some (ptr', size', cp) -> aligned ptr'.

Lemma decode_offset_aligned (j : nat) :
  forall p0 m,
  0 <= p0 <= blen h -> aligned p0 ->
  decode_offset advance j p0 (blen h - p0) = Some m -> aligned m.
Proof.
  assert (blen h < 2 ^ 32) as Hh32 by lia.
  induction j as [|j IH]; intros p0 m Hp0 Hal Hdec.
  - cbn in Hdec. injection Hdec as <-. exact Hal.
  - destruct (decode_offset_S h advance Hcur Hh32 j p0 m Hp0 Hdec)
      as [k [cp [Hk [Hfit [Hcp [Hadv Hrest]]]]]].
    apply (IH (p0 + k) m); [lia| |exact Hrest].
    exact (Haligned _ _ _ _ _ Hal Hadv).
Qed.

Lemma decode_offset_split (a b : nat) :
  forall p0 m,
  0 <= p0 <= blen h ->
  decode_offset advance (a + b) p0 (blen h - p0) = Some m ->
  exists q, decode_offset advance a p0 (blen h - p0) = Some q /\
            p0 <= q <= blen h /\
            decode_offset advance b q (blen h - q) = Some m.
Proof.
  assert (blen h < 2 ^ 32) as Hh32 by lia.
  induction a as [|a IH]; intros p0 m Hp0 Hdec.
  - exists p0. split; [reflexivity|]. split; [lia|exact Hdec].
  - change (S a + b)%nat with (S (a + b)) in Hdec.
    destruct (decode_offset_S h advance Hcur Hh32 _ p0 m Hp0 Hdec)
      as [k [cp [Hk [Hfit [Hcp [Hadv Hrest]]]]]].
    destruct (IH (p0 + k) m ltac:(lia) Hrest) as [q [Hq [Hle Hb]]].
    exists q. split; [|split; [lia|exact Hb]].
    change (decode_offset advance (S a) p0 (blen h - p0))
      with (match advance p0 (blen h - p0) with
            | Some (ptr', size', c) =>
                if c =? -1 then None else decode_offset advance a ptr' size'
            | None => None
            end).
    rewrite Hadv.
    assert ((cp =? -1) = false) as -> by (apply Z.eqb_neq; lia).
    exact Hq.
Qed.

(** Positions counted from [found] on lie at or after the cursor. *)
Lemma boundary_after (ptr found : Z) (j : nat) (off : Z) :
  counted h advance ptr found ->
  decode_offset advance j 0 (blen h) = Some off ->
  found <= Z.of_nat j + 1 ->
  ptr + (Z.of_nat j + 1 - found) <= off <= blen h /\ aligned off.
Proof.
  assert (blen h < 2 ^ 32) as Hh32 by lia.
  intros [Hptr [Hfound Hdec]] Hj Hle.
  pose proof (blen_nonneg h) as Hh0.
  assert (aligned off) as Hal.
  { apply (decode_offset_aligned j 0 off); try assumption; [lia|].
    rewrite Z.sub_0_r. exact Hj. }
  split; [|exact Hal].
  replace j with (Z.to_nat (found - 1) + (j - Z.to_nat (found - 1)))%nat
    in Hj by lia.
  rewrite <- (Z.sub_0_r (blen h)) in Hj.
  destruct (decode_offset_split _ _ 0 off ltac:(lia) Hj) as [q [Hq [_ Hb]]].
  rewrite Z.sub_0_r in Hq. rewrite Hdec in Hq. injection Hq as <-.
  pose proof (decode_offset_bound h advance Hcur Hh32 _ ptr off Hptr Hb).
  lia.
Qed.

Lemma counted_rejects (ptr found : Z) :
  counted h advance ptr found -> ptr < blen h ->
  rejects advance ptr (blen h - ptr) ->
  exists j off,
    decode_offset advance j 0 (blen h) = Some off /\
    off < blen h /\ rejects advance off (blen h - off).
Proof.
  intros [_ [_ Hdec]] Hlt R. exists (Z.to_nat (found - 1)), ptr. auto.
Qed.

Lemma instr_seek_first (needlesize start : Z) (fuel : nat) :
  0 <= needlesize ->
  forall ptr found,
  counted h advance ptr found -> blen h - ptr < Z.of_nat fuel ->
  found <= start \/ found = 1 ->
  (instr_seek fuel advance needlesize start ptr (blen h - ptr) found
   = inl (Ret (-1)) /\
   exists j off,
     decode_offset advance j 0 (blen h) = Some off /\
     off < blen h /\ rejects advance off (blen h - off)) \/
  (exists ptr' found',
     instr_seek fuel advance needlesize start ptr (blen h - ptr) found
     = inr (ptr', blen h - ptr', found') /\
     counted h advance ptr' found' /\
     (found' <= start \/ found' = 1) /\
     (start <= found' \/ blen h - ptr' <= needlesize)).
Proof.
  assert (blen h < 2 ^ 32) as Hh32 by lia.
  intros Hn0.
  induction fuel as [|fuel IH]; intros ptr found Hc Hfuel Hlo;
    [destruct Hc as [? _]; lia|].
  cbn [instr_seek].
  pose proof Hc as [Hptr [Hfound _]].
  destruct (found <? start) eqn:E1;
    [destruct (needlesize <? blen h - ptr) eqn:E2|]; cbn [andb].
  - apply Z.ltb_lt in E1. apply Z.ltb_lt in E2.
    destruct (step_cases h advance Hcur Hh32 ptr Hptr)
      as [R|[k [cp [Hk [Hfit [Hcp Hadv]]]]]].
    + left. pose proof R as R'. unfold rejects in R'. rewrite R'.
      split; [reflexivity|].
      exact (counted_rejects ptr found Hc ltac:(lia) R).
    + rewrite Hadv.
      assert ((cp =? -1) = false) as -> by (apply Z.eqb_neq; lia).
      rewrite int64_wrap_small by lia.
      apply IH; try lia.
      apply (counted_step h advance Hcur Hh ptr found k cp);
        try assumption; lia.
  - apply Z.ltb_ge in E2. right. exists ptr, found.
    split; [reflexivity|]. split; [exact Hc|]. split; [exact Hlo|]. lia.
  - apply Z.ltb_ge in E1. right. exists ptr, found.
    split; [reflexivity|]. split; [exact Hc|]. split; [exact Hlo|]. lia.
Qed.

Section Scan.

Variable n : buffer.
Variable lo : Z.

(** One turn of either search loop after the window at [ptr] was found
    not to match or was skipped. *)
Lemma scan_step (ptr found next' : Z)
  (rest : Z -> Z -> Z -> outcome) :
  counted h advance ptr found -> ptr < blen h -> lo <= found ->
  (forall j off, lo <= Z.of_nat j + 1 < found ->
                 decode_offset advance j 0 (blen h) = Some off ->
                 ~ occ h n off) ->
  ~ occ h n ptr ->
  (forall o, aligned o -> ptr < o < next' -> ~ occ h n o) ->
  (forall ptr' found',
     counted h advance ptr' found' -> ptr < ptr' -> lo <= found' ->
     (forall j off, lo <= Z.of_nat j + 1 < found' ->
                    decode_offset advance j 0 (blen h) = Some off ->
                    ~ occ h n off) ->
     (forall o, aligned o -> ptr' <= o < next' -> ~ occ h n o) ->
     exists r, rest ptr' (blen h - ptr') found' = Ret r /\
               first_position h n advance lo r) ->
  exists r,
    match advance ptr (blen h - ptr) with
    | Some (ptr', stacksize', codepoint) =>
        if codepoint =? -1 then Ret (-1)
        else rest ptr' stacksize' (int64_wrap (found + 1))
    | None => Fault
    end = Ret r /\ first_position h n advance lo r.
Proof.
  assert (blen h < 2 ^ 32) as Hh32 by lia.
  intros Hc Hlt Hlo Hinv Hnocc Hskip Hrest.
  pose proof Hc as [Hptr [Hfound Hdec]].
  destruct (step_cases h advance Hcur Hh32 ptr Hptr)
    as [R|[k [cp [Hk [Hfit [Hcp Hadv]]]]]].
  - pose proof R as R'. unfold rejects in R'. rewrite R'. cbn.
    exists (-1). split; [reflexivity|]. left. split; [reflexivity|].
    exact (counted_rejects ptr found Hc Hlt R).
  - rewrite Hadv.
    assert ((cp =? -1) = false) as -> by (apply Z.eqb_neq; lia).
    rewrite int64_wrap_small by lia.
    apply Hrest; try lia.
    + apply (counted_step h advance Hcur Hh ptr found k cp);
        try assumption; lia.
    + intros j off Hj Hoff.
      destruct (Z_lt_dec (Z.of_nat j + 1) found) as [L|G];
        [apply (Hinv j off); [lia|exact Hoff]|].
      assert (j = Z.to_nat (found - 1)) as -> by lia.
      rewrite Hdec in Hoff. injection Hoff as <-. exact Hnocc.
    + intros o Ho Hr. apply Hskip; [exact Ho|lia].
Qed.

(** No position from [found] on can hold the needle once the window no
    longer fits at the cursor or after the skip. *)
Lemma none_left (ptr found reach : Z) :
  counted h advance ptr found ->
  (forall j off, lo <= Z.of_nat j + 1 < found ->
                 decode_offset advance j 0 (blen h) = Some off ->
                 ~ occ h n off) ->
  (forall o, aligned o -> ptr <= o < reach -> ~ occ h n o) ->
  blen h < reach + blen n ->
  first_position h n advance lo 0.
Proof.
  intros Hc Hinv Hskip Hfit. right. left. split; [reflexivity|].
  intros j off Hj Hoff.
  destruct (Z_lt_dec (Z.of_nat j + 1) found) as [L|G];
    [apply (Hinv j off); [lia|exact Hoff]|].
  destruct (boundary_after ptr found j off Hc Hoff ltac:(lia)) as [Hb Hal].
  destruct (Z_lt_dec off reach) as [L|G'].
  - apply Hskip; [exact Hal|lia].
  - intros [_ [Ho _]]. lia.
Qed.

Variable unit : Z.
Variable skips : bmh_skips.
Hypothesis Hn : 1 <= blen n.
Hypothesis Hbound : forall c, 1 <= skips c <= blen n.
Hypothesis Hunit : forall c, unit * (skips c / unit) = skips c.
Hypothesis Hsafe :
  forall p o c,
    aligned p -> aligned o -> peek h (p + (blen n - 1)) = Some c ->
    p < o < p + skips c -> ~ occ h n o.

Lemma instr_text_scan_first (fuel : nat) :
  forall ptr found next,
  counted h advance ptr found -> blen h - ptr < Z.of_nat fuel ->
  lo <= found ->
  (forall j off, lo <= Z.of_nat j + 1 < found ->
                 decode_offset advance j 0 (blen h) = Some off ->
                 ~ occ h n off) ->
  (forall o, aligned o -> ptr <= o < next -> ~ occ h n o) ->
  exists r,
    instr_text_scan fuel unit advance h n skips (blen n)
      ptr (blen h - ptr) found next = Ret r /\
    first_position h n advance lo r.
Proof.
  induction fuel as [|fuel IH]; intros ptr found next Hc Hfuel Hlo Hinv Hskip;
    [destruct Hc as [? _]; lia|].
  cbn [instr_text_scan].
  pose proof Hc as [Hptr [Hfound Hdec]].
  assert (aligned ptr) as Hal.
  { apply (boundary_after ptr found (Z.to_nat (found - 1)) ptr Hc Hdec). lia. }
  destruct (blen n <=? blen h - ptr) eqn:Efit.
  2:{ apply Z.leb_gt in Efit. exists 0. split; [reflexivity|].
      apply (none_left ptr found ptr Hc Hinv); [intros; lia|lia]. }
  apply Z.leb_le in Efit.
  unfold instr_window.
  destruct (next <=? ptr) eqn:Enext.
  - destruct (memcmp_occ h n ptr) as [[-> Hocc]|[-> Hnocc]]; try lia.
    + exists found. split; [reflexivity|]. right. right.
      split; [lia|]. split; [exact Hlo|]. exists ptr. auto.
    + destruct (peek_some h (ptr + (blen n - 1))) as [c Hpeek]; [lia|].
      rewrite Hpeek. pose proof (Hbound c) as Hb.
      rewrite vsize_wrap_small by lia.
      destruct (blen h - ptr - skips c <? blen n) eqn:Eend.
      * apply Z.ltb_lt in Eend. exists 0. split; [reflexivity|].
        apply (none_left ptr found (ptr + skips c) Hc Hinv); [|lia].
        intros o Ho Hr.
        destruct (Z.eq_dec o ptr) as [->|Hne]; [exact Hnocc|].
        apply (Hsafe ptr o c); try assumption. lia.
      * rewrite Hunit.
        apply (scan_step ptr found (ptr + skips c)
                 (fun p s f => instr_text_scan fuel unit advance h n skips
                                 (blen n) p s f (ptr + skips c)));
          try assumption; try lia.
        -- intros o Ho Hr. apply (Hsafe ptr o c); assumption.
        -- intros ptr' found' Hc' Hlt Hlo' Hinv' Hskip'.
           apply IH; try assumption. lia.
  - apply Z.leb_gt in Enext.
    apply (scan_step ptr found next
             (fun p s f => instr_text_scan fuel unit advance h n skips
                             (blen n) p s f next));
      try assumption; try lia.
    + apply Hskip; [exact Hal|lia].
    + intros o Ho Hr. apply Hskip; [exact Ho|lia].
    + intros ptr' found' Hc' Hlt Hlo' Hinv' Hskip'.
      apply IH; try assumption. lia.
Qed.

End Scan.

Lemma instr_text_scan1_first (n : buffer) (lo : Z)
  (read : Z -> option Z) (first : Z) (fuel : nat) :
  1 <= blen n ->
  (forall p, aligned p -> 0 <= p < blen h ->
             exists c, read p = Some c /\ (c = first <-> occ h n p)) ->
  forall ptr found,
  counted h advance ptr found -> blen h - ptr < Z.of_nat fuel ->
  lo <= found ->
  (forall j off, lo <= Z.of_nat j + 1 < found ->
                 decode_offset advance j 0 (blen h) = Some off ->
                 ~ occ h n off) ->
  exists r,
    instr_text_scan1 fuel read advance first ptr (blen h - ptr) found = Ret r /\
    first_position h n advance lo r.
Proof.
  intros Hn Hread.
  induction fuel as [|fuel IH]; intros ptr found Hc Hfuel Hlo Hinv;
    [destruct Hc as [? _]; lia|].
  cbn [instr_text_scan1].
  pose proof Hc as [Hptr [Hfound Hdec]].
  assert (aligned ptr) as Hal.
  { apply (boundary_after ptr found (Z.to_nat (found - 1)) ptr Hc Hdec). lia. }
  destruct (0 <? blen h - ptr) eqn:E.
  2:{ apply Z.ltb_ge in E. exists 0. split; [reflexivity|].
      apply (none_left n lo ptr found ptr Hc Hinv); [intros; lia|lia]. }
  apply Z.ltb_lt in E.
  destruct (Hread ptr Hal ltac:(lia)) as [c [-> Hiff]].
  destruct (c =? first) eqn:Ec.
  - apply Z.eqb_eq in Ec. exists found. split; [reflexivity|]. right. right.
    split; [lia|]. split; [exact Hlo|]. exists ptr.
    split; [exact Hdec|]. split; [apply Hiff; exact Ec|exact Hinv].
  - apply Z.eqb_neq in Ec.
    apply (scan_step n lo ptr found ptr
             (fun p s f => instr_text_scan1 fuel read advance first p s f));
      try assumption; try lia.
    + intros Ho. apply Ec. apply Hiff. exact Ho.
    + intros ptr' found' Hc' Hlt Hlo' Hinv' _.
      apply IH; try assumption. lia.
Qed.

End ForwardFirst.

Lemma forward_table_safe (h n : buffer) (skips : bmh_skips) (p o : Z)
  (c : byte) :
  forward_table n skips ->
  peek h (p + (blen n - 1)) = Some c ->
  p < o < p + skips c -> ~ occ h n o.
Proof.
  intros [Hb Hj] Hpeek Hr [H0 [Hfit Ho]].
  pose proof (Hb c) as Hbc.
  specialize (Ho (p + (blen n - 1) - o) ltac:(lia)).
  replace (o + (p + (blen n - 1) - o)) with (p + (blen n - 1)) in Ho by lia.
  rewrite Hpeek in Ho. symmetry in Ho.
  pose proof (Hj (p + (blen n - 1) - o) c ltac:(lia) Ho). lia.
Qed.

Lemma counted_start (h : buffer) (advance : Z -> Z -> option cursor) :
  counted h advance 0 1.
Proof.
  pose proof (blen_nonneg h).
  split; [lia|]. split; [lia|]. reflexivity.
Qed.

Lemma instr_utf8_answer (fuel : nat) (h n : buffer) (start : Z) :
  blen h <= INT_MAX -> (length h < fuel)%nat ->
  exists r,
    instr_utf8 fuel h (blen h) n (blen n) start = Ret r /\
    first_position h n (UTF8_ADVANCE h) start r.
Proof.
  intros Hh Hfuel. unfold INT_MAX in Hh. assert (blen h < 2 ^ 31) as Hh31 by lia.
  pose proof (UTF8_ADVANCE_forward_cursor h) as Hcur.
  pose proof (blen_nonneg h) as Hh0. pose proof (blen_nonneg n) as Hn0.
  assert (blen h < Z.of_nat fuel) as Hfuel' by (unfold blen; lia).
  set (aligned := fun _ : Z => True).
  assert (forall ptr size ptr' size' cp,
            aligned ptr -> UTF8_ADVANCE h ptr size = Some (ptr', size', cp) ->
            aligned ptr') as Hal by (intros; exact I).
  unfold instr_utf8.
  destruct (blen h <? blen n) eqn:Efit.
  { apply Z.ltb_lt in Efit. exists 0. split; [reflexivity|].
    right. left. split; [reflexivity|].
    intros j off _ _ [Ho [Hfit' _]]. lia. }
  apply Z.ltb_ge in Efit.
  destruct (instr_seek_first h _ Hcur Hh31 (blen n) start fuel
              ltac:(lia) 0 1
              (counted_start h _) ltac:(lia) ltac:(lia))
    as [[Hr Hrej]|[ptr [found [Hr [Hc [Hlo Hstop]]]]]];
    rewrite Z.sub_0_r in Hr; rewrite Hr.
  { exists (-1). split; [reflexivity|]. left. split; [reflexivity|exact Hrej]. }
  pose proof Hc as [Hptr [Hfound Hdec]].
  destruct (found <? start) eqn:Estart.
  { apply Z.ltb_lt in Estart. exists 0. split; [reflexivity|].
    right. left. split; [reflexivity|].
    intros j off Hj Hoff [_ [Hfit' _]].
    destruct (boundary_after h _ Hcur Hh31 aligned I Hal ptr found j off
                Hc Hoff ltac:(lia)) as [Hb _].
    lia. }
  apply Z.ltb_ge in Estart.
  assert (forall j off, start <= Z.of_nat j + 1 < found ->
            decode_offset (UTF8_ADVANCE h) j 0 (blen h) = Some off ->
            ~ occ h n off) as Hinv by (intros j off Hj; lia).
  destruct (blen n <=? 0) eqn:E0.
  { apply Z.leb_le in E0. exists found. split; [reflexivity|].
    right. right. split; [lia|]. split; [lia|]. exists ptr.
    split; [exact Hdec|]. split; [|exact Hinv].
    split; [lia|]. split; [lia|]. intros k Hk. lia. }
  apply Z.leb_gt in E0.
  destruct (1 <? blen n) eqn:E1.
  - apply Z.ltb_lt in E1.
    destruct (fbmh_setup_spec n) as [skips [-> Htable]]; [lia|].
    apply (instr_text_scan_first h _ Hcur Hh31 aligned I Hal n start 1 skips);
      try assumption; try lia.
    + apply Htable.
    + intros c. rewrite Z.div_1_r. lia.
    + intros p o c _ _. apply forward_table_safe. exact Htable.
  - apply Z.ltb_ge in E1.
    destruct (peek_some n 0) as [first Hfirst]; [lia|].
    rewrite (peek8_byte _ _ _ Hfirst).
    apply (instr_text_scan1_first h _ Hcur Hh31 aligned I Hal n start);
      try assumption; try lia.
    intros p _ Hp. destruct (peek_some h p Hp) as [c Hc'].
    exists (byte_val c). split; [apply peek8_byte; exact Hc'|].
    rewrite (occ_single h n first p ltac:(lia) Hfirst). rewrite Hc'.
    split.
    + intros E. apply byte_val_inj in E. congruence.
    + intros E. congruence.
Qed.

(** [instr_utf8] comes back for every input, and with the first codepoint
    position at or after [start] where the needle's bytes begin, with [0]
    when there is none among the positions that decode, or with [-1], and
    then the haystack does hold a sequence the cursor rejects. *)
Theorem instr_utf8_first_position (fuel : nat) (h n : buffer) (start : Z) :
  blen h <= INT_MAX -> (length h < fuel)%nat ->
  exists r,
    instr_utf8 fuel h (blen h) n (blen n) start = Ret r /\
    first_position h n (UTF8_ADVANCE h) start r.
Proof. apply instr_utf8_answer. Qed.

Lemma instr_utf8_first_position_witness :
  blen euro_ab <= INT_MAX /\ (length euro_ab < 6)%nat /\
  exists r,
    instr_utf8 6 euro_ab (blen euro_ab) letter_b (blen letter_b) 2 = Ret r /\
    first_position euro_ab letter_b (UTF8_ADVANCE euro_ab) 2 r.
Proof.
  assert (blen euro_ab <= INT_MAX) as H1 by (vm_compute; discriminate).
  assert (length euro_ab < 6)%nat as H2 by (vm_compute; lia).
  split; [exact H1|]. split; [exact H2|].
  exact (instr_utf8_first_position 6 euro_ab letter_b 2 H1 H2).
Defined.

(** A call of [instr] on text under the UTF-8 registration: with no NULL
    among its arguments and haystack and needle not both BLOBs, the bytes
    the text accessor hands over are searched from the third argument, or
    from 1 when there is none, and the call ends in the position found by
    the engine as an integer, or in the malformed-text error when the
    engine answers [-1]. *)
Theorem instr_func_utf8_result (big_endian : bool) (fuel : nat)
  (arg0 arg1 : sqlite3_value) (rest : list sqlite3_value) (h n : buffer) :
  value_type arg0 <> SQLITE_NULL -> value_type arg1 <> SQLITE_NULL ->
  (forall arg2, nth_error rest 0 = Some arg2 ->
                value_type arg2 <> SQLITE_NULL) ->
  ~ (value_type arg0 = SQLITE_BLOB /\ value_type arg1 = SQLITE_BLOB) ->
  value_text arg0 = Some h -> value_bytes arg0 = blen h ->
  value_text arg1 = Some n -> value_bytes arg1 = blen n ->
  blen h <= INT_MAX -> blen n <= INT_MAX -> (length h < fuel)%nat ->
  let start := match rest with
               | arg2 :: _ => value_int64 arg2
               | [] => 1
               end in
  exists r,
    first_position h n (UTF8_ADVANCE h) start r /\
    instr_func big_endian fuel malformed_8 (arg0 :: arg1 :: rest)
    = if r =? -1 then ResultError (malformed malformed_8)
      else ResultInt64 r.
Proof.
  intros N0 N1 N2 Hnb Ht0 Hb0 Ht1 Hb1 Hh Hn Hfuel start.
  destruct (instr_utf8_answer fuel h n start Hh Hfuel) as [r [Hr Hpos]].
  exists r. split; [exact Hpos|].
  assert (forall a, a <> SQLITE_NULL -> datatype_eqb a SQLITE_NULL = false)
    as Hneq by (intros a Ha; destruct a; try reflexivity; congruence).
  assert (datatype_eqb (value_type arg0) SQLITE_BLOB
          && datatype_eqb (value_type arg1) SQLITE_BLOB = false) as Hmixed.
  { destruct (value_type arg0), (value_type arg1); try reflexivity.
    exfalso. apply Hnb. auto. }
  assert (dispatch (instr_blob fuel) (instr_utf8 fuel)
            (instr_utf16 big_endian fuel) malformed_8 arg0 arg1 start
          = if r =? -1 then ResultError (malformed malformed_8)
            else ResultInt64 r) as Hd.
  { unfold dispatch. rewrite Hmixed, Ht0, Ht1, Hb0, Hb1.
    pose proof (blen_nonneg h). pose proof (blen_nonneg n).
    unfold INT_MAX in Hh, Hn.
    rewrite !vsize_wrap_small by lia. rewrite Hr. unfold report.
    destruct Hpos as [[-> _]|[[-> _]|[Hpos _]]]; [reflexivity|reflexivity|].
    rewrite (proj2 (Z.ltb_ge r 0) ltac:(lia)).
    rewrite (proj2 (Z.eqb_neq r (-1)) ltac:(lia)). reflexivity. }
  unfold instr_func, entry.
  rewrite (Hneq _ N0), (Hneq _ N1).
  destruct rest as [|arg2 rest]; [exact Hd|].
  rewrite (Hneq _ (N2 arg2 eq_refl)). exact Hd.
Qed.

Lemma instr_func_utf8_result_witness :
  value_type (text_arg euro_ab euro_ab) <> SQLITE_NULL /\
  value_type (blob_arg letter_b) <> SQLITE_NULL /\
  (forall arg2, nth_error (@nil sqlite3_value) 0 = Some arg2 ->
                value_type arg2 <> SQLITE_NULL) /\
  ~ (value_type (text_arg euro_ab euro_ab) = SQLITE_BLOB /\
     value_type (blob_arg letter_b) = SQLITE_BLOB) /\
  exists r,
    first_position euro_ab letter_b (UTF8_ADVANCE euro_ab) 1 r /\
    instr_func true 6 malformed_8
      [text_arg euro_ab euro_ab; blob_arg letter_b]
    = if r =? -1 then ResultError (malformed malformed_8)
      else ResultInt64 r.
Proof.
  assert (value_type (text_arg euro_ab euro_ab) <> SQLITE_NULL) as H1
    by discriminate.
  assert (value_type (blob_arg letter_b) <> SQLITE_NULL) as H2
    by discriminate.
  assert (forall arg2, nth_error (@nil sqlite3_value) 0 = Some arg2 ->
                       value_type arg2 <> SQLITE_NULL) as H3
    by (intros arg2 H; discriminate H).
  assert (~ (value_type (text_arg euro_ab euro_ab) = SQLITE_BLOB /\
             value_type (blob_arg letter_b) = SQLITE_BLOB)) as H4
    by (intros [H _]; discriminate H).
  split; [exact H1|]. split; [exact H2|]. split; [exact H3|].
  split; [exact H4|].
  exact (instr_func_utf8_result true 6 (text_arg euro_ab euro_ab)
           (blob_arg letter_b) [] euro_ab letter_b H1 H2 H3 H4
           eq_refl eq_refl eq_refl eq_refl
           ltac:(vm_compute; discriminate) ltac:(vm_compute; discriminate)
           ltac:(vm_compute; lia)).
Defined.

Lemma even_gap (a b : Z) :
  Z.even a = true -> Z.even b = true -> a < b -> a + 2 <= b.
Proof.
  intros Ha Hb Hlt.
  pose proof (Z.div_mod a 2 ltac:(lia)) as Da.
  pose proof (Z.div_mod b 2 ltac:(lia)) as Db.
  rewrite Zmod_even in Da, Db. rewrite Ha in Da. rewrite Hb in Db. lia.
Qed.

(** A masked entry is even and at most one more than the entry. *)
Lemma skips_mask_even (skips : bmh_skips) (c : byte) :
  0 <= skips c < 2 ^ 31 ->
  Z.even (skips_mask 1 skips c) = true /\
  skips_mask 1 skips c <= skips c + 1.
Proof.
  intros Hc. unfold skips_mask. cbn [Z.eqb].
  rewrite vsize_wrap_small by lia.
  change (vsize_not 1) with (2 ^ 32 - 2).
  split.
  - rewrite <- Z.negb_odd, <- Z.bit0_odd, Z.land_spec.
    apply negb_true_iff. apply andb_false_iff. right. reflexivity.
  - apply Z_land_le_l; lia.
Qed.

(** The table of the UTF-16 engine: every entry is even, and a byte of
    the needle before its last has an entry of at most one more than its
    distance to the end. *)
Lemma fbmh_setup_masked_table (needle : buffer) :
  2 <= blen needle < 2 ^ 31 -> Z.even (blen needle) = true ->
  exists skips,
    fbmh_setup needle (blen needle) 1 = Some skips /\
    (forall c, 1 <= skips c <= blen needle) /\
    (forall c, Z.even (skips c) = true) /\
    (forall j c, 0 <= j < blen needle - 1 -> peek needle j = Some c ->
                 skips c <= blen needle - j).
Proof.
  intros Hn Heven. unfold fbmh_setup.
  rewrite vsize_wrap_small by lia.
  destruct (fbmh_fill_spec needle (blen needle - 1) (blen needle)
              (Z.to_nat (blen needle - 1)) 0 (fun _ => blen needle))
    as [t [Ht [Hb Hj]]]; try lia.
  rewrite Ht. cbn [option_map]. eexists. split; [reflexivity|].
  split; [|split].
  - intros c.
    pose proof (skips_mask_even_bound t (blen needle) c Heven ltac:(lia)
                  ltac:(specialize (Hb c); lia)) as H.
    specialize (Hb c). lia.
  - intros c. apply skips_mask_even. specialize (Hb c). lia.
  - intros j c Hjr Hp.
    pose proof (Hj j c ltac:(lia) Hp).
    pose proof (skips_mask_even t c ltac:(specialize (Hb c); lia)) as [_ H1].
    lia.
Qed.

Lemma masked_table_safe (h n : buffer) (skips : bmh_skips) (p o : Z)
  (c : byte) :
  (forall c, 1 <= skips c <= blen n) ->
  (forall c, Z.even (skips c) = true) ->
  (forall j c, 0 <= j < blen n - 1 -> peek n j = Some c ->
               skips c <= blen n - j) ->
  Z.even p = true -> Z.even o = true ->
  peek h (p + (blen n - 1)) = Some c ->
  p < o < p + skips c -> ~ occ h n o.
Proof.
  intros Hb He Hj Hp Ho Hpeek Hr [H0 [Hfit Hocc]].
  pose proof (Hb c) as Hbc.
  specialize (Hocc (p + (blen n - 1) - o) ltac:(lia)).
  replace (o + (p + (blen n - 1) - o)) with (p + (blen n - 1)) in Hocc by lia.
  rewrite Hpeek in Hocc. symmetry in Hocc.
  pose proof (Hj (p + (blen n - 1) - o) c ltac:(lia) Hocc) as Hle.
  assert (skips c = o - p + 1) as E by lia.
  specialize (He c). rewrite E in He.
  rewrite Z.even_add, Z.even_sub, Hp, Ho in He. discriminate.
Qed.

(** [instr_utf16] on buffers of whole 16-bit units comes back for every
    input, and with the first codepoint position at or after [start] where
    the needle's bytes begin, with [0] when there is none among the
    positions that decode, or with [-1], and then the haystack does hold a
    sequence the cursor rejects. *)
Theorem instr_utf16_first_position (big_endian : bool) (fuel : nat)
  (h n : buffer) (start : Z) :
  blen h <= INT_MAX -> (length h < fuel)%nat ->
  Z.even (blen h) = true -> Z.even (blen n) = true ->
  exists r,
    instr_utf16 big_endian fuel h (blen h) n (blen n) start = Ret r /\
    first_position h n (UTF16_ADVANCE big_endian h) start r.
Proof.
  intros Hh Hfuel Heven Hneven.
  unfold INT_MAX in Hh. assert (blen h < 2 ^ 31) as Hh31 by lia.
  pose proof (UTF16_ADVANCE_forward_cursor big_endian h) as Hcur.
  pose proof (blen_nonneg h) as Hh0. pose proof (blen_nonneg n) as Hn0.
  assert (blen h < Z.of_nat fuel) as Hfuel' by (unfold blen; lia).
  set (aligned := fun p : Z => Z.even p = true).
  assert (aligned 0) as Hal0 by reflexivity.
  assert (forall ptr size ptr' size' cp,
            aligned ptr ->
            UTF16_ADVANCE big_endian h ptr size = Some (ptr', size', cp) ->
            aligned ptr') as Hal.
  { unfold aligned. intros ptr size ptr' size' cp He Hadv.
    destruct (UTF16_ADVANCE_steps _ _ _ _ _ _ _ Hadv)
      as [[-> _]|[k [[->| ->] [_ [-> _]]]]]; [exact He| |];
      rewrite Z.even_add, He; reflexivity. }
  unfold instr_utf16.
  destruct (blen h <? blen n) eqn:Efit.
  { apply Z.ltb_lt in Efit. exists 0. split; [reflexivity|].
    right. left. split; [reflexivity|].
    intros j off _ _ [Ho [Hfit' _]]. lia. }
  apply Z.ltb_ge in Efit.
  destruct (instr_seek_first h _ Hcur Hh31 (blen n) start fuel
              ltac:(lia) 0 1
              (counted_start h _) ltac:(lia) ltac:(lia))
    as [[Hr Hrej]|[ptr [found [Hr [Hc [Hlo Hstop]]]]]];
    rewrite Z.sub_0_r in Hr; rewrite Hr.
  { exists (-1). split; [reflexivity|]. left. split; [reflexivity|exact Hrej]. }
  pose proof Hc as [Hptr [Hfound Hdec]].
  destruct (found <? start) eqn:Estart.
  { apply Z.ltb_lt in Estart. exists 0. split; [reflexivity|].
    right. left. split; [reflexivity|].
    intros j off Hj Hoff [_ [Hfit' _]].
    destruct (boundary_after h _ Hcur Hh31 aligned Hal0 Hal ptr found j off
                Hc Hoff ltac:(lia)) as [Hb _].
    lia. }
  apply Z.ltb_ge in Estart.
  assert (forall j off, start <= Z.of_nat j + 1 < found ->
            decode_offset (UTF16_ADVANCE big_endian h) j 0 (blen h)
            = Some off ->
            ~ occ h n off) as Hinv by (intros j off Hj; lia).
  destruct (blen n <=? 0) eqn:E0.
  { apply Z.leb_le in E0. exists found. split; [reflexivity|].
    right. right. split; [lia|]. split; [lia|]. exists ptr.
    split; [exact Hdec|]. split; [|exact Hinv].
    split; [lia|]. split; [lia|]. intros k Hk. lia. }
  apply Z.leb_gt in E0.
  pose proof (even_gap 0 (blen n) eq_refl Hneven E0) as Hn2.
  destruct (2 <? blen n) eqn:E1.
  - apply Z.ltb_lt in E1.
    destruct (fbmh_setup_masked_table n) as [skips [-> [Hb [He Hj]]]];
      [lia|exact Hneven|].
    apply (instr_text_scan_first h _ Hcur Hh31 aligned Hal0 Hal n start
             2 skips);
      try assumption; try lia.
    + intros c. specialize (He c).
      pose proof (Z.div_mod (skips c) 2 ltac:(lia)) as D.
      rewrite Zmod_even, He in D. lia.
    + intros p o c. apply masked_table_safe; assumption.
  - apply Z.ltb_ge in E1.
    assert (blen n = 2) as En by lia.
    destruct (peek_some n 0) as [x Hx]; [lia|].
    destruct (peek_some n 1) as [y Hy]; [lia|].
    unfold peek16 at 1. rewrite (peek8_byte _ _ _ Hx).
    change (0 + 1) with 1. rewrite (peek8_byte _ _ _ Hy).
    apply (instr_text_scan1_first h _ Hcur Hh31 aligned Hal0 Hal n start);
      try assumption; try lia.
    intros p Hpe Hp.
    pose proof (even_gap p (blen h) Hpe Heven ltac:(lia)) as Hroom.
    destruct (peek_some h p ltac:(lia)) as [a Ha].
    destruct (peek_some h (p + 1) ltac:(lia)) as [b Hb].
    unfold peek16. rewrite (peek8_byte _ _ _ Ha), (peek8_byte _ _ _ Hb).
    eexists. split; [reflexivity|]. split.
    + intros E. apply unit_val_inj in E; try apply byte_val_range.
      destruct E as [E1' E2'].
      apply byte_val_inj in E1'. apply byte_val_inj in E2'. subst a b.
      apply occ_pair; try lia; congruence.
    + intros [_ [_ Ho]].
      pose proof (Ho 0 ltac:(lia)) as O0. pose proof (Ho 1 ltac:(lia)) as O1.
      rewrite Z.add_0_r in O0. rewrite Ha, Hx in O0. rewrite Hb, Hy in O1.
      congruence.
Qed.

Lemma instr_utf16_first_position_witness :
  blen (grin_Y_Z_W true) <= INT_MAX /\
  (length (grin_Y_Z_W true) < 11)%nat /\
  Z.even (blen (grin_Y_Z_W true)) = true /\
  Z.even (blen (letter_W true)) = true /\
  exists r,
    instr_utf16 true 11 (grin_Y_Z_W true) (blen (grin_Y_Z_W true))
      (letter_W true) (blen (letter_W true)) 1 = Ret r /\
    first_position (grin_Y_Z_W true) (letter_W true)
      (UTF16_ADVANCE true (grin_Y_Z_W true)) 1 r.
Proof.
  assert (blen (grin_Y_Z_W true) <= INT_MAX) as H1
    by (vm_compute; discriminate).
  assert (length (grin_Y_Z_W true) < 11)%nat as H2 by (vm_compute; lia).
  assert (Z.even (blen (grin_Y_Z_W true)) = true) as H3 by reflexivity.
  assert (Z.even (blen (letter_W true)) = true) as H4 by reflexivity.
  split; [exact H1|]. split; [exact H2|]. split; [exact H3|].
  split; [exact H4|].
  exact (instr_utf16_first_position true 11 (grin_Y_Z_W true) (letter_W true)
           1 H1 H2 H3 H4).
Defined.

(** ** The last match of the backward text engines *)

Section BackwardLast.

Variable h : buffer.
Variable advance : Z -> Z -> option cursor.
Variable retreat : Z -> Z -> option cursor.
Hypothesis Hcur : forward_cursor h advance.
Hypothesis Hh : blen h < 2 ^ 31.
Variable aligned : Z -> Prop.
Hypothesis Haligned0 : aligned 0.
Hypothesis Haligned :
  forall ptr size ptr' size' cp,
    aligned ptr -> advance ptr size = Some (ptr', size', cp) -> aligned ptr'.

(** Positions counted up to [found] lie at or before the cursor. *)
Lemma boundary_before (ptr found : Z) (j : nat) (off : Z) :
  counted h advance ptr found ->
  decode_offset advance j 0 (blen h) = Some off ->
  Z.of_nat j + 1 <= found ->
  0 <= off /\ off + (found - (Z.of_nat j + 1)) <= ptr /\ aligned off.
Proof.
  assert (blen h < 2 ^ 32) as Hh32 by lia.
  intros [Hptr [Hfound Hdec]] Hj Hle.
  pose proof (blen_nonneg h) as Hh0.
  assert (aligned off) as Hal.
  { apply (decode_offset_aligned h _ Hcur Hh aligned Haligned j 0 off);
      try assumption; [lia|].
    rewrite Z.sub_0_r. exact Hj. }
  replace (Z.to_nat (found - 1)) with (j + (Z.to_nat (found - 1) - j))%nat
    in Hdec by lia.
  rewrite <- (Z.sub_0_r (blen h)) in Hdec.
  destruct (decode_offset_split h _ Hcur Hh _ _ 0 ptr ltac:(lia) Hdec)
    as [q [Hq [Hq0 Hb]]].
  rewrite Z.sub_0_r in Hq. rewrite Hj in Hq. injection Hq as <-.
  pose proof (decode_offset_bound h advance Hcur Hh32 _ off ptr
                ltac:(lia) Hb).
  repeat split; try assumption; lia.
Qed.

Lemma rinstr_seek_last (needlesize start : Z) (fuel : nat) :
  0 <= needlesize ->
  forall ptr found,
  counted h advance ptr found -> needlesize <= blen h - ptr ->
  blen h - ptr < Z.of_nat fuel -> found <= start ->
  (rinstr_seek fuel advance needlesize start ptr (blen h - ptr) found
   = inl (Ret (-1)) /\
   exists j off,
     decode_offset advance j 0 (blen h) = Some off /\
     off < blen h /\ rejects advance off (blen h - off)) \/
  (exists ptr' size' found',
     rinstr_seek fuel advance needlesize start ptr (blen h - ptr) found
     = inr (ptr', size', found') /\
     counted h advance ptr' found' /\
     needlesize <= blen h - ptr' /\ found' <= start /\
     forall j off,
       found' < Z.of_nat j + 1 <= start ->
       decode_offset advance j 0 (blen h) = Some off ->
       blen h < off + needlesize).
Proof.
  assert (blen h < 2 ^ 32) as Hh32 by lia.
  intros Hn0.
  induction fuel as [|fuel IH]; intros ptr found Hc Hfit Hfuel Hlo; [lia|].
  cbn [rinstr_seek].
  pose proof Hc as [Hptr [Hfound _]].
  destruct (found <? start) eqn:E1;
    [destruct (needlesize <? blen h - ptr) eqn:E2|]; cbn [andb].
  - apply Z.ltb_lt in E1. apply Z.ltb_lt in E2.
    destruct (step_cases h advance Hcur Hh32 ptr Hptr)
      as [R|[k [cp [Hk [Hkfit [Hcp Hadv]]]]]].
    + left. pose proof R as R'. unfold rejects in R'. rewrite R'.
      split; [reflexivity|].
      exact (counted_rejects h advance ptr found Hc ltac:(lia) R).
    + rewrite Hadv.
      assert ((cp =? -1) = false) as -> by (apply Z.eqb_neq; lia).
      assert (counted h advance (ptr + k) (found + 1)) as Hc'
        by (apply (counted_step h advance Hcur Hh ptr found k cp);
            try assumption; lia).
      destruct (blen h - (ptr + k) <? needlesize) eqn:E.
      * apply Z.ltb_lt in E. right. exists ptr, (blen h - ptr), found.
        split; [reflexivity|]. split; [exact Hc|]. split; [lia|].
        split; [lia|]. intros j off Hj Hoff.
        destruct (boundary_after h _ Hcur Hh aligned Haligned0 Haligned
                    (ptr + k) (found + 1) j off Hc' Hoff ltac:(lia))
          as [Hb _].
        lia.
      * apply Z.ltb_ge in E. rewrite int64_wrap_small by lia.
        apply IH; try assumption; lia.
  - apply Z.ltb_ge in E2. right. exists ptr, (blen h - ptr), found.
    split; [reflexivity|]. split; [exact Hc|]. split; [lia|].
    split; [lia|]. intros j off Hj Hoff.
    destruct (boundary_after h _ Hcur Hh aligned Haligned0 Haligned
                ptr found j off Hc Hoff ltac:(lia)) as [Hb _].
    lia.
  - apply Z.ltb_ge in E1. right. exists ptr, (blen h - ptr), found.
    split; [reflexivity|]. split; [exact Hc|]. split; [lia|].
    split; [lia|]. intros j off Hj. lia.
Qed.

Section Scan.

Variable n : buffer.
Variable hi : Z.
Hypothesis Hn : 1 <= blen n.

(** Nothing at or before the cursor holds the needle. *)
Lemma none_before (ptr found reach : Z) :
  counted h advance ptr found ->
  (forall j off, found < Z.of_nat j + 1 <= hi ->
                 decode_offset advance j 0 (blen h) = Some off ->
                 ~ occ h n off) ->
  (forall o, aligned o -> reach < o <= ptr -> ~ occ h n o) ->
  reach < 0 ->
  last_position h n advance hi 0.
Proof.
  intros Hc Hinv Hskip Hreach. right. left. split; [reflexivity|].
  intros j off Hj Hoff.
  destruct (Z_lt_dec found (Z.of_nat j + 1)) as [L|G];
    [apply (Hinv j off); [lia|exact Hoff]|].
  destruct (boundary_before ptr found j off Hc Hoff ltac:(lia))
    as [H0 [Hb Hal]].
  apply Hskip; [exact Hal|lia].
Qed.

(** One turn of either backward loop after the window at [ptr] was found
    not to match or was skipped; [rest] is the loop itself, by fuel. *)
Lemma scan_back_step (ptr found next' : Z)
  (rest : nat -> Z -> Z -> Z -> outcome) (fuel : nat) :
  undoes_or_stays h advance retreat ->
  counted h advance ptr found -> found <= hi ->
  (forall j off, found < Z.of_nat j + 1 <= hi ->
                 decode_offset advance j 0 (blen h) = Some off ->
                 ~ occ h n off) ->
  (forall o, aligned o -> next' < o <= ptr -> ~ occ h n o) ->
  next' < ptr ->
  (forall cp, 0 < ptr -> retreat ptr ptr = Some (ptr, ptr, cp) ->
              forall fuel' found', rest fuel' ptr ptr found' = Timeout) ->
  (forall ptr' found',
     counted h advance ptr' found' -> ptr' < ptr -> found' <= hi ->
     (forall j off, found' < Z.of_nat j + 1 <= hi ->
                    decode_offset advance j 0 (blen h) = Some off ->
                    ~ occ h n off) ->
     (forall o, aligned o -> next' < o <= ptr' -> ~ occ h n o) ->
     (exists r, rest fuel ptr' ptr' found' = Ret r /\
                last_position h n advance hi r) \/
     (forall fuel', rest fuel' ptr' ptr' found' = Timeout)) ->
  (exists r,
     (if ptr <=? 0 then Ret 0
      else
        match retreat ptr ptr with
        | Some (ptr', stacksize', _) =>
            rest fuel ptr' stacksize' (int64_wrap (found - 1))
        | None => Fault
        end) = Ret r /\ last_position h n advance hi r) \/
  (forall fuel',
     (if ptr <=? 0 then Ret 0
      else
        match retreat ptr ptr with
        | Some (ptr', stacksize', _) =>
            rest fuel' ptr' stacksize' (int64_wrap (found - 1))
        | None => Fault
        end) = Timeout).
Proof.
  intros Hback Hc Hhi Hinv Hskip Hnext Hstuck Hrest.
  pose proof Hc as [Hptr [Hfound Hdec]].
  destruct (ptr <=? 0) eqn:E0.
  - apply Z.leb_le in E0. left. exists 0. split; [reflexivity|].
    apply (none_before ptr found next' Hc Hinv Hskip). lia.
  - apply Z.leb_gt in E0.
    destruct (Hback ptr found Hc E0)
      as [ptr' [size' [cp [Hret [[-> ->]|[Hlt [-> Hc']]]]]]]; rewrite Hret.
    + right. intros fuel'. exact (Hstuck cp E0 Hret fuel' _).
    + rewrite int64_wrap_small by lia.
      apply Hrest; try assumption; try lia.
      * intros j off Hj Hoff.
        destruct (Z_lt_dec found (Z.of_nat j + 1)) as [L|G];
          [apply (Hinv j off); [lia|exact Hoff]|].
        assert (j = Z.to_nat (found - 1)) as -> by lia.
        rewrite Hdec in Hoff. injection Hoff as <-.
        apply Hskip; [|lia].
        apply (boundary_before ptr found (Z.to_nat (found - 1)) ptr Hc Hdec).
        lia.
      * intros o Ho Hr. apply Hskip; [exact Ho|lia].
Qed.

Variable unit : Z.
Variable skips : bmh_skips.
Hypothesis Hbound : forall c, 1 <= skips c <= blen n.
Hypothesis Hunit : forall c, unit * (skips c / unit) = skips c.
Hypothesis Hsafe :
  forall p o c,
    aligned p -> aligned o -> peek h p = Some c ->
    p - skips c < o < p -> ~ occ h n o.

Lemma rinstr_text_scan_last (fuel : nat) :
  undoes_or_stays h advance retreat ->
  forall ptr found next,
  counted h advance ptr found -> ptr + blen n <= blen h ->
  ptr < Z.of_nat fuel -> found <= hi ->
  (forall j off, found < Z.of_nat j + 1 <= hi ->
                 decode_offset advance j 0 (blen h) = Some off ->
                 ~ occ h n off) ->
  (forall o, aligned o -> next < o <= ptr -> ~ occ h n o) ->
  (exists r,
     rinstr_text_scan fuel unit retreat h n skips (blen n)
       ptr ptr found next = Ret r /\
     last_position h n advance hi r) \/
  (forall fuel',
     rinstr_text_scan fuel' unit retreat h n skips (blen n)
       ptr ptr found next = Timeout).
Proof.
  intros Hback.
  induction fuel as [|fuel IH];
    intros ptr found next Hc Hfit Hfuel Hhi Hinv Hskip;
    [destruct Hc as [? _]; lia|].
  pose proof Hc as [Hptr [Hfound Hdec]].
  assert (aligned ptr) as Hal.
  { apply (boundary_before ptr found (Z.to_nat (found - 1)) ptr Hc Hdec). lia. }
  destruct (ptr <=? next) eqn:Enext.
  - destruct (memcmp_occ h n ptr) as [[Hcmp Hocc]|[Hcmp Hnocc]]; try lia.
    + left. exists found. cbn [rinstr_text_scan]. unfold rinstr_window.
      rewrite Enext, Hcmp. split; [reflexivity|]. right. right.
      split; [lia|]. exists ptr. auto.
    + destruct (peek_some h ptr) as [c Hpeek]; [lia|].
      pose proof (Hbound c) as Hb.
      assert (forall o, aligned o -> ptr - skips c < o <= ptr ->
                        ~ occ h n o) as Hzone.
      { intros o Ho Hr.
        destruct (Z.eq_dec o ptr) as [->|Hne]; [exact Hnocc|].
        apply (Hsafe ptr o c); try assumption. lia. }
      destruct (ptr <? skips c) eqn:Eend.
      * left. exists 0. cbn [rinstr_text_scan]. unfold rinstr_window.
        rewrite Enext, Hcmp, Hpeek. cbn zeta. rewrite Eend.
        split; [reflexivity|]. apply Z.ltb_lt in Eend.
        apply (none_before ptr found (ptr - skips c) Hc Hinv Hzone). lia.
      * destruct (scan_back_step ptr found (ptr - skips c)
                    (fun f p s fd =>
                       rinstr_text_scan f unit retreat h n skips
                         (blen n) p s fd (ptr - skips c))
                    fuel Hback Hc Hhi Hinv Hzone ltac:(lia))
          as [[r [Hr Hlast]]|Hnever].
        -- intros cp Hpos Hret fuel' found'.
           exact (rinstr_text_scan_stuck unit retreat h n skips (blen n)
                    ptr ptr (ptr - skips c) cp ltac:(lia) Hpos Hret
                    fuel' found').
        -- intros ptr' found' Hc' Hlt Hhi' Hinv' Hskip'.
           apply IH; try assumption; lia.
        -- left. exists r. cbn [rinstr_text_scan]. unfold rinstr_window.
           rewrite Enext, Hcmp, Hpeek. cbn zeta. rewrite Eend, Hunit.
           split; [exact Hr|exact Hlast].
        -- right. intros [|fuel']; [reflexivity|].
           cbn [rinstr_text_scan]. unfold rinstr_window.
           rewrite Enext, Hcmp, Hpeek. cbn zeta. rewrite Eend, Hunit.
           apply Hnever.
  - pose proof Enext as Enext'. apply Z.leb_gt in Enext'.
    destruct (scan_back_step ptr found next
                (fun f p s fd =>
                   rinstr_text_scan f unit retreat h n skips
                     (blen n) p s fd next)
                fuel Hback Hc Hhi Hinv Hskip Enext')
      as [[r [Hr Hlast]]|Hnever].
    + intros cp Hpos Hret fuel' found'.
      exact (rinstr_text_scan_stuck unit retreat h n skips (blen n)
               ptr ptr next cp Enext' Hpos Hret fuel' found').
    + intros ptr' found' Hc' Hlt Hhi' Hinv' Hskip'.
      apply IH; try assumption; lia.
    + left. exists r. cbn [rinstr_text_scan]. unfold rinstr_window.
      rewrite Enext. split; [exact Hr|exact Hlast].
    + right. intros [|fuel']; [reflexivity|].
      cbn [rinstr_text_scan]. unfold rinstr_window.
      rewrite Enext. apply Hnever.
Qed.

Lemma rinstr_text_scan_returns (fuel : nat) :
  undoes h advance retreat ->
  forall ptr found next,
  counted h advance ptr found -> ptr + blen n <= blen h ->
  ptr < Z.of_nat fuel ->
  exists r,
    rinstr_text_scan fuel unit retreat h n skips (blen n)
      ptr ptr found next = Ret r.
Proof.
  intros Hback.
  induction fuel as [|fuel IH]; intros ptr found next Hc Hfit Hfuel;
    [destruct Hc as [? _]; lia|].
  cbn [rinstr_text_scan].
  pose proof Hc as [Hptr [Hfound Hdec]].
  assert (forall next',
            exists r,
              (if ptr <=? 0 then Ret 0
               else
                 match retreat ptr ptr with
                 | Some (ptr', stacksize', _) =>
                     rinstr_text_scan fuel unit retreat h n skips (blen n)
                       ptr' stacksize' (int64_wrap (found - 1)) next'
                 | None => Fault
                 end) = Ret r) as Hstep.
  { intros next'. destruct (ptr <=? 0) eqn:E0; [eauto|].
    apply Z.leb_gt in E0.
    destruct (Hback ptr found Hc E0) as [ptr' [cp [Hret [Hlt Hc']]]].
    rewrite Hret.
    rewrite int64_wrap_small by lia. apply IH; try assumption; lia. }
  unfold rinstr_window.
  destruct (ptr <=? next); [|apply Hstep].
  destruct (memcmp_occ h n ptr) as [[-> _]|[-> _]]; try lia; [eauto|].
  destruct (peek_some h ptr) as [c ->]; [lia|].
  destruct (ptr <? skips c); [eauto|]. apply Hstep.
Qed.

End Scan.

Section Scan1.

Variable n : buffer.
Variable hi : Z.
Hypothesis Hn : 1 <= blen n.
Variable read : Z -> option Z.
Variable first : Z.
Hypothesis Hread :
  forall p, aligned p -> 0 <= p -> p + blen n <= blen h ->
            exists c, read p = Some c /\ (c = first <-> occ h n p).

Lemma rinstr_text_scan1_last (fuel : nat) :
  undoes_or_stays h advance retreat ->
  forall ptr found,
  counted h advance ptr found -> ptr + blen n <= blen h ->
  ptr < Z.of_nat fuel -> found <= hi ->
  (forall j off, found < Z.of_nat j + 1 <= hi ->
                 decode_offset advance j 0 (blen h) = Some off ->
                 ~ occ h n off) ->
  (exists r,
     rinstr_text_scan1 fuel read retreat first ptr ptr found = Ret r /\
     last_position h n advance hi r) \/
  (forall fuel',
     rinstr_text_scan1 fuel' read retreat first ptr ptr found = Timeout).
Proof.
  intros Hback.
  induction fuel as [|fuel IH]; intros ptr found Hc Hfit Hfuel Hhi Hinv;
    [destruct Hc as [? _]; lia|].
  pose proof Hc as [Hptr [Hfound Hdec]].
  assert (aligned ptr) as Hal.
  { apply (boundary_before ptr found (Z.to_nat (found - 1)) ptr Hc Hdec). lia. }
  destruct (Hread ptr Hal ltac:(lia) Hfit) as [c [Hc' Hiff]].
  destruct (c =? first) eqn:Ec.
  - left. exists found. cbn [rinstr_text_scan1]. rewrite Hc', Ec.
    split; [reflexivity|]. apply Z.eqb_eq in Ec. right. right.
    split; [lia|]. exists ptr.
    split; [exact Hdec|]. split; [apply Hiff; exact Ec|exact Hinv].
  - pose proof Ec as Ec'. apply Z.eqb_neq in Ec'.
    destruct (scan_back_step n hi ptr found (ptr - 1)
                (fun f p s fd => rinstr_text_scan1 f read retreat first p s fd)
                fuel Hback Hc Hhi Hinv)
      as [[r [Hr Hlast]]|Hnever].
    + intros o Ho Hr. assert (o = ptr) as -> by lia.
      intros Hocc. apply Ec'. apply Hiff. exact Hocc.
    + lia.
    + intros cp Hpos Hret fuel' found'.
      exact (rinstr_text_scan1_stuck read retreat first ptr ptr c cp
               Hc' Ec Hpos Hret fuel' found').
    + intros ptr' found' Hc'' Hlt Hhi' Hinv' _.
      apply IH; try assumption; lia.
    + left. exists r. cbn [rinstr_text_scan1]. rewrite Hc', Ec.
      split; [exact Hr|exact Hlast].
    + right. intros [|fuel']; [reflexivity|].
      cbn [rinstr_text_scan1]. rewrite Hc', Ec. apply Hnever.
Qed.

Lemma rinstr_text_scan1_returns (fuel : nat) :
  undoes h advance retreat ->
  forall ptr found,
  counted h advance ptr found -> ptr + blen n <= blen h ->
  ptr < Z.of_nat fuel ->
  exists r,
    rinstr_text_scan1 fuel read retreat first ptr ptr found = Ret r.
Proof.
  intros Hback.
  induction fuel as [|fuel IH]; intros ptr found Hc Hfit Hfuel;
    [destruct Hc as [? _]; lia|].
  cbn [rinstr_text_scan1].
  pose proof Hc as [Hptr [Hfound Hdec]].
  assert (aligned ptr) as Hal.
  { apply (boundary_before ptr found (Z.to_nat (found - 1)) ptr Hc Hdec). lia. }
  destruct (Hread ptr Hal ltac:(lia) Hfit) as [c [-> _]].
  destruct (c =? first); [eauto|].
  destruct (ptr <=? 0) eqn:E0; [eauto|].
  apply Z.leb_gt in E0.
  destruct (Hback ptr found Hc E0) as [ptr' [cp [Hret [Hlt Hc']]]].
    rewrite Hret.
  rewrite int64_wrap_small by lia. apply IH; try assumption; lia.
Qed.

End Scan1.

End BackwardLast.

(** More fuel does not change where the start loop of the backward
    engines hands over. *)
Lemma rinstr_seek_stable (advance : Z -> Z -> option cursor)
  (needlesize start : Z) (fuel : nat) :
  forall fuel' ptr size found x,
  rinstr_seek fuel advance needlesize start ptr size found = inr x ->
  rinstr_seek fuel' advance needlesize start ptr size found = inl Timeout \/
  rinstr_seek fuel' advance needlesize start ptr size found = inr x.
Proof.
  induction fuel as [|fuel IH]; intros fuel' ptr size found x;
    cbn [rinstr_seek]; [discriminate|].
  destruct fuel' as [|fuel']; [left; reflexivity|].
  cbn [rinstr_seek].
  destruct ((found <? start) && (needlesize <? size)); [|auto].
  destruct (advance ptr size) as [[[ptr' size'] cp]|]; [|discriminate].
  destruct (cp =? -1); [discriminate|].
  destruct (size' <? needlesize); [auto|].
  apply IH.
Qed.

Lemma backward_table_safe (h n : buffer) (skips : bmh_skips) (p o : Z)
  (c : byte) :
  backward_table n skips ->
  peek h p = Some c ->
  p - skips c < o < p -> ~ occ h n o.
Proof.
  intros [Hb Hj] Hpeek Hr [H0 [Hfit Ho]].
  pose proof (Hb c) as Hbc.
  specialize (Ho (p - o) ltac:(lia)).
  replace (o + (p - o)) with p in Ho by lia.
  rewrite Hpeek in Ho. symmetry in Ho.
  pose proof (Hj (p - o) c ltac:(lia) Ho). lia.
Qed.

Lemma UTF8_RETREAT_defined (buf : buffer) (ptr size : Z) :
  0 <= size <= ptr -> ptr <= blen buf ->
  exists cur, UTF8_RETREAT buf ptr size = Some cur.
Proof.
  intros Hs Hp.
  unfold UTF8_RETREAT. unfold_cursor.
  destruct (peek8 buf (ptr - 1)) as [c1|] eqn:P1;
  destruct (peek8 buf (ptr - 2)) as [c2|] eqn:P2;
  destruct (peek8 buf (ptr - 3)) as [c3|] eqn:P3;
  destruct (peek8 buf (ptr - 4)) as [c4|] eqn:P4; cbn [option_map];
  repeat break_if; eauto; bool_to_prop;
  repeat match goal with H : peek8 _ _ = None |- _ => apply peek8_none in H end;
  lia.
Qed.

Lemma utf8_undoes_or_stays (h : buffer) :
  blen h < 2 ^ 31 ->
  undoes_or_stays h (UTF8_ADVANCE h) (UTF8_RETREAT h).
Proof.
  intros Hh ptr found Hc Hpos.
  pose proof Hc as [Hptr _].
  destruct (UTF8_RETREAT_defined h ptr ptr ltac:(lia) ltac:(lia))
    as [[[ptr' size'] cp] Hret].
  exists ptr', size', cp. split; [exact Hret|].
  exact (counted_retreat h Hh ptr found ptr' size' cp Hc Hpos Hret).
Qed.

(** What [rinstr_utf8] does with enough fuel: an answer, or no answer
    with any fuel, and then the backward cursor does not undo every
    forward step of the haystack. *)
Lemma rinstr_utf8_engine (fuel : nat) (h n : buffer) (start : Z) :
  blen h <= INT_MAX -> (length h < fuel)%nat ->
  (exists r,
     rinstr_utf8 fuel h (blen h) n (blen n) start = Ret r /\
     last_position h n (UTF8_ADVANCE h) start r) \/
  ((forall fuel', rinstr_utf8 fuel' h (blen h) n (blen n) start = Timeout) /\
   ~ undoes h (UTF8_ADVANCE h) (UTF8_RETREAT h)).
Proof.
  intros Hh Hfuel. unfold INT_MAX in Hh. assert (blen h < 2 ^ 31) as Hh31 by lia.
  pose proof (UTF8_ADVANCE_forward_cursor h) as Hcur.
  pose proof (utf8_undoes_or_stays h Hh31) as Hback.
  pose proof (blen_nonneg h) as Hh0. pose proof (blen_nonneg n) as Hn0.
  assert (blen h < Z.of_nat fuel) as Hfuel' by (unfold blen; lia).
  set (aligned := fun _ : Z => True).
  assert (forall ptr size ptr' size' cp,
            aligned ptr -> UTF8_ADVANCE h ptr size = Some (ptr', size', cp) ->
            aligned ptr') as Hal by (intros; exact I).
  unfold rinstr_utf8.
  destruct (start <=? 0) eqn:Es.
  { apply Z.leb_le in Es. left. exists 0. split; [reflexivity|].
    right. left. split; [reflexivity|]. intros j off Hj. lia. }
  apply Z.leb_gt in Es.
  destruct (blen h <? blen n) eqn:Efit.
  { apply Z.ltb_lt in Efit. left. exists 0. split; [reflexivity|].
    right. left. split; [reflexivity|].
    intros j off _ _ [Ho [Hfit' _]]. lia. }
  apply Z.ltb_ge in Efit.
  destruct (rinstr_seek_last h _ Hcur Hh31 aligned I Hal (blen n) start fuel
              ltac:(lia) 0 1 (counted_start h _)
              ltac:(lia) ltac:(lia) ltac:(lia))
    as [[Hr Hrej]|[ptr [size [found [Hr [Hc [Hroom [Hhi Hafter]]]]]]]];
    rewrite Z.sub_0_r in Hr.
  { left. rewrite Hr. exists (-1). split; [reflexivity|].
    left. split; [reflexivity|exact Hrej]. }
  pose proof Hc as [Hptr [Hfound Hdec]].
  assert (forall j off, found < Z.of_nat j + 1 <= start ->
            decode_offset (UTF8_ADVANCE h) j 0 (blen h) = Some off ->
            ~ occ h n off) as Hinv.
  { intros j off Hj Hoff [_ [Hfit' _]].
    pose proof (Hafter j off Hj Hoff). lia. }
  destruct (blen n <=? 0) eqn:E0.
  { left. rewrite Hr. apply Z.leb_le in E0. exists found.
    split; [reflexivity|].
    right. right. split; [lia|]. exists ptr.
    split; [exact Hdec|]. split; [|exact Hinv].
    split; [lia|]. split; [lia|]. intros k Hk. lia. }
  pose proof E0 as E0'. apply Z.leb_gt in E0'.
  rewrite Hr. cbv beta iota zeta.
  rewrite vsize_wrap_small by lia.
  destruct (1 <? blen n) eqn:E1.
  - pose proof E1 as E1'. apply Z.ltb_lt in E1'.
    destruct (rbmh_setup_spec n) as [skips [Hsetup Htable]]; [lia|].
    rewrite Hsetup.
    assert (forall c, 1 * (skips c / 1) = skips c) as Hunit
      by (intros c; rewrite Z.div_1_r; lia).
    destruct (rinstr_text_scan_last h _ (UTF8_RETREAT h) Hcur Hh31 aligned
                I Hal n start ltac:(lia) 1 skips (proj1 Htable) Hunit
                ltac:(intros p o c _ _; apply backward_table_safe;
                      exact Htable)
                fuel Hback ptr found ptr Hc ltac:(lia) ltac:(lia) Hhi Hinv
                ltac:(intros o _ Ho; lia))
      as [Hans|Hnever]; [left; exact Hans|].
    right. split.
    + intros fuel'.
      destruct (rinstr_seek_stable _ _ _ fuel fuel' _ _ _ _ Hr) as [->| ->];
        [reflexivity|].
      cbv beta iota zeta. rewrite vsize_wrap_small by lia. apply Hnever.
    + intros Hundo.
      destruct (rinstr_text_scan_returns h _ (UTF8_RETREAT h) Hh31 n
                  ltac:(lia) 1 skips
                  fuel Hundo ptr found ptr Hc ltac:(lia) ltac:(lia))
        as [r Hret].
      rewrite Hnever in Hret. discriminate.
  - pose proof E1 as E1'. apply Z.ltb_ge in E1'.
    destruct (peek_some n 0) as [first Hfirst]; [lia|].
    rewrite (peek8_byte _ _ _ Hfirst).
    assert (forall p, aligned p -> 0 <= p -> p + blen n <= blen h ->
              exists c, peek8 h p = Some c /\
                        (c = byte_val first <-> occ h n p)) as Hread.
    { intros p _ Hp0 Hp. destruct (peek_some h p ltac:(lia)) as [c Hc'].
      exists (byte_val c). split; [apply peek8_byte; exact Hc'|].
      rewrite (occ_single h n first p ltac:(lia) Hfirst). rewrite Hc'.
      split.
      - intros E. apply byte_val_inj in E. congruence.
      - intros E. congruence. }
    destruct (rinstr_text_scan1_last h _ (UTF8_RETREAT h) Hcur Hh31 aligned
                I Hal n start (peek8 h) (byte_val first) Hread
                fuel Hback ptr found Hc ltac:(lia) ltac:(lia) Hhi Hinv)
      as [Hans|Hnever]; [left; exact Hans|].
    right. split.
    + intros fuel'.
      destruct (rinstr_seek_stable _ _ _ fuel fuel' _ _ _ _ Hr) as [->| ->];
        [reflexivity|].
      cbv beta iota zeta. rewrite vsize_wrap_small by lia. apply Hnever.
    + intros Hundo.
      destruct (rinstr_text_scan1_returns h _ (UTF8_RETREAT h) Hcur Hh31
                  aligned I Hal n ltac:(lia) (peek8 h) (byte_val first) Hread
                  fuel Hundo ptr found Hc ltac:(lia) ltac:(lia))
        as [r Hret].
      rewrite Hnever in Hret. discriminate.
Qed.

(** [rinstr_utf8] never reads outside its buffers.  With fuel for one turn
    per byte it answers, and then with the last codepoint position at or
    before [start] where the needle's bytes begin, with [0] when there is
    none, or with [-1] and a rejected sequence in the haystack; or else it
    gives no answer whatever the fuel. *)
Theorem rinstr_utf8_last_position_or_never (fuel : nat) (h n : buffer)
  (start : Z) :
  blen h <= INT_MAX -> (length h < fuel)%nat ->
  (exists r,
     rinstr_utf8 fuel h (blen h) n (blen n) start = Ret r /\
     last_position h n (UTF8_ADVANCE h) start r) \/
  (forall fuel', rinstr_utf8 fuel' h (blen h) n (blen n) start = Timeout).
Proof.
  intros Hh Hfuel.
  destruct (rinstr_utf8_engine fuel h n start Hh Hfuel) as [H|[H _]];
    [left|right]; exact H.
Qed.

Lemma rinstr_utf8_last_position_or_never_witness :
  blen abcabcabc <= INT_MAX /\ (length abcabcabc < 10)%nat /\
  ((exists r,
      rinstr_utf8 10 abcabcabc (blen abcabcabc) bca (blen bca) 5 = Ret r /\
      last_position abcabcabc bca (UTF8_ADVANCE abcabcabc) 5 r) \/
   (forall fuel',
      rinstr_utf8 fuel' abcabcabc (blen abcabcabc) bca (blen bca) 5
      = Timeout)).
Proof.
  assert (blen abcabcabc <= INT_MAX) as H1 by (vm_compute; discriminate).
  assert (length abcabcabc < 10)%nat as H2 by (vm_compute; lia).
  split; [exact H1|]. split; [exact H2|].
  exact (rinstr_utf8_last_position_or_never 10 abcabcabc bca 5 H1 H2).
Defined.

(** In a haystack without bytes from 0xE0 up the backward UTF-8 cursor
    undoes every forward step. *)
Lemma utf8_short_undoes (h : buffer) :
  blen h < 2 ^ 31 ->
  (forall i c, peek8 h i = Some c -> c < 0xE0) ->
  undoes h (UTF8_ADVANCE h) (UTF8_RETREAT h).
Proof.
  intros Hh Hshort ptr found Hc Hpos.
  assert (blen h < 2 ^ 32) as Hh32 by lia.
  pose proof (UTF8_ADVANCE_forward_cursor h) as Hcur.
  pose proof Hc as [Hptr [Hfound Hdec]].
  assert (2 <= found) as Hf2.
  { destruct (Z.eq_dec found 1) as [->|]; [|lia].
    cbn in Hdec. injection Hdec as <-. lia. }
  assert (decode_offset (UTF8_ADVANCE h) (S (Z.to_nat (found - 2))) 0
            (blen h - 0) = Some ptr) as Hdec'.
  { rewrite Z.sub_0_r.
    replace (S (Z.to_nat (found - 2))) with (Z.to_nat (found - 1)) by lia.
    exact Hdec. }
  destruct (decode_offset_last h _ Hcur Hh32 _ 0 ptr ltac:(lia) Hdec')
    as [q [k [cp [Hq [Hq0 [Hk [Hptrq [Hfit [Hcp Hadv]]]]]]]]].
  rewrite Z.sub_0_r in Hq.
  pose proof (decode_offset_bound h _ Hcur Hh32 _ 0 q ltac:(lia)
                ltac:(rewrite Z.sub_0_r; exact Hq)) as Hqb.
  assert (k <= 2) as Hk2.
  { destruct (UTF8_ADVANCE_cases _ _ _ _ _ _ Hadv ltac:(lia))
      as [C|[C|[C|C]]]; break_ex; try lia.
    - match goal with H : peek8 h q = Some ?c |- _ =>
        pose proof (Hshort q c H) end. lia.
    - match goal with H : peek8 h q = Some ?c |- _ =>
        pose proof (Hshort q c H) end. lia. }
  exists q, cp. split; [|split; [lia|]].
  - rewrite (UTF8_RETREAT_mirrors_short h q (blen h - q) ptr
               (blen h - (q + k)) cp ptr); try lia.
    + rewrite vsize_wrap_small by lia. repeat f_equal; lia.
    + subst ptr. exact Hadv.
  - split; [lia|]. split; [lia|].
    replace (Z.to_nat (found - 1 - 1)) with (Z.to_nat (found - 2)) by lia.
    exact Hq.
Qed.

(** On a haystack without bytes from 0xE0 up, so with codepoints below
    U+0800 only, [rinstr_utf8] does come back: with the last codepoint
    position at or before [start] where the needle's bytes begin, with [0]
    when there is none, or with [-1] and a rejected sequence in the
    haystack. *)
Theorem rinstr_utf8_last_position_short (fuel : nat) (h n : buffer)
  (start : Z) :
  blen h <= INT_MAX -> (length h < fuel)%nat ->
  (forall i c, peek8 h i = Some c -> c < 0xE0) ->
  exists r,
    rinstr_utf8 fuel h (blen h) n (blen n) start = Ret r /\
    last_position h n (UTF8_ADVANCE h) start r.
Proof.
  intros Hh Hfuel Hshort.
  destruct (rinstr_utf8_engine fuel h n start Hh Hfuel) as [H|[_ H]];
    [exact H|].
  exfalso. apply H. apply utf8_short_undoes; [|exact Hshort].
  unfold INT_MAX in Hh. lia.
Qed.

Lemma peek8_forallb (buf : buffer) (bound : Z) :
  forallb (fun b => byte_val b <? bound) buf = true ->
  forall i c, peek8 buf i = Some c -> c < bound.
Proof.
  intros Hall i c Hp. apply peek8_inv in Hp. destruct Hp as [b [Hb ->]].
  unfold peek in Hb. destruct (i <? 0); [discriminate|].
  apply nth_error_In in Hb.
  rewrite forallb_forall in Hall. apply Z.ltb_lt. apply Hall. exact Hb.
Qed.

Lemma rinstr_utf8_last_position_short_witness :
  blen abcabcabc <= INT_MAX /\ (length abcabcabc < 10)%nat /\
  (forall i c, peek8 abcabcabc i = Some c -> c < 0xE0) /\
  exists r,
    rinstr_utf8 10 abcabcabc (blen abcabcabc) bca (blen bca) 5 = Ret r /\
    last_position abcabcabc bca (UTF8_ADVANCE abcabcabc) 5 r.
Proof.
  assert (blen abcabcabc <= INT_MAX) as H1 by (vm_compute; discriminate).
  assert (length abcabcabc < 10)%nat as H2 by (vm_compute; lia).
  assert (forall i c, peek8 abcabcabc i = Some c -> c < 0xE0) as H3
    by (apply peek8_forallb; vm_compute; reflexivity).
  split; [exact H1|]. split; [exact H2|]. split; [exact H3|].
  exact (rinstr_utf8_last_position_short 10 abcabcabc bca 5 H1 H2 H3).
Defined.

Lemma undoes_undoes_or_stays (h : buffer)
  (advance retreat : Z -> Z -> option cursor) :
  undoes h advance retreat -> undoes_or_stays h advance retreat.
Proof.
  intros Hundo ptr found Hc Hpos.
  destruct (Hundo ptr found Hc Hpos) as [ptr' [cp [Hret [Hlt Hc']]]].
  exists ptr', ptr', cp. split; [exact Hret|]. right. auto.
Qed.

(** The backward table of the UTF-16 engine: every entry is even, and a
    byte of the needle after its first has an entry of at most one more
    than its index. *)
Lemma rbmh_setup_masked_table (needle : buffer) :
  2 <= blen needle < 2 ^ 31 -> Z.even (blen needle) = true ->
  exists skips,
    rbmh_setup needle (blen needle) 1 = Some skips /\
    (forall c, 1 <= skips c <= blen needle) /\
    (forall c, Z.even (skips c) = true) /\
    (forall j c, 1 <= j <= blen needle - 1 -> peek needle j = Some c ->
                 skips c <= j + 1).
Proof.
  intros Hn Heven. unfold rbmh_setup.
  rewrite vsize_wrap_small by lia.
  destruct (rbmh_fill_spec needle (blen needle)
              (Z.to_nat (blen needle - 1)) (fun _ => blen needle))
    as [t [Ht [Hb Hj]]]; try lia.
  rewrite Ht. cbn [option_map]. eexists. split; [reflexivity|].
  split; [|split].
  - intros c.
    pose proof (skips_mask_even_bound t (blen needle) c Heven ltac:(lia)
                  ltac:(specialize (Hb c); lia)) as H.
    specialize (Hb c). lia.
  - intros c. apply skips_mask_even. specialize (Hb c). lia.
  - intros j c Hjr Hp.
    pose proof (Hj j c ltac:(lia) Hp).
    pose proof (skips_mask_even t c ltac:(specialize (Hb c); lia)) as [_ H1].
    lia.
Qed.

Lemma masked_backward_table_safe (h n : buffer) (skips : bmh_skips) (p o : Z)
  (c : byte) :
  (forall c, 1 <= skips c <= blen n) ->
  (forall c, Z.even (skips c) = true) ->
  (forall j c, 1 <= j <= blen n - 1 -> peek n j = Some c ->
               skips c <= j + 1) ->
  Z.even p = true -> Z.even o = true ->
  peek h p = Some c ->
  p - skips c < o < p -> ~ occ h n o.
Proof.
  intros Hb He Hj Hp Ho Hpeek Hr [H0 [Hfit Hocc]].
  pose proof (Hb c) as Hbc.
  specialize (Hocc (p - o) ltac:(lia)).
  replace (o + (p - o)) with p in Hocc by lia.
  rewrite Hpeek in Hocc. symmetry in Hocc.
  pose proof (Hj (p - o) c ltac:(lia) Hocc) as Hle.
  assert (skips c = p - o + 1) as E by lia.
  specialize (He c). rewrite E in He.
  rewrite Z.even_add, Z.even_sub, Hp, Ho in He. discriminate.
Qed.

Lemma UTF16_ADVANCE_even (be : bool) (h : buffer)
  (ptr size ptr' size' cp : Z) :
  Z.even ptr = true ->
  UTF16_ADVANCE be h ptr size = Some (ptr', size', cp) ->
  Z.even ptr' = true.
Proof.
  intros He Hadv.
  destruct (UTF16_ADVANCE_steps _ _ _ _ _ _ _ Hadv)
    as [[-> _]|[k [[->| ->] [_ [-> _]]]]]; [exact He| |];
    rewrite Z.even_add, He; reflexivity.
Qed.

(** In a haystack without surrogates the backward UTF-16 cursor undoes
    every forward step. *)
Lemma utf16_bmp_undoes (be : bool) (h : buffer) :
  blen h < 2 ^ 31 ->
  (forall i c, Z.even i = true -> peek16 be h i = Some c ->
               c < 0xD800 \/ 0xE000 <= c) ->
  undoes h (UTF16_ADVANCE be h) (UTF16_RETREAT be h).
Proof.
  intros Hh Hbmp ptr found Hc Hpos.
  assert (blen h < 2 ^ 32) as Hh32 by lia.
  pose proof (UTF16_ADVANCE_forward_cursor be h) as Hcur.
  pose proof Hc as [Hptr [Hfound Hdec]].
  assert (2 <= found) as Hf2.
  { destruct (Z.eq_dec found 1) as [->|]; [|lia].
    cbn in Hdec. injection Hdec as <-. lia. }
  assert (decode_offset (UTF16_ADVANCE be h) (S (Z.to_nat (found - 2))) 0
            (blen h - 0) = Some ptr) as Hdec'.
  { rewrite Z.sub_0_r.
    replace (S (Z.to_nat (found - 2))) with (Z.to_nat (found - 1)) by lia.
    exact Hdec. }
  destruct (decode_offset_last h _ Hcur Hh32 _ 0 ptr ltac:(lia) Hdec')
    as [q [k [cp [Hq [Hq0 [Hk [Hptrq [Hfit [Hcp Hadv]]]]]]]]].
  assert (Z.even q = true) as Hqe.
  { apply (decode_offset_aligned h _ Hcur Hh (fun p => Z.even p = true)
             (UTF16_ADVANCE_even be h) (Z.to_nat (found - 2)) 0 q);
      [lia|reflexivity|exact Hq]. }
  rewrite Z.sub_0_r in Hq.
  pose proof (decode_offset_bound h _ Hcur Hh32 _ 0 q ltac:(lia)
                ltac:(rewrite Z.sub_0_r; exact Hq)) as Hqb.
  destruct (UTF16_ADVANCE_cases _ _ _ _ _ _ _ Hadv ltac:(lia))
    as [[Hk2 [_ [Hpeek Hr]]]|[_ [_ [c0 [c1 [P0 [_ [R0 _]]]]]]]].
  2:{ exfalso. destruct (Hbmp q c0 Hqe P0); lia. }
  assert (k = 2) as -> by lia.
  exists q, cp. split; [|split; [lia|]].
  - rewrite (UTF16_RETREAT_one be h ptr ptr cp); try assumption; try lia.
    + rewrite vsize_wrap_small by lia. repeat f_equal; lia.
    + replace (ptr - 2) with q by lia. exact Hpeek.
  - split; [lia|]. split; [lia|].
    replace (Z.to_nat (found - 1 - 1)) with (Z.to_nat (found - 2)) by lia.
    exact Hq.
Qed.

(** On a haystack of whole 16-bit units without surrogates, so with
    codepoints of the basic plane only, [rinstr_utf16] does come back: with
    the last codepoint position at or before [start] where the needle's
    bytes begin, with [0] when there is none, or with [-1] and a rejected
    sequence in the haystack. *)
Theorem rinstr_utf16_last_position_bmp (big_endian : bool) (fuel : nat)
  (h n : buffer) (start : Z) :
  blen h <= INT_MAX -> (length h < fuel)%nat ->
  Z.even (blen h) = true -> Z.even (blen n) = true ->
  (forall i c, Z.even i = true -> peek16 big_endian h i = Some c ->
               c < 0xD800 \/ 0xE000 <= c) ->
  exists r,
    rinstr_utf16 big_endian fuel h (blen h) n (blen n) start = Ret r /\
    last_position h n (UTF16_ADVANCE big_endian h) start r.
Proof.
  intros Hh Hfuel Heven Hneven Hbmp.
  unfold INT_MAX in Hh. assert (blen h < 2 ^ 31) as Hh31 by lia.
  pose proof (UTF16_ADVANCE_forward_cursor big_endian h) as Hcur.
  pose proof (utf16_bmp_undoes big_endian h Hh31 Hbmp) as Hundo.
  pose proof (undoes_undoes_or_stays _ _ _ Hundo) as Hback.
  pose proof (blen_nonneg h) as Hh0. pose proof (blen_nonneg n) as Hn0.
  assert (blen h < Z.of_nat fuel) as Hfuel' by (unfold blen; lia).
  set (aligned := fun p : Z => Z.even p = true).
  assert (aligned 0) as Hal0 by reflexivity.
  pose proof (UTF16_ADVANCE_even big_endian h) as Hal.
  unfold rinstr_utf16.
  destruct (start <=? 0) eqn:Es.
  { apply Z.leb_le in Es. exists 0. split; [reflexivity|].
    right. left. split; [reflexivity|]. intros j off Hj. lia. }
  apply Z.leb_gt in Es.
  destruct (blen h <? blen n) eqn:Efit.
  { apply Z.ltb_lt in Efit. exists 0. split; [reflexivity|].
    right. left. split; [reflexivity|].
    intros j off _ _ [Ho [Hfit' _]]. lia. }
  apply Z.ltb_ge in Efit.
  destruct (rinstr_seek_last h _ Hcur Hh31 aligned Hal0 Hal (blen n) start
              fuel ltac:(lia) 0 1 (counted_start h _)
              ltac:(lia) ltac:(lia) ltac:(lia))
    as [[Hr Hrej]|[ptr [size [found [Hr [Hc [Hroom [Hhi Hafter]]]]]]]];
    rewrite Z.sub_0_r in Hr; rewrite Hr.
  { exists (-1). split; [reflexivity|].
    left. split; [reflexivity|exact Hrej]. }
  pose proof Hc as [Hptr [Hfound Hdec]].
  assert (aligned ptr) as Hpe.
  { apply (boundary_before h _ Hcur Hh31 aligned Hal0 Hal ptr found
             (Z.to_nat (found - 1)) ptr Hc Hdec). lia. }
  assert (forall j off, found < Z.of_nat j + 1 <= start ->
            decode_offset (UTF16_ADVANCE big_endian h) j 0 (blen h)
            = Some off ->
            ~ occ h n off) as Hinv.
  { intros j off Hj Hoff [_ [Hfit' _]].
    pose proof (Hafter j off Hj Hoff). lia. }
  destruct (blen n <=? 0) eqn:E0.
  { apply Z.leb_le in E0. exists found. split; [reflexivity|].
    right. right. split; [lia|]. exists ptr.
    split; [exact Hdec|]. split; [|exact Hinv].
    split; [lia|]. split; [lia|]. intros k Hk. lia. }
  apply Z.leb_gt in E0.
  pose proof (even_gap 0 (blen n) eq_refl Hneven E0) as Hn2.
  assert (ptr / 2 * 2 = ptr) as Hhalf.
  { pose proof (Z.div_mod ptr 2 ltac:(lia)) as D.
    unfold aligned in Hpe. rewrite Zmod_even, Hpe in D. lia. }
  cbv zeta. rewrite Hhalf. rewrite vsize_wrap_small by lia.
  destruct (2 <? blen n) eqn:E1.
  - apply Z.ltb_lt in E1.
    destruct (rbmh_setup_masked_table n) as [skips [-> [Hb [He Hj]]]];
      [lia|exact Hneven|].
    assert (forall c, 2 * (skips c / 2) = skips c) as Hunit.
    { intros c. specialize (He c).
      pose proof (Z.div_mod (skips c) 2 ltac:(lia)) as D.
      rewrite Zmod_even, He in D. lia. }
    destruct (rinstr_text_scan_last h _ (UTF16_RETREAT big_endian h) Hcur
                Hh31 aligned Hal0 Hal n start ltac:(lia) 2 skips Hb Hunit
                ltac:(intros p o c; apply masked_backward_table_safe;
                      assumption)
                fuel Hback ptr found ptr Hc ltac:(lia) ltac:(lia) Hhi Hinv
                ltac:(intros o _ Ho; lia))
      as [Hans|Hnever]; [exact Hans|].
    destruct (rinstr_text_scan_returns h _ (UTF16_RETREAT big_endian h)
                Hh31 n ltac:(lia) 2 skips
                fuel Hundo ptr found ptr Hc ltac:(lia) ltac:(lia))
      as [r Hret].
    rewrite Hnever in Hret. discriminate.
  - apply Z.ltb_ge in E1.
    assert (blen n = 2) as En by lia.
    destruct (peek_some n 0) as [x Hx]; [lia|].
    destruct (peek_some n 1) as [y Hy]; [lia|].
    unfold peek16 at 1. rewrite (peek8_byte _ _ _ Hx).
    change (0 + 1) with 1. rewrite (peek8_byte _ _ _ Hy).
    assert (forall p, aligned p -> 0 <= p -> p + blen n <= blen h ->
              exists c, peek16 big_endian h p = Some c /\
                        (c = unit_val big_endian (byte_val x) (byte_val y)
                         <-> occ h n p)) as Hread.
    { intros p _ Hp0 Hp.
      destruct (peek_some h p ltac:(lia)) as [a Ha].
      destruct (peek_some h (p + 1) ltac:(lia)) as [b Hb].
      unfold peek16. rewrite (peek8_byte _ _ _ Ha), (peek8_byte _ _ _ Hb).
      eexists. split; [reflexivity|]. split.
      - intros E. apply unit_val_inj in E; try apply byte_val_range.
        destruct E as [E1' E2'].
        apply byte_val_inj in E1'. apply byte_val_inj in E2'. subst a b.
        apply occ_pair; try lia; congruence.
      - intros [_ [_ Ho]].
        pose proof (Ho 0 ltac:(lia)) as O0. pose proof (Ho 1 ltac:(lia)) as O1.
        rewrite Z.add_0_r in O0. rewrite Ha, Hx in O0. rewrite Hb, Hy in O1.
        congruence. }
    destruct (rinstr_text_scan1_last h _ (UTF16_RETREAT big_endian h) Hcur
                Hh31 aligned Hal0 Hal n start (peek16 big_endian h) _ Hread
                fuel Hback ptr found Hc ltac:(lia) ltac:(lia) Hhi Hinv)
      as [Hans|Hnever]; [exact Hans|].
    destruct (rinstr_text_scan1_returns h _ (UTF16_RETREAT big_endian h)
                Hcur Hh31 aligned Hal0 Hal n ltac:(lia)
                (peek16 big_endian h) _ Hread
                fuel Hundo ptr found Hc ltac:(lia) ltac:(lia))
      as [r Hret].
    rewrite Hnever in Hret. discriminate.
Qed.

Lemma rinstr_utf16_last_position_bmp_witness :
  blen (units16 true [(x00, x57); (x00, x59); (x00, x57)]) <= INT_MAX /\
  (length (units16 true [(x00, x57); (x00, x59); (x00, x57)]) < 7)%nat /\
  Z.even (blen (units16 true [(x00, x57); (x00, x59); (x00, x57)])) = true /\
  Z.even (blen (letter_W true)) = true /\
  (forall i c,
     Z.even i = true ->
     peek16 true (units16 true [(x00, x57); (x00, x59); (x00, x57)]) i
     = Some c ->
     c < 0xD800 \/ 0xE000 <= c) /\
  exists r,
    rinstr_utf16 true 7 (units16 true [(x00, x57); (x00, x59); (x00, x57)])
      (blen (units16 true [(x00, x57); (x00, x59); (x00, x57)]))
      (letter_W true) (blen (letter_W true)) 2 = Ret r /\
    last_position (units16 true [(x00, x57); (x00, x59); (x00, x57)])
      (letter_W true)
      (UTF16_ADVANCE true
         (units16 true [(x00, x57); (x00, x59); (x00, x57)])) 2 r.
Proof.
  set (h := units16 true [(x00, x57); (x00, x59); (x00, x57)]).
  assert (blen h <= INT_MAX) as H1 by (vm_compute; discriminate).
  assert (length h < 7)%nat as H2 by (vm_compute; lia).
  assert (Z.even (blen h) = true) as H3 by reflexivity.
  assert (Z.even (blen (letter_W true)) = true) as H4 by reflexivity.
  assert (forall i c, Z.even i = true -> peek16 true h i = Some c ->
                      c < 0xD800 \/ 0xE000 <= c) as H5.
  { intros i c He Hp.
    pose proof (peek16_range _ _ _ _ Hp) as [_ [H0 Hlt]].
    change (blen h) with 6 in Hlt.
    assert (i = 0 \/ i = 1 \/ i = 2 \/ i = 3 \/ i = 4) as Hi by lia.
    destruct Hi as [-> | [-> | [-> | [-> | ->]]]];
      try discriminate He;
      vm_compute in Hp; injection Hp as <-; left; reflexivity. }
  split; [exact H1|]. split; [exact H2|]. split; [exact H3|].
  split; [exact H4|]. split; [exact H5|].
  exact (rinstr_utf16_last_position_bmp true 7 h (letter_W true) 2
           H1 H2 H3 H4 H5).
Defined.

(** ** Calls and their arguments *)

(** A call with two or more arguments one of whose first three is NULL
    sets no result, so that SQL sees NULL: whatever the other arguments
    and the registration are, and before any of them is read. *)
Theorem null_argument_gives_no_result (big_endian : bool) (fuel : nat)
  (which : user_data) (args : list sqlite3_value) (i : nat)
  (arg : sqlite3_value) :
  (2 <= length args)%nat -> (i < 3)%nat ->
  nth_error args i = Some arg -> value_type arg = SQLITE_NULL ->
  instr_func big_endian fuel which args = NoResult /\
  rinstr_func big_endian fuel which args = NoResult.
Proof.
  intros Hlen Hi Hnth Hnull.
  destruct args as [|arg0 [|arg1 rest]]; cbn in Hlen; try lia.
  unfold instr_func, rinstr_func, entry.
  destruct i as [|[|[|i]]]; try lia; cbn in Hnth.
  - injection Hnth as ->. rewrite Hnull. split; reflexivity.
  - injection Hnth as ->. rewrite Hnull.
    destruct (datatype_eqb (value_type arg0) SQLITE_NULL); split; reflexivity.
  - destruct rest as [|arg2 rest]; [discriminate|].
    cbn in Hnth. injection Hnth as ->. rewrite Hnull.
    destruct (datatype_eqb (value_type arg0) SQLITE_NULL),
             (datatype_eqb (value_type arg1) SQLITE_NULL); split; reflexivity.
Qed.

Lemma null_argument_gives_no_result_witness :
  (2 <= length [blob_arg abcabcabc; blob_arg bca; null_arg])%nat /\
  (2 < 3)%nat /\
  nth_error [blob_arg abcabcabc; blob_arg bca; null_arg] 2 = Some null_arg /\
  value_type null_arg = SQLITE_NULL /\
  instr_func true 10 other_data [blob_arg abcabcabc; blob_arg bca; null_arg]
  = NoResult /\
  rinstr_func true 10 other_data [blob_arg abcabcabc; blob_arg bca; null_arg]
  = NoResult.
Proof.
  assert (2 <= length [blob_arg abcabcabc; blob_arg bca; null_arg])%nat
    as H1 by (cbn; lia).
  assert (2 < 3)%nat as H2 by lia.
  assert (nth_error [blob_arg abcabcabc; blob_arg bca; null_arg] 2
          = Some null_arg) as H3 by reflexivity.
  assert (value_type null_arg = SQLITE_NULL) as H4 by reflexivity.
  split; [exact H1|]. split; [exact H2|]. split; [exact H3|].
  split; [exact H4|].
  exact (null_argument_gives_no_result true 10 other_data _ 2%nat null_arg
           H1 H2 H3 H4).
Defined.

Lemma datatype_eqb_eq (a b : datatype) :
  datatype_eqb a b = true <-> a = b.
Proof. destruct a, b; cbn; split; (reflexivity || discriminate). Qed.

Lemma dispatch_confused
  (blob utf8 utf16 : buffer -> Z -> buffer -> Z -> Z -> outcome)
  (which : user_data) (arg0 arg1 : sqlite3_value) (start : Z) :
  dispatch blob utf8 utf16 which arg0 arg1 start = ResultError confused <->
  ~ (value_type arg0 = SQLITE_BLOB /\ value_type arg1 = SQLITE_BLOB) /\
  which = other_data.
Proof.
  unfold dispatch.
  destruct (datatype_eqb (value_type arg0) SQLITE_BLOB
            && datatype_eqb (value_type arg1) SQLITE_BLOB) eqn:B.
  - apply andb_true_iff in B. destruct B as [E0 E1].
    apply datatype_eqb_eq in E0, E1. split.
    + intros H. exfalso. revert H.
      destruct (is_null (value_blob arg0)
                && (0 <? vsize_wrap (value_blob_bytes arg0)));
        [discriminate|].
      destruct (is_null (value_blob arg1)
                && (0 <? vsize_wrap (value_blob_bytes arg1)));
        [discriminate|].
      apply report_not_confused.
    + intros [H _]. exfalso. apply H. auto.
  - assert (~ (value_type arg0 = SQLITE_BLOB /\
               value_type arg1 = SQLITE_BLOB)) as Hnb.
    { intros [A A']. apply datatype_eqb_eq in A, A'.
      rewrite A, A' in B. discriminate. }
    destruct which.
    + split; [|intros [_ H]; discriminate H].
      intros H. exfalso. revert H.
      destruct (value_text arg0); [|discriminate].
      destruct (value_text arg1); [|discriminate].
      apply report_not_confused.
    + split; [|intros [_ H]; discriminate H].
      intros H. exfalso. revert H.
      destruct (value_text16 arg0); [|discriminate].
      destruct (value_text16 arg1); [|discriminate].
      apply report_not_confused.
    + split; [intros _; split; [exact Hnb|reflexivity]|reflexivity].
Qed.

Lemma entry_confused (default_start : Z)
  (blob utf8 utf16 : buffer -> Z -> buffer -> Z -> Z -> outcome)
  (which : user_data) (args : list sqlite3_value) :
  entry default_start blob utf8 utf16 which args = ResultError confused <->
  (length args < 2)%nat \/
  ((forall i arg, (i < 3)%nat -> nth_error args i = Some arg ->
                  value_type arg <> SQLITE_NULL) /\
   ~ (exists arg0 arg1,
        nth_error args 0 = Some arg0 /\
        nth_error args 1 = Some arg1 /\
        value_type arg0 = SQLITE_BLOB /\
        value_type arg1 = SQLITE_BLOB) /\
   which = other_data).
Proof.
  unfold entry.
  destruct args as [|arg0 [|arg1 rest]].
  - split; [intros _; left; cbn; lia|reflexivity].
  - split; [intros _; left; cbn; lia|reflexivity].
  - assert (forall start,
              dispatch blob utf8 utf16 which arg0 arg1 start
              = ResultError confused <->
              ~ (exists a0 a1,
                   nth_error (arg0 :: arg1 :: rest) 0 = Some a0 /\
                   nth_error (arg0 :: arg1 :: rest) 1 = Some a1 /\
                   value_type a0 = SQLITE_BLOB /\
                   value_type a1 = SQLITE_BLOB) /\
              which = other_data) as Hd.
    { intros start. rewrite dispatch_confused. cbn [nth_error]. split.
      - intros [Hnb Hw]. split; [|exact Hw].
        intros [a0 [a1 [E0 [E1 Hb]]]].
        injection E0 as <-. injection E1 as <-. exact (Hnb Hb).
      - intros [Hnb Hw]. split; [|exact Hw].
        intros Hb. apply Hnb. exists arg0, arg1. auto. }
    destruct (datatype_eqb (value_type arg0) SQLITE_NULL) eqn:N0.
    { apply datatype_eqb_eq in N0. split; [discriminate|].
      intros [Hlen|[Hnn _]]; [cbn in Hlen; lia|].
      exfalso. exact (Hnn 0%nat arg0 ltac:(lia) eq_refl N0). }
    destruct (datatype_eqb (value_type arg1) SQLITE_NULL) eqn:N1.
    { apply datatype_eqb_eq in N1. split; [discriminate|].
      intros [Hlen|[Hnn _]]; [cbn in Hlen; lia|].
      exfalso. exact (Hnn 1%nat arg1 ltac:(lia) eq_refl N1). }
    assert (value_type arg0 <> SQLITE_NULL) as N0'
      by (intros E; apply datatype_eqb_eq in E; congruence).
    assert (value_type arg1 <> SQLITE_NULL) as N1'
      by (intros E; apply datatype_eqb_eq in E; congruence).
    destruct rest as [|arg2 rest].
    + rewrite Hd. split.
      * intros [Hnb Hw]. right. split; [|split; assumption].
        intros i arg Hi Hnth.
        destruct i as [|[|[|i]]]; cbn in Hnth; try discriminate;
          try lia; injection Hnth as <-; assumption.
      * intros [Hlen|[_ H]]; [cbn in Hlen; lia|exact H].
    + destruct (datatype_eqb (value_type arg2) SQLITE_NULL) eqn:N2.
      { apply datatype_eqb_eq in N2. split; [discriminate|].
        intros [Hlen|[Hnn _]]; [cbn in Hlen; lia|].
        exfalso. exact (Hnn 2%nat arg2 ltac:(lia) eq_refl N2). }
      assert (value_type arg2 <> SQLITE_NULL) as N2'
        by (intros E; apply datatype_eqb_eq in E; congruence).
      rewrite Hd. split.
      * intros [Hnb Hw]. right. split; [|split; assumption].
        intros i arg Hi Hnth.
        destruct i as [|[|[|i]]]; cbn in Hnth; try discriminate;
          try lia; injection Hnth as <-; assumption.
      * intros [Hlen|[_ H]]; [cbn in Hlen; lia|exact H].
Qed.

(** The usage error is the result of a call exactly when it has fewer
    than two arguments, or when none of its first three arguments is
    NULL, haystack and needle are not both BLOBs, and the function was
    registered with user data other than the two messages. *)
Theorem usage_error_exactly (big_endian : bool) (fuel : nat)
  (which : user_data) (args : list sqlite3_value) :
  let no_null :=
    forall i arg, (i < 3)%nat -> nth_error args i = Some arg ->
                  value_type arg <> SQLITE_NULL in
  let both_blobs :=
    exists arg0 arg1, nth_error args 0 = Some arg0 /\
                      nth_error args 1 = Some arg1 /\
                      value_type arg0 = SQLITE_BLOB /\
                      value_type arg1 = SQLITE_BLOB in
  let usage :=
    (length args < 2)%nat \/
    (no_null /\ ~ both_blobs /\ which = other_data) in
  (instr_func big_endian fuel which args = ResultError confused <-> usage) /\
  (rinstr_func big_endian fuel which args = ResultError confused <-> usage).
Proof.
  cbv zeta. unfold instr_func, rinstr_func. split; apply entry_confused.
Qed.

(** ** Registration *)

Lemma create_all_calls (create : nat -> create_call -> status) :
  forall todo made last,
  exists k,
    snd (create_all create made todo last) = firstn k todo /\
    (k <= length todo)%nat.
Proof.
  induction todo as [|c todo IH]; intros made last; cbn [create_all].
  - exists 0%nat. split; [reflexivity|cbn; lia].
  - destruct (status_eqb (create made c) SQLITE_OK).
    + destruct (IH (S made) (create made c)) as [k [Hk Hle]].
      destruct (create_all create (S made) todo (create made c))
        as [final calls].
      exists (S k). cbn in *. split; [congruence|lia].
    + exists 1%nat. split; [reflexivity|cbn; lia].
Qed.



(** No function that [sqlite3_extension_init] registers reports the usage
    error when SQLite calls it with the number of arguments it was
    registered for. *)
Theorem registered_functions_never_confused
  (create : nat -> create_call -> status) (big_endian : bool) (fuel : nat)
  (c : create_call) (args : list sqlite3_value) :
  In c (init_calls (sqlite3_extension_init create)) ->
  Z.of_nat (length args) = call_argc c ->
  call_registered big_endian fuel c args <> ResultError confused.
Proof.
  intros Hin Hargc.
  assert (In c planned_calls) as Hplan.
  { unfold sqlite3_extension_init in Hin.
    destruct (create_all_calls create planned_calls 0%nat SQLITE_OK)
      as [k [Hk _]].
    destruct (create_all create 0 planned_calls SQLITE_OK) as [st calls].
    cbn [snd init_calls] in *. subst calls.
    rewrite <- (firstn_skipn k planned_calls).
    apply in_or_app. left. exact Hin. }
  assert ((length args < 2)%nat -> False) as Hlen.
  { cbn in Hplan. intuition (subst c; cbn in Hargc; lia). }
  assert (call_ptr c <> other_data) as Hptr.
  { cbn in Hplan. intuition (subst c; cbn; discriminate). }
  unfold call_registered, instr_func, rinstr_func.
  destruct (call_impl c); intros E; apply entry_confused in E;
    destruct E as [E|[_ [_ E]]]; auto.
Qed.

Lemma registered_functions_never_confused_witness :
  In {| call_name := [x69; x6e; x73; x74; x72]; call_argc := 2;
        call_rep := {| rep_encoding := SQLITE_UTF8;
                       rep_deterministic := true; rep_innocuous := true |};
        call_ptr := malformed_8; call_impl := impl_instr |}
     (init_calls (sqlite3_extension_init (fun _ _ => SQLITE_OK))) /\
  Z.of_nat (length [blob_arg abcabcabc; blob_arg bca]) = 2 /\
  call_registered true 10
    {| call_name := [x69; x6e; x73; x74; x72]; call_argc := 2;
       call_rep := {| rep_encoding := SQLITE_UTF8;
                      rep_deterministic := true; rep_innocuous := true |};
       call_ptr := malformed_8; call_impl := impl_instr |}
    [blob_arg abcabcabc; blob_arg bca] <> ResultError confused.
Proof.
  assert (In {| call_name := [x69; x6e; x73; x74; x72]; call_argc := 2;
                call_rep := {| rep_encoding := SQLITE_UTF8;
                               rep_deterministic := true;
                               rep_innocuous := true |};
                call_ptr := malformed_8; call_impl := impl_instr |}
             (init_calls (sqlite3_extension_init (fun _ _ => SQLITE_OK))))
    as H1 by (left; reflexivity).
  assert (Z.of_nat (length [blob_arg abcabcabc; blob_arg bca]) = 2) as H2
    by reflexivity.
  split; [exact H1|]. split; [exact H2|].
  exact (registered_functions_never_confused (fun _ _ => SQLITE_OK) true 10
           _ _ H1 H2).
Defined.

(** ** Text and BLOB searches of ASCII *)

Section Ascii.

Variable h : buffer.
Hypothesis Hh : blen h < 2 ^ 31.
Hypothesis Hascii : forall i c, peek8 h i = Some c -> c < 0x80.

Lemma ascii_step (p : Z) :
  0 <= p < blen h ->
  exists c, 0 <= c /\
    UTF8_ADVANCE h p (blen h - p) = Some (p + 1, blen h - (p + 1), c).
Proof.
  intros Hp. destruct (peek_some h p Hp) as [b Hb].
  pose proof (peek8_byte _ _ _ Hb) as Hb8.
  exists (byte_val b). split; [apply byte_val_range|].
  assert (1 <= blen h - p) as Hroom by lia.
  rewrite (UTF8_ADVANCE_one h p (blen h - p) (byte_val b) Hb8
             (Hascii _ _ Hb8) Hroom).
  rewrite vsize_wrap_small by lia.
  replace (blen h - p - 1) with (blen h - (p + 1)) by lia. reflexivity.
Qed.

Lemma ascii_decode (j : nat) :
  forall p, 0 <= p -> p + Z.of_nat j <= blen h ->
  decode_offset (UTF8_ADVANCE h) j p (blen h - p) = Some (p + Z.of_nat j).
Proof.
  induction j as [|j IH]; intros p Hp Hfit.
  - cbn. f_equal. lia.
  - destruct (ascii_step p ltac:(lia)) as [c [Hc Hadv]].
    cbn [decode_offset]. rewrite Hadv.
    rewrite (proj2 (Z.eqb_neq c (-1)) ltac:(lia)).
    rewrite IH by lia. f_equal. lia.
Qed.

Lemma ascii_offset (j : nat) (off : Z) :
  decode_offset (UTF8_ADVANCE h) j 0 (blen h) = Some off ->
  off = Z.of_nat j /\ Z.of_nat j <= blen h.
Proof.
  intros Hdec.
  pose proof (UTF8_ADVANCE_forward_cursor h) as Hcur.
  pose proof (blen_nonneg h) as Hh0.
  pose proof (decode_offset_bound h _ Hcur ltac:(lia) j 0 off ltac:(lia)
                ltac:(rewrite Z.sub_0_r; exact Hdec)) as Hb.
  pose proof (ascii_decode j 0 ltac:(lia) ltac:(lia)) as Hj.
  rewrite Z.sub_0_r in Hj. rewrite Hdec in Hj. injection Hj as ->. lia.
Qed.

Lemma ascii_never_rejects (j : nat) (off : Z) :
  decode_offset (UTF8_ADVANCE h) j 0 (blen h) = Some off ->
  off < blen h -> ~ rejects (UTF8_ADVANCE h) off (blen h - off).
Proof.
  intros Hdec Hlt R. destruct (ascii_offset j off Hdec) as [-> _].
  destruct (ascii_step (Z.of_nat j) ltac:(lia)) as [c [_ Hadv]].
  unfold rejects in R. rewrite Hadv in R. injection R as E _ _. lia.
Qed.

Lemma ascii_first (n : buffer) (start ru rb : Z) :
  first_position h n (UTF8_ADVANCE h) start ru ->
  first_from h n (Z.max 0 (start - 1)) rb ->
  0 <= rb -> ru = rb.
Proof.
  intros Hu Hb Hrb0.
  assert (forall i, 0 <= i <= blen h ->
            decode_offset (UTF8_ADVANCE h) (Z.to_nat i) 0 (blen h) = Some i)
    as Hdec.
  { intros i Hi.
    pose proof (ascii_decode (Z.to_nat i) 0 ltac:(lia) ltac:(lia)) as H.
    rewrite Z.sub_0_r in H. rewrite H. f_equal. lia. }
  destruct Hu as [[-> [j [off [Hj [Hlt R]]]]]
                 |[[-> Hnone]|[Hpos [Hlo [off [Hoff [Hocc Hmin]]]]]]].
  - exfalso. exact (ascii_never_rejects j off Hj Hlt R).
  - destruct Hb as [[-> _]|[Hlt [Hocc _]]]; [reflexivity|].
    exfalso. pose proof Hocc as [H0 [Hfit _]].
    pose proof (blen_nonneg n).
    apply (Hnone (Z.to_nat (rb - 1)) (rb - 1)); [lia| |exact Hocc].
    apply Hdec. lia.
  - destruct (ascii_offset _ _ Hoff) as [-> Hle].
    replace (Z.of_nat (Z.to_nat (ru - 1))) with (ru - 1) in * by lia.
    destruct Hb as [[-> Hnone]|[Hlt [Hoccb Hminb]]].
    + exfalso. apply (Hnone (ru - 1)); [lia|exact Hocc].
    + pose proof (Hminb (ru - 1) ltac:(lia) Hocc) as Hle1.
      destruct (Z_lt_dec rb ru) as [L|G]; [|lia].
      exfalso. pose proof Hoccb as [H0 [Hfit _]].
      pose proof (blen_nonneg n).
      apply (Hmin (Z.to_nat (rb - 1)) (rb - 1)); [lia| |exact Hoccb].
      apply Hdec. lia.
Qed.

Lemma ascii_last (n : buffer) (start ru rb : Z) :
  last_position h n (UTF8_ADVANCE h) start ru ->
  last_upto h n (Z.min (start - 1) (blen h - blen n)) rb ->
  ru = rb.
Proof.
  intros Hu Hb.
  assert (forall i, 0 <= i <= blen h ->
            decode_offset (UTF8_ADVANCE h) (Z.to_nat i) 0 (blen h) = Some i)
    as Hdec.
  { intros i Hi.
    pose proof (ascii_decode (Z.to_nat i) 0 ltac:(lia) ltac:(lia)) as H.
    rewrite Z.sub_0_r in H. rewrite H. f_equal. lia. }
  pose proof (blen_nonneg n) as Hn0.
  destruct Hu as [[-> [j [off [Hj [Hlt R]]]]]
                 |[[-> Hnone]|[Hpos [off [Hoff [Hocc Hmax]]]]]].
  - exfalso. exact (ascii_never_rejects j off Hj Hlt R).
  - destruct Hb as [[-> _]|[Hr [Hocc _]]]; [reflexivity|].
    exfalso. pose proof Hocc as [H0 [Hfit _]].
    apply (Hnone (Z.to_nat (rb - 1)) (rb - 1)); [lia| |exact Hocc].
    apply Hdec. lia.
  - destruct (ascii_offset _ _ Hoff) as [-> Hle].
    replace (Z.of_nat (Z.to_nat (ru - 1))) with (ru - 1) in * by lia.
    pose proof Hocc as [_ [Hfitu _]].
    destruct Hb as [[-> Hnone]|[Hr [Hoccb Hmaxb]]].
    + exfalso. apply (Hnone (ru - 1)); [lia|exact Hocc].
    + pose proof (Hmaxb (ru - 1) ltac:(lia) Hocc) as Hle1.
      destruct (Z_lt_dec ru rb) as [L|G]; [|lia].
      exfalso. pose proof Hoccb as [H0 [Hfit _]].
      apply (Hmax (Z.to_nat (rb - 1)) (rb - 1)); [lia| |exact Hoccb].
      apply Hdec. lia.
Qed.

End Ascii.

(** On a haystack of bytes below 0x80 the UTF-8 text engines answer what
    the BLOB engines answer, forward and backward, for every non-empty
    needle and every start. *)
Theorem utf8_engines_agree_with_blob_on_ascii (fuel : nat) (h n : buffer)
  (start : Z) :
  n <> [] -> blen h <= INT_MAX -> blen n <= INT_MAX ->
  - 2 ^ 63 <= start < 2 ^ 63 -> (length h < fuel)%nat ->
  (forall i c, peek8 h i = Some c -> c < 0x80) ->
  instr_utf8 fuel h (blen h) n (blen n) start
  = instr_blob fuel h (blen h) n (blen n) start /\
  rinstr_utf8 fuel h (blen h) n (blen n) start
  = rinstr_blob fuel h (blen h) n (blen n) start.
Proof.
  intros Hne Hh Hn Hstart Hfuel Hascii.
  assert (blen h < Z.of_nat fuel) as Hfuel' by (unfold blen; lia).
  assert (blen h < 2 ^ 31) as Hh31 by (unfold INT_MAX in Hh; lia).
  split.
  - destruct (instr_utf8_answer fuel h n start Hh Hfuel) as [ru [-> Hu]].
    destruct (instr_blob_spec fuel h n start Hh Hn Hstart Hfuel')
      as [rb [-> [Hrb Hb]]].
    f_equal. apply (ascii_first h Hh31 Hascii n start); auto. lia.
  - destruct (rinstr_utf8_engine fuel h n start Hh Hfuel)
      as [[ru [-> Hu]]|[_ Hnot]].
    + destruct (rinstr_blob_spec fuel h n start Hh Hn Hstart Hfuel')
        as [rb [-> [Hrb Hb]]].
      f_equal. apply (ascii_last h Hh31 Hascii n start); auto.
    + exfalso. apply Hnot. apply utf8_short_undoes; [exact Hh31|].
      intros i c Hp. pose proof (Hascii i c Hp). lia.
Qed.

Lemma utf8_engines_agree_with_blob_on_ascii_witness :
  bca <> [] /\ blen abcabcabc <= INT_MAX /\ blen bca <= INT_MAX /\
  - 2 ^ 63 <= 3 < 2 ^ 63 /\ (length abcabcabc < 10)%nat /\
  (forall i c, peek8 abcabcabc i = Some c -> c < 0x80) /\
  instr_utf8 10 abcabcabc (blen abcabcabc) bca (blen bca) 3
  = instr_blob 10 abcabcabc (blen abcabcabc) bca (blen bca) 3 /\
  rinstr_utf8 10 abcabcabc (blen abcabcabc) bca (blen bca) 3
  = rinstr_blob 10 abcabcabc (blen abcabcabc) bca (blen bca) 3.
Proof.
  assert (bca <> []) as H1 by discriminate.
  assert (blen abcabcabc <= INT_MAX) as H2 by (vm_compute; discriminate).
  assert (blen bca <= INT_MAX) as H3 by (vm_compute; discriminate).
  assert (- 2 ^ 63 <= 3 < 2 ^ 63) as H4 by lia.
  assert (length abcabcabc < 10)%nat as H5 by (vm_compute; lia).
  assert (forall i c, peek8 abcabcabc i = Some c -> c < 0x80) as H6
    by (apply peek8_forallb; vm_compute; reflexivity).
  split; [exact H1|]. split; [exact H2|]. split; [exact H3|].
  split; [exact H4|]. split; [exact H5|]. split; [exact H6|].
  exact (utf8_engines_agree_with_blob_on_ascii 10 abcabcabc bca 3
           H1 H2 H3 H4 H5 H6).
Defined.

(** ** The series table: wide-range arithmetic *)

Lemma uint64_wrap_small (z : Z) : 0 <= z < 2 ^ 64 -> uint64_wrap z = z.
Proof. intros H. unfold uint64_wrap. apply Z.mod_small. exact H. Qed.

Lemma uint64_wrap_neg (z : Z) :
  - 2 ^ 64 <= z < 0 -> uint64_wrap z = z + 2 ^ 64.
Proof.
  intros H. unfold uint64_wrap.
  replace z with (z + 2 ^ 64 + (-1) * 2 ^ 64) at 1 by lia.
  rewrite Z.mod_add by lia. apply Z.mod_small. lia.
Qed.

Lemma int64_wrap_high (z : Z) :
  2 ^ 63 <= z < 2 ^ 64 + 2 ^ 63 -> int64_wrap z = z - 2 ^ 64.
Proof.
  intros H. unfold int64_wrap.
  replace (z + 2 ^ 63) with (z - 2 ^ 64 + 2 ^ 63 + 1 * 2 ^ 64) by lia.
  rewrite Z.mod_add by lia. rewrite Z.mod_small by lia. lia.
Qed.

Lemma udiff_value (high low : Z) :
  MIN64 <= low -> low <= high -> high <= MAX64 ->
  udiff high low = high - low.
Proof.
  unfold MIN64, MAX64. intros Hlow Hle Hhigh. unfold udiff.
  destruct ((0 <=? low) || (high <? 0)) eqn:E.
  - apply orb_true_iff in E.
    assert (0 <= high - low < 2 ^ 63) as R
      by (destruct E as [E|E]; [apply Z.leb_le in E|apply Z.ltb_lt in E]; lia).
    rewrite int64_wrap_small by lia. apply uint64_wrap_small. lia.
  - apply orb_false_iff in E. destruct E as [E1 E2].
    apply Z.leb_gt in E1. apply Z.ltb_ge in E2.
    rewrite (uint64_wrap_small high) by lia.
    destruct (Z.eq_dec low (- 2 ^ 63)) as [->|Hne].
    + rewrite (int64_wrap_high (- - 2 ^ 63)) by lia.
      rewrite (uint64_wrap_neg (- - 2 ^ 63 - 2 ^ 64)) by lia.
      rewrite uint64_wrap_small by lia. lia.
    + rewrite int64_wrap_small by lia.
      rewrite (uint64_wrap_small (- low)) by lia.
      rewrite uint64_wrap_small by lia. lia.
Qed.

(** [udiff] is the exact distance between two 64-bit signed integers in
    order, which may take all 64 bits; nothing wraps on the way but the
    negation of [MIN64]. *)
Theorem udiff_is_the_distance (high low : Z) :
  MIN64 <= low -> low <= high -> high <= MAX64 ->
  udiff high low = high - low /\ 0 <= udiff high low < 2 ^ 64.
Proof.
  intros Hlow Hle Hhigh.
  rewrite (udiff_value high low Hlow Hle Hhigh).
  unfold MIN64, MAX64 in *. split; [reflexivity|lia].
Qed.

Lemma udiff_is_the_distance_witness :
  MIN64 <= MIN64 /\ MIN64 <= MAX64 /\ MAX64 <= MAX64 /\
  udiff MAX64 MIN64 = MAX64 - MIN64 /\ 0 <= udiff MAX64 MIN64 < 2 ^ 64.
Proof.
  assert (MIN64 <= MIN64) as H1 by lia.
  assert (MIN64 <= MAX64) as H2 by (unfold MIN64, MAX64; lia).
  assert (MAX64 <= MAX64) as H3 by lia.
  split; [exact H1|]. split; [exact H2|]. split; [exact H3|].
  exact (udiff_is_the_distance MAX64 MIN64 H1 H2 H3).
Defined.

Lemma MAX64_eq : MAX64 = 2 ^ 63 - 1.
Proof. reflexivity. Qed.

Lemma MIN64_eq : MIN64 = - 2 ^ 63.
Proof. reflexivity. Qed.

Lemma uadd_last (fuel : nat) (base diff : Z) :
  MIN64 <= base -> 0 <= diff <= MAX64 -> base + diff <= MAX64 ->
  uadd (S fuel) base diff = Ret (base + diff).
Proof.
  pose proof MAX64_eq as HM. pose proof MIN64_eq as Hm.
  intros Hb Hd Hs. cbn [uadd].
  rewrite (proj2 (Z.ltb_ge MAX64 diff)) by lia.
  f_equal.
  destruct (Z_lt_dec base 0) as [L|G].
  - rewrite (uint64_wrap_neg base) by lia.
    destruct (Z_lt_dec (base + diff) 0) as [L'|G'].
    + rewrite uint64_wrap_small by lia.
      rewrite int64_wrap_high by lia. lia.
    + replace (base + 2 ^ 64 + diff) with (base + diff + 1 * 2 ^ 64) by lia.
      unfold uint64_wrap at 1. rewrite Z.mod_add by lia.
      rewrite Z.mod_small by lia. apply int64_wrap_small. lia.
  - rewrite (uint64_wrap_small base) by lia.
    rewrite uint64_wrap_small by lia. apply int64_wrap_small. lia.
Qed.

Lemma uadd_S (fuel : nat) (base diff : Z) :
  uadd (S fuel) base diff
  = if MAX64 <? diff then
      uadd fuel (int64_wrap (base + MAX64)) (uint64_wrap (diff - MAX64))
    else Ret (int64_wrap (uint64_wrap (uint64_wrap base + diff))).
Proof. reflexivity. Qed.

Lemma uadd_value (fuel : nat) (base diff : Z) :
  MIN64 <= base -> 0 <= diff < 2 ^ 64 -> base + diff <= MAX64 ->
  (3 <= fuel)%nat ->
  uadd fuel base diff = Ret (base + diff).
Proof.
  pose proof MAX64_eq as HM. pose proof MIN64_eq as Hm.
  intros Hbase Hdiff Hsum Hfuel.
  destruct fuel as [|[|[|fuel]]]; try lia.
  destruct (Z_le_dec diff MAX64) as [L|G]; [apply uadd_last; lia|].
  rewrite uadd_S.
  rewrite (proj2 (Z.ltb_lt MAX64 diff)) by lia.
  rewrite (int64_wrap_small (base + MAX64)) by lia.
  rewrite (uint64_wrap_small (diff - MAX64)) by lia.
  destruct (Z_le_dec (diff - MAX64) MAX64) as [L|G'].
  - rewrite uadd_last by lia. f_equal. lia.
  - rewrite uadd_S.
    rewrite (proj2 (Z.ltb_lt MAX64 (diff - MAX64))) by lia.
    rewrite (int64_wrap_small (base + MAX64 + MAX64)) by lia.
    rewrite (uint64_wrap_small (diff - MAX64 - MAX64)) by lia.
    rewrite uadd_last by lia. f_equal. lia.
Qed.

Lemma usub_last (fuel : nat) (base diff : Z) :
  base <= MAX64 -> 0 <= diff <= MAX64 -> MIN64 <= base - diff ->
  usub (S fuel) base diff = Ret (base - diff).
Proof.
  pose proof MAX64_eq as HM. pose proof MIN64_eq as Hm.
  intros Hb Hd Hs. cbn [usub].
  rewrite (proj2 (Z.ltb_ge MAX64 diff)) by lia.
  f_equal.
  destruct (Z_lt_dec base 0) as [L|G].
  - rewrite (uint64_wrap_neg base) by lia.
    rewrite uint64_wrap_small by lia.
    rewrite int64_wrap_high by lia. lia.
  - rewrite (uint64_wrap_small base) by lia.
    destruct (Z_lt_dec (base - diff) 0) as [L'|G'].
    + rewrite uint64_wrap_neg by lia.
      rewrite int64_wrap_high by lia. lia.
    + rewrite uint64_wrap_small by lia. apply int64_wrap_small. lia.
Qed.

Lemma usub_S (fuel : nat) (base diff : Z) :
  usub (S fuel) base diff
  = if MAX64 <? diff then
      usub fuel (int64_wrap (base - MAX64)) (uint64_wrap (diff - MAX64))
    else Ret (int64_wrap (uint64_wrap (uint64_wrap base - diff))).
Proof. reflexivity. Qed.

Lemma usub_value (fuel : nat) (base diff : Z) :
  base <= MAX64 -> 0 <= diff < 2 ^ 64 -> MIN64 <= base - diff ->
  (3 <= fuel)%nat ->
  usub fuel base diff = Ret (base - diff).
Proof.
  pose proof MAX64_eq as HM. pose proof MIN64_eq as Hm.
  intros Hbase Hdiff Hsum Hfuel.
  destruct fuel as [|[|[|fuel]]]; try lia.
  destruct (Z_le_dec diff MAX64) as [L|G]; [apply usub_last; lia|].
  rewrite usub_S.
  rewrite (proj2 (Z.ltb_lt MAX64 diff)) by lia.
  rewrite (int64_wrap_small (base - MAX64)) by lia.
  rewrite (uint64_wrap_small (diff - MAX64)) by lia.
  destruct (Z_le_dec (diff - MAX64) MAX64) as [L|G'].
  - rewrite usub_last by lia. f_equal. lia.
  - rewrite usub_S.
    rewrite (proj2 (Z.ltb_lt MAX64 (diff - MAX64))) by lia.
    rewrite (int64_wrap_small (base - MAX64 - MAX64)) by lia.
    rewrite (uint64_wrap_small (diff - MAX64 - MAX64)) by lia.
    rewrite usub_last by lia. f_equal. lia.
Qed.

(** [uadd] and [usub] are exact whenever the result is a 64-bit signed
    integer, for every unsigned 64-bit distance, in at most three turns
    of their loops; so they undo [udiff]: adding the distance to the lower
    of two integers gives the higher, and subtracting it from the higher
    gives the lower. *)
Theorem uadd_usub_exact (fuel : nat) (base diff : Z) :
  MIN64 <= base <= MAX64 -> 0 <= diff < 2 ^ 64 -> (3 <= fuel)%nat ->
  (base + diff <= MAX64 ->
   uadd fuel base diff = Ret (base + diff) /\
   usub fuel (base + diff) (udiff (base + diff) base) = Ret base) /\
  (MIN64 <= base - diff ->
   usub fuel base diff = Ret (base - diff) /\
   uadd fuel (base - diff) (udiff base (base - diff)) = Ret base).
Proof.
  pose proof MAX64_eq as HM. pose proof MIN64_eq as Hm.
  intros Hbase Hdiff Hfuel. split; intros Hfit.
  - split; [apply uadd_value; lia|].
    rewrite udiff_value by lia.
    rewrite usub_value; try lia. f_equal. lia.
  - split; [apply usub_value; lia|].
    rewrite udiff_value by lia.
    rewrite uadd_value; try lia. f_equal. lia.
Qed.

Lemma uadd_usub_exact_witness :
  MIN64 <= MIN64 <= MAX64 /\ 0 <= 2 ^ 64 - 1 < 2 ^ 64 /\ (3 <= 3)%nat /\
  (MIN64 + (2 ^ 64 - 1) <= MAX64 ->
   uadd 3 MIN64 (2 ^ 64 - 1) = Ret (MIN64 + (2 ^ 64 - 1)) /\
   usub 3 (MIN64 + (2 ^ 64 - 1))
     (udiff (MIN64 + (2 ^ 64 - 1)) MIN64) = Ret MIN64) /\
  (MIN64 <= MIN64 - (2 ^ 64 - 1) ->
   usub 3 MIN64 (2 ^ 64 - 1) = Ret (MIN64 - (2 ^ 64 - 1)) /\
   uadd 3 (MIN64 - (2 ^ 64 - 1)) (udiff MIN64 (MIN64 - (2 ^ 64 - 1)))
   = Ret MIN64).
Proof.
  assert (MIN64 <= MIN64 <= MAX64) as H1 by (unfold MIN64, MAX64; lia).
  assert (0 <= 2 ^ 64 - 1 < 2 ^ 64) as H2 by lia.
  assert (3 <= 3)%nat as H3 by lia.
  split; [exact H1|]. split; [exact H2|]. split; [exact H3|].
  exact (uadd_usub_exact 3 MIN64 (2 ^ 64 - 1) H1 H2 H3).
Defined.

(** ** The series table: reading the rows *)

Lemma scan_rows_S (fuel : nat) (cursor : zeries_cursor) :
  scan_rows (S fuel) cursor
  = if zeries_eof cursor then Some []
    else
      match snd (zeries_column cursor col_value) with
      | Some v => option_map (cons v) (scan_rows fuel (zeries_next cursor))
      | None => None
      end.
Proof. reflexivity. Qed.

Lemma scan_rows_from (k : nat) :
  forall (fuel : nat) (value cstep cbase s : Z),
  s <> 0 ->
  MIN64 <= value <= MAX64 ->
  MIN64 <= value + Z.of_nat k * s <= MAX64 ->
  (k + 2 <= fuel)%nat ->
  scan_rows fuel
    {| cols := (value, cstep, cbase); step := s;
       stop := value + Z.of_nat k * s; eof := false |}
  = Some (map (fun i => value + Z.of_nat i * s) (seq 0 (S k))).
Proof.
  pose proof MAX64_eq as HM. pose proof MIN64_eq as Hm.
  induction k as [|k IH]; intros fuel value cstep cbase s Hs Hv Hstop Hfuel.
  - destruct fuel as [|[|fuel]]; try lia.
    rewrite scan_rows_S. cbn [zeries_eof eof].
    unfold zeries_column, zeries_next, col. cbn.
    replace (value + 0) with value by lia. rewrite Z.eqb_refl. cbn.
    reflexivity.
  - destruct fuel as [|fuel]; try lia.
    rewrite scan_rows_S. cbn [zeries_eof eof].
    unfold zeries_column, zeries_next, col. cbn -[Z.of_nat Z.mul Z.add seq map].
    assert ((value =? value + Z.of_nat (S k) * s) = false) as ->
      by (apply Z.eqb_neq; nia).
    unfold set_value. cbn -[Z.of_nat Z.mul Z.add seq map].
    assert (MIN64 <= value + s <= MAX64) as Hnext by nia.
    rewrite int64_wrap_small by lia.
    replace (value + Z.of_nat (S k) * s)
      with (value + s + Z.of_nat k * s) by lia.
    rewrite (IH fuel (value + s) cstep cbase s Hs Hnext
               ltac:(lia) ltac:(lia)).
    cbn [option_map]. f_equal.
    change (seq 0 (S (S k))) with (0%nat :: seq 1 (S k)).
    rewrite <- seq_shift. rewrite map_cons, map_map. f_equal.
    + f_equal. lia.
    + apply map_ext. intros i. lia.
Qed.

(** A scan of a cursor set on a value, a non-zero step and a stop that
    is a whole number of steps away reads the progression from the value
    to the stop, both included, and then meets the end; the value is
    never stepped past the stop, so nothing wraps however close to the
    ends of the 64-bit range they lie. *)
Theorem scan_rows_progression (fuel : nat) (cursor : zeries_cursor)
  (k : nat) :
  eof cursor = false -> step cursor <> 0 ->
  stop cursor = col cursor col_value + Z.of_nat k * step cursor ->
  MIN64 <= col cursor col_value <= MAX64 ->
  MIN64 <= stop cursor <= MAX64 ->
  (k + 2 <= fuel)%nat ->
  scan_rows fuel cursor
  = Some (map (fun i => col cursor col_value + Z.of_nat i * step cursor)
              (seq 0 (S k))).
Proof.
  destruct cursor as [[[value cstep] cbase] s st e].
  unfold col. cbn [cols step stop eof Z.eqb col_value].
  intros -> Hs -> Hv Hstop Hfuel.
  apply scan_rows_from; assumption.
Qed.

Lemma scan_rows_progression_witness :
  eof {| cols := (-8, -3, 10); step := 3; stop := 7; eof := false |}
  = false /\
  step {| cols := (-8, -3, 10); step := 3; stop := 7; eof := false |}
  <> 0 /\
  scan_rows 7 {| cols := (-8, -3, 10); step := 3; stop := 7; eof := false |}
  = Some (map (fun i => -8 + Z.of_nat i * 3) (seq 0 6)).
Proof.
  split; [reflexivity|]. split; [discriminate|].
  exact (scan_rows_progression 7
           {| cols := (-8, -3, 10); step := 3; stop := 7; eof := false |}
           5 eq_refl ltac:(discriminate) eq_refl
           ltac:(vm_compute; split; discriminate)
           ltac:(vm_compute; split; discriminate) ltac:(lia)).
Defined.

(** ** The series table: bounds on the progression *)




Lemma on_progression_shift (base u v k : Z) :
  1 <= u -> on_progression base u v -> on_progression base u (v + k * u).
Proof.
  unfold on_progression. intros Hu H.
  replace (v + k * u - base) with (v - base + k * u) by lia.
  rewrite Z.mod_add by lia. exact H.
Qed.




(** ** The series table: the argument loop *)













Lemma all_ask_ext (p q : Z -> Z) (index_str : buffer)
  (argv : list filter_arg) (v : Z) :
  (forall k, 0 <= k < 4 -> p k = q k) ->
  integer_args index_str argv ->
  all_ask p index_str argv v -> all_ask q index_str argv v.
Proof.
  intros Hpq. revert argv.
  induction index_str as [|c s IH]; intros [|val argv] Hi H;
    cbn [all_ask] in *; try exact I.
  cbn [integer_args] in Hi. destruct Hi as (Hc & _ & _ & Hi).
  destruct H as [Ha H]. split; [|apply IH; assumption].
  unfold asks in *. unfold num_exact_constraints in *.
  destruct (byte_val c - 97 <? 4) eqn:E; [|exact Ha].
  apply Z.ltb_lt in E. rewrite <- Hpq by lia. exact Ha.
Qed.


(** ** The series table: from the bounds to the rows *)

Lemma scan_rows_at_empty (fuel : nat) (cursor : zeries_cursor) :
  (1 <= fuel)%nat -> scan_rows fuel (set_eof cursor true) = Some [].
Proof. destruct fuel as [|fuel]; [lia|]. reflexivity. Qed.



(** ** The series table: the bounds are moved onto the progression *)






(** ** The series table: what the filter refuses *)

Ltac split_tests :=
  repeat match goal with
         | H : context [if ?b then _ else _] |- _ => destruct b eqn:?
         | H : context [match ?x with _ => _ end] |- _ => destruct x eqn:?
         end.

Lemma filter_turn_fail (l : filter_locals) (c : Z) (val : filter_arg)
  (status : vtab_status) (msg : option zeries_message) :
  filter_turn l c val = Fail status msg ->
  (status = VTAB_MISMATCH /\ 0 <= c < 4 /\ msg = Some (wrong_type c)) \/
  (status = VTAB_INTERNAL /\ msg = None).
Proof.
  unfold filter_turn, decrement, increment, tighten_upper, tighten_lower.
  cbv zeta. intros H.
  destruct ((0 <=? c) && (c <? num_exact_constraints)) eqn:E.
  - apply andb_true_iff in E. destruct E as [E1 E2].
    apply Z.leb_le in E1. apply Z.ltb_lt in E2.
    unfold num_exact_constraints in E2.
    split_tests; try discriminate; inversion H; subst; left;
      (split; [reflexivity|split; [lia|reflexivity]]).
  - split_tests; try discriminate; inversion H; subst; right;
      split; reflexivity.
Qed.

Lemma filter_args_fail (index_str : buffer) :
  forall (argv : list filter_arg) (l : filter_locals)
         (status : vtab_status) (msg : option zeries_message),
  filter_args l index_str argv = Fail status msg ->
  (status = VTAB_MISMATCH /\
   exists k, 0 <= k < 4 /\ msg = Some (wrong_type k)) \/
  (status = VTAB_INTERNAL /\ msg = None).
Proof.
  induction index_str as [|c s IH]; intros [|val argv] l status msg H;
    cbn [filter_args] in H; try discriminate.
  destruct (filter_turn l (byte_val c - 97) val) as [l'| |st m] eqn:T.
  - exact (IH argv l' status msg H).
  - discriminate.
  - inversion H; subst.
    destruct (filter_turn_fail _ _ _ _ _ T) as [(-> & Hk & ->)|(-> & ->)].
    + left. split; [reflexivity|]. eexists. split; [exact Hk|reflexivity].
    + right. split; reflexivity.
Qed.

Ltac split_calls :=
  repeat match goal with
         | H : context [then_with ?o _] |- _ =>
             destruct o eqn:?; cbn [then_with] in H
         | H : (if ?b then _ else _) = _ |- _ => destruct b eqn:?
         end.

Lemma filter_rows_ok (fuel : nat) (cursor : zeries_cursor)
  (index_num : Z) (l : filter_locals) (u lo hi : Z)
  (status : vtab_status) (cursor' : zeries_cursor)
  (msg : option zeries_message) :
  filter_rows fuel cursor index_num l u lo hi = Filtered status cursor' msg ->
  status = VTAB_OK.
Proof.
  unfold filter_rows, at_empty. cbv beta zeta. intros H.
  split_calls; try discriminate; inversion H; reflexivity.
Qed.

Lemma filter_align_ok (fuel : nat) (cursor : zeries_cursor)
  (index_num : Z) (l : filter_locals) (u : Z)
  (status : vtab_status) (cursor' : zeries_cursor)
  (msg : option zeries_message) :
  filter_align fuel cursor index_num l u = Filtered status cursor' msg ->
  status = VTAB_OK.
Proof.
  unfold filter_align, at_empty. cbv beta zeta. intros H.
  split_calls; try discriminate;
    try (inversion H; reflexivity);
    apply filter_rows_ok in H; exact H.
Qed.

(** Whenever the filter returns something other than [SQLITE_OK]: either
    the number of arguments is not the length of the index string, the
    status is [SQLITE_INTERNAL] and the cursor is as it was; or the cursor
    is set at its end, so that a scan reads no rows, and the return is
    one of: [SQLITE_MISMATCH] with the message naming a parameter of the
    wrong type, [SQLITE_INTERNAL] without a message, [SQLITE_ERROR] with
    the message about the step. *)
Theorem zeries_filter_refusals (fuel : nat) (cursor : zeries_cursor)
  (index_num : Z) (index_str : option buffer) (argv : list filter_arg)
  (status : vtab_status) (cursor' : zeries_cursor)
  (msg : option zeries_message) :
  zeries_filter fuel cursor index_num index_str argv
  = Filtered status cursor' msg ->
  status <> VTAB_OK ->
  (length argv <> length (match index_str with Some s => s | None => [] end)
   /\ status = VTAB_INTERNAL /\ msg = None /\ cursor' = cursor) \/
  (length argv = length (match index_str with Some s => s | None => [] end)
   /\ cursor' = set_eof cursor true
   /\ (forall fuel', (1 <= fuel')%nat -> scan_rows fuel' cursor' = Some [])
   /\ ((status = VTAB_MISMATCH /\
        exists k, 0 <= k < 4 /\ msg = Some (wrong_type k)) \/
       (status = VTAB_INTERNAL /\ msg = None) \/
       (status = VTAB_ERROR /\ msg = Some step_out_of_range))).
Proof.
  unfold zeries_filter. cbv zeta.
  set (ix_str := match index_str with Some s => s | None => [] end).
  intros H Hst.
  destruct (length argv =? length ix_str)%nat eqn:E; cbn [negb] in H.
  - apply Nat.eqb_eq in E. right. split; [exact E|].
    destruct (filter_args _ ix_str argv) as [l| |st m] eqn:A.
    + destruct (0 <? exact_at l constr_step) eqn:E1.
      { apply filter_align_ok in H. contradiction. }
      destruct ((exact_at l constr_step <? 0) &&
                (MIN64 <? exact_at l constr_step)) eqn:E2.
      { apply filter_align_ok in H. contradiction. }
      inversion H; subst.
      split; [reflexivity|].
      split; [intros; apply scan_rows_at_empty; assumption|].
      right. right. split; reflexivity.
    + unfold at_empty in H. inversion H; subst. contradiction.
    + inversion H; subst.
      split; [reflexivity|].
      split; [intros; apply scan_rows_at_empty; assumption|].
      destruct (filter_args_fail _ _ _ _ _ A) as [F|F]; [left|right; left];
        exact F.
  - apply Nat.eqb_neq in E. left. inversion H; subst.
    repeat split; assumption || reflexivity.
Qed.

Lemma zeries_filter_refusals_witness :
  (length [ {| arg_ntype := NUMERIC_INTEGER; arg_int64 := 0;
               arg_double_ival := 0; arg_double_order := None |} ]
   <> length [x63]
   /\ VTAB_ERROR = VTAB_INTERNAL /\ Some step_out_of_range = None /\
   {| cols := (1, 1, 0); step := 1; stop := 5; eof := true |}
   = {| cols := (1, 1, 0); step := 1; stop := 5; eof := false |}) \/
  (length [ {| arg_ntype := NUMERIC_INTEGER; arg_int64 := 0;
               arg_double_ival := 0; arg_double_order := None |} ]
   = length [x63]
   /\ {| cols := (1, 1, 0); step := 1; stop := 5; eof := true |}
      = set_eof {| cols := (1, 1, 0); step := 1; stop := 5; eof := false |}
          true
   /\ (forall fuel', (1 <= fuel')%nat ->
         scan_rows fuel'
           {| cols := (1, 1, 0); step := 1; stop := 5; eof := true |}
         = Some [])
   /\ ((VTAB_ERROR = VTAB_MISMATCH /\
        exists k, 0 <= k < 4 /\ Some step_out_of_range = Some (wrong_type k))
       \/ (VTAB_ERROR = VTAB_INTERNAL /\ Some step_out_of_range = None)
       \/ (VTAB_ERROR = VTAB_ERROR /\
           Some step_out_of_range = Some step_out_of_range))).
Proof.
  apply (zeries_filter_refusals 3
           {| cols := (1, 1, 0); step := 1; stop := 5; eof := false |} 0
           (Some [x63])
           [ {| arg_ntype := NUMERIC_INTEGER; arg_int64 := 0;
                arg_double_ival := 0; arg_double_order := None |} ]
           VTAB_ERROR
           {| cols := (1, 1, 0); step := 1; stop := 5; eof := true |}
           (Some step_out_of_range)).
  - reflexivity.
  - discriminate.
Defined.
